(** * Turbulence solvers of SU2 (solution_direct_turbulent.cpp)

    A shallow embedding of the edge-based residual/Jacobian assembly, the
    boundary conditions, the halo exchange, the implicit Euler step and the
    restart constructors of [CTurbSolution], [CTurbSASolution] and
    [CTurbSSTSolution].

    Conventions of the embedding:
    - a C++ [double] is a binary64 primitive float, with the IEEE operations
      the code uses ([+], [-], [*], [/], unary minus, [sqrt]);
    - [unsigned short]/[unsigned long] indices are [nat]; the signed [short]
      send/receive tag of a marker is a [Z];
    - every array is a list and every subscript is checked: an index outside
      the array is a [Fault], where the C++ program has undefined behaviour;
    - a [for (i = 0; i < n; i++)] loop is [for_ n body]; the loop variable
      equals [n] after the loop. *)

From Stdlib Require Import Floats ZArith String Ascii.
From stdpp Require Import base option list gmap strings.

Set Warnings "-inexact-float".

Local Open Scope Z_scope.
Local Open Scope nat_scope.
Local Open Scope string_scope.

(** ** Checked computations *)

Inductive fault : Type :=
| OutOfBounds (array : string) (index size : nat)
| NoMatchingMessage (source : Z) (tag : nat)
| MessageTruncated (source : Z) (tag : nat) (count size : nat).

Inductive result (A : Type) : Type :=
| Ok (a : A)
| Fault (f : fault).
Arguments Ok {A} a.
Arguments Fault {A} f.

#[global] Instance result_ret : MRet result := fun A a => Ok a.
#[global] Instance result_bind : MBind result := fun A B f m =>
  match m with
  | Ok a => f a
  | Fault e => Fault e
  end.

(** [a[i]] as an rvalue, and [a[i] = x]. *)
Definition at_ {A} (array : string) (a : list A) (i : nat) : result A :=
  match a !! i with
  | Some x => Ok x
  | None => Fault (OutOfBounds array i (length a))
  end.

Definition store {A} (array : string) (a : list A) (i : nat) (x : A) : result (list A) :=
  if decide (i < length a) then Ok (<[i:=x]> a)
  else Fault (OutOfBounds array i (length a)).

(** [for (i = 0; i < n; i++) body] *)
Fixpoint foldM {A S} (body : A -> S -> result S) (l : list A) (s : S) : result S :=
  match l with
  | [] => Ok s
  | a :: l' => s' ← body a s; foldM body l' s'
  end.

Definition for_ {S} (n : nat) (body : nat -> S -> result S) (s : S) : result S :=
  foldM body (seq 0 n) s.

(** The same loop when the code goes on using the loop variable afterwards:
    it is returned next to the state. *)
Definition for_idx {S} (n : nat) (body : nat -> S -> result S) (s : S) : result (nat * S) :=
  s' ← for_ n body s; Ok (n, s').

(** ** Vectors and blocks of doubles *)

Definition Block := list (list float).

#[global] Instance float_inhabited : Inhabited float := populate 0%float.

Definition vec_add (a b : list float) : list float := zip_with PrimFloat.add a b.
Definition vec_sub (a b : list float) : list float := zip_with PrimFloat.sub a b.
Definition vec_zero (n : nat) : list float := replicate n 0%float.

Definition block_add (b a : Block) : Block := zip_with vec_add a b.
Definition block_sub (b a : Block) : Block := zip_with vec_sub a b.
Definition block_zero (n : nat) : Block := replicate n (vec_zero n).
Definition block_identity (n : nat) : Block :=
  map (fun i => map (fun j => if decide (i = j) then 1%float else 0%float) (seq 0 n)) (seq 0 n).
Definition block_add_diag (v : float) (a : Block) : Block :=
  imap (fun i row => imap (fun j x => if decide (i = j) then (x + v)%float else x) row) a.

(** ** Solution nodes *)

Module CVariable.

(** Modelled from the spec: the class CVariable (variable_structure.hpp) is
    not part of the sources at hand. A solution node is a per-point state
    vector of fixed width that owns the current and the old solution, the
    residual accumulator, the gradient tensor (width x spatial dimension),
    the slope limiter and, for SST, the blending scalar; the flow solver's
    nodes also carry the derived flow quantities the turbulence solver
    reads. *)
Record t : Type := mk {
  Solution : list float;
  Solution_Old : list float;
  Residual : list float;
  Gradient : list (list float);
  Limiter : list float;
  F1blending : float;
  LaminarViscosity : float;
  EddyViscosity : float;
  Delta_Time : float;
  Velocity : list float;
  Velocity2 : float
}.

Definition with_Solution (x : list float) (v : t) : t :=
  mk x (Solution_Old v) (Residual v) (Gradient v) (Limiter v) (F1blending v)
     (LaminarViscosity v) (EddyViscosity v) (Delta_Time v) (Velocity v) (Velocity2 v).
Definition with_Solution_Old (x : list float) (v : t) : t :=
  mk (Solution v) x (Residual v) (Gradient v) (Limiter v) (F1blending v)
     (LaminarViscosity v) (EddyViscosity v) (Delta_Time v) (Velocity v) (Velocity2 v).
Definition with_Residual (x : list float) (v : t) : t :=
  mk (Solution v) (Solution_Old v) x (Gradient v) (Limiter v) (F1blending v)
     (LaminarViscosity v) (EddyViscosity v) (Delta_Time v) (Velocity v) (Velocity2 v).
Definition with_Gradient (x : list (list float)) (v : t) : t :=
  mk (Solution v) (Solution_Old v) (Residual v) x (Limiter v) (F1blending v)
     (LaminarViscosity v) (EddyViscosity v) (Delta_Time v) (Velocity v) (Velocity2 v).
Definition with_Limiter (x : list float) (v : t) : t :=
  mk (Solution v) (Solution_Old v) (Residual v) (Gradient v) x (F1blending v)
     (LaminarViscosity v) (EddyViscosity v) (Delta_Time v) (Velocity v) (Velocity2 v).

(** Modelled from the spec: the accessors of the missing class, named as
    the solver calls them. *)
Definition GetSolution (iVar : nat) (v : t) : result float :=
  at_ "Solution" (Solution v) iVar.
Definition SetSolution (iVar : nat) (x : float) (v : t) : result t :=
  a ← store "Solution" (Solution v) iVar x; Ok (with_Solution a v).
Definition SetSolution_Old (x : list float) (v : t) : t := with_Solution_Old x v.
Definition AddResidual (r : list float) (v : t) : t :=
  with_Residual (vec_add (Residual v) r) v.
Definition SubtractResidual (r : list float) (v : t) : t :=
  with_Residual (vec_sub (Residual v) r) v.
Definition SetResidualZero (v : t) : t :=
  with_Residual (vec_zero (length (Residual v))) v.
Definition SetGradient (iVar iDim : nat) (x : float) (v : t) : result t :=
  row ← at_ "Gradient" (Gradient v) iVar;
  row' ← store "Gradient[iVar]" row iDim x;
  Ok (with_Gradient (<[iVar:=row']> (Gradient v)) v).

End CVariable.

(** ** The block-sparse Jacobian *)

(** Modelled from the spec: the class CSparseMatrix is not part of the sources
    at hand. The matrix holds one block per ordered (row point, column point)
    pair of its sparsity pattern (the pairs joined by an edge, and the
    diagonal) and supports adding to, subtracting from and zeroing of its
    entries; deleting a row zeroes its blocks and, as the callers' comment
    says, includes 1 in the diagonal. An operation on a pair outside the
    pattern finds no block and changes nothing. *)
Module CSparseMatrix.

Definition AddBlock (i j : nat) (b : Block) (m : gmap (nat * nat) Block)
  : gmap (nat * nat) Block := alter (block_add b) (i, j) m.

Definition SubtractBlock (i j : nat) (b : Block) (m : gmap (nat * nat) Block)
  : gmap (nat * nat) Block := alter (block_sub b) (i, j) m.

Definition AddVal2Diag (i : nat) (v : float) (m : gmap (nat * nat) Block)
  : gmap (nat * nat) Block := alter (block_add_diag v) (i, i) m.

Definition deleted_block (i : nat) (rc : nat * nat) (b : Block) : Block :=
  if decide (rc.1 = i)
  then (if decide (rc.2 = i) then block_identity (length b) else block_zero (length b))
  else b.

Definition DeleteValsRowi (i : nat) (m : gmap (nat * nat) Block)
  : gmap (nat * nat) Block := map_imap (fun rc b => Some (deleted_block i rc b)) m.

Definition SetValZero (m : gmap (nat * nat) Block) : gmap (nat * nat) Block :=
  (fun b => block_zero (length b)) <$> m.

End CSparseMatrix.

(** ** Geometry *)

(** The parts of CGeometry (geometry_structure.hpp) the turbulence solvers
    read: [nVertex[marker]] is the length of [vertex[marker]], [GetnEdge()]
    the length of [edge]. *)
Module CVertex.
Record t : Type := mk { Node : nat; Normal : list float }.
End CVertex.

Module CEdge.
Record t : Type := mk { Nodes : nat * nat; Normal : list float }.
Definition GetNode (k : nat) (e : t) : nat :=
  match k with 0 => (Nodes e).1 | _ => (Nodes e).2 end.
End CEdge.

Module CPoint.
Record t : Type := mk { Volume : float; Coord : list float; RotVel : list float }.
End CPoint.

Module CGeometry.
Record t : Type := mk {
  nDim : nat;
  nPoint : nat;
  nPointDomain : nat;
  edge : list CEdge.t;
  node : list CPoint.t;
  vertex : list (list CVertex.t)
}.
End CGeometry.

(** ** Configuration *)

Inductive ENUM_TIME_INT : Type := RUNGE_KUTTA_EXPLICIT | EULER_EXPLICIT | EULER_IMPLICIT.
Inductive ENUM_TURB_MODEL : Type := NO_TURB_MODEL | SA | SA_COMP | SST.
Inductive ENUM_UPWIND : Type := SCALAR_UPWIND_1ST | SCALAR_UPWIND_2ND.
Inductive ENUM_GRADIENT : Type := GREEN_GAUSS | LEAST_SQUARES | WEIGHTED_LEAST_SQUARES.
Inductive ENUM_LIMITER : Type := NONE | VENKATAKRISHNAN.

#[global] Instance ENUM_TIME_INT_eq_dec : EqDecision ENUM_TIME_INT.
Proof. solve_decision. Defined.
#[global] Instance ENUM_TURB_MODEL_eq_dec : EqDecision ENUM_TURB_MODEL.
Proof. solve_decision. Defined.
#[global] Instance ENUM_UPWIND_eq_dec : EqDecision ENUM_UPWIND.
Proof. solve_decision. Defined.
#[global] Instance ENUM_GRADIENT_eq_dec : EqDecision ENUM_GRADIENT.
Proof. solve_decision. Defined.
#[global] Instance ENUM_LIMITER_eq_dec : EqDecision ENUM_LIMITER.
Proof. solve_decision. Defined.

(** The options of CConfig the turbulence solvers query; each field is the
    value its getter returns, a function where the getter takes an index or
    a marker name. *)
Module CConfig.
Record t : Type := mk {
  Marker_All_SendRecv : nat -> Z;
  Marker_All_Tag : nat -> string;
  Kind_TimeIntScheme_Turb : ENUM_TIME_INT;
  Beta_RKStep : nat -> float;
  Kind_Turb_Model : ENUM_TURB_MODEL;
  Kind_Upwind_Turb : ENUM_UPWIND;
  Kind_Gradient_Method : ENUM_GRADIENT;
  Kind_SlopeLimit_Turb : ENUM_LIMITER;
  Rotating_Frame : bool;
  Restart : bool;
  Restart_Flow : bool;
  Solution_FlowFileName : string;
  Gamma : float;
  Gas_Constant : float;
  Density_FreeStreamND : float;
  Viscosity_FreeStreamND : float;
  Mach_FreeStreamND : float;
  AoA : float;
  AoS : float;
  Reynolds : float;
  Length_Ref : float;
  Inlet_Ptotal : string -> float;
  Inlet_Ttotal : string -> float;
  Inlet_FlowDir : string -> list float
}.
End CConfig.

(** ** The flux kernel *)

(** Modelled from the spec: the class CNumerics is not part of the sources at
    hand. The kernel is given two state vectors, optional gradients and
    auxiliary scalars (viscosity, blending) and geometric inputs (normal,
    coordinates) through its setters, and then returns a residual vector and
    up to two Jacobian blocks. Each setter of a pair of arguments fills one
    field with the pair. [calls] is a ghost trace: the inputs as they stood
    at each call of SetResidual, oldest first. *)
Module CNumerics.
Record inputs : Type := mkInputs {
  Normal : list float;
  Conservative : list float * list float;
  TurbVar : list float * list float;
  RotVel : list float * list float;
  Coord : list float * list float;
  LaminarViscosity : float * float;
  EddyViscosity : float * float;
  TurbVarGradient : list (list float) * list (list float);
  ConsVarGradient : list (list float) * list (list float);
  F1blending : float
}.

(** What a kernel computes at SetResidual(val_residual, val_Jacobian_i,
    val_Jacobian_j, config): from its inputs, the configuration and whether
    val_Jacobian_j is given (it is NULL at a boundary), the residual and the
    two blocks. *)
Definition kernel : Type := inputs -> CConfig.t -> bool -> list float * Block * Block.

(** The solver object: its virtual method, its inputs, and the trace. *)
Record t : Type := mk { compute : kernel; current : inputs; calls : list inputs }.

Definition upd (f : inputs -> inputs) (k : t) : t := mk (compute k) (f (current k)) (calls k).

Definition SetNormal (x : list float) : t -> t :=
  upd (fun i => mkInputs x (Conservative i) (TurbVar i) (RotVel i) (Coord i)
    (LaminarViscosity i) (EddyViscosity i) (TurbVarGradient i) (ConsVarGradient i) (F1blending i)).
Definition SetConservative (x y : list float) : t -> t :=
  upd (fun i => mkInputs (Normal i) (x, y) (TurbVar i) (RotVel i) (Coord i)
    (LaminarViscosity i) (EddyViscosity i) (TurbVarGradient i) (ConsVarGradient i) (F1blending i)).
Definition SetTurbVar (x y : list float) : t -> t :=
  upd (fun i => mkInputs (Normal i) (Conservative i) (x, y) (RotVel i) (Coord i)
    (LaminarViscosity i) (EddyViscosity i) (TurbVarGradient i) (ConsVarGradient i) (F1blending i)).
Definition SetRotVel (x y : list float) : t -> t :=
  upd (fun i => mkInputs (Normal i) (Conservative i) (TurbVar i) (x, y) (Coord i)
    (LaminarViscosity i) (EddyViscosity i) (TurbVarGradient i) (ConsVarGradient i) (F1blending i)).
Definition SetCoord (x y : list float) : t -> t :=
  upd (fun i => mkInputs (Normal i) (Conservative i) (TurbVar i) (RotVel i) (x, y)
    (LaminarViscosity i) (EddyViscosity i) (TurbVarGradient i) (ConsVarGradient i) (F1blending i)).
Definition SetLaminarViscosity (x y : float) : t -> t :=
  upd (fun i => mkInputs (Normal i) (Conservative i) (TurbVar i) (RotVel i) (Coord i)
    (x, y) (EddyViscosity i) (TurbVarGradient i) (ConsVarGradient i) (F1blending i)).
Definition SetEddyViscosity (x y : float) : t -> t :=
  upd (fun i => mkInputs (Normal i) (Conservative i) (TurbVar i) (RotVel i) (Coord i)
    (LaminarViscosity i) (x, y) (TurbVarGradient i) (ConsVarGradient i) (F1blending i)).
Definition SetTurbVarGradient (x y : list (list float)) : t -> t :=
  upd (fun i => mkInputs (Normal i) (Conservative i) (TurbVar i) (RotVel i) (Coord i)
    (LaminarViscosity i) (EddyViscosity i) (x, y) (ConsVarGradient i) (F1blending i)).
Definition SetConsVarGradient (x y : list (list float)) : t -> t :=
  upd (fun i => mkInputs (Normal i) (Conservative i) (TurbVar i) (RotVel i) (Coord i)
    (LaminarViscosity i) (EddyViscosity i) (TurbVarGradient i) (x, y) (F1blending i)).
Definition SetF1blending (x : float) : t -> t :=
  upd (fun i => mkInputs (Normal i) (Conservative i) (TurbVar i) (RotVel i) (Coord i)
    (LaminarViscosity i) (EddyViscosity i) (TurbVarGradient i) (ConsVarGradient i) x).

Definition SetResidual (config : CConfig.t) (with_j : bool) (k : t)
  : list float * Block * Block * t :=
  (compute k (current k) config with_j, mk (compute k) (current k) (calls k ++ [current k])).
End CNumerics.

(** ** The solver object *)

(** The members of CTurbSolution and of its two subclasses that the
    functions below read or write, under their names; Residual_i,
    Residual_j, Smatrix and cvector, which none of them touches, are left
    out. *)
Record CTurbSolution : Type := mkTurb {
  nVar : nat;
  nDim : nat;
  node : list CVariable.t;
  Jacobian : gmap (nat * nat) Block;
  Residual : list float;
  Residual_Max : list float;
  Solution : list float;
  Solution_i : list float;
  Solution_j : list float;
  Vector_i : list float;
  Vector_j : list float;
  FlowSolution_i : list float;
  FlowSolution_j : list float;
  Jacobian_i : Block;
  Jacobian_j : Block;
  xsol : list float;
  rhs : list float;
  Gamma : float;
  Gamma_Minus_One : float;
  nu_tilde_Inf : float;
  kine_Inf : float;
  omega_Inf : float
}.

Definition with_node (x : list CVariable.t) (s : CTurbSolution) : CTurbSolution :=
  mkTurb (nVar s) (nDim s) x (Jacobian s) (Residual s) (Residual_Max s) (Solution s)
    (Solution_i s) (Solution_j s) (Vector_i s) (Vector_j s) (FlowSolution_i s)
    (FlowSolution_j s) (Jacobian_i s) (Jacobian_j s) (xsol s) (rhs s) (Gamma s)
    (Gamma_Minus_One s) (nu_tilde_Inf s) (kine_Inf s) (omega_Inf s).
Definition with_Jacobian (x : gmap (nat * nat) Block) (s : CTurbSolution) : CTurbSolution :=
  mkTurb (nVar s) (nDim s) (node s) x (Residual s) (Residual_Max s) (Solution s) (Solution_i s)
    (Solution_j s) (Vector_i s) (Vector_j s) (FlowSolution_i s) (FlowSolution_j s)
    (Jacobian_i s) (Jacobian_j s) (xsol s) (rhs s) (Gamma s) (Gamma_Minus_One s)
    (nu_tilde_Inf s) (kine_Inf s) (omega_Inf s).
Definition with_Residual (x : list float) (s : CTurbSolution) : CTurbSolution :=
  mkTurb (nVar s) (nDim s) (node s) (Jacobian s) x (Residual_Max s) (Solution s) (Solution_i s)
    (Solution_j s) (Vector_i s) (Vector_j s) (FlowSolution_i s) (FlowSolution_j s)
    (Jacobian_i s) (Jacobian_j s) (xsol s) (rhs s) (Gamma s) (Gamma_Minus_One s)
    (nu_tilde_Inf s) (kine_Inf s) (omega_Inf s).
Definition with_Residual_Max (x : list float) (s : CTurbSolution) : CTurbSolution :=
  mkTurb (nVar s) (nDim s) (node s) (Jacobian s) (Residual s) x (Solution s) (Solution_i s)
    (Solution_j s) (Vector_i s) (Vector_j s) (FlowSolution_i s) (FlowSolution_j s)
    (Jacobian_i s) (Jacobian_j s) (xsol s) (rhs s) (Gamma s) (Gamma_Minus_One s)
    (nu_tilde_Inf s) (kine_Inf s) (omega_Inf s).
Definition with_Solution (x : list float) (s : CTurbSolution) : CTurbSolution :=
  mkTurb (nVar s) (nDim s) (node s) (Jacobian s) (Residual s) (Residual_Max s) x (Solution_i s)
    (Solution_j s) (Vector_i s) (Vector_j s) (FlowSolution_i s) (FlowSolution_j s)
    (Jacobian_i s) (Jacobian_j s) (xsol s) (rhs s) (Gamma s) (Gamma_Minus_One s)
    (nu_tilde_Inf s) (kine_Inf s) (omega_Inf s).
Definition with_Solution_i (x : list float) (s : CTurbSolution) : CTurbSolution :=
  mkTurb (nVar s) (nDim s) (node s) (Jacobian s) (Residual s) (Residual_Max s) (Solution s) x
    (Solution_j s) (Vector_i s) (Vector_j s) (FlowSolution_i s) (FlowSolution_j s)
    (Jacobian_i s) (Jacobian_j s) (xsol s) (rhs s) (Gamma s) (Gamma_Minus_One s)
    (nu_tilde_Inf s) (kine_Inf s) (omega_Inf s).
Definition with_Solution_j (x : list float) (s : CTurbSolution) : CTurbSolution :=
  mkTurb (nVar s) (nDim s) (node s) (Jacobian s) (Residual s) (Residual_Max s) (Solution s)
    (Solution_i s) x (Vector_i s) (Vector_j s) (FlowSolution_i s) (FlowSolution_j s)
    (Jacobian_i s) (Jacobian_j s) (xsol s) (rhs s) (Gamma s) (Gamma_Minus_One s)
    (nu_tilde_Inf s) (kine_Inf s) (omega_Inf s).
Definition with_Vector_i (x : list float) (s : CTurbSolution) : CTurbSolution :=
  mkTurb (nVar s) (nDim s) (node s) (Jacobian s) (Residual s) (Residual_Max s) (Solution s)
    (Solution_i s) (Solution_j s) x (Vector_j s) (FlowSolution_i s) (FlowSolution_j s)
    (Jacobian_i s) (Jacobian_j s) (xsol s) (rhs s) (Gamma s) (Gamma_Minus_One s)
    (nu_tilde_Inf s) (kine_Inf s) (omega_Inf s).
Definition with_Vector_j (x : list float) (s : CTurbSolution) : CTurbSolution :=
  mkTurb (nVar s) (nDim s) (node s) (Jacobian s) (Residual s) (Residual_Max s) (Solution s)
    (Solution_i s) (Solution_j s) (Vector_i s) x (FlowSolution_i s) (FlowSolution_j s)
    (Jacobian_i s) (Jacobian_j s) (xsol s) (rhs s) (Gamma s) (Gamma_Minus_One s)
    (nu_tilde_Inf s) (kine_Inf s) (omega_Inf s).
Definition with_FlowSolution_i (x : list float) (s : CTurbSolution) : CTurbSolution :=
  mkTurb (nVar s) (nDim s) (node s) (Jacobian s) (Residual s) (Residual_Max s) (Solution s)
    (Solution_i s) (Solution_j s) (Vector_i s) (Vector_j s) x (FlowSolution_j s) (Jacobian_i s)
    (Jacobian_j s) (xsol s) (rhs s) (Gamma s) (Gamma_Minus_One s) (nu_tilde_Inf s) (kine_Inf s)
    (omega_Inf s).
Definition with_FlowSolution_j (x : list float) (s : CTurbSolution) : CTurbSolution :=
  mkTurb (nVar s) (nDim s) (node s) (Jacobian s) (Residual s) (Residual_Max s) (Solution s)
    (Solution_i s) (Solution_j s) (Vector_i s) (Vector_j s) (FlowSolution_i s) x (Jacobian_i s)
    (Jacobian_j s) (xsol s) (rhs s) (Gamma s) (Gamma_Minus_One s) (nu_tilde_Inf s) (kine_Inf s)
    (omega_Inf s).
Definition with_Jacobian_i (x : Block) (s : CTurbSolution) : CTurbSolution :=
  mkTurb (nVar s) (nDim s) (node s) (Jacobian s) (Residual s) (Residual_Max s) (Solution s)
    (Solution_i s) (Solution_j s) (Vector_i s) (Vector_j s) (FlowSolution_i s)
    (FlowSolution_j s) x (Jacobian_j s) (xsol s) (rhs s) (Gamma s) (Gamma_Minus_One s)
    (nu_tilde_Inf s) (kine_Inf s) (omega_Inf s).
Definition with_Jacobian_j (x : Block) (s : CTurbSolution) : CTurbSolution :=
  mkTurb (nVar s) (nDim s) (node s) (Jacobian s) (Residual s) (Residual_Max s) (Solution s)
    (Solution_i s) (Solution_j s) (Vector_i s) (Vector_j s) (FlowSolution_i s)
    (FlowSolution_j s) (Jacobian_i s) x (xsol s) (rhs s) (Gamma s) (Gamma_Minus_One s)
    (nu_tilde_Inf s) (kine_Inf s) (omega_Inf s).
Definition with_xsol (x : list float) (s : CTurbSolution) : CTurbSolution :=
  mkTurb (nVar s) (nDim s) (node s) (Jacobian s) (Residual s) (Residual_Max s) (Solution s)
    (Solution_i s) (Solution_j s) (Vector_i s) (Vector_j s) (FlowSolution_i s)
    (FlowSolution_j s) (Jacobian_i s) (Jacobian_j s) x (rhs s) (Gamma s) (Gamma_Minus_One s)
    (nu_tilde_Inf s) (kine_Inf s) (omega_Inf s).
Definition with_rhs (x : list float) (s : CTurbSolution) : CTurbSolution :=
  mkTurb (nVar s) (nDim s) (node s) (Jacobian s) (Residual s) (Residual_Max s) (Solution s)
    (Solution_i s) (Solution_j s) (Vector_i s) (Vector_j s) (FlowSolution_i s)
    (FlowSolution_j s) (Jacobian_i s) (Jacobian_j s) (xsol s) x (Gamma s) (Gamma_Minus_One s)
    (nu_tilde_Inf s) (kine_Inf s) (omega_Inf s).

(** The flow solver, solution_container[FLOW_SOL], as far as it is read. *)
Record CFlowSolution : Type := mkFlow {
  flow_nVar : nat;
  flow_node : list CVariable.t;
  Density_Inf : float;
  Density_Energy_Inf : float;
  Density_Velocity_Inf : list float
}.

(** [node[iPoint]->method(...)] on the solver's own nodes. *)
Definition get_node (s : CTurbSolution) (iPoint : nat) : result CVariable.t :=
  at_ "node" (node s) iPoint.
Definition set_node (iPoint : nat) (v : CVariable.t) (s : CTurbSolution) : CTurbSolution :=
  with_node (<[iPoint:=v]> (node s)) s.

(** [geometry->vertex[val_marker]], the boundary vertices of a marker. *)
Definition marker_vertices (geometry : CGeometry.t) (val_marker : nat)
  : result (list CVertex.t) :=
  at_ "vertex" (CGeometry.vertex geometry) val_marker.

(** ** Message passing *)

(** The transport behind MPI::COMM_WORLD, seen from one process: the messages
    it has posted with Bsend, oldest first, and the messages that reach it.
    A buffered send returns at once; a blocking receive takes the oldest
    message with the asked source and tag, and never returns (a fault here)
    when there is none. A message longer than the receive count is an MPI
    error; the slots of the receive buffer beyond a shorter one hold no
    value. *)
Module MPI.
Record message : Type := mkMessage { peer : Z; tag : nat; payload : list float }.
Record world : Type := mk { sent : list message; mailbox : list message }.

Definition matches (source : Z) (t : nat) (m : message) : bool :=
  bool_decide (peer m = source) && bool_decide (tag m = t).

Fixpoint take_message (source : Z) (t : nat) (mb : list message)
  : option (message * list message) :=
  match mb with
  | [] => None
  | m :: mb' =>
      if matches source t m then Some (m, mb')
      else match take_message source t mb' with
           | Some (m', rest) => Some (m', m :: rest)
           | None => None
           end
  end.

Definition Bsend (buf : list float) (count : nat) (dest : Z) (t : nat) (w : world)
  : result world :=
  if decide (count <= length buf)
  then Ok (mk (sent w ++ [mkMessage dest t (take count buf)]) (mailbox w))
  else Fault (OutOfBounds "Buffer_Send" count (length buf)).

Definition Recv (count : nat) (source : Z) (t : nat) (w : world)
  : result (list float * world) :=
  match take_message source t (mailbox w) with
  | None => Fault (NoMatchingMessage source t)
  | Some (m, rest) =>
      if decide (length (payload m) <= count)
      then Ok (payload m, mk (sent w) rest)
      else Fault (MessageTruncated source t count (length (payload m)))
  end.
End MPI.

(** ** CTurbSolution *)

(** [double Buffer[nVertex][nVar]]: a variable-length array, row-major, whose
    elements hold the indeterminate value [uninit] until they are assigned. *)
Definition new_array (uninit : float) (n : nat) : list float := replicate n uninit.

Record send_buffers : Type := mkSend {
  Buffer_Send_Turb : list float;
  Buffer_Send_Turbx : list float;
  Buffer_Send_Turby : list float;
  Buffer_Send_Turbz : list float
}.

Section CTurbSolution.

(** The build: [NO_MPI] says whether the macro of that name is defined. *)
Variable NO_MPI : bool.
Variable uninit : float.

Definition BC_Send_Receive_fill (s : CTurbSolution) (iVertex : nat) (Turb_Var : list float)
  (Turb_Grad : list (list float)) (iVar : nat) (b : send_buffers) : result send_buffers :=
  x ← at_ "Turb_Var" Turb_Var iVar;
  b0 ← store "Buffer_Send_Turb" (Buffer_Send_Turb b) (iVertex * nVar s + iVar) x;
  row ← at_ "Turb_Grad" Turb_Grad iVar;
  gx ← at_ "Turb_Grad[iVar]" row 0;
  bx ← store "Buffer_Send_Turbx" (Buffer_Send_Turbx b) (iVertex * nVar s + iVar) gx;
  gy ← at_ "Turb_Grad[iVar]" row 1;
  by_ ← store "Buffer_Send_Turby" (Buffer_Send_Turby b) (iVertex * nVar s + iVar) gy;
  bz ← (if decide (nDim s = 3)
        then gz ← at_ "Turb_Grad[iVar]" row 2;
             store "Buffer_Send_Turbz" (Buffer_Send_Turbz b) (iVertex * nVar s + iVar) gz
        else Ok (Buffer_Send_Turbz b));
  Ok (mkSend b0 bx by_ bz).

Definition BC_Send_Receive_send (geometry : CGeometry.t) (val_marker : nat) (SendRecv : Z)
  (s : CTurbSolution) (w : MPI.world) : result MPI.world :=
  vs ← marker_vertices geometry val_marker;
  let nVertex := length vs in
  let nBuffer_Vector := nVertex * nVar s in
  let send_to := SendRecv in
  b ← for_ nVertex (fun iVertex b =>
         vert ← at_ "vertex[val_marker]" vs iVertex;
         let iPoint := CVertex.Node vert in
         nd ← get_node s iPoint;
         let Turb_Var := CVariable.Solution nd in
         let Turb_Grad := CVariable.Gradient nd in
         for_ (nVar s) (BC_Send_Receive_fill s iVertex Turb_Var Turb_Grad) b)
       (mkSend (new_array uninit nBuffer_Vector) (new_array uninit nBuffer_Vector)
               (new_array uninit nBuffer_Vector) (new_array uninit nBuffer_Vector));
  w0 ← MPI.Bsend (Buffer_Send_Turb b) nBuffer_Vector send_to 0 w;
  w1 ← MPI.Bsend (Buffer_Send_Turbx b) nBuffer_Vector send_to 1 w0;
  w2 ← MPI.Bsend (Buffer_Send_Turby b) nBuffer_Vector send_to 2 w1;
  if decide (nDim s = 3)
  then MPI.Bsend (Buffer_Send_Turbz b) nBuffer_Vector send_to 3 w2
  else Ok w2.

Definition BC_Send_Receive_set (iVertex iPoint : nat)
  (Buffer_Receive_Turb Buffer_Receive_Turbx Buffer_Receive_Turby Buffer_Receive_Turbz : list float)
  (iVar : nat) (s : CTurbSolution) : result CTurbSolution :=
  nd ← get_node s iPoint;
  x ← at_ "Buffer_Receive_Turb" Buffer_Receive_Turb (iVertex * nVar s + iVar);
  nd0 ← CVariable.SetSolution iVar x nd;
  gx ← at_ "Buffer_Receive_Turbx" Buffer_Receive_Turbx (iVertex * nVar s + iVar);
  nd1 ← CVariable.SetGradient iVar 0 gx nd0;
  gy ← at_ "Buffer_Receive_Turby" Buffer_Receive_Turby (iVertex * nVar s + iVar);
  nd2 ← CVariable.SetGradient iVar 1 gy nd1;
  nd3 ← (if decide (nDim s = 3)
         then gz ← at_ "Buffer_Receive_Turbz" Buffer_Receive_Turbz (iVertex * nVar s + iVar);
              CVariable.SetGradient iVar 2 gz nd2
         else Ok nd2);
  Ok (set_node iPoint nd3 s).

Definition BC_Send_Receive_receive (geometry : CGeometry.t) (val_marker : nat) (SendRecv : Z)
  (s : CTurbSolution) (w : MPI.world) : result (CTurbSolution * MPI.world) :=
  vs ← marker_vertices geometry val_marker;
  let nVertex := length vs in
  let nBuffer_Vector := nVertex * nVar s in
  let receive_from := Z.abs SendRecv in
  '(Buffer_Receive_Turb, w0) ← MPI.Recv nBuffer_Vector receive_from 0 w;
  '(Buffer_Receive_Turbx, w1) ← MPI.Recv nBuffer_Vector receive_from 1 w0;
  '(Buffer_Receive_Turby, w2) ← MPI.Recv nBuffer_Vector receive_from 2 w1;
  '(Buffer_Receive_Turbz, w3) ← (if decide (nDim s = 3)
                                 then MPI.Recv nBuffer_Vector receive_from 3 w2
                                 else Ok (new_array uninit nBuffer_Vector, w2));
  s' ← for_ nVertex (fun iVertex s =>
          vert ← at_ "vertex[val_marker]" vs iVertex;
          let iPoint := CVertex.Node vert in
          for_ (nVar s) (BC_Send_Receive_set iVertex iPoint Buffer_Receive_Turb
                           Buffer_Receive_Turbx Buffer_Receive_Turby Buffer_Receive_Turbz) s) s;
  Ok (s', w3).

Definition BC_Send_Receive (geometry : CGeometry.t) (config : CConfig.t) (val_marker : nat)
  (s : CTurbSolution) (w : MPI.world) : result (CTurbSolution * MPI.world) :=
  if NO_MPI then Ok (s, w)
  else
    let SendRecv := CConfig.Marker_All_SendRecv config val_marker in
    (* Send information *)
    w1 ← (if decide (0 < SendRecv)%Z
          then BC_Send_Receive_send geometry val_marker SendRecv s w
          else Ok w);
    (* Receive information *)
    if decide (SendRecv < 0)%Z
    then BC_Send_Receive_receive geometry val_marker SendRecv s w1
    else Ok (s, w1).

Definition BC_InterProcessor (geometry : CGeometry.t) (config : CConfig.t) (val_marker : nat)
  (s : CTurbSolution) : result CTurbSolution :=
  if NO_MPI then Ok s
  else
    let SendRecv := CConfig.Marker_All_SendRecv config val_marker in
    (* Receive information *)
    if decide (SendRecv < 0)%Z
    then
      vs ← marker_vertices geometry val_marker;
      for_ (length vs) (fun iVertex s =>
        vert ← at_ "vertex[val_marker]" vs iVertex;
        let iPoint := CVertex.Node vert in
        nd ← get_node s iPoint;
        let s := set_node iPoint (CVariable.SetResidualZero nd) s in
        for_ (nVar s) (fun iVar s =>
          Ok (with_Jacobian (CSparseMatrix.DeleteValsRowi iPoint (Jacobian s)) s)) s) s
    else Ok s.

(** The body of BC_Sym_Plane is empty. *)
Definition BC_Sym_Plane (geometry : CGeometry.t) (solution_container : CFlowSolution)
  (solver : CNumerics.t) (config : CConfig.t) (val_marker : nat)
  (s : CTurbSolution) : result (CTurbSolution * CNumerics.t) :=
  Ok (s, solver).

End CTurbSolution.

(** ** The implicit Euler step *)

(** Modelled from the spec: the accessors of the residual monitor, which
    CSolution (solution_structure.hpp, not part of the sources at hand)
    declares: one accumulator per state component, that is set, added to and
    read. *)
Definition SetRes_Max (val_var : nat) (val_residual : float) (s : CTurbSolution)
  : result CTurbSolution :=
  a ← store "Residual_Max" (Residual_Max s) val_var val_residual;
  Ok (with_Residual_Max a s).
Definition GetRes_Max (val_var : nat) (s : CTurbSolution) : result float :=
  at_ "Residual_Max" (Residual_Max s) val_var.
Definition AddRes_Max (val_var : nat) (val_residual : float) (s : CTurbSolution)
  : result CTurbSolution :=
  r ← GetRes_Max val_var s;
  SetRes_Max val_var (r + val_residual)%float s.

Section ImplicitEuler.

(** The linear solver of the missing CSparseMatrix and the node update of the
    missing CVariable are parameters: the solver returns the new [xsol], the
    update the new node. *)
Variable LU_SGSIteration : gmap (nat * nat) Block -> list float -> list float -> list float.
Variable AddSolution : nat -> float -> CVariable.t -> CVariable.t.

Definition ImplicitEuler_build (iPoint : nat) (local_Residual : list float) (Vol : float)
  (iVar : nat) (s : CTurbSolution) : result CTurbSolution :=
  let total_index := iPoint * nVar s + iVar in
  (* Right hand side of the system (-Residual) and initial guess (x = 0) *)
  r ← at_ "local_Residual" local_Residual iVar;
  rhs' ← store "rhs" (rhs s) total_index (- r)%float;
  let s := with_rhs rhs' s in
  xsol' ← store "xsol" (xsol s) total_index 0%float;
  let s := with_xsol xsol' s in
  AddRes_Max iVar (r * r * Vol)%float s.

Definition ImplicitEuler_Iteration (geometry : CGeometry.t) (solution_container : CFlowSolution)
  (config : CConfig.t) (s : CTurbSolution) : result CTurbSolution :=
  (* Set maximum residual to zero *)
  s ← for_ (nVar s) (fun iVar s => SetRes_Max iVar 0%float s) s;
  (* Build implicit system *)
  s ← for_ (CGeometry.nPointDomain geometry) (fun iPoint s =>
         nd ← get_node s iPoint;
         let local_Residual := CVariable.Residual nd in
         gp ← at_ "geometry->node" (CGeometry.node geometry) iPoint;
         let Vol := CPoint.Volume gp in
         (* Modify matrix diagonal to assure diagonal dominance *)
         fnd ← at_ "solution_container[FLOW_SOL]->node" (flow_node solution_container) iPoint;
         let Delta_flow := (Vol / CVariable.Delta_Time fnd)%float in
         let Delta := Delta_flow in
         let s := with_Jacobian (CSparseMatrix.AddVal2Diag iPoint Delta (Jacobian s)) s in
         for_ (nVar s) (ImplicitEuler_build iPoint local_Residual Vol) s) s;
  (* Solve the system *)
  let s := with_xsol (LU_SGSIteration (Jacobian s) (rhs s) (xsol s)) s in
  (* Update solution (system written in terms of increments) *)
  s ← for_ (CGeometry.nPointDomain geometry) (fun iPoint s =>
         for_ (nVar s) (fun iVar s =>
           x ← at_ "xsol" (xsol s) (iPoint * nVar s + iVar);
           nd ← get_node s iPoint;
           Ok (set_node iPoint (AddSolution iVar x nd) s)) s) s;
  for_ (nVar s) (fun iVar s =>
    r ← GetRes_Max iVar s;
    SetRes_Max iVar (PrimFloat.sqrt r) s) s.

End ImplicitEuler.

(** ** Edge-based assembly *)

Section Residuals.

(** Gradient and limiter computations of the missing base class CSolution,
    taken as parameters: the first two recompute the gradients of the flow
    solver, the third the limiters of the turbulence solver's own nodes. *)
Variable SetSolution_Gradient_GG : CGeometry.t -> CFlowSolution -> CFlowSolution.
Variable SetSolution_Gradient_LS : CGeometry.t -> CConfig.t -> CFlowSolution -> CFlowSolution.
Variable SetSolution_Limiter : CGeometry.t -> CConfig.t -> CTurbSolution -> CTurbSolution.

Definition flow_gradient (geometry : CGeometry.t) (config : CConfig.t)
  (flow : CFlowSolution) : CFlowSolution :=
  let flow :=
    if decide (CConfig.Kind_Gradient_Method config = GREEN_GAUSS)
    then SetSolution_Gradient_GG geometry flow else flow in
  if decide (CConfig.Kind_Gradient_Method config = LEAST_SQUARES
             ∨ CConfig.Kind_Gradient_Method config = WEIGHTED_LEAST_SQUARES)
  then SetSolution_Gradient_LS geometry config flow else flow.

(** [Project_Grad_i], [Project_Grad_j] of one state component. *)
Definition Project_Grad (s : CTurbSolution) (Gradient_i Gradient_j : list (list float))
  (iVar : nat) : result (float * float) :=
  for_ (nDim s) (fun iDim '(Project_Grad_i, Project_Grad_j) =>
    vi ← at_ "Vector_i" (Vector_i s) iDim;
    gi ← at_ "Gradient_i" Gradient_i iVar;
    gi ← at_ "Gradient_i[iVar]" gi iDim;
    vj ← at_ "Vector_j" (Vector_j s) iDim;
    gj ← at_ "Gradient_j" Gradient_j iVar;
    gj ← at_ "Gradient_j[iVar]" gj iDim;
    Ok (Project_Grad_i + vi * gi, Project_Grad_j + vj * gj)%float) (0%float, 0%float).

(** The reconstruction of both states at the edge, taken when the upwind
    scheme is of second order. *)
Definition Upwind_reconstruct (geometry : CGeometry.t) (flow : CFlowSolution)
  (config : CConfig.t) (iPoint jPoint : nat) (U_i U_j turb_var_i turb_var_j : list float)
  (st : CTurbSolution * CNumerics.t) : result (CTurbSolution * CNumerics.t) :=
  let '(s, solver) := st in
  (* Conservative solution using gradient reconstruction *)
  s ← for_ (nDim s) (fun iDim s =>
         gi ← at_ "geometry->node" (CGeometry.node geometry) iPoint;
         gj ← at_ "geometry->node" (CGeometry.node geometry) jPoint;
         ci ← at_ "Coord" (CPoint.Coord gi) iDim;
         cj ← at_ "Coord" (CPoint.Coord gj) iDim;
         vi ← store "Vector_i" (Vector_i s) iDim (0.5 * (cj - ci))%float;
         let s := with_Vector_i vi s in
         vj ← store "Vector_j" (Vector_j s) iDim (0.5 * (ci - cj))%float;
         Ok (with_Vector_j vj s)) s;
  fi ← at_ "solution_container[FLOW_SOL]->node" (flow_node flow) iPoint;
  fj ← at_ "solution_container[FLOW_SOL]->node" (flow_node flow) jPoint;
  let Gradient_i := CVariable.Gradient fi in
  let Gradient_j := CVariable.Gradient fj in
  s ← for_ (flow_nVar flow) (fun iVar s =>
         '(Project_Grad_i, Project_Grad_j) ← Project_Grad s Gradient_i Gradient_j iVar;
         ui ← at_ "U_i" U_i iVar;
         a ← store "FlowSolution_i" (FlowSolution_i s) iVar (ui + Project_Grad_i)%float;
         let s := with_FlowSolution_i a s in
         uj ← at_ "U_j" U_j iVar;
         b ← store "FlowSolution_j" (FlowSolution_j s) iVar (uj + Project_Grad_j)%float;
         Ok (with_FlowSolution_j b s)) s;
  let solver := CNumerics.SetConservative (FlowSolution_i s) (FlowSolution_j s) solver in
  (* Turbulent variables using gradient reconstruction *)
  ni ← get_node s iPoint;
  nj ← get_node s jPoint;
  let Gradient_i := CVariable.Gradient ni in
  let Gradient_j := CVariable.Gradient nj in
  let Limiter_i := CVariable.Limiter ni in
  let Limiter_j := CVariable.Limiter nj in
  s ← for_ (nVar s) (fun iVar s =>
         '(Project_Grad_i, Project_Grad_j) ← Project_Grad s Gradient_i Gradient_j iVar;
         if decide (CConfig.Kind_SlopeLimit_Turb config = NONE)
         then
           ti ← at_ "turb_var_i" turb_var_i iVar;
           a ← store "Solution_i" (Solution_i s) iVar (ti + Project_Grad_i)%float;
           let s := with_Solution_i a s in
           tj ← at_ "turb_var_j" turb_var_j iVar;
           b ← store "Solution_j" (Solution_j s) iVar (tj + Project_Grad_j)%float;
           Ok (with_Solution_j b s)
         else
           ti ← at_ "turb_var_i" turb_var_i iVar;
           li ← at_ "Limiter_i" Limiter_i iVar;
           a ← store "Solution_i" (Solution_i s) iVar (ti + Project_Grad_i * li)%float;
           let s := with_Solution_i a s in
           tj ← at_ "turb_var_j" turb_var_j iVar;
           lj ← at_ "Limiter_j" Limiter_j iVar;
           b ← store "Solution_j" (Solution_j s) iVar (tj + Project_Grad_j * lj)%float;
           Ok (with_Solution_j b s)) s;
  Ok (s, CNumerics.SetTurbVar (Solution_i s) (Solution_j s) solver).

(** [node[iPoint]->AddResidual(Residual)] and its twin. *)
Definition node_AddResidual (iPoint : nat) (s : CTurbSolution) : result CTurbSolution :=
  nd ← get_node s iPoint;
  Ok (set_node iPoint (CVariable.AddResidual (Residual s) nd) s).
Definition node_SubtractResidual (iPoint : nat) (s : CTurbSolution) : result CTurbSolution :=
  nd ← get_node s iPoint;
  Ok (set_node iPoint (CVariable.SubtractResidual (Residual s) nd) s).

(** [solver->SetResidual(Residual, Jacobian_i, Jacobian_j, config)] on an
    edge, and with a NULL [Jacobian_j] at a boundary vertex or a point. *)
Definition solver_SetResidual (config : CConfig.t) (st : CTurbSolution * CNumerics.t)
  : CTurbSolution * CNumerics.t :=
  let '(s, solver) := st in
  let '(r, ji, jj, solver) := CNumerics.SetResidual config true solver in
  (with_Jacobian_j jj (with_Jacobian_i ji (with_Residual r s)), solver).
Definition solver_SetResidual_i (config : CConfig.t) (st : CTurbSolution * CNumerics.t)
  : CTurbSolution * CNumerics.t :=
  let '(s, solver) := st in
  let '(r, ji, _, solver) := CNumerics.SetResidual config false solver in
  (with_Jacobian_i ji (with_Residual r s), solver).

(** The loop body of Upwind_Residual; CTurbSASolution and CTurbSSTSolution
    have the same text. *)
Definition Upwind_Residual_edge (geometry : CGeometry.t) (flow : CFlowSolution)
  (config : CConfig.t) (high_order_diss rotating_frame : bool) (e : CEdge.t)
  (st : CTurbSolution * CNumerics.t) : result (CTurbSolution * CNumerics.t) :=
  let '(s, solver) := st in
  (* Points in edge and normal vectors *)
  let iPoint := CEdge.GetNode 0 e in
  let jPoint := CEdge.GetNode 1 e in
  let solver := CNumerics.SetNormal (CEdge.Normal e) solver in
  (* Conservative variables w/o reconstruction *)
  fi ← at_ "solution_container[FLOW_SOL]->node" (flow_node flow) iPoint;
  fj ← at_ "solution_container[FLOW_SOL]->node" (flow_node flow) jPoint;
  let U_i := CVariable.Solution fi in
  let U_j := CVariable.Solution fj in
  let solver := CNumerics.SetConservative U_i U_j solver in
  (* Turbulent variables w/o reconstruction *)
  ni ← get_node s iPoint;
  nj ← get_node s jPoint;
  let turb_var_i := CVariable.Solution ni in
  let turb_var_j := CVariable.Solution nj in
  let solver := CNumerics.SetTurbVar turb_var_i turb_var_j solver in
  (* Rotational frame *)
  solver ← (if rotating_frame
            then gi ← at_ "geometry->node" (CGeometry.node geometry) iPoint;
                 gj ← at_ "geometry->node" (CGeometry.node geometry) jPoint;
                 Ok (CNumerics.SetRotVel (CPoint.RotVel gi) (CPoint.RotVel gj) solver)
            else Ok solver);
  st ← (if high_order_diss
        then Upwind_reconstruct geometry flow config iPoint jPoint U_i U_j
               turb_var_i turb_var_j (s, solver)
        else Ok (s, solver));
  (* Add and subtract Residual *)
  let '(s, solver) := solver_SetResidual config st in
  s ← node_AddResidual iPoint s;
  s ← node_SubtractResidual jPoint s;
  (* Implicit part *)
  let s := with_Jacobian (CSparseMatrix.AddBlock iPoint iPoint (Jacobian_i s) (Jacobian s)) s in
  let s := with_Jacobian (CSparseMatrix.AddBlock iPoint jPoint (Jacobian_j s) (Jacobian s)) s in
  let s := with_Jacobian (CSparseMatrix.SubtractBlock jPoint iPoint (Jacobian_i s) (Jacobian s)) s in
  let s := with_Jacobian (CSparseMatrix.SubtractBlock jPoint jPoint (Jacobian_j s) (Jacobian s)) s in
  Ok (s, solver).

Definition Upwind_Residual (geometry : CGeometry.t) (flow : CFlowSolution)
  (config : CConfig.t) (st : CTurbSolution * CNumerics.t)
  : result (CFlowSolution * (CTurbSolution * CNumerics.t)) :=
  let '(s, solver) := st in
  let high_order_diss := bool_decide (CConfig.Kind_Upwind_Turb config = SCALAR_UPWIND_2ND) in
  let rotating_frame := CConfig.Rotating_Frame config in
  let flow := if high_order_diss then flow_gradient geometry config flow else flow in
  let s :=
    if high_order_diss && bool_decide (CConfig.Kind_SlopeLimit_Turb config = VENKATAKRISHNAN)
    then SetSolution_Limiter geometry config s else s in
  let edges := CGeometry.edge geometry in
  st ← for_ (length edges) (fun iEdge st =>
          e ← at_ "geometry->edge" edges iEdge;
          Upwind_Residual_edge geometry flow config high_order_diss rotating_frame e st)
        (s, solver);
  Ok (flow, st).

(** The common setters of the two Viscous_Residual loop bodies, up to the
    turbulent variables and their gradients. *)
Definition Viscous_Residual_inputs (geometry : CGeometry.t) (flow : CFlowSolution)
  (e : CEdge.t) (s : CTurbSolution) (solver : CNumerics.t) : result CNumerics.t :=
  (* Points in edge *)
  let iPoint := CEdge.GetNode 0 e in
  let jPoint := CEdge.GetNode 1 e in
  (* Points coordinates, and normal vector *)
  gi ← at_ "geometry->node" (CGeometry.node geometry) iPoint;
  gj ← at_ "geometry->node" (CGeometry.node geometry) jPoint;
  let solver := CNumerics.SetCoord (CPoint.Coord gi) (CPoint.Coord gj) solver in
  let solver := CNumerics.SetNormal (CEdge.Normal e) solver in
  (* Conservative variables w/o reconstruction *)
  fi ← at_ "solution_container[FLOW_SOL]->node" (flow_node flow) iPoint;
  fj ← at_ "solution_container[FLOW_SOL]->node" (flow_node flow) jPoint;
  let solver := CNumerics.SetConservative (CVariable.Solution fi) (CVariable.Solution fj) solver in
  (* Laminar Viscosity *)
  let solver := CNumerics.SetLaminarViscosity (CVariable.LaminarViscosity fi)
                  (CVariable.LaminarViscosity fj) solver in
  (* Eddy Viscosity *)
  let solver := CNumerics.SetEddyViscosity (CVariable.EddyViscosity fi)
                  (CVariable.EddyViscosity fj) solver in
  (* Turbulent variables w/o reconstruction, and its gradients *)
  ni ← get_node s iPoint;
  nj ← get_node s jPoint;
  let solver := CNumerics.SetTurbVar (CVariable.Solution ni) (CVariable.Solution nj) solver in
  Ok (CNumerics.SetTurbVarGradient (CVariable.Gradient ni) (CVariable.Gradient nj) solver).

(** The end of the two Viscous_Residual loop bodies: compute residual and
    Jacobians, subtract and add the residual, update the Jacobians. *)
Definition Viscous_Residual_scatter (config : CConfig.t) (e : CEdge.t)
  (st : CTurbSolution * CNumerics.t) : result (CTurbSolution * CNumerics.t) :=
  let iPoint := CEdge.GetNode 0 e in
  let jPoint := CEdge.GetNode 1 e in
  let '(s, solver) := solver_SetResidual config st in
  s ← node_SubtractResidual iPoint s;
  s ← node_AddResidual jPoint s;
  let s := with_Jacobian (CSparseMatrix.SubtractBlock iPoint iPoint (Jacobian_i s) (Jacobian s)) s in
  let s := with_Jacobian (CSparseMatrix.SubtractBlock iPoint jPoint (Jacobian_j s) (Jacobian s)) s in
  let s := with_Jacobian (CSparseMatrix.AddBlock jPoint iPoint (Jacobian_i s) (Jacobian s)) s in
  let s := with_Jacobian (CSparseMatrix.AddBlock jPoint jPoint (Jacobian_j s) (Jacobian s)) s in
  Ok (s, solver).

(** [(config->Get_Beta_RKStep(iRKStep) != 0) || implicit] *)
Definition viscous_enabled (config : CConfig.t) (iRKStep : nat) : bool :=
  let implicit := bool_decide (CConfig.Kind_TimeIntScheme_Turb config = EULER_IMPLICIT) in
  negb (PrimFloat.eqb (CConfig.Beta_RKStep config iRKStep) 0%float) || implicit.

Definition SA_Viscous_Residual_edge (geometry : CGeometry.t) (flow : CFlowSolution)
  (config : CConfig.t) (e : CEdge.t) (st : CTurbSolution * CNumerics.t)
  : result (CTurbSolution * CNumerics.t) :=
  let '(s, solver) := st in
  solver ← Viscous_Residual_inputs geometry flow e s solver;
  solver ← (if decide (CConfig.Kind_Turb_Model config = SA_COMP)
            then fi ← at_ "solution_container[FLOW_SOL]->node" (flow_node flow) (CEdge.GetNode 0 e);
                 fj ← at_ "solution_container[FLOW_SOL]->node" (flow_node flow) (CEdge.GetNode 1 e);
                 Ok (CNumerics.SetConsVarGradient (CVariable.Gradient fi)
                       (CVariable.Gradient fj) solver)
            else Ok solver);
  Viscous_Residual_scatter config e (s, solver).

Definition SA_Viscous_Residual (geometry : CGeometry.t) (flow : CFlowSolution)
  (config : CConfig.t) (iRKStep : nat) (st : CTurbSolution * CNumerics.t)
  : result (CFlowSolution * (CTurbSolution * CNumerics.t)) :=
  if viscous_enabled config iRKStep
  then
    (* If SA_COMP --> Need gradient of flow conservative variables *)
    let flow := if decide (CConfig.Kind_Turb_Model config = SA_COMP)
                then flow_gradient geometry config flow else flow in
    let edges := CGeometry.edge geometry in
    st ← for_ (length edges) (fun iEdge st =>
            e ← at_ "geometry->edge" edges iEdge;
            SA_Viscous_Residual_edge geometry flow config e st) st;
    Ok (flow, st)
  else Ok (flow, st).

Definition SST_Viscous_Residual_edge (geometry : CGeometry.t) (flow : CFlowSolution)
  (config : CConfig.t) (e : CEdge.t) (st : CTurbSolution * CNumerics.t)
  : result (CTurbSolution * CNumerics.t) :=
  let '(s, solver) := st in
  solver ← Viscous_Residual_inputs geometry flow e s solver;
  (* Menter's first blending function *)
  ni ← get_node s (CEdge.GetNode 0 e);
  let solver := CNumerics.SetF1blending (CVariable.F1blending ni) solver in
  Viscous_Residual_scatter config e (s, solver).

Definition SST_Viscous_Residual (geometry : CGeometry.t) (flow : CFlowSolution)
  (config : CConfig.t) (iRKStep : nat) (st : CTurbSolution * CNumerics.t)
  : result (CFlowSolution * (CTurbSolution * CNumerics.t)) :=
  if viscous_enabled config iRKStep
  then
    let edges := CGeometry.edge geometry in
    st ← for_ (length edges) (fun iEdge st =>
            e ← at_ "geometry->edge" edges iEdge;
            SST_Viscous_Residual_edge geometry flow config e st) st;
    Ok (flow, st)
  else Ok (flow, st).

End Residuals.

(** ** Boundary conditions *)

(** The loop body of BC_NS_Wall; CTurbSASolution and CTurbSSTSolution have
    the same text. *)
Definition BC_NS_Wall_vertex (vert : CVertex.t) (s : CTurbSolution) : result CTurbSolution :=
  let iPoint := CVertex.Node vert in
  (* Get the velocity vector *)
  s ← for_ (nVar s) (fun iVar s =>
         a ← store "Solution" (Solution s) iVar 0%float;
         Ok (with_Solution a s)) s;
  nd ← get_node s iPoint;
  let s := set_node iPoint (CVariable.SetSolution_Old (Solution s) nd) s in
  nd ← get_node s iPoint;
  let s := set_node iPoint (CVariable.SetResidualZero nd) s in
  (* includes 1 in the diagonal *)
  Ok (with_Jacobian (CSparseMatrix.DeleteValsRowi iPoint (Jacobian s)) s).

Definition BC_NS_Wall (geometry : CGeometry.t) (solution_container : CFlowSolution)
  (config : CConfig.t) (val_marker : nat) (s : CTurbSolution) : result CTurbSolution :=
  vs ← marker_vertices geometry val_marker;
  for_ (length vs) (fun iVertex s =>
    vert ← at_ "vertex[val_marker]" vs iVertex;
    BC_NS_Wall_vertex vert s) s.

Section Boundary.

(** The indeterminate value of a freshly allocated double, and pow of the C
    library. *)
Variable uninit : float.
Variable pow : float -> float -> float.

(** [for (iVar = 0; iVar < flow nVar; iVar++) FlowSolution_i[iVar] = ...->GetSolution(iVar);] *)
Definition copy_FlowSolution_i (flow : CFlowSolution) (iPoint : nat) (s : CTurbSolution)
  : result CTurbSolution :=
  for_ (flow_nVar flow) (fun iVar s =>
    fnd ← at_ "solution_container[FLOW_SOL]->node" (flow_node flow) iPoint;
    x ← CVariable.GetSolution iVar fnd;
    a ← store "FlowSolution_i" (FlowSolution_i s) iVar x;
    Ok (with_FlowSolution_i a s)) s.

(** [for (iVar = 0; iVar < nVar; iVar++) Solution_i[iVar] = node[iPoint]->GetSolution(iVar);]
    with the value of [iVar] after the loop. *)
Definition copy_Solution_i (iPoint : nat) (s : CTurbSolution) : result (nat * CTurbSolution) :=
  for_idx (nVar s) (fun iVar s =>
    nd ← get_node s iPoint;
    x ← CVariable.GetSolution iVar nd;
    a ← store "Solution_i" (Solution_i s) iVar x;
    Ok (with_Solution_i a s)) s.

(** [vertex->GetNormal(Normal)] followed by the change of sign. *)
Definition outward_Normal (s : CTurbSolution) (vert : CVertex.t) (Normal : list float)
  : result (list float) :=
  Normal ← for_ (nDim s) (fun iDim Normal =>
              x ← at_ "vertex->Normal" (CVertex.Normal vert) iDim;
              store "Normal" Normal iDim x) Normal;
  for_ (nDim s) (fun iDim Normal =>
    x ← at_ "Normal" Normal iDim;
    store "Normal" Normal iDim (- x)%float) Normal.

(** Add residuals and jacobians, at a boundary vertex. *)
Definition boundary_scatter (config : CConfig.t) (iPoint : nat)
  (st : CTurbSolution * CNumerics.t) : result (CTurbSolution * CNumerics.t) :=
  let '(s, solver) := solver_SetResidual_i config st in
  s ← node_AddResidual iPoint s;
  Ok (with_Jacobian (CSparseMatrix.AddBlock iPoint iPoint (Jacobian_i s) (Jacobian s)) s, solver).

(** Conservative variables at infinity, in [FlowSolution_j]. *)
Definition freestream_FlowSolution_j (flow : CFlowSolution) (s : CTurbSolution)
  : result CTurbSolution :=
  a ← store "FlowSolution_j" (FlowSolution_j s) 0 (Density_Inf flow);
  a ← store "FlowSolution_j" a (nDim s + 1) (Density_Energy_Inf flow);
  let s := with_FlowSolution_j a s in
  for_ (nDim s) (fun iDim s =>
    x ← at_ "Density_Velocity_Inf" (Density_Velocity_Inf flow) iDim;
    a ← store "FlowSolution_j" (FlowSolution_j s) (iDim + 1) x;
    Ok (with_FlowSolution_j a s)) s.

Definition SA_BC_Far_Field_vertex (geometry : CGeometry.t) (flow : CFlowSolution)
  (config : CConfig.t) (rotating_frame : bool) (vert : CVertex.t)
  (st : list float * (CTurbSolution * CNumerics.t))
  : result (list float * (CTurbSolution * CNumerics.t)) :=
  let '(Normal, (s, solver)) := st in
  let iPoint := CVertex.Node vert in
  (* Set conservative variables at the wall, and at the infinity *)
  s ← copy_FlowSolution_i flow iPoint s;
  s ← freestream_FlowSolution_j flow s;
  (* Rotational frame *)
  solver ← (if rotating_frame
            then gp ← at_ "geometry->node" (CGeometry.node geometry) iPoint;
                 Ok (CNumerics.SetRotVel (CPoint.RotVel gp) (CPoint.RotVel gp) solver)
            else Ok solver);
  let solver := CNumerics.SetConservative (FlowSolution_i s) (FlowSolution_j s) solver in
  (* Set turbulent variable at the wall, and at infinity *)
  '(iVar, s) ← copy_Solution_i iPoint s;
  a ← store "Solution_j" (Solution_j s) 0 (nu_tilde_Inf s);
  let s := with_Solution_j a s in
  let solver := CNumerics.SetTurbVar (Solution_i s) (Solution_j s) solver in
  (* Set Normal (it is necessary to change the sign) *)
  Normal ← outward_Normal s vert Normal;
  let solver := CNumerics.SetNormal Normal solver in
  (* Compute residuals and jacobians; add residuals and jacobians *)
  st ← boundary_scatter config iPoint (s, solver);
  Ok (Normal, st).

Definition SA_BC_Far_Field (geometry : CGeometry.t) (flow : CFlowSolution)
  (config : CConfig.t) (val_marker : nat) (st : CTurbSolution * CNumerics.t)
  : result (CTurbSolution * CNumerics.t) :=
  let rotating_frame := CConfig.Rotating_Frame config in
  let Normal := new_array uninit (nDim st.1) in
  vs ← marker_vertices geometry val_marker;
  st ← for_ (length vs) (fun iVertex st =>
          vert ← at_ "vertex[val_marker]" vs iVertex;
          SA_BC_Far_Field_vertex geometry flow config rotating_frame vert st) (Normal, st);
  Ok st.2.

Definition SST_BC_Far_Field_vertex (flow : CFlowSolution) (config : CConfig.t)
  (vert : CVertex.t) (st : list float * (CTurbSolution * CNumerics.t))
  : result (list float * (CTurbSolution * CNumerics.t)) :=
  let '(Normal, (s, solver)) := st in
  let iPoint := CVertex.Node vert in
  (* Set conservative variables at the wall, and at the infinity *)
  s ← copy_FlowSolution_i flow iPoint s;
  s ← freestream_FlowSolution_j flow s;
  let solver := CNumerics.SetConservative (FlowSolution_i s) (FlowSolution_j s) solver in
  (* Set turbulent variable at the wall, and at infinity; the assignment of
     Solution_j[0] is commented out in the source *)
  '(iVar, s) ← copy_Solution_i iPoint s;
  let solver := CNumerics.SetTurbVar (Solution_i s) (Solution_j s) solver in
  (* Set Normal (it is necessary to change the sign) *)
  Normal ← outward_Normal s vert Normal;
  let solver := CNumerics.SetNormal Normal solver in
  st ← boundary_scatter config iPoint (s, solver);
  Ok (Normal, st).

Definition SST_BC_Far_Field (geometry : CGeometry.t) (flow : CFlowSolution)
  (config : CConfig.t) (val_marker : nat) (st : CTurbSolution * CNumerics.t)
  : result (CTurbSolution * CNumerics.t) :=
  let Normal := new_array uninit (nDim st.1) in
  vs ← marker_vertices geometry val_marker;
  st ← for_ (length vs) (fun iVertex st =>
          vert ← at_ "vertex[val_marker]" vs iVertex;
          SST_BC_Far_Field_vertex flow config vert st) (Normal, st);
  Ok st.2.

(** The turbulent variable at an outlet of CTurbSASolution: the copy loop,
    then the assignment that reads and writes at the loop variable. *)
Definition SA_BC_Outlet_turb (iPoint : nat) (s : CTurbSolution) : result CTurbSolution :=
  '(iVar, s) ← copy_Solution_i iPoint s;
  nd ← get_node s iPoint;
  x ← CVariable.GetSolution iVar nd;
  a ← store "Solution_j" (Solution_j s) iVar x;
  Ok (with_Solution_j a s).

Definition SA_BC_Outlet_vertex (flow : CFlowSolution) (config : CConfig.t)
  (vert : CVertex.t) (st : list float * (CTurbSolution * CNumerics.t))
  : result (list float * (CTurbSolution * CNumerics.t)) :=
  let '(Normal, (s, solver)) := st in
  let iPoint := CVertex.Node vert in
  (* Set the conservative variables, density & Velocity same as in the
     interior, don't need to modify pressure for the convection. *)
  fnd ← at_ "solution_container[FLOW_SOL]->node" (flow_node flow) iPoint;
  let solver := CNumerics.SetConservative (CVariable.Solution fnd) (CVariable.Solution fnd) solver in
  (* Set the turbulent variables. Here we use a Neumann BC such that the
     turbulent variable is copied from the interior of the domain to the
     outlet before computing the redidual. *)
  s ← SA_BC_Outlet_turb iPoint s;
  let solver := CNumerics.SetTurbVar (Solution_i s) (Solution_j s) solver in
  (* Set Normal (it is necessary to change the sign) *)
  Normal ← outward_Normal s vert Normal;
  let solver := CNumerics.SetNormal Normal solver in
  (* Add Residual and Jacobians *)
  st ← boundary_scatter config iPoint (s, solver);
  Ok (Normal, st).

Definition SA_BC_Outlet (geometry : CGeometry.t) (flow : CFlowSolution)
  (config : CConfig.t) (val_marker : nat) (st : CTurbSolution * CNumerics.t)
  : result (CTurbSolution * CNumerics.t) :=
  let Normal := new_array uninit 3 in
  vs ← marker_vertices geometry val_marker;
  st ← for_ (length vs) (fun iVertex st =>
          vert ← at_ "vertex[val_marker]" vs iVertex;
          SA_BC_Outlet_vertex flow config vert st) (Normal, st);
  Ok st.2.

Definition SST_BC_Outlet_vertex (flow : CFlowSolution) (config : CConfig.t)
  (vert : CVertex.t) (st : CTurbSolution * CNumerics.t)
  : result (CTurbSolution * CNumerics.t) :=
  let '(s, solver) := st in
  let iPoint := CVertex.Node vert in
  fnd ← at_ "solution_container[FLOW_SOL]->node" (flow_node flow) iPoint;
  let solver := CNumerics.SetConservative (CVariable.Solution fnd) (CVariable.Solution fnd) solver in
  (* Set the turbulent variables, Solution_i --> TurbVar_internal,
     Solution_j --> TurbVar_outlet; the assignment of Solution_j[iVar] is
     commented out in the source *)
  '(iVar, s) ← copy_Solution_i iPoint s;
  let solver := CNumerics.SetTurbVar (Solution_i s) (Solution_j s) solver in
  (* Set normal vector *)
  let solver := CNumerics.SetNormal (CVertex.Normal vert) solver in
  (* Add Residual and Jacobians *)
  boundary_scatter config iPoint (s, solver).

Definition SST_BC_Outlet (geometry : CGeometry.t) (flow : CFlowSolution)
  (config : CConfig.t) (val_marker : nat) (st : CTurbSolution * CNumerics.t)
  : result (CTurbSolution * CNumerics.t) :=
  vs ← marker_vertices geometry val_marker;
  for_ (length vs) (fun iVertex st =>
    vert ← at_ "vertex[val_marker]" vs iVertex;
    SST_BC_Outlet_vertex flow config vert st) st.

(** The exterior flow state of CTurbSASolution::BC_Inlet, from the total
    pressure, the total temperature and the flow direction of the marker, in
    [FlowSolution_j]; [Velocity] is the local array of three doubles. *)
Definition SA_BC_Inlet_flow (flow : CFlowSolution) (config : CConfig.t) (val_marker iPoint : nat)
  (Velocity : list float) (s : CTurbSolution) : result (list float * CTurbSolution) :=
  let Gas_Constant := CConfig.Gas_Constant config in
  (* Retrieve the specified flow quantities for this inlet boundary. *)
  let Pressure_Total := CConfig.Inlet_Ptotal config (CConfig.Marker_All_Tag config val_marker) in
  let Temperature_Total := CConfig.Inlet_Ttotal config (CConfig.Marker_All_Tag config val_marker) in
  let Flow_Direction := CConfig.Inlet_FlowDir config (CConfig.Marker_All_Tag config val_marker) in
  (* Interpolate the velocity from the interior of the domain. *)
  Velocity ← for_ (nDim s) (fun iDim Velocity =>
                fnd ← at_ "solution_container[FLOW_SOL]->node" (flow_node flow) iPoint;
                x ← at_ "Velocity" (CVariable.Velocity fnd) iDim;
                store "Velocity" Velocity iDim x) Velocity;
  fnd ← at_ "solution_container[FLOW_SOL]->node" (flow_node flow) iPoint;
  let Velocity2 := CVariable.Velocity2 fnd in
  (* Correct the flow velocity to be in the specified direction at the inlet. *)
  d ← at_ "Flow_Direction" Flow_Direction 0;
  Velocity ← store "Velocity" Velocity 0 (d * PrimFloat.sqrt Velocity2)%float;
  d ← at_ "Flow_Direction" Flow_Direction 1;
  Velocity ← store "Velocity" Velocity 1 (d * PrimFloat.sqrt Velocity2)%float;
  Velocity ← (if decide (nDim s = 3)
              then d ← at_ "Flow_Direction" Flow_Direction 2;
                   store "Velocity" Velocity 2 (d * PrimFloat.sqrt Velocity2)%float
              else Ok Velocity);
  (* With the total temperature we compute the total enthalpy *)
  let Enthalpy_Total := ((Gamma s * Gas_Constant / Gamma_Minus_One s) * Temperature_Total)%float in
  (* If we substract the 0.5*velocity^2 we obtain the static enthalpy *)
  let Enthalpy_Static := (Enthalpy_Total - 0.5 * Velocity2)%float in
  (* With the static enthalpy it is possible to compute the static temperature *)
  let Temperature_Static := (Enthalpy_Static * Gamma_Minus_One s / (Gamma s * Gas_Constant))%float in
  (* Isentropic relations: the static pressure at the inlet *)
  let Pressure_Static :=
    (Pressure_Total * pow (Temperature_Static / Temperature_Total) (Gamma s / Gamma_Minus_One s))%float in
  (* The density at the inlet *)
  let Density := (Pressure_Static / (Gas_Constant * Temperature_Static))%float in
  (* The energy at the inlet *)
  let Energy := (Pressure_Static / (Density * Gamma_Minus_One s) + 0.5 * Velocity2)%float in
  (* Conservative variables, using the derived quatities *)
  a ← store "FlowSolution_j" (FlowSolution_j s) 0 Density;
  v0 ← at_ "Velocity" Velocity 0;
  a ← store "FlowSolution_j" a 1 (v0 * Density)%float;
  v1 ← at_ "Velocity" Velocity 1;
  a ← store "FlowSolution_j" a 2 (v1 * Density)%float;
  a ← store "FlowSolution_j" a 3 (Energy * Density)%float;
  a ← (if decide (nDim s = 3)
       then v2 ← at_ "Velocity" Velocity 2;
            a ← store "FlowSolution_j" a 3 (v2 * Density)%float;
            store "FlowSolution_j" a 4 (Energy * Density)%float
       else Ok a);
  Ok (Velocity, with_FlowSolution_j a s).

(** The turbulent variable at an inlet of CTurbSASolution: the copy loop,
    then the assignment that writes at the loop variable. *)
Definition SA_BC_Inlet_turb (iPoint : nat) (s : CTurbSolution) : result CTurbSolution :=
  '(iVar, s) ← copy_Solution_i iPoint s;
  a ← store "Solution_j" (Solution_j s) iVar (nu_tilde_Inf s);
  Ok (with_Solution_j a s).

Definition SA_BC_Inlet_vertex (flow : CFlowSolution) (config : CConfig.t) (val_marker : nat)
  (vert : CVertex.t) (st : (list float * list float) * (CTurbSolution * CNumerics.t))
  : result ((list float * list float) * (CTurbSolution * CNumerics.t)) :=
  let '((Velocity, Normal), (s, solver)) := st in
  let iPoint := CVertex.Node vert in
  (* FlowSolution_i -> U_internal *)
  s ← copy_FlowSolution_i flow iPoint s;
  '(Velocity, s) ← SA_BC_Inlet_flow flow config val_marker iPoint Velocity s;
  (* Set the conservative variables *)
  let solver := CNumerics.SetConservative (FlowSolution_i s) (FlowSolution_j s) solver in
  (* Set Normal (it is necessary to change the sign) *)
  Normal ← outward_Normal s vert Normal;
  let solver := CNumerics.SetNormal Normal solver in
  (* Set the turbulent variable *)
  s ← SA_BC_Inlet_turb iPoint s;
  let solver := CNumerics.SetTurbVar (Solution_i s) (Solution_j s) solver in
  (* Add Residual and Jacobians *)
  st ← boundary_scatter config iPoint (s, solver);
  Ok ((Velocity, Normal), st).

Definition SA_BC_Inlet (geometry : CGeometry.t) (flow : CFlowSolution)
  (config : CConfig.t) (val_marker : nat) (st : CTurbSolution * CNumerics.t)
  : result (CTurbSolution * CNumerics.t) :=
  let Velocity := new_array uninit 3 in
  let Normal := new_array uninit 3 in
  vs ← marker_vertices geometry val_marker;
  st ← for_ (length vs) (fun iVertex st =>
          vert ← at_ "vertex[val_marker]" vs iVertex;
          SA_BC_Inlet_vertex flow config val_marker vert st) ((Velocity, Normal), st);
  Ok st.2.

End Boundary.

(** ** Construction and restart *)

(** What a constructor sees of its environment: the files that can be opened
    for reading, each as the characters it holds, and the characters waiting
    on the standard input. A run that calls exit(status) ends with what it
    has written to the standard output. *)
Record environment : Type := mkEnv {
  files : string -> option string;
  cin : list ascii
}.

Inductive startup (A : Type) : Type :=
| Constructed (a : A)
| Exited (status : Z) (cout : list string) (cin_left : list ascii).
Arguments Constructed {A} a.
Arguments Exited {A} status cout cin_left.

(** Modelled from the spec: the constructors of the node classes
    CTurbSAVariable and CTurbSSTVariable are not part of the sources at hand.
    The node holds the model's solution components, as the current and as
    the old solution, a zero residual accumulator and a zero gradient tensor
    of width x spatial dimension; its other scalars start at zero. *)
Definition new_CTurbVariable (sol : list float) (nDim nVar : nat) : CVariable.t :=
  CVariable.mk sol sol (vec_zero nVar) (replicate nVar (vec_zero nDim)) (vec_zero nVar)
    0%float 0%float 0%float 0%float (vec_zero nDim) 0%float.
Definition CTurbSAVariable (val_nu_tilde : float) (nDim nVar : nat) (config : CConfig.t)
  : CVariable.t := new_CTurbVariable [val_nu_tilde] nDim nVar.
Definition CTurbSSTVariable (val_kine val_omega : float) (nDim nVar : nat) (config : CConfig.t)
  : CVariable.t := new_CTurbVariable [val_kine; val_omega] nDim nVar.

(** An input stream (ifstream, istringstream): the characters not read yet
    while the stream is good, and [None] once eofbit or failbit is set; an
    extraction from a stream that is not good fails and stores nothing. *)
Definition istream : Type := option string.

(** The characters of [text] up to its first newline, and what follows that
    newline; [None] when [text] holds no newline. *)
Fixpoint until_newline (text : string) : string * option string :=
  match text with
  | EmptyString => (EmptyString, None)
  | String c rest =>
      if Ascii.eqb c "010"%char then (EmptyString, Some rest)
      else let '(line, after) := until_newline rest in (String c line, after)
  end.

(** [getline(stream, str)]: when the stream is not good, [str] is left as it is;
    otherwise [str] is erased and takes the characters up to the next
    newline, which is extracted and dropped. Reaching the end of the file
    sets eofbit, and failbit too when no character was extracted. *)
Definition getline (stream : istream) (str : string) : istream * string :=
  match stream with
  | None => (None, str)
  | Some EmptyString => (None, EmptyString)
  | Some text => let '(line, after) := until_newline text in (after, line)
  end.

(** isspace in the "C" locale: the space, and the characters from the
    horizontal tab to the carriage return. *)
Definition isspace (c : ascii) : bool :=
  let n := nat_of_ascii c in Nat.eqb n 32 || (Nat.leb 9 n && Nat.leb n 13).

Fixpoint skipws (text : string) : string :=
  match text with
  | EmptyString => EmptyString
  | String c rest => if isspace c then skipws rest else text
  end.

(** What the conversion of a formatted extraction makes of the characters at
    hand: a value, with the characters it leaves in the stream; or a
    failure, which stores nothing in the variable (before C++11) or stores
    the value [stored], zero or the nearest bound of the type (since
    C++11). *)
Inductive extracted (A : Type) : Type :=
| Read (x : A) (rest : string)
| Failed (stored : option A).
Arguments Read {A} x rest.
Arguments Failed {A} stored.

(** [stream >> x] with the conversion [num_get]: the new state of the stream and
    the value stored in [x], if one is. The sentry skips the white space; at
    the end of the stream it sets failbit and nothing is stored. A failed
    conversion sets failbit. *)
Definition extract {A} (num_get : string -> extracted A) (stream : istream)
  : istream * option A :=
  match stream with
  | None => (None, None)
  | Some text =>
      match skipws text with
      | EmptyString => (None, None)
      | chars =>
          match num_get chars with
          | Read x rest => (Some rest, Some x)
          | Failed stored => (None, stored)
          end
      end
  end.

Section Constructors.

Variable uninit : float.
(** cos, sin and pow of the C library, the macro PI_NUMBER, and the missing
    InitializeJacobianStructure of CSolution. *)
Variable cos sin : float -> float.
Variable pow : float -> float -> float.
Variable PI_NUMBER : float.
Variable InitializeJacobianStructure : CGeometry.t -> CConfig.t -> nat -> gmap (nat * nat) Block.
(** The conversions of the C++ library (num_get) for [unsigned long] and for
    [double], applied to the characters of a stream after its white space,
    of which there is at least one. What they accept and what a failure
    stores differ between the versions of the library. *)
Variable get_unsigned_long : string -> extracted N.
Variable get_double : string -> extracted float.

(** [point_line >> Solution[0]]. *)
Definition extract_Solution_0 (point_line : istream) (Solution : list float)
  : istream * list float :=
  let '(point_line, stored) := extract get_double point_line in
  (point_line, match stored with Some x => <[0:=x]> Solution | None => Solution end).

(** [istringstream point_line(text_line)] and the two chains
    [point_line >> index >> dull_val >> ... >> Solution[0]], with four
    [dull_val] when nDim is 2 and five when it is 3. The values read into
    [index] and [dull_val] are never used; an extraction that fails stops
    the chain, the later ones finding the stream not good. *)
Definition read_point_line (nDim : nat) (text_line : string) (Solution : list float)
  : list float :=
  let point_line : istream := Some text_line in
  let '(point_line, Solution) :=
    if decide (nDim = 2)
    then
      let point_line := (extract get_unsigned_long point_line).1 in
      let point_line := (extract get_double point_line).1 in
      let point_line := (extract get_double point_line).1 in
      let point_line := (extract get_double point_line).1 in
      let point_line := (extract get_double point_line).1 in
      extract_Solution_0 point_line Solution
    else (point_line, Solution) in
  let '(point_line, Solution) :=
    if decide (nDim = 3)
    then
      let point_line := (extract get_unsigned_long point_line).1 in
      let point_line := (extract get_double point_line).1 in
      let point_line := (extract get_double point_line).1 in
      let point_line := (extract get_double point_line).1 in
      let point_line := (extract get_double point_line).1 in
      let point_line := (extract get_double point_line).1 in
      extract_Solution_0 point_line Solution
    else (point_line, Solution) in
  Solution.

(** The restart loop: [getline(restart_file, text_line)], the reading of the
    line, and the node built from [Solution[0]] by [new_node]. *)
Fixpoint read_restart (new_node : float -> CVariable.t) (nDim nPoint : nat)
  (restart_file : istream) (text_line : string) (Solution : list float)
  (node : list CVariable.t) : list float * list CVariable.t :=
  match nPoint with
  | 0 => (Solution, node)
  | S n =>
      let '(restart_file, text_line) := getline restart_file text_line in
      let Solution := read_point_line nDim text_line Solution in
      read_restart new_node nDim n restart_file text_line Solution
        (node ++ [new_node (Solution !!! 0)])
  end.

(** The allocations common to both constructors, with the members that are
    set later still indeterminate. *)
Definition allocate (geometry : CGeometry.t) (config : CConfig.t) (nVar : nat) : CTurbSolution :=
  let nDim := CGeometry.nDim geometry in
  let implicit := bool_decide (CConfig.Kind_TimeIntScheme_Turb config = EULER_IMPLICIT) in
  {| nVar := nVar;
     nDim := nDim;
     node := [];
     Jacobian := if implicit then InitializeJacobianStructure geometry config nVar else ∅;
     Residual := new_array uninit nVar;
     Residual_Max := new_array uninit nVar;
     Solution := new_array uninit nVar;
     Solution_i := new_array uninit nVar;
     Solution_j := new_array uninit nVar;
     Vector_i := new_array uninit nDim;
     Vector_j := new_array uninit nDim;
     FlowSolution_i := new_array uninit (nDim + 2);
     FlowSolution_j := new_array uninit (nDim + 2);
     Jacobian_i := if implicit then replicate nVar (new_array uninit nVar) else [];
     Jacobian_j := if implicit then replicate nVar (new_array uninit nVar) else [];
     xsol := if implicit then new_array uninit (CGeometry.nPoint geometry * nVar) else [];
     rhs := if implicit then new_array uninit (CGeometry.nPoint geometry * nVar) else [];
     Gamma := CConfig.Gamma config;
     Gamma_Minus_One := (CConfig.Gamma config - 1.0)%float;
     nu_tilde_Inf := uninit;
     kine_Inf := uninit;
     omega_Inf := uninit |}.

Definition with_freestream (nu_tilde kine omega : float) (s : CTurbSolution) : CTurbSolution :=
  mkTurb (nVar s) (nDim s) (node s) (Jacobian s) (Residual s) (Residual_Max s) (Solution s)
    (Solution_i s) (Solution_j s) (Vector_i s) (Vector_j s) (FlowSolution_i s)
    (FlowSolution_j s) (Jacobian_i s) (Jacobian_j s) (xsol s) (rhs s) (Gamma s)
    (Gamma_Minus_One s) nu_tilde kine omega.

(** The else branch of both constructors: open the restart file, leave with
    exit(1) when that fails, and build one node per point from the lines. *)
Definition restart_nodes (env : environment) (config : CConfig.t)
  (new_node : float -> CVariable.t) (nPoint : nat) (s : CTurbSolution)
  : startup CTurbSolution :=
  let mesh_filename := CConfig.Solution_FlowFileName config in
  match files env mesh_filename with
  | None =>
      Exited 1 ["There is no turbulent restart file!!"; "Press any key to exit..."]
        (tl (cin env))
  | Some text =>
      let restart_file : istream := Some text in
      let text_line := EmptyString in
      let '(Solution, node) :=
        read_restart new_node (nDim s) nPoint restart_file text_line (Solution s) [] in
      Constructed (with_node node (with_Solution Solution s))
  end.

Definition CTurbSASolution (env : environment) (geometry : CGeometry.t) (config : CConfig.t)
  : startup CTurbSolution :=
  let restart := CConfig.Restart config || CConfig.Restart_Flow config in
  (* Dimension of the problem --> dependent of the turbulent model *)
  let nVar := 1 in
  let s := allocate geometry config nVar in
  (* Read farfield conditions from config *)
  let Density_Inf := CConfig.Density_FreeStreamND config in
  let Viscosity_Inf := CConfig.Viscosity_FreeStreamND config in
  (* Factor_nu_Inf in [3.0, 5.0] *)
  let Factor_nu_Inf := 3.0%float in
  let nu_tilde_Inf := (Factor_nu_Inf * Viscosity_Inf / Density_Inf)%float in
  let s := with_freestream nu_tilde_Inf (kine_Inf s) (omega_Inf s) s in
  let nPoint := CGeometry.nPoint geometry in
  (* Restart the solution from file information *)
  if negb restart
  then
    let s :=
      if decide (CConfig.Kind_Turb_Model config = SA)
      then with_node (replicate nPoint (CTurbSAVariable nu_tilde_Inf (nDim s) nVar config)) s
      else s in
    let s :=
      if decide (CConfig.Kind_Turb_Model config = SA_COMP)
      then with_node (replicate nPoint
             (CTurbSAVariable (Density_Inf * nu_tilde_Inf)%float (nDim s) nVar config)) s
      else s in
    Constructed s
  else
    restart_nodes env config (fun x => CTurbSAVariable x (nDim s) nVar config) nPoint s.

Definition CTurbSSTSolution (env : environment) (geometry : CGeometry.t) (config : CConfig.t)
  : startup CTurbSolution :=
  let c1 := 5%float in
  let c2 := 3%float in
  let restart := CConfig.Restart config || CConfig.Restart_Flow config in
  let Mach := CConfig.Mach_FreeStreamND config in
  let AoA := (CConfig.AoA config * PI_NUMBER / 180.0)%float in
  let AoS := (CConfig.AoS config * PI_NUMBER / 180.0)%float in
  (* Dimension of the problem --> dependent of the turbulent model *)
  let nVar := 2 in
  let s := allocate geometry config nVar in
  let Gamma := Gamma s in
  let Gamma_Minus_One := Gamma_Minus_One s in
  (* Flow infinity initialization stuff *)
  let Density_Inf := 1.0%float in
  let Pressure_Inf := (1.0 / Gamma)%float in
  let a := PrimFloat.sqrt (Gamma * Pressure_Inf / Density_Inf) in
  let Velocity_Inf := new_array uninit (nDim s) in
  let Velocity_Inf :=
    if decide (nDim s = 2)
    then <[1:=(sin AoA * Mach * a)%float]> (<[0:=(cos AoA * Mach * a)%float]> Velocity_Inf)
    else Velocity_Inf in
  let Velocity_Inf :=
    if decide (nDim s = 3)
    then <[2:=(sin AoA * cos AoS * Mach * a)%float]>
           (<[1:=(sin AoS * Mach * a)%float]>
              (<[0:=(cos AoA * cos AoS * Mach * a)%float]> Velocity_Inf))
    else Velocity_Inf in
  let Vel2 := foldl (fun Vel2 v => (Vel2 + v * v)%float) 0%float Velocity_Inf in
  let Energy_Inf := (Pressure_Inf / (Density_Inf * Gamma_Minus_One) + 0.5 * Vel2)%float in
  let SoundSpeed := PrimFloat.sqrt (Gamma * Gamma_Minus_One * (Energy_Inf - 0.5 * Vel2)) in
  let sqrtT := (SoundSpeed * CConfig.Mach_FreeStreamND config)%float in
  let Viscosity_Inf :=
    (1.404 * (sqrtT * sqrtT * sqrtT) / ((0.404 + sqrtT * sqrtT) * CConfig.Reynolds config))%float in
  let TurbViscosity_Inf := (Viscosity_Inf * pow 10.0 (- c2))%float in
  (* omega_Inf and kine_Inf *)
  let Length_Ref := CConfig.Length_Ref config in
  let omega_Inf := (c1 * PrimFloat.sqrt Vel2 / Length_Ref)%float in
  let kine_Inf := (TurbViscosity_Inf * omega_Inf / Density_Inf)%float in
  let s := with_freestream (nu_tilde_Inf s) kine_Inf omega_Inf s in
  let nPoint := CGeometry.nPoint geometry in
  (* Restart the solution from file information *)
  if negb restart
  then
    Constructed (with_node (replicate nPoint
      (CTurbSSTVariable (Density_Inf * kine_Inf)%float (Density_Inf * omega_Inf)%float
         (nDim s) nVar config)) s)
  else
    restart_nodes env config (fun x => CTurbSSTVariable x 0%float (nDim s) nVar config) nPoint s.

End Constructors.

(** ** Properties the boundary conditions are checked against *)

(** Row [i] of [J] is row [i] of [J0] deleted: the same blocks of the
    pattern, the identity on the diagonal and zero elsewhere. *)
Definition row_deleted (J0 J : gmap (nat * nat) Block) (i : nat) : Prop :=
  forall c, J !! (i, c) = CSparseMatrix.deleted_block i (i, c) <$> J0 !! (i, c).

(** The points of a list of boundary vertices. *)
Definition points (vs : list CVertex.t) : list nat := CVertex.Node <$> vs.

(** What the assembly of one edge [(i, j)] did to a solver [s], giving [s'],
    when the kernel returned the residual [R] and the blocks [Ji] and [Jj]:
    the residual went to the two end points with the operations [at_i] and
    [at_j], the blocks to the rows of [i] and of [j] with [row_i] and
    [row_j], and no other point and no other block changed. *)
Definition edge_assembled
    (at_i at_j : list float -> list float -> list float)
    (row_i row_j : Block -> Block -> Block)
    (i j : nat) (R : list float) (Ji Jj : Block) (s s' : CTurbSolution) : Prop :=
  (exists ni nj ni' nj',
     node s !! i = Some ni /\ node s !! j = Some nj /\
     node s' !! i = Some ni' /\ node s' !! j = Some nj' /\
     CVariable.Residual ni' = at_i (CVariable.Residual ni) R /\
     CVariable.Residual nj' = at_j (CVariable.Residual nj) R /\
     CVariable.Solution ni' = CVariable.Solution ni /\
     CVariable.Solution nj' = CVariable.Solution nj) /\
  (forall p, p <> i -> p <> j -> node s' !! p = node s !! p) /\
  Jacobian s' !! (i, i) = row_i Ji <$> Jacobian s !! (i, i) /\
  Jacobian s' !! (i, j) = row_i Jj <$> Jacobian s !! (i, j) /\
  Jacobian s' !! (j, i) = row_j Ji <$> Jacobian s !! (j, i) /\
  Jacobian s' !! (j, j) = row_j Jj <$> Jacobian s !! (j, j) /\
  (forall r c, (r <> i /\ r <> j) \/ (c <> i /\ c <> j) ->
     Jacobian s' !! (r, c) = Jacobian s !! (r, c)).

(** The kernel was called once more, on [inputs], and returned [R], [Ji]
    and [Jj]. *)
Definition kernel_called (config : CConfig.t) (solver solver' : CNumerics.t)
    (inputs : CNumerics.inputs) (R : list float) (Ji Jj : Block) : Prop :=
  CNumerics.calls solver' = (CNumerics.calls solver ++ [inputs])%list /\
  CNumerics.compute solver' = CNumerics.compute solver /\
  CNumerics.compute solver inputs config true = (R, Ji, Jj).

(** A gradient tensor has [n] rows of at least [d] columns. *)
Definition gradient_shape (n d : nat) (G : list (list float)) : Prop :=
  forall iVar, iVar < n -> exists row, G !! iVar = Some row /\ d <= length row.

(** The arrays the second-order reconstruction at the edge [(i, j)] reads
    and writes have the sizes the constructors give them: the points exist
    in the geometry, in the flow solver and in the turbulence solver, their
    coordinates, states, gradients and limiters have the widths of the
    loops, and so have the scratch arrays. *)
Definition reconstruct_ready (geometry : CGeometry.t) (flow : CFlowSolution)
    (config : CConfig.t) (i j : nat) (s : CTurbSolution) : Prop :=
  exists gi gj fi fj ni nj,
    CGeometry.node geometry !! i = Some gi /\ CGeometry.node geometry !! j = Some gj /\
    flow_node flow !! i = Some fi /\ flow_node flow !! j = Some fj /\
    node s !! i = Some ni /\ node s !! j = Some nj /\
    nDim s <= length (CPoint.Coord gi) /\ nDim s <= length (CPoint.Coord gj) /\
    nDim s <= length (Vector_i s) /\ nDim s <= length (Vector_j s) /\
    flow_nVar flow <= length (CVariable.Solution fi) /\
    flow_nVar flow <= length (CVariable.Solution fj) /\
    gradient_shape (flow_nVar flow) (nDim s) (CVariable.Gradient fi) /\
    gradient_shape (flow_nVar flow) (nDim s) (CVariable.Gradient fj) /\
    flow_nVar flow <= length (FlowSolution_i s) /\
    flow_nVar flow <= length (FlowSolution_j s) /\
    nVar s <= length (CVariable.Solution ni) /\ nVar s <= length (CVariable.Solution nj) /\
    gradient_shape (nVar s) (nDim s) (CVariable.Gradient ni) /\
    gradient_shape (nVar s) (nDim s) (CVariable.Gradient nj) /\
    nVar s <= length (Solution_i s) /\ nVar s <= length (Solution_j s) /\
    (CConfig.Kind_SlopeLimit_Turb config <> NONE ->
     nVar s <= length (CVariable.Limiter ni) /\ nVar s <= length (CVariable.Limiter nj)).

(** The arrays the flow part of CTurbSASolution::BC_Inlet reads and writes
    at the vertex [vert] have the sizes that part needs: the point exists in
    the flow solver with its state and velocity, there are at most three
    dimensions, and the flow direction, [FlowSolution_i], [FlowSolution_j]
    and the normal of the vertex are wide enough. *)
Definition inlet_flow_ready (flow : CFlowSolution) (config : CConfig.t) (val_marker : nat)
    (vert : CVertex.t) (s : CTurbSolution) : Prop :=
  exists fnd,
    flow_node flow !! CVertex.Node vert = Some fnd /\
    flow_nVar flow <= length (CVariable.Solution fnd) /\
    flow_nVar flow <= length (FlowSolution_i s) /\
    nDim s <= 3 /\
    nDim s <= length (CVariable.Velocity fnd) /\
    (if decide (nDim s = 3) then 3 else 2)
      <= length (CConfig.Inlet_FlowDir config (CConfig.Marker_All_Tag config val_marker)) /\
    (if decide (nDim s = 3) then 5 else 4) <= length (FlowSolution_j s) /\
    nDim s <= length (CVertex.Normal vert).

(** The arrays a far-field or outlet loop over the vertices [vs] reads and
    writes have the sizes the constructors give them: every vertex point
    exists in both solvers with a state of the solver's width, the scratch
    arrays and the freestream velocity are wide enough, the normal of every
    vertex has nDim components, and the point exists in the geometry when
    the frame rotates. *)
Definition boundary_ready (geometry : CGeometry.t) (flow : CFlowSolution)
    (config : CConfig.t) (s : CTurbSolution) (vs : list CVertex.t) : Prop :=
  length (Solution_i s) = nVar s /\
  flow_nVar flow <= length (FlowSolution_i s) /\
  nDim s + 2 <= length (FlowSolution_j s) /\
  nDim s <= length (Density_Velocity_Inf flow) /\
  forall v, v ∈ vs ->
    exists nd fnd,
      node s !! CVertex.Node v = Some nd /\
      flow_node flow !! CVertex.Node v = Some fnd /\
      length (CVariable.Solution nd) = nVar s /\
      flow_nVar flow <= length (CVariable.Solution fnd) /\
      nDim s <= length (CVertex.Normal v) /\
      (CConfig.Rotating_Frame config = true ->
       CVertex.Node v < length (CGeometry.node geometry)).

(** The turbulent state of the point of a vertex, in the solver [s]. *)
Definition interior_state (s : CTurbSolution) (v : CVertex.t) : list float :=
  default [] (CVariable.Solution <$> node s !! CVertex.Node v).

(** Between [solver] and [solver'] the kernel was called once per element of
    [states], in order, with that pair (interior, exterior) of turbulent
    states as its inputs. *)
Definition turb_states_handed (solver solver' : CNumerics.t)
    (states : list (list float * list float)) : Prop :=
  exists new, CNumerics.calls solver' = (CNumerics.calls solver ++ new)%list /\
    CNumerics.TurbVar <$> new = states.

(** The volume-weighted L2 norm of component [iVar] of the residual: the
    square root of the sum, over the domain points in index order, of the
    squared residual times the control volume of the point, added up in
    doubles from 0.0. *)
Definition weighted_square (geometry : CGeometry.t) (s : CTurbSolution) (iVar iPoint : nat)
  : float :=
  match node s !! iPoint, CGeometry.node geometry !! iPoint with
  | Some nd, Some gp =>
      match CVariable.Residual nd !! iVar with
      | Some r => (r * r * CPoint.Volume gp)%float
      | None => 0%float
      end
  | _, _ => 0%float
  end.

Definition sum_weighted_squares (geometry : CGeometry.t) (s : CTurbSolution)
    (iVar nPoints : nat) : float :=
  foldl (fun acc iPoint => (acc + weighted_square geometry s iVar iPoint)%float) 0%float
    (seq 0 nPoints).

Definition residual_monitor (geometry : CGeometry.t) (s : CTurbSolution) (iVar : nat) : float :=
  PrimFloat.sqrt (sum_weighted_squares geometry s iVar (CGeometry.nPointDomain geometry)).

(** The arrays the implicit step reads and writes have the sizes the
    constructors give them: the domain points exist in the geometry and in
    both solvers, their residuals have the solver's width, and the monitor
    and the two vectors of the linear system are long enough. *)
Definition implicit_ready (geometry : CGeometry.t) (flow : CFlowSolution)
    (s : CTurbSolution) : Prop :=
  nVar s <= length (Residual_Max s) /\
  CGeometry.nPointDomain geometry <= length (node s) /\
  CGeometry.nPointDomain geometry <= length (CGeometry.node geometry) /\
  CGeometry.nPointDomain geometry <= length (flow_node flow) /\
  CGeometry.nPointDomain geometry * nVar s <= length (rhs s) /\
  CGeometry.nPointDomain geometry * nVar s <= length (xsol s) /\
  forall iPoint nd, iPoint < CGeometry.nPointDomain geometry ->
    node s !! iPoint = Some nd -> nVar s <= length (CVariable.Residual nd).

(** Component [iVar] of the solution of a node, and component [iVar] of its
    gradient along the dimension [d]. *)
Definition solution_component (nd : CVariable.t) (iVar : nat) : option float :=
  CVariable.Solution nd !! iVar.
Definition gradient_component (d : nat) (nd : CVariable.t) (iVar : nat) : option float :=
  CVariable.Gradient nd !! iVar ≫= (.!! d).

(** A message buffer of nVertex*nVar doubles holds, for every vertex [k] of
    the marker and every state component [iVar], at [k*nVar + iVar] the
    [field] of the node of the vertex point in the solver [s]. *)
Definition packed (s : CTurbSolution) (vs : list CVertex.t)
    (field : CVariable.t -> nat -> option float) (buf : list float) : Prop :=
  length buf = length vs * nVar s /\
  forall k v iVar nd, vs !! k = Some v -> iVar < nVar s ->
    node s !! CVertex.Node v = Some nd ->
    buf !! (k * nVar s + iVar) = field nd iVar.

(** The nodes of the vertex points of a marker exist, with a solution of the
    solver's width and a gradient of that many rows and of two columns, or
    three when nDim = 3. *)
Definition halo_ready (s : CTurbSolution) (vs : list CVertex.t) : Prop :=
  forall v, v ∈ vs ->
    exists nd, node s !! CVertex.Node v = Some nd /\
      nVar s <= length (CVariable.Solution nd) /\
      gradient_shape (nVar s) (if decide (nDim s = 3) then 3 else 2) (CVariable.Gradient nd).

(** The solver [s] holds the message buffer [buf] at the vertex points of
    the marker: the buffer has nVertex*nVar doubles, and for every vertex
    [k] and every state component [iVar] the node of the vertex point
    exists, has the [field] of index [iVar], and that is the entry
    [k*nVar + iVar] of the buffer. *)
Definition marker_holds (s : CTurbSolution) (vs : list CVertex.t)
    (field : CVariable.t -> nat -> option float) (buf : list float) : Prop :=
  length buf = length vs * nVar s /\
  forall k v iVar, vs !! k = Some v -> iVar < nVar s ->
    exists nd x, node s !! CVertex.Node v = Some nd /\ field nd iVar = Some x /\
      buf !! (k * nVar s + iVar) = Some x.

(** ** Properties the restart is checked against *)

(** The text of a file whose lines are [lines], each ended by a newline; the
    last line is ended by one when [final_newline] is set. *)
Fixpoint text_of_lines (lines : list string) (final_newline : bool) : string :=
  match lines with
  | [] => EmptyString
  | [line] => if final_newline then String.append line (String "010"%char EmptyString) else line
  | line :: rest => String.append line (String "010"%char (text_of_lines rest final_newline))
  end.

Fixpoint no_newline (line : string) : bool :=
  match line with
  | EmptyString => true
  | String c rest => negb (Ascii.eqb c "010"%char) && no_newline rest
  end.

(** [n] numbers are read in turn from the characters [text], which leaves
    the characters [rest]. *)
Fixpoint fields_dropped (get_double : string -> extracted float) (n : nat)
    (text rest : string) : Prop :=
  match n with
  | 0 => text = rest
  | S n =>
      exists x mid, extract get_double (Some text) = (Some mid, Some x) /\
        fields_dropped get_double n mid rest
  end.

(** The line [text_line] is read to its solution column: the library reads
    an unsigned integer at its start, then nDim + 2 numbers, and then the
    number [x]. *)
Definition line_reads (get_unsigned_long : string -> extracted N)
    (get_double : string -> extracted float) (nDim : nat) (text_line : string) (x : float)
  : Prop :=
  exists index after_index before_x rest,
    extract get_unsigned_long (Some text_line) = (Some after_index, Some index) /\
    fields_dropped get_double (nDim + 2) after_index before_x /\
    extract get_double (Some before_x) = (Some rest, Some x).

(** ** Sample inputs *)

(** A mesh of two points joined by one edge, with one boundary marker that
    holds both points, and the solvers' state on it. *)
Definition sample_geometry : CGeometry.t :=
  {| CGeometry.nDim := 2;
     CGeometry.nPoint := 2;
     CGeometry.nPointDomain := 2;
     CGeometry.edge := [CEdge.mk (0, 1) [1; 0]%float];
     CGeometry.node := [CPoint.mk 2%float [0; 0]%float [0; 0]%float;
                        CPoint.mk 4%float [1; 0]%float [0; 0]%float];
     CGeometry.vertex := [[CVertex.mk 0 [-1; 0]%float; CVertex.mk 1 [1; 0]%float]] |}.

Definition sample_config (SendRecv : Z) (scheme : ENUM_TIME_INT) (model : ENUM_TURB_MODEL)
  (restart : bool) : CConfig.t :=
  {| CConfig.Marker_All_SendRecv := fun _ => SendRecv;
     CConfig.Marker_All_Tag := fun _ => "inlet";
     CConfig.Kind_TimeIntScheme_Turb := scheme;
     CConfig.Beta_RKStep := fun _ => 0%float;
     CConfig.Kind_Turb_Model := model;
     CConfig.Kind_Upwind_Turb := SCALAR_UPWIND_1ST;
     CConfig.Kind_Gradient_Method := GREEN_GAUSS;
     CConfig.Kind_SlopeLimit_Turb := NONE;
     CConfig.Rotating_Frame := false;
     CConfig.Restart := restart;
     CConfig.Restart_Flow := false;
     CConfig.Solution_FlowFileName := "solution_flow.dat";
     CConfig.Gamma := 1.4%float;
     CConfig.Gas_Constant := 1%float;
     CConfig.Density_FreeStreamND := 1%float;
     CConfig.Viscosity_FreeStreamND := 1%float;
     CConfig.Mach_FreeStreamND := 0.5%float;
     CConfig.AoA := 0%float;
     CConfig.AoS := 0%float;
     CConfig.Reynolds := 1000%float;
     CConfig.Length_Ref := 1%float;
     CConfig.Inlet_Ptotal := fun _ => 1%float;
     CConfig.Inlet_Ttotal := fun _ => 1%float;
     CConfig.Inlet_FlowDir := fun _ => [1; 0; 0]%float |}.

Definition sample_flow_node : CVariable.t :=
  CVariable.mk [1; 1; 0; 2]%float [1; 1; 0; 2]%float [0; 0; 0; 0]%float
    (replicate 4 [0; 0]%float) [1; 1; 1; 1]%float 0%float 1%float 0%float 0.5%float
    [1; 0]%float 1%float.

Definition sample_flow : CFlowSolution :=
  {| flow_nVar := 4;
     flow_node := [sample_flow_node; sample_flow_node];
     Density_Inf := 1%float;
     Density_Energy_Inf := 2%float;
     Density_Velocity_Inf := [1; 0]%float |}.

(** A node of the turbulence solver with the same value [x] in the [n]
    components of its solution, and residual [r]. *)
Definition sample_node (n : nat) (x r : float) : CVariable.t :=
  CVariable.mk (replicate n x) (replicate n x) (replicate n r)
    (replicate n [x; r]%float) (replicate n 1%float) 0%float 0%float 0%float 1%float
    [0; 0]%float 0%float.

(** A solver of state width [n] on the sample mesh; its scratch arrays hold
    7 and its Jacobian has the four blocks of the edge, each 2 times the
    identity. *)
Definition sample_solver (n : nat) : CTurbSolution :=
  let b := block_add_diag 2%float (block_zero n) in
  {| nVar := n;
     nDim := 2;
     node := [sample_node n 1%float 5%float; sample_node n 3%float 6%float];
     Jacobian := <[(0, 0) := b]> (<[(0, 1) := b]> (<[(1, 0) := b]> (<[(1, 1) := b]> ∅)));
     Residual := replicate n 7%float;
     Residual_Max := replicate n 7%float;
     Solution := replicate n 7%float;
     Solution_i := replicate n 7%float;
     Solution_j := replicate n 7%float;
     Vector_i := [7; 7]%float;
     Vector_j := [7; 7]%float;
     FlowSolution_i := replicate 4 7%float;
     FlowSolution_j := replicate 4 7%float;
     Jacobian_i := replicate n (replicate n 7%float);
     Jacobian_j := replicate n (replicate n 7%float);
     xsol := replicate (2 * n) 7%float;
     rhs := replicate (2 * n) 7%float;
     Gamma := 1.4%float;
     Gamma_Minus_One := 0.4%float;
     nu_tilde_Inf := 3%float;
     kine_Inf := 0.25%float;
     omega_Inf := 5%float |}.

(** A kernel whose residual is the difference of the turbulent states it was
    given and whose blocks are the identity and its opposite. *)
Definition sample_kernel : CNumerics.kernel := fun i _ _ =>
  (vec_sub (CNumerics.TurbVar i).1 (CNumerics.TurbVar i).2,
   block_identity (length (CNumerics.TurbVar i).1),
   block_sub (block_identity (length (CNumerics.TurbVar i).1))
     (block_zero (length (CNumerics.TurbVar i).1))).

Definition sample_numerics : CNumerics.t :=
  CNumerics.mk sample_kernel
    (CNumerics.mkInputs [] ([], []) ([], []) ([], []) ([], []) (0, 0)%float (0, 0)%float
       ([], []) ([], []) 0%float) [].

(** A reading of decimal numerals for the sample files, as the library of
    GCC reads them since C++11. An unsigned long is an optional sign and
    digits. A double is an optional sign, digits with at most one point
    among them, and an optional exponent. Anything else fails and stores
    zero, a value out of range fails and stores the nearest bound. The value
    of a double is the one of the library when its digits make an integer
    below 2^53 and the power of ten is at most 10^22. *)
Definition is_digit (c : ascii) : bool :=
  let n := nat_of_ascii c in Nat.leb 48 n && Nat.leb n 57.

Fixpoint read_digits (text : string) : list nat * string :=
  match text with
  | EmptyString => ([], EmptyString)
  | String c rest =>
      if is_digit c
      then let '(ds, after) := read_digits rest in ((nat_of_ascii c - 48) :: ds, after)
      else ([], text)
  end.

Definition read_sign (text : string) : bool * string :=
  match text with
  | String c rest =>
      if Ascii.eqb c "-"%char then (true, rest)
      else if Ascii.eqb c "+"%char then (false, rest)
      else (false, text)
  | EmptyString => (false, text)
  end.

Definition sample_get_unsigned_long (text : string) : extracted N :=
  let '(negative, text) := read_sign text in
  let '(ds, rest) := read_digits text in
  match ds with
  | [] => Failed (Some 0%N)
  | _ =>
      let v := foldl (fun v d => (v * 10 + N.of_nat d)%N) 0%N ds in
      if (2 ^ 64 <=? v)%N then Failed (Some (2 ^ 64 - 1)%N)
      else Read (if negative then ((2 ^ 64 - v) mod 2 ^ 64)%N else v) rest
  end.

Definition digit_float (d : nat) : float :=
  nth d [0; 1; 2; 3; 4; 5; 6; 7; 8; 9]%float 0%float.

Definition pow10 (n : nat) : float := Nat.iter n (fun p => (p * 10)%float) 1%float.

Definition sample_get_double (text : string) : extracted float :=
  let '(negative, text) := read_sign text in
  let '(ds, text) := read_digits text in
  let '(fs, text) :=
    match text with
    | String c rest => if Ascii.eqb c "."%char then read_digits rest else ([], text)
    | EmptyString => ([], text)
    end in
  let exponent : option (Z * string) :=
    match text with
    | String c rest =>
        if Ascii.eqb c "e"%char || Ascii.eqb c "E"%char
        then
          let '(minus, rest) := read_sign rest in
          let '(es, rest) := read_digits rest in
          match es with
          | [] => None
          | _ =>
              let e := foldl (fun e d => e * 10 + d) 0 es in
              Some (if minus then (- Z.of_nat e)%Z else Z.of_nat e, rest)
          end
        else Some (0%Z, text)
    | EmptyString => Some (0%Z, text)
    end in
  match (ds ++ fs)%list, exponent with
  | [], _ | _, None => Failed (Some 0%float)
  | digits, Some (e, rest) =>
      let m := foldl (fun m d => (m * 10 + digit_float d)%float) 0%float digits in
      let k := (e - Z.of_nat (length fs))%Z in
      let x := if (0 <=? k)%Z then (m * pow10 (Z.to_nat k))%float
               else (m / pow10 (Z.to_nat (- k)))%float in
      let x := if negative then (- x)%float else x in
      if PrimFloat.is_infinity x
      then Failed (Some (if negative then (- 0x1.fffffffffffffp+1023)%float
                         else 0x1.fffffffffffffp+1023%float))
      else Read x rest
  end.

(** A restart file of the sample mesh, written for the two-equation model:
    per line the point index, four flow columns and the two solution
    components; and an environment that holds it, or no file at all. *)
Definition sample_restart_lines : list string :=
  ["0 1 1 0 2 1.5 2.5"; "1 1 1 0 2 3.5 4.5"].

Definition sample_restart_file : string := text_of_lines sample_restart_lines true.

Definition sample_environment (present : bool) : environment :=
  {| files := fun name =>
       if present && bool_decide (name = "solution_flow.dat")
       then Some sample_restart_file else None;
     cin := ["q"%char] |}.

(** ** Preprocessing *)

Section Preprocessing.

(** The gradient computations of the missing base class CSolution, called
    here on the turbulence solver itself, and the method of the missing node
    class CTurbSSTVariable that recomputes the blending scalar of a node from
    the laminar viscosity, the wall distance and the density it is given,
    are parameters. *)
Variable SetSolution_Gradient_GG : CGeometry.t -> CTurbSolution -> CTurbSolution.
Variable SetSolution_Gradient_LS : CGeometry.t -> CConfig.t -> CTurbSolution -> CTurbSolution.
Variable SetF1blending : float -> float -> float -> CVariable.t -> CVariable.t.

(** The two [if]s on the gradient method that end both Preprocessing
    routines. *)
Definition solution_gradient (geometry : CGeometry.t) (config : CConfig.t)
  (s : CTurbSolution) : CTurbSolution :=
  let s :=
    if decide (CConfig.Kind_Gradient_Method config = GREEN_GAUSS)
    then SetSolution_Gradient_GG geometry s else s in
  if decide (CConfig.Kind_Gradient_Method config = LEAST_SQUARES
             ∨ CConfig.Kind_Gradient_Method config = WEIGHTED_LEAST_SQUARES)
  then SetSolution_Gradient_LS geometry config s else s.

Definition SA_Preprocessing (geometry : CGeometry.t) (solution_container : CFlowSolution)
  (config : CConfig.t) (iRKStep : nat) (s : CTurbSolution) : result CTurbSolution :=
  s ← for_ (CGeometry.nPoint geometry) (fun iPoint s =>
         nd ← get_node s iPoint;
         Ok (set_node iPoint (CVariable.SetResidualZero nd) s)) s;
  let s := with_Jacobian (CSparseMatrix.SetValZero (Jacobian s)) s in
  Ok (solution_gradient geometry config s).

(** [eikonal] is solution_container[EIKONAL_SOL]->node, the nodes of the
    wall-distance solver. The three arguments of SetF1blending are taken
    from left to right. *)
Definition SST_Preprocessing (geometry : CGeometry.t) (flow : CFlowSolution)
  (eikonal : list CVariable.t) (config : CConfig.t) (iRKStep : nat) (s : CTurbSolution)
  : result CTurbSolution :=
  s ← for_ (CGeometry.nPoint geometry) (fun iPoint s =>
         nd ← get_node s iPoint;
         let s := set_node iPoint (CVariable.SetResidualZero nd) s in
         nd ← get_node s iPoint;
         fnd ← at_ "solution_container[FLOW_SOL]->node" (flow_node flow) iPoint;
         let mu := CVariable.LaminarViscosity fnd in
         wnd ← at_ "solution_container[EIKONAL_SOL]->node" eikonal iPoint;
         dist ← CVariable.GetSolution 0 wnd;
         rho ← CVariable.GetSolution 0 fnd;
         Ok (set_node iPoint (SetF1blending mu dist rho nd) s)) s;
  let s := with_Jacobian (CSparseMatrix.SetValZero (Jacobian s)) s in
  Ok (solution_gradient geometry config s).

End Preprocessing.

(** ** Source terms *)

(** Modelled from the spec: the class CNumerics is not part of the sources at
    hand. For a source term the kernel is given one state vector, with its
    gradients and auxiliary scalars (viscosities, blending, the control
    volume and the distance to the wall), and returns a residual vector and
    one Jacobian block. The setters are the ones of the flux kernels, and
    three more; where the solver passes NULL for the second argument of a
    pair, the field holds [None]. [calls] is the ghost trace of the inputs
    at each call of SetResidual, oldest first. *)
Module CSourceNumerics.
Record inputs : Type := mkInputs {
  Conservative : list float * option (list float);
  PrimVarGradient : list (list float) * option (list (list float));
  ConsVarGradient : list (list float) * option (list (list float));
  LaminarViscosity : float * float;
  EddyViscosity : float * float;
  TurbVar : list float * option (list float);
  TurbVarGradient : list (list float) * option (list (list float));
  Volume : float;
  Distance : float * float;
  F1blending : float
}.

(** SetResidual(val_residual, val_Jacobian_i, NULL, config). *)
Definition kernel : Type := inputs -> CConfig.t -> list float * Block.

Record t : Type := mk { compute : kernel; current : inputs; calls : list inputs }.

Definition upd (f : inputs -> inputs) (k : t) : t := mk (compute k) (f (current k)) (calls k).

Definition SetConservative (x : list float) (y : option (list float)) : t -> t :=
  upd (fun i => mkInputs (x, y) (PrimVarGradient i) (ConsVarGradient i) (LaminarViscosity i)
    (EddyViscosity i) (TurbVar i) (TurbVarGradient i) (Volume i) (Distance i) (F1blending i)).
Definition SetPrimVarGradient (x : list (list float)) (y : option (list (list float))) : t -> t :=
  upd (fun i => mkInputs (Conservative i) (x, y) (ConsVarGradient i) (LaminarViscosity i)
    (EddyViscosity i) (TurbVar i) (TurbVarGradient i) (Volume i) (Distance i) (F1blending i)).
Definition SetConsVarGradient (x : list (list float)) (y : option (list (list float))) : t -> t :=
  upd (fun i => mkInputs (Conservative i) (PrimVarGradient i) (x, y) (LaminarViscosity i)
    (EddyViscosity i) (TurbVar i) (TurbVarGradient i) (Volume i) (Distance i) (F1blending i)).
Definition SetLaminarViscosity (x y : float) : t -> t :=
  upd (fun i => mkInputs (Conservative i) (PrimVarGradient i) (ConsVarGradient i) (x, y)
    (EddyViscosity i) (TurbVar i) (TurbVarGradient i) (Volume i) (Distance i) (F1blending i)).
Definition SetEddyViscosity (x y : float) : t -> t :=
  upd (fun i => mkInputs (Conservative i) (PrimVarGradient i) (ConsVarGradient i)
    (LaminarViscosity i) (x, y) (TurbVar i) (TurbVarGradient i) (Volume i) (Distance i)
    (F1blending i)).
Definition SetTurbVar (x : list float) (y : option (list float)) : t -> t :=
  upd (fun i => mkInputs (Conservative i) (PrimVarGradient i) (ConsVarGradient i)
    (LaminarViscosity i) (EddyViscosity i) (x, y) (TurbVarGradient i) (Volume i) (Distance i)
    (F1blending i)).
Definition SetTurbVarGradient (x : list (list float)) (y : option (list (list float))) : t -> t :=
  upd (fun i => mkInputs (Conservative i) (PrimVarGradient i) (ConsVarGradient i)
    (LaminarViscosity i) (EddyViscosity i) (TurbVar i) (x, y) (Volume i) (Distance i)
    (F1blending i)).
Definition SetVolume (x : float) : t -> t :=
  upd (fun i => mkInputs (Conservative i) (PrimVarGradient i) (ConsVarGradient i)
    (LaminarViscosity i) (EddyViscosity i) (TurbVar i) (TurbVarGradient i) x (Distance i)
    (F1blending i)).
Definition SetDistance (x y : float) : t -> t :=
  upd (fun i => mkInputs (Conservative i) (PrimVarGradient i) (ConsVarGradient i)
    (LaminarViscosity i) (EddyViscosity i) (TurbVar i) (TurbVarGradient i) (Volume i) (x, y)
    (F1blending i)).
Definition SetF1blending (x : float) : t -> t :=
  upd (fun i => mkInputs (Conservative i) (PrimVarGradient i) (ConsVarGradient i)
    (LaminarViscosity i) (EddyViscosity i) (TurbVar i) (TurbVarGradient i) (Volume i)
    (Distance i) x).

Definition SetResidual (config : CConfig.t) (k : t) : list float * Block * t :=
  (compute k (current k) config, mk (compute k) (current k) (calls k ++ [current k])%list).
End CSourceNumerics.

Section Sources.

(** The accessor of the missing class CVariable for the gradient of the
    primitive variables, which the record of a node does not carry. *)
Variable GetGradient_Primitive : CVariable.t -> list (list float).

(** The end of both SourcePieceWise_Residual loop bodies: compute the source
    term, subtract the residual and the Jacobian. *)
Definition SourcePieceWise_scatter (config : CConfig.t) (iPoint : nat)
  (st : CTurbSolution * CSourceNumerics.t) : result (CTurbSolution * CSourceNumerics.t) :=
  let '(s, solver) := st in
  let '(r, ji, solver) := CSourceNumerics.SetResidual config solver in
  let s := with_Jacobian_i ji (with_Residual r s) in
  s ← node_SubtractResidual iPoint s;
  Ok (with_Jacobian (CSparseMatrix.SubtractBlock iPoint iPoint (Jacobian_i s) (Jacobian s)) s,
      solver).

Definition SA_SourcePieceWise_Residual_point (geometry : CGeometry.t) (flow : CFlowSolution)
  (eikonal : list CVariable.t) (config : CConfig.t) (iPoint : nat)
  (st : CTurbSolution * CSourceNumerics.t) : result (CTurbSolution * CSourceNumerics.t) :=
  let '(s, solver) := st in
  (* Conservative variables w/o reconstruction *)
  fnd ← at_ "solution_container[FLOW_SOL]->node" (flow_node flow) iPoint;
  let solver := CSourceNumerics.SetConservative (CVariable.Solution fnd) None solver in
  (* Gradient of the primitive and conservative variables *)
  let solver := CSourceNumerics.SetPrimVarGradient (GetGradient_Primitive fnd) None solver in
  let solver :=
    if decide (CConfig.Kind_Turb_Model config = SA_COMP ∨ CConfig.Kind_Turb_Model config = SST)
    then CSourceNumerics.SetConsVarGradient (CVariable.Gradient fnd) None solver
    else solver in
  (* Laminar viscosity *)
  let solver := CSourceNumerics.SetLaminarViscosity (CVariable.LaminarViscosity fnd) 0.0 solver in
  (* Turbulent variables w/o reconstruction, and its gradient *)
  nd ← get_node s iPoint;
  let solver := CSourceNumerics.SetTurbVar (CVariable.Solution nd) None solver in
  let solver := CSourceNumerics.SetTurbVarGradient (CVariable.Gradient nd) None solver in
  (* Set volume *)
  gp ← at_ "geometry->node" (CGeometry.node geometry) iPoint;
  let solver := CSourceNumerics.SetVolume (CPoint.Volume gp) solver in
  (* Set distance to the surface *)
  wnd ← at_ "solution_container[EIKONAL_SOL]->node" eikonal iPoint;
  dist ← CVariable.GetSolution 0 wnd;
  let solver := CSourceNumerics.SetDistance dist 0.0 solver in
  SourcePieceWise_scatter config iPoint (s, solver).

Definition SA_SourcePieceWise_Residual (geometry : CGeometry.t) (flow : CFlowSolution)
  (eikonal : list CVariable.t) (config : CConfig.t) (st : CTurbSolution * CSourceNumerics.t)
  : result (CTurbSolution * CSourceNumerics.t) :=
  for_ (CGeometry.nPointDomain geometry)
    (SA_SourcePieceWise_Residual_point geometry flow eikonal config) st.

Definition SST_SourcePieceWise_Residual_point (geometry : CGeometry.t) (flow : CFlowSolution)
  (eikonal : list CVariable.t) (config : CConfig.t) (iPoint : nat)
  (st : CTurbSolution * CSourceNumerics.t) : result (CTurbSolution * CSourceNumerics.t) :=
  let '(s, solver) := st in
  (* Conservative variables w/o reconstruction *)
  fnd ← at_ "solution_container[FLOW_SOL]->node" (flow_node flow) iPoint;
  let solver := CSourceNumerics.SetConservative (CVariable.Solution fnd) None solver in
  (* Gradient of the primitive and conservative variables *)
  let solver := CSourceNumerics.SetPrimVarGradient (GetGradient_Primitive fnd) None solver in
  (* Laminar viscosity *)
  let solver := CSourceNumerics.SetLaminarViscosity (CVariable.LaminarViscosity fnd) 0.0 solver in
  (* Eddy Viscosity *)
  let solver := CSourceNumerics.SetEddyViscosity (CVariable.EddyViscosity fnd) 0.0 solver in
  (* Turbulent variables w/o reconstruction, and its gradient *)
  nd ← get_node s iPoint;
  let solver := CSourceNumerics.SetTurbVar (CVariable.Solution nd) None solver in
  let solver := CSourceNumerics.SetTurbVarGradient (CVariable.Gradient nd) None solver in
  (* Set volume *)
  gp ← at_ "geometry->node" (CGeometry.node geometry) iPoint;
  let solver := CSourceNumerics.SetVolume (CPoint.Volume gp) solver in
  (* Set distance to the surface *)
  wnd ← at_ "solution_container[EIKONAL_SOL]->node" eikonal iPoint;
  dist ← CVariable.GetSolution 0 wnd;
  let solver := CSourceNumerics.SetDistance dist 0.0 solver in
  (* Menter's first blending function *)
  nd ← get_node s iPoint;
  let solver := CSourceNumerics.SetF1blending (CVariable.F1blending nd) solver in
  SourcePieceWise_scatter config iPoint (s, solver).

Definition SST_SourcePieceWise_Residual (geometry : CGeometry.t) (flow : CFlowSolution)
  (eikonal : list CVariable.t) (config : CConfig.t) (st : CTurbSolution * CSourceNumerics.t)
  : result (CTurbSolution * CSourceNumerics.t) :=
  for_ (CGeometry.nPointDomain geometry)
    (SST_SourcePieceWise_Residual_point geometry flow eikonal config) st.

End Sources.

(** ** The inlet of CTurbSSTSolution *)

Section SST_Inlet.

(** cos, sin and pow of the C library, the macro PI_NUMBER, and the accessor
    of the missing class CVariable for the speed of sound of a flow node,
    which the record of a node does not carry. *)
Variable cos sin : float -> float.
Variable pow : float -> float -> float.
Variable PI_NUMBER : float.
Variable GetSoundSpeed : CVariable.t -> float.

(** The exterior flow state of CTurbSSTSolution::BC_Inlet, from the Mach
    number of the interior state held by [FlowSolution_i] and the isentropic
    relations, in [FlowSolution_j]. *)
Definition SST_BC_Inlet_flow (flow : CFlowSolution) (config : CConfig.t) (iPoint : nat)
  (AoA AoS : float) (s : CTurbSolution) : result CTurbSolution :=
  (* Compute the Mach number at the internal nodes of the inlet *)
  fnd ← at_ "solution_container[FLOW_SOL]->node" (flow_node flow) iPoint;
  let SoundSpeed_internal := GetSoundSpeed fnd in
  Vel2_internal ← for_ (nDim s) (fun iDim Vel2_internal =>
                     u ← at_ "FlowSolution_i" (FlowSolution_i s) (iDim + 1);
                     rho ← at_ "FlowSolution_i" (FlowSolution_i s) 0;
                     Ok (Vel2_internal + (u * u) / (rho * rho))%float) 0%float;
  let Mach_internal := (PrimFloat.sqrt Vel2_internal / SoundSpeed_internal)%float in
  let Mach := CConfig.Mach_FreeStreamND config in
  (* Compute the relative Mach number (isentropic relation) *)
  let Mrel := ((1.0 + (Gamma_Minus_One s * Mach * Mach) / 2.0)
               / (1.0 + (Gamma_Minus_One s * Mach_internal * Mach_internal) / 2.0))%float in
  (* Compute the pressure at the internal nodes of the inlet *)
  let P_internal := (pow Mrel (Gamma s / Gamma_Minus_One s) / (Gamma s * Mach * Mach))%float in
  (* Compute the SoundSpeed at the inlet *)
  let SoundSpeed_inlet := ((1.0 / Mach) * PrimFloat.sqrt Mrel)%float in
  (* Compute the solution at the inlet, FlowSolution_j --> U_inlet *)
  a ← store "FlowSolution_j" (FlowSolution_j s) 0
        (Gamma s * P_internal / (SoundSpeed_inlet * SoundSpeed_inlet))%float;
  a ← (if decide (nDim s = 2)
       then f0 ← at_ "FlowSolution_j" a 0;
            a ← store "FlowSolution_j" a 1 (SoundSpeed_inlet * Mach_internal * f0 * cos AoA)%float;
            f0 ← at_ "FlowSolution_j" a 0;
            store "FlowSolution_j" a 2 (SoundSpeed_inlet * Mach_internal * f0 * sin AoA)%float
       else Ok a);
  a ← (if decide (nDim s = 3)
       then f0 ← at_ "FlowSolution_j" a 0;
            a ← store "FlowSolution_j" a 1
                  (SoundSpeed_inlet * Mach_internal * f0 * cos AoA * cos AoS)%float;
            f0 ← at_ "FlowSolution_j" a 0;
            a ← store "FlowSolution_j" a 2 (SoundSpeed_inlet * Mach_internal * f0 * sin AoS)%float;
            f0 ← at_ "FlowSolution_j" a 0;
            store "FlowSolution_j" a 3
              (SoundSpeed_inlet * Mach_internal * f0 * sin AoA * cos AoS)%float
       else Ok a);
  DensVel2 ← for_ (nDim s) (fun iDim DensVel2 =>
                f ← at_ "FlowSolution_j" a (iDim + 1);
                f0 ← at_ "FlowSolution_j" a 0;
                Ok (DensVel2 + 0.5 * f * f / f0)%float) 0%float;
  a ← store "FlowSolution_j" a (nDim s + 1) (P_internal / Gamma_Minus_One s + DensVel2)%float;
  Ok (with_FlowSolution_j a s).

Definition SST_BC_Inlet_vertex (flow : CFlowSolution) (config : CConfig.t) (AoA AoS : float)
  (vert : CVertex.t) (st : CTurbSolution * CNumerics.t)
  : result (CTurbSolution * CNumerics.t) :=
  let '(s, solver) := st in
  let iPoint := CVertex.Node vert in
  (* FlowSolution_i -> U_internal *)
  s ← copy_FlowSolution_i flow iPoint s;
  s ← SST_BC_Inlet_flow flow config iPoint AoA AoS s;
  (* Set the conservative variables *)
  let solver := CNumerics.SetConservative (FlowSolution_i s) (FlowSolution_j s) solver in
  (* Set the turbulent variable; the assignment of Solution_j[iVar] is
     commented out in the source *)
  '(iVar, s) ← copy_Solution_i iPoint s;
  let solver := CNumerics.SetTurbVar (Solution_i s) (Solution_j s) solver in
  (* Set normal vector *)
  let solver := CNumerics.SetNormal (CVertex.Normal vert) solver in
  (* Add Residual and Jacobians *)
  boundary_scatter config iPoint (s, solver).

Definition SST_BC_Inlet (geometry : CGeometry.t) (flow : CFlowSolution)
  (config : CConfig.t) (val_marker : nat) (st : CTurbSolution * CNumerics.t)
  : result (CTurbSolution * CNumerics.t) :=
  let AoA := (CConfig.AoA config * PI_NUMBER / 180.0)%float in
  let AoS := (CConfig.AoS config * PI_NUMBER / 180.0)%float in
  vs ← marker_vertices geometry val_marker;
  for_ (length vs) (fun iVertex st =>
    vert ← at_ "vertex[val_marker]" vs iVertex;
    SST_BC_Inlet_vertex flow config AoA AoS vert st) st.

End SST_Inlet.

(** ** Properties the routines above are checked against *)

(** The first [n] points exist in the flow solver and in the wall-distance
    solver, and their states there have a first component. *)
Definition flow_and_distance_ready (n : nat) (flow : CFlowSolution)
    (eikonal : list CVariable.t) : Prop :=
  forall i, i < n ->
    exists fnd wnd rho dist,
      flow_node flow !! i = Some fnd /\ eikonal !! i = Some wnd /\
      CVariable.Solution fnd !! 0 = Some rho /\ CVariable.Solution wnd !! 0 = Some dist.

(** The nodes of a wall-distance solver on the sample mesh. *)
Definition sample_eikonal : list CVariable.t :=
  [sample_node 1 0.5%float 0%float; sample_node 1 0.25%float 0%float].

(** The arrays a SourcePieceWise_Residual loop reads and writes have the
    sizes the constructors give them: the domain points exist in the
    turbulence solver, in the geometry, in the flow solver and in the
    wall-distance solver, where their state has a first component. *)
Definition source_ready (geometry : CGeometry.t) (flow : CFlowSolution)
    (eikonal : list CVariable.t) (s : CTurbSolution) : Prop :=
  CGeometry.nPointDomain geometry <= length (node s) /\
  forall i, i < CGeometry.nPointDomain geometry ->
    exists gp fnd wnd dist,
      CGeometry.node geometry !! i = Some gp /\ flow_node flow !! i = Some fnd /\
      eikonal !! i = Some wnd /\ CVariable.Solution wnd !! 0 = Some dist.

(** What a source loop over the domain points did to a solver [s] and a
    kernel [solver], giving [s'] and [solver']: the kernel was called once
    per domain point, in index order, on inputs that satisfy [handed] for
    the point and its node; the residual it returned was subtracted from the
    residual of the point and the block it returned from the diagonal block
    of the point; the points beyond the domain and all other blocks are as
    they were. *)
Definition source_assembled (config : CConfig.t) (n : nat)
    (handed : nat -> CVariable.t -> CSourceNumerics.inputs -> Prop)
    (s s' : CTurbSolution) (solver solver' : CSourceNumerics.t) : Prop :=
  CSourceNumerics.compute solver' = CSourceNumerics.compute solver /\
  (exists ins,
     CSourceNumerics.calls solver' = (CSourceNumerics.calls solver ++ ins)%list /\
     length ins = n /\
     forall i, i < n ->
       exists x nd,
         ins !! i = Some x /\ node s !! i = Some nd /\ handed i nd x /\
         node s' !! i
         = Some (CVariable.SubtractResidual (CSourceNumerics.compute solver x config).1 nd) /\
         Jacobian s' !! (i, i)
         = block_sub (CSourceNumerics.compute solver x config).2 <$> Jacobian s !! (i, i)) /\
  (forall i, n <= i -> node s' !! i = node s !! i) /\
  (forall r c, r <> c \/ n <= r -> Jacobian s' !! (r, c) = Jacobian s !! (r, c)).

(** The inputs both source kernels are handed at the point [i]: the state of
    the flow node and no second state, the laminar viscosity of the flow
    node, the state and the gradient of the turbulence node, the control
    volume of the point and its distance to the wall. *)
Definition source_inputs_handed (geometry : CGeometry.t) (flow : CFlowSolution)
    (eikonal : list CVariable.t) (i : nat) (nd : CVariable.t)
    (x : CSourceNumerics.inputs) : Prop :=
  exists gp fnd wnd dist,
    CGeometry.node geometry !! i = Some gp /\ flow_node flow !! i = Some fnd /\
    eikonal !! i = Some wnd /\ CVariable.Solution wnd !! 0 = Some dist /\
    CSourceNumerics.Conservative x = (CVariable.Solution fnd, None) /\
    CSourceNumerics.LaminarViscosity x = (CVariable.LaminarViscosity fnd, 0%float) /\
    CSourceNumerics.TurbVar x = (CVariable.Solution nd, None) /\
    CSourceNumerics.TurbVarGradient x = (CVariable.Gradient nd, None) /\
    CSourceNumerics.Volume x = CPoint.Volume gp /\
    CSourceNumerics.Distance x = (dist, 0%float).

(** A source kernel whose residual is the turbulent state it was given times
    the control volume, and whose block is the identity. *)
Definition sample_source_kernel : CSourceNumerics.kernel := fun i _ =>
  ((fun x => x * CSourceNumerics.Volume i)%float <$> (CSourceNumerics.TurbVar i).1,
   block_identity (length (CSourceNumerics.TurbVar i).1)).

Definition sample_source_numerics : CSourceNumerics.t :=
  CSourceNumerics.mk sample_source_kernel
    (CSourceNumerics.mkInputs ([], None) ([], None) ([], None) (0, 0)%float (0, 0)%float
       ([], None) ([], None) 0%float (0, 0)%float 0%float) [].

(** The arrays the loop of CTurbSSTSolution::BC_Inlet over the vertices [vs]
    reads and writes have the sizes the constructors give them: every vertex
    point exists in both solvers with a state of the solver's width, and the
    scratch arrays are wide enough (the flow state has nDim+2 components). *)
Definition SST_inlet_ready (flow : CFlowSolution) (s : CTurbSolution)
    (vs : list CVertex.t) : Prop :=
  length (Solution_i s) = nVar s /\
  flow_nVar flow <= length (FlowSolution_i s) /\
  nDim s + 1 <= length (FlowSolution_i s) /\
  nDim s + 2 <= length (FlowSolution_j s) /\
  forall v, v ∈ vs ->
    exists nd fnd,
      node s !! CVertex.Node v = Some nd /\
      flow_node flow !! CVertex.Node v = Some fnd /\
      length (CVariable.Solution nd) = nVar s /\
      flow_nVar flow <= length (CVariable.Solution fnd).

(** Between [solver] and [solver'] the kernel was called once per element of
    [l], in order, on inputs whose view through [f] is that element. *)
Definition inputs_handed {A} (f : CNumerics.inputs -> A) (solver solver' : CNumerics.t)
    (l : list A) : Prop :=
  exists new, CNumerics.calls solver' = (CNumerics.calls solver ++ new)%list /\
    f <$> new = l.

(** What the transport hands to a process of the messages that the process
    of rank [source] has posted to it: the same tags and payloads, in the
    same order, each marked with the rank of the sender. *)
Definition delivered (source : Z) (posted : list MPI.message) : list MPI.message :=
  (fun m => MPI.mkMessage source (MPI.tag m) (MPI.payload m)) <$> posted.

(** The point of every vertex [k] of the marker [vs'] in the solver [s']
    holds the solution and the gradient components that the point of the
    vertex [k] of the marker [vs] holds in the solver [s]. *)
Definition halo_copied (s : CTurbSolution) (vs : list CVertex.t)
    (s' : CTurbSolution) (vs' : list CVertex.t) : Prop :=
  forall k v v' nd,
    vs !! k = Some v -> vs' !! k = Some v' -> node s !! CVertex.Node v = Some nd ->
    exists nd', node s' !! CVertex.Node v' = Some nd' /\
      forall iVar, iVar < nVar s ->
        solution_component nd' iVar = solution_component nd iVar /\
        gradient_component 0 nd' iVar = gradient_component 0 nd iVar /\
        gradient_component 1 nd' iVar = gradient_component 1 nd iVar /\
        (nDim s = 3 -> gradient_component 2 nd' iVar = gradient_component 2 nd iVar).

(** The node of a wall point after BC_NS_Wall: the old solution is the
    scratch array [zeros], the residual is zero, the rest is as it was. *)
Definition wall_node (zeros : list float) (nd : CVariable.t) : CVariable.t :=
  CVariable.with_Residual (vec_zero (length (CVariable.Residual nd)))
    (CVariable.with_Solution_Old zeros nd).

(** Component [iVar] of the residual of the point [iPoint], and the shift
    Vol/Delta_Time that the implicit step adds to the diagonal of the block
    of the point; 0.0 where the point or the component does not exist. *)
Definition residual_component (s : CTurbSolution) (iPoint iVar : nat) : float :=
  default 0%float (node s !! iPoint ≫= fun nd => CVariable.Residual nd !! iVar).

Definition diagonal_shift (geometry : CGeometry.t) (flow : CFlowSolution) (iPoint : nat)
  : float :=
  match CGeometry.node geometry !! iPoint, flow_node flow !! iPoint with
  | Some gp, Some fnd => (CPoint.Volume gp / CVariable.Delta_Time fnd)%float
  | _, _ => 0%float
  end.

(** The node of a domain point after the update of the implicit step: the
    increments of its nVar components, read from [x] at iPoint*nVar + iVar,
    are added one after the other with AddSolution. *)
Definition updated_node (AddSolution : nat -> float -> CVariable.t -> CVariable.t)
    (nVar : nat) (x : list float) (iPoint : nat) (nd : CVariable.t) : CVariable.t :=
  foldl (fun nd iVar => AddSolution iVar (x !!! (iPoint * nVar + iVar)) nd) nd (seq 0 nVar).

(** ** The edge loops on a whole mesh *)

(** Every edge of the geometry joins two points that exist in the geometry,
    in the flow solver and in the turbulence solver. *)
Definition edges_in_mesh (geometry : CGeometry.t) (flow : CFlowSolution)
    (s : CTurbSolution) : Prop :=
  forall e iPoint, e ∈ CGeometry.edge geometry ->
    iPoint = CEdge.GetNode 0 e \/ iPoint = CEdge.GetNode 1 e ->
    iPoint < length (CGeometry.node geometry) /\ iPoint < length (flow_node flow) /\
    iPoint < length (node s).

(** A node with its residual left out. *)
Definition without_residual (nd : CVariable.t) : CVariable.t := CVariable.with_Residual [] nd.

(** The solver [s'] is the solver [s] after residuals have been assembled:
    of its members only the nodes, the Jacobian and the scratch arrays
    Residual, Jacobian_i and Jacobian_j differ; there are the same points,
    and each of them differs in its residual at most; the Jacobian has the
    same entries allocated. *)
Definition residuals_assembled (s s' : CTurbSolution) : Prop :=
  s' = with_Jacobian_j (Jacobian_j s') (with_Jacobian_i (Jacobian_i s')
         (with_Residual (Residual s') (with_Jacobian (Jacobian s') (with_node (node s') s)))) /\
  (forall p, without_residual <$> node s' !! p = without_residual <$> node s !! p) /\
  dom (Jacobian s') = dom (Jacobian s).

(** The point [p] is on none of the edges [edges]. *)
Definition off_edges (edges : list CEdge.t) (p : nat) : Prop :=
  forall e, e ∈ edges -> CEdge.GetNode 0 e <> p /\ CEdge.GetNode 1 e <> p.

(** The point [p] of [s'] is as in [s]: its node and its row of the
    Jacobian. *)
Definition point_untouched (s s' : CTurbSolution) (p : nat) : Prop :=
  node s' !! p = node s !! p /\ forall c, Jacobian s' !! (p, c) = Jacobian s !! (p, c).

(** The data of the edge [e] that a first-order Upwind_Residual hands to the
    kernel, read from the solvers [flow] and [s]. *)
Definition upwind_inputs (geometry : CGeometry.t) (flow : CFlowSolution) (config : CConfig.t)
    (s : CTurbSolution) (e : CEdge.t) (inp : CNumerics.inputs) : Prop :=
  exists fi fj ni nj,
    flow_node flow !! CEdge.GetNode 0 e = Some fi /\
    flow_node flow !! CEdge.GetNode 1 e = Some fj /\
    node s !! CEdge.GetNode 0 e = Some ni /\ node s !! CEdge.GetNode 1 e = Some nj /\
    CNumerics.Normal inp = CEdge.Normal e /\
    CNumerics.Conservative inp = (CVariable.Solution fi, CVariable.Solution fj) /\
    CNumerics.TurbVar inp = (CVariable.Solution ni, CVariable.Solution nj) /\
    (CConfig.Rotating_Frame config = true ->
     exists gi gj,
       CGeometry.node geometry !! CEdge.GetNode 0 e = Some gi /\
       CGeometry.node geometry !! CEdge.GetNode 1 e = Some gj /\
       CNumerics.RotVel inp = (CPoint.RotVel gi, CPoint.RotVel gj)).

(** The data of the edge [e] that a Viscous_Residual hands to the kernel,
    read from the geometry and the solvers [flow] and [s]; [model_inputs]
    is what one of the two models sets on top. *)
Definition viscous_inputs
    (model_inputs : CVariable.t -> CVariable.t -> CVariable.t -> CNumerics.inputs -> Prop)
    (geometry : CGeometry.t) (flow : CFlowSolution)
    (s : CTurbSolution) (e : CEdge.t) (inp : CNumerics.inputs) : Prop :=
  exists gi gj fi fj ni nj,
    CGeometry.node geometry !! CEdge.GetNode 0 e = Some gi /\
    CGeometry.node geometry !! CEdge.GetNode 1 e = Some gj /\
    flow_node flow !! CEdge.GetNode 0 e = Some fi /\
    flow_node flow !! CEdge.GetNode 1 e = Some fj /\
    node s !! CEdge.GetNode 0 e = Some ni /\ node s !! CEdge.GetNode 1 e = Some nj /\
    CNumerics.Coord inp = (CPoint.Coord gi, CPoint.Coord gj) /\
    CNumerics.Normal inp = CEdge.Normal e /\
    CNumerics.Conservative inp = (CVariable.Solution fi, CVariable.Solution fj) /\
    CNumerics.LaminarViscosity inp
    = (CVariable.LaminarViscosity fi, CVariable.LaminarViscosity fj) /\
    CNumerics.EddyViscosity inp = (CVariable.EddyViscosity fi, CVariable.EddyViscosity fj) /\
    CNumerics.TurbVar inp = (CVariable.Solution ni, CVariable.Solution nj) /\
    CNumerics.TurbVarGradient inp = (CVariable.Gradient ni, CVariable.Gradient nj) /\
    model_inputs fi fj ni inp.

(** On top, CTurbSASolution hands the gradients of the flow state when the
    model is SA_COMP, and CTurbSSTSolution the blending function of the
    first point. *)
Definition SA_viscous_inputs (config : CConfig.t)
    (fi fj ni : CVariable.t) (inp : CNumerics.inputs) : Prop :=
  CConfig.Kind_Turb_Model config = SA_COMP ->
  CNumerics.ConsVarGradient inp = (CVariable.Gradient fi, CVariable.Gradient fj).
Definition SST_viscous_inputs (fi fj ni : CVariable.t) (inp : CNumerics.inputs) : Prop :=
  CNumerics.F1blending inp = CVariable.F1blending ni.

(** What one round of an edge loop does on a mesh: it calls the kernel once,
    on the data [P] of the edge, assembles residuals, and leaves the points
    that are not on the edge alone. *)
Definition edge_round (P : CEdge.t -> CNumerics.inputs -> Prop) (e : CEdge.t)
    (s : CTurbSolution) (solver : CNumerics.t) (s' : CTurbSolution) (solver' : CNumerics.t)
  : Prop :=
  exists inp,
    CNumerics.compute solver' = CNumerics.compute solver /\
    CNumerics.calls solver' = (CNumerics.calls solver ++ [inp])%list /\
    P e inp /\
    residuals_assembled s s' /\
    forall p, p <> CEdge.GetNode 0 e -> p <> CEdge.GetNode 1 e -> point_untouched s s' p.

(** What an edge loop has done on a mesh: one call of the kernel for each
    edge, in the order of the edges, each on the data [P] of its edge;
    residuals are assembled, and the points on no edge are left alone. *)
Definition edge_loop_done (P : CEdge.t -> CNumerics.inputs -> Prop) (edges : list CEdge.t)
    (s : CTurbSolution) (solver : CNumerics.t) (s' : CTurbSolution) (solver' : CNumerics.t)
  : Prop :=
  residuals_assembled s s' /\
  CNumerics.compute solver' = CNumerics.compute solver /\
  (exists new, CNumerics.calls solver' = (CNumerics.calls solver ++ new)%list /\
     Forall2 P edges new) /\
  forall p, off_edges edges p -> point_untouched s s' p.

(** Two more restart files for the sample mesh: one that ends, without a
    newline, after the line of the first point, and one whose lines have
    other indices and other fields than those of [sample_restart_file]
    before and after the sixth field. *)
Definition sample_truncated_environment : environment :=
  {| files := fun _ => Some (text_of_lines ["0 1 1 0 2 1.5 2.5"] false);
     cin := [] |}.

Definition sample_reordered_lines : list string :=
  ["7 9 -9 .5 9e1 1.5"; "  3  8 8 8 8 3.5 0 0"].

Definition sample_reordered_environment : environment :=
  {| files := fun _ => Some (text_of_lines sample_reordered_lines false);
     cin := [] |}.

(** ** The flow data at a far-field marker *)

(** The flow data that a BC_Far_Field hands to the kernel at the vertex [v]:
    as interior state the conservative variables of the point of the
    vertex, as exterior state the density, the momentum and the energy of
    the free stream (at the components 0, 1..nDim and nDim+1), and as normal
    the normal of the vertex with its sign changed. *)
Definition far_field_inputs (flow : CFlowSolution) (s : CTurbSolution) (v : CVertex.t)
    (inp : CNumerics.inputs) : Prop :=
  (forall iVar, iVar < flow_nVar flow ->
     (CNumerics.Conservative inp).1 !! iVar
     = flow_node flow !! CVertex.Node v ≫= fun fnd => CVariable.Solution fnd !! iVar) /\
  (CNumerics.Conservative inp).2 !! 0 = Some (Density_Inf flow) /\
  (forall iDim, iDim < nDim s ->
     (CNumerics.Conservative inp).2 !! (iDim + 1) = Density_Velocity_Inf flow !! iDim) /\
  (CNumerics.Conservative inp).2 !! (nDim s + 1) = Some (Density_Energy_Inf flow) /\
  (forall iDim, iDim < nDim s ->
     CNumerics.Normal inp !! iDim = (fun x => (- x)%float) <$> CVertex.Normal v !! iDim).

(** What a loop over the vertices [vs] of a marker has done: one call of
    the kernel for each vertex, in the order of the vertices, each on the
    data [P] of its vertex; no point has changed its solution, and a point
    that is not on the marker keeps its node and its row of the Jacobian. *)
Definition marker_loop_done (P : CVertex.t -> CNumerics.inputs -> Prop) (vs : list CVertex.t)
    (s : CTurbSolution) (solver : CNumerics.t) (s' : CTurbSolution) (solver' : CNumerics.t)
  : Prop :=
  (exists new, CNumerics.calls solver' = (CNumerics.calls solver ++ new)%list /\
     Forall2 P vs new) /\
  (forall p, CVariable.Solution <$> node s' !! p = CVariable.Solution <$> node s !! p) /\
  forall p, (forall v, v ∈ vs -> CVertex.Node v <> p) -> point_untouched s s' p.

(** * Proofs *)

Local Close Scope string_scope.

(** ** Checked computations and loops *)

Lemma at_Some {A} (array : string) (a : list A) (i : nat) (x : A) :
  a !! i = Some x -> at_ array a i = Ok x.
Proof. intros H. unfold at_. by rewrite H. Qed.

Lemma at_lt {A} (array : string) (a : list A) (i : nat) :
  i < length a -> exists x, a !! i = Some x /\ at_ array a i = Ok x.
Proof.
  intros H. destruct (lookup_lt_is_Some_2 a i H) as [x Hx].
  exists x. split; [done | by apply at_Some].
Qed.

Lemma at_ge {A} (array : string) (a : list A) (i : nat) :
  length a <= i -> at_ array a i = Fault (OutOfBounds array i (length a)).
Proof. intros H. unfold at_. by rewrite (lookup_ge_None_2 a i H). Qed.

Lemma store_lt {A} (array : string) (a : list A) (i : nat) (x : A) :
  i < length a -> store array a i x = Ok (<[i:=x]> a).
Proof. intros H. unfold store. by rewrite decide_True. Qed.

Lemma store_ge {A} (array : string) (a : list A) (i : nat) (x : A) :
  length a <= i -> store array a i x = Fault (OutOfBounds array i (length a)).
Proof. intros H. unfold store. rewrite decide_False; [done | lia]. Qed.

Lemma foldM_app {A S} (body : A -> S -> result S) (l1 l2 : list A) (s : S) :
  foldM body (l1 ++ l2) s = (foldM body l1 s ≫= foldM body l2).
Proof.
  revert s. induction l1 as [|a l1 IH]; intros s; simpl; [done |].
  destruct (body a s) as [s'|e]; simpl; [apply IH | done].
Qed.

(** A loop over a list keeps an invariant of the part already visited. *)
Lemma foldM_inv {A S} (I : list A -> S -> Prop) (body : A -> S -> result S)
    (l : list A) (s : S) :
  I [] s ->
  (forall pre a post s, l = pre ++ a :: post -> I pre s ->
     exists s', body a s = Ok s' /\ I (pre ++ [a]) s') ->
  exists s', foldM body l s = Ok s' /\ I l s'.
Proof.
  intros H0 Hstep.
  assert (G : forall post pre s, l = pre ++ post -> I pre s ->
            exists s', foldM body post s = Ok s' /\ I l s').
  { induction post as [|a post IH]; intros pre s1 El Hs1.
    - exists s1. rewrite app_nil_r in El. subst l. done.
    - destruct (Hstep pre a post s1 El Hs1) as (s2 & E2 & Hs2).
      destruct (IH (pre ++ [a]) s2) as (s3 & E3 & Hs3); [by rewrite <- app_assoc | done |].
      exists s3. simpl. rewrite E2. done. }
  by apply (G l [] s).
Qed.

Lemma seq_split_index (n : nat) (pre post : list nat) (a : nat) :
  seq 0 n = pre ++ a :: post -> a = length pre /\ a < n.
Proof.
  intros E.
  assert (H : seq 0 n !! length pre = Some a).
  { rewrite E. rewrite lookup_app_r by lia. by rewrite Nat.sub_diag. }
  apply lookup_seq in H. lia.
Qed.

(** A counting loop keeps an invariant of the number of rounds done. *)
Lemma for_inv {S} (I : nat -> S -> Prop) (n : nat) (body : nat -> S -> result S) (s : S) :
  I 0 s ->
  (forall i s, i < n -> I i s -> exists s', body i s = Ok s' /\ I (Datatypes.S i) s') ->
  exists s', for_ n body s = Ok s' /\ I n s'.
Proof.
  intros H0 Hstep. unfold for_.
  destruct (foldM_inv (fun pre s => I (length pre) s) body (seq 0 n) s) as (s' & E & Hs').
  - done.
  - intros pre a post s1 El Hs1. apply seq_split_index in El as [-> Hlt].
    destruct (Hstep _ _ Hlt Hs1) as (s2 & E2 & Hs2). exists s2. split; [done |].
    rewrite length_app. simpl. by rewrite Nat.add_1_r.
  - exists s'. split; [done |]. by rewrite length_seq in Hs'.
Qed.

(** The loop over the indices of an array is the loop over its elements. *)
Lemma for_at_foldM {A S} (array : string) (l : list A) (f : A -> S -> result S) (s : S) :
  for_ (length l) (fun i s => x ← at_ array l i; f x s) s = foldM f l s.
Proof.
  unfold for_.
  assert (G : forall post pre s, l = pre ++ post ->
            foldM (fun i s => x ← at_ array l i; f x s) (seq (length pre) (length post)) s
            = foldM f post s).
  { induction post as [|a post IH]; intros pre s1 El; simpl; [done |].
    rewrite (at_Some array l (length pre) a).
    2:{ rewrite El. rewrite lookup_app_r by lia. by rewrite Nat.sub_diag. }
    simpl. destruct (f a s1) as [s2|e]; simpl; [| done].
    specialize (IH (pre ++ [a]) s2). rewrite length_app in IH. simpl in IH.
    rewrite Nat.add_1_r in IH. apply IH. by rewrite <- app_assoc. }
  by apply (G l [] s).
Qed.

(** ** C9: BC_Sym_Plane *)

(** C9. For every geometry, solution container, numerics kernel, configuration
    and marker, CTurbSolution::BC_Sym_Plane returns with the solver (every
    point's solution and residual, every Jacobian entry) and the kernel
    object as they were given. *)
Theorem BC_Sym_Plane_no_op (geometry : CGeometry.t) (solution_container : CFlowSolution)
    (solver : CNumerics.t) (config : CConfig.t) (val_marker : nat) (s : CTurbSolution) :
  BC_Sym_Plane geometry solution_container solver config val_marker s = Ok (s, solver).
Proof. reflexivity. Qed.

#[local] Arguments CEdge.GetNode : simpl never.

(** One step of a checked computation. *)
Ltac bsimpl := cbn [mbind result_bind mret result_ret].

(** Rewrite with an equation on a loop whose left-hand side is the loop of
    the goal up to conversion. *)
Ltac rewrite_loop E :=
  match type of E with
  | _ = ?rhs =>
      match goal with
      | |- context [for_ ?n ?b ?s] =>
          let H := fresh in
          assert (H : for_ n b s = rhs) by exact E; rewrite H; clear H
      end
  end.

(** Projections of updated nodes and solvers. *)
Ltac node_simpl :=
  unfold CVariable.SetResidualZero, CVariable.SetSolution_Old, CVariable.AddResidual,
    CVariable.SubtractResidual;
  cbn [CVariable.Solution CVariable.Solution_Old CVariable.Residual CVariable.Gradient
       CVariable.Limiter CVariable.with_Solution CVariable.with_Solution_Old
       CVariable.with_Residual CVariable.with_Gradient CVariable.with_Limiter].

Tactic Notation "solver_simpl" :=
  cbn [nVar nDim node Jacobian Residual Residual_Max Solution Solution_i Solution_j
       Vector_i Vector_j FlowSolution_i FlowSolution_j Jacobian_i Jacobian_j xsol rhs
       Gamma Gamma_Minus_One nu_tilde_Inf kine_Inf omega_Inf
       set_node with_node with_Jacobian with_Residual with_Residual_Max with_Solution
       with_Solution_i with_Solution_j with_Vector_i with_Vector_j with_FlowSolution_i
       with_FlowSolution_j with_Jacobian_i with_Jacobian_j with_xsol with_rhs].
Tactic Notation "solver_simpl" "in" hyp(H) :=
  cbn [nVar nDim node Jacobian Residual Residual_Max Solution Solution_i Solution_j
       Vector_i Vector_j FlowSolution_i FlowSolution_j Jacobian_i Jacobian_j xsol rhs
       Gamma Gamma_Minus_One nu_tilde_Inf kine_Inf omega_Inf
       set_node with_node with_Jacobian with_Residual with_Residual_Max with_Solution
       with_Solution_i with_Solution_j with_Vector_i with_Vector_j with_FlowSolution_i
       with_FlowSolution_j with_Jacobian_i with_Jacobian_j with_xsol with_rhs] in H.

(** ** The Jacobian *)

Lemma length_vec_zero (n : nat) : length (vec_zero n) = n.
Proof. apply length_replicate. Qed.

Lemma length_block_zero (n : nat) : length (block_zero n) = n.
Proof. apply length_replicate. Qed.

Lemma length_block_identity (n : nat) : length (block_identity n) = n.
Proof. unfold block_identity. by rewrite length_map, length_seq. Qed.

Lemma length_deleted_block (i : nat) (rc : nat * nat) (b : Block) :
  length (CSparseMatrix.deleted_block i rc b) = length b.
Proof.
  unfold CSparseMatrix.deleted_block. repeat case_decide;
    auto using length_block_identity, length_block_zero.
Qed.

Lemma deleted_block_idem (i : nat) (rc : nat * nat) (b : Block) :
  CSparseMatrix.deleted_block i rc (CSparseMatrix.deleted_block i rc b)
  = CSparseMatrix.deleted_block i rc b.
Proof.
  unfold CSparseMatrix.deleted_block. repeat case_decide;
    by rewrite ?length_block_identity, ?length_block_zero.
Qed.

Lemma deleted_block_other (i : nat) (rc : nat * nat) (b : Block) :
  rc.1 <> i -> CSparseMatrix.deleted_block i rc b = b.
Proof. intros H. unfold CSparseMatrix.deleted_block. by rewrite decide_False. Qed.

Lemma lookup_DeleteValsRowi (i : nat) (m : gmap (nat * nat) Block) (rc : nat * nat) :
  CSparseMatrix.DeleteValsRowi i m !! rc = CSparseMatrix.deleted_block i rc <$> m !! rc.
Proof.
  unfold CSparseMatrix.DeleteValsRowi. rewrite map_lookup_imap.
  by destruct (m !! rc).
Qed.

Lemma DeleteValsRowi_idem (i : nat) (m : gmap (nat * nat) Block) :
  CSparseMatrix.DeleteValsRowi i (CSparseMatrix.DeleteValsRowi i m)
  = CSparseMatrix.DeleteValsRowi i m.
Proof.
  apply map_eq. intros rc. rewrite !lookup_DeleteValsRowi.
  destruct (m !! rc); simpl; [| done]. by rewrite deleted_block_idem.
Qed.

(** The rows deleted so far, in a matrix that started as [J0]. *)
Definition rows_deleted (J0 J : gmap (nat * nat) Block) (pts : list nat) : Prop :=
  forall rc, J !! rc = if decide (rc.1 ∈ pts)
                       then CSparseMatrix.deleted_block rc.1 rc <$> J0 !! rc
                       else J0 !! rc.

Lemma rows_deleted_nil (J0 : gmap (nat * nat) Block) : rows_deleted J0 J0 [].
Proof. intros rc. rewrite decide_False; [done | apply not_elem_of_nil]. Qed.

Lemma rows_deleted_snoc (J0 J : gmap (nat * nat) Block) (pts : list nat) (p : nat) :
  rows_deleted J0 J pts ->
  rows_deleted J0 (CSparseMatrix.DeleteValsRowi p J) (pts ++ [p]).
Proof.
  intros H rc. rewrite lookup_DeleteValsRowi, H.
  destruct (decide (rc.1 = p)) as [E|E].
  - rewrite (decide_True (P := rc.1 ∈ pts ++ [p])) by (rewrite elem_of_app, list_elem_of_singleton; auto).
    case_decide; destruct (J0 !! rc); simpl; try done; rewrite E.
    + by rewrite deleted_block_idem.
    + done.
  - assert (Hiff : rc.1 ∈ pts ++ [p] <-> rc.1 ∈ pts).
    { rewrite elem_of_app, list_elem_of_singleton. tauto. }
    case_decide as Hin.
    + rewrite (decide_True (P := rc.1 ∈ pts ++ [p])) by tauto.
      destruct (J0 !! rc); simpl; [| done]. by rewrite deleted_block_other.
    + rewrite (decide_False (P := rc.1 ∈ pts ++ [p])) by tauto.
      destruct (J0 !! rc); simpl; [| done]. by rewrite deleted_block_other.
Qed.

Lemma rows_deleted_row (J0 J : gmap (nat * nat) Block) (pts : list nat) (p : nat) :
  rows_deleted J0 J pts -> p ∈ pts -> row_deleted J0 J p.
Proof. intros H Hp c. rewrite H. simpl. by rewrite decide_True. Qed.

(** [Jacobian.DeleteValsRowi(iPoint)] repeated at least once. *)
Lemma DeleteValsRowi_loop (n p : nat) (s : CTurbSolution) :
  0 < n ->
  for_ n (fun _ s => Ok (with_Jacobian (CSparseMatrix.DeleteValsRowi p (Jacobian s)) s)) s
  = Ok (with_Jacobian (CSparseMatrix.DeleteValsRowi p (Jacobian s)) s).
Proof.
  intros Hn.
  destruct (for_inv
    (fun i s' => (i = 0 /\ s' = s)
                 \/ (0 < i /\ s' = with_Jacobian (CSparseMatrix.DeleteValsRowi p (Jacobian s)) s))
    n (fun _ s => Ok (with_Jacobian (CSparseMatrix.DeleteValsRowi p (Jacobian s)) s)) s)
    as (s' & E & [[? _]|[_ ->]]); [by left | | lia | done].
  intros i s1 _ [[_ ->]|[_ ->]]; eexists; (split; [done |]); right; (split; [lia |]).
  - done.
  - cbn [Jacobian with_Jacobian]. rewrite DeleteValsRowi_idem. done.
Qed.

(** ** C7: BC_InterProcessor *)

(** C7. In the build with MPI, on a marker whose send/receive tag is negative,
    BC_InterProcessor returns a solver in which every vertex point of the
    marker has a zero residual (of the width it had) and a deleted Jacobian
    row; on a marker whose tag is positive it returns the solver as it was
    given, whatever the build. *)
Theorem BC_InterProcessor_spec (geometry : CGeometry.t) (config : CConfig.t)
    (val_marker : nat) (s : CTurbSolution) (vs : list CVertex.t) :
  CGeometry.vertex geometry !! val_marker = Some vs ->
  (forall v, v ∈ vs -> CVertex.Node v < length (node s)) ->
  0 < nVar s ->
  ((CConfig.Marker_All_SendRecv config val_marker < 0)%Z ->
     exists s', BC_InterProcessor false geometry config val_marker s = Ok s' /\
       forall v, v ∈ vs ->
         exists nd nd', node s !! CVertex.Node v = Some nd /\
           node s' !! CVertex.Node v = Some nd' /\
           CVariable.Residual nd' = vec_zero (length (CVariable.Residual nd)) /\
           row_deleted (Jacobian s) (Jacobian s') (CVertex.Node v))
  /\ ((0 < CConfig.Marker_All_SendRecv config val_marker)%Z ->
        forall NO_MPI, BC_InterProcessor NO_MPI geometry config val_marker s = Ok s).
Proof.
  intros Hvs Hnodes HnVar. split.
  - intros Hneg. unfold BC_InterProcessor, marker_vertices.
    rewrite decide_True by done. rewrite (at_Some _ _ _ _ Hvs). simpl.
    rewrite for_at_foldM.
    destruct (foldM_inv (fun pre s' =>
        nVar s' = nVar s /\ length (node s') = length (node s) /\
        (forall p nd, node s !! p = Some nd ->
           exists nd', node s' !! p = Some nd' /\
             length (CVariable.Residual nd') = length (CVariable.Residual nd) /\
             (p ∈ points pre ->
              CVariable.Residual nd' = vec_zero (length (CVariable.Residual nd)))) /\
        rows_deleted (Jacobian s) (Jacobian s') (points pre))
      (fun vert s =>
         nd ← get_node s (CVertex.Node vert);
         let s := set_node (CVertex.Node vert) (CVariable.SetResidualZero nd) s in
         for_ (nVar s) (fun _ s =>
           Ok (with_Jacobian (CSparseMatrix.DeleteValsRowi (CVertex.Node vert) (Jacobian s)) s)) s)
      vs s) as (s' & E & HnV & Hlen & Hnode & HJ).
    + split; [done |]. split; [done |]. split; [| apply rows_deleted_nil].
      intros p nd Hp. exists nd. split; [done |]. split; [done |].
      intros Hin. by apply elem_of_nil in Hin.
    + intros pre v post s1 El (HnV1 & Hlen1 & Hnode1 & HJ1).
      assert (Hv : v ∈ vs) by (rewrite El, elem_of_app, elem_of_cons; auto).
      specialize (Hnodes v Hv).
      unfold get_node.
      destruct (at_lt "node" (node s1) (CVertex.Node v)) as (nd1 & Hnd1 & ->); [lia |].
      simpl. cbn [nVar set_node with_node].
      rewrite DeleteValsRowi_loop by lia.
      eexists. split; [done |].
      cbn [nVar node Jacobian set_node with_node with_Jacobian].
      split; [done |]. split; [by rewrite length_insert |]. split.
      * intros p nd Hp. destruct (Hnode1 p nd Hp) as (nd' & Hnd' & Hl' & Hz').
        destruct (decide (p = CVertex.Node v)) as [->|Hne].
        -- eexists. rewrite list_lookup_insert_eq by lia. split; [done |].
           assert (nd' = nd1) as -> by congruence.
           node_simpl. rewrite length_vec_zero. split; [done |]. intros _. by rewrite Hl'.
        -- exists nd'. rewrite list_lookup_insert_ne by done. split; [done |].
           split; [done |]. unfold points. rewrite fmap_app, elem_of_app.
           intros [Hin|Hin]; [by apply Hz' |].
           simpl in Hin. apply list_elem_of_singleton in Hin. done.
      * unfold points. rewrite fmap_app. simpl. by apply rows_deleted_snoc.
    + exists s'. split; [done |]. intros v Hv.
      destruct (lookup_lt_is_Some_2 (node s) (CVertex.Node v) (Hnodes v Hv)) as [nd Hnd].
      destruct (Hnode _ _ Hnd) as (nd' & Hnd' & _ & Hz).
      assert (Hin : CVertex.Node v ∈ points vs) by (apply list_elem_of_fmap; eauto).
      exists nd, nd'. repeat split; [done | done | by apply Hz |].
      intros c. by apply (rows_deleted_row _ _ _ _ HJ).
  - intros Hpos NO_MPI. unfold BC_InterProcessor. destruct NO_MPI; [done |].
    rewrite decide_False by lia. done.
Qed.

(** ** C2: BC_NS_Wall *)

Lemma insert_replicate_drop {A} (l : list A) (i : nat) (x : A) :
  i < length l ->
  <[i:=x]> (replicate i x ++ drop i l) = replicate (Datatypes.S i) x ++ drop (Datatypes.S i) l.
Proof.
  intros H. destruct (lookup_lt_is_Some_2 l i H) as [y Hy].
  rewrite (drop_S l y i Hy).
  rewrite insert_app_r_alt by (rewrite length_replicate; lia).
  rewrite length_replicate, Nat.sub_diag.
  rewrite replicate_S_end, <- app_assoc. done.
Qed.

Lemma with_Solution_same (s : CTurbSolution) : with_Solution (Solution s) s = s.
Proof. by destruct s. Qed.

(** [for (iVar = 0; iVar < nVar; iVar++) Solution[iVar] = 0.0;] *)
Lemma zero_Solution_loop (n : nat) (s : CTurbSolution) :
  n <= length (Solution s) ->
  for_ n (fun iVar s => a ← store "Solution" (Solution s) iVar 0%float; Ok (with_Solution a s)) s
  = Ok (with_Solution (vec_zero n ++ drop n (Solution s)) s).
Proof.
  intros Hn.
  destruct (for_inv
    (fun i s' => i <= n /\ s' = with_Solution (vec_zero i ++ drop i (Solution s)) s) n
    (fun iVar s => a ← store "Solution" (Solution s) iVar 0%float; Ok (with_Solution a s)) s)
    as (s' & E & _ & ->); [| | done].
  - split; [lia |]. simpl. by rewrite drop_0, with_Solution_same.
  - intros i s1 Hi [_ ->]. cbn [Solution with_Solution].
    rewrite store_lt.
    2:{ rewrite length_app, length_vec_zero, length_drop. lia. }
    simpl. eexists. split; [done |]. split; [lia |].
    unfold vec_zero. rewrite insert_replicate_drop by lia. done.
Qed.

(** C2 (as amended). On a marker of the geometry whose vertex points are
    points of the solver, BC_NS_Wall (the text shared by CTurbSASolution and
    CTurbSSTSolution) returns a solver in which every vertex point of the
    marker has its old solution equal to the Dirichlet value zero in all
    nVar components, a zero residual, and a deleted Jacobian row; the
    current solution of the point is the one it had before the call. *)
Theorem BC_NS_Wall_spec (geometry : CGeometry.t) (solution_container : CFlowSolution)
    (config : CConfig.t) (val_marker : nat) (s : CTurbSolution) (vs : list CVertex.t) :
  CGeometry.vertex geometry !! val_marker = Some vs ->
  (forall v, v ∈ vs -> CVertex.Node v < length (node s)) ->
  length (Solution s) = nVar s ->
  exists s', BC_NS_Wall geometry solution_container config val_marker s = Ok s' /\
    forall v, v ∈ vs ->
      exists nd nd', node s !! CVertex.Node v = Some nd /\
        node s' !! CVertex.Node v = Some nd' /\
        CVariable.Solution_Old nd' = vec_zero (nVar s) /\
        CVariable.Residual nd' = vec_zero (length (CVariable.Residual nd)) /\
        CVariable.Solution nd' = CVariable.Solution nd /\
        row_deleted (Jacobian s) (Jacobian s') (CVertex.Node v).
Proof.
  intros Hvs Hnodes HSol. unfold BC_NS_Wall, marker_vertices.
  rewrite (at_Some _ _ _ _ Hvs). simpl. rewrite for_at_foldM.
  destruct (foldM_inv (fun pre s' =>
      nVar s' = nVar s /\ length (Solution s') = nVar s /\
      length (node s') = length (node s) /\
      (forall p nd, node s !! p = Some nd ->
         exists nd', node s' !! p = Some nd' /\
           CVariable.Solution nd' = CVariable.Solution nd /\
           length (CVariable.Residual nd') = length (CVariable.Residual nd) /\
           (p ∈ points pre ->
            CVariable.Solution_Old nd' = vec_zero (nVar s) /\
            CVariable.Residual nd' = vec_zero (length (CVariable.Residual nd)))) /\
      rows_deleted (Jacobian s) (Jacobian s') (points pre))
    BC_NS_Wall_vertex vs s) as (s' & E & HnV & HlS & Hlen & Hnode & HJ).
  - split; [done |]. split; [done |]. split; [done |]. split; [| apply rows_deleted_nil].
    intros p nd Hp. exists nd. split; [done |]. split; [done |]. split; [done |].
    intros Hin. by apply elem_of_nil in Hin.
  - intros pre v post s1 El (HnV1 & HlS1 & Hlen1 & Hnode1 & HJ1).
    assert (Hv : v ∈ vs) by (rewrite El, elem_of_app, elem_of_cons; auto).
    specialize (Hnodes v Hv).
    unfold BC_NS_Wall_vertex. rewrite zero_Solution_loop by lia. simpl.
    rewrite drop_ge by lia. rewrite app_nil_r.
    unfold get_node. cbn [node set_node with_node with_Solution Solution].
    destruct (at_lt "node" (node s1) (CVertex.Node v)) as (nd1 & Hnd1 & ->); [lia |].
    simpl.
    rewrite (at_Some _ _ _ (CVariable.SetSolution_Old (vec_zero (nVar s1)) nd1))
      by (apply list_lookup_insert_eq; lia).
    simpl. eexists. split; [done |].
    cbn [nVar node Jacobian Solution set_node with_node with_Jacobian with_Solution].
    rewrite list_insert_insert_eq.
    split; [done |]. split; [rewrite length_vec_zero; lia |].
    split; [by rewrite length_insert |]. split.
    + intros p nd Hp. destruct (Hnode1 p nd Hp) as (nd' & Hnd' & HS' & Hl' & Hz').
      destruct (decide (p = CVertex.Node v)) as [->|Hne].
      * eexists. rewrite list_lookup_insert_eq by lia. split; [done |].
        assert (nd' = nd1) as -> by congruence.
        node_simpl. rewrite length_vec_zero. split; [done |]. split; [done |].
        intros _. by rewrite Hl', HnV1.
      * exists nd'. rewrite list_lookup_insert_ne by done. split; [done |].
        split; [done |]. split; [done |].
        unfold points. rewrite fmap_app, elem_of_app.
        intros [Hin|Hin]; [by apply Hz' |].
        simpl in Hin. apply list_elem_of_singleton in Hin. done.
    + unfold points. rewrite fmap_app. simpl. by apply rows_deleted_snoc.
  - exists s'. split; [done |]. intros v Hv.
    destruct (lookup_lt_is_Some_2 (node s) (CVertex.Node v) (Hnodes v Hv)) as [nd Hnd].
    destruct (Hnode _ _ Hnd) as (nd' & Hnd' & HS' & _ & Hz).
    assert (Hin : CVertex.Node v ∈ points vs) by (apply list_elem_of_fmap; eauto).
    destruct (Hz Hin) as [Hold Hres].
    exists nd, nd'. split; [done |]. split; [done |]. split; [done |].
    split; [done |]. split; [done |].
    intros c. by apply (rows_deleted_row _ _ _ _ HJ).
Qed.

(** Two lists of doubles that evaluate to different values are different. *)
Ltac floats_differ H :=
  apply (f_equal (map Prim2SF)) in H; vm_compute in H; discriminate H.

Lemma BC_InterProcessor_spec_witness :
  CGeometry.vertex sample_geometry !! 0 = Some [CVertex.mk 0 [-1; 0]%float; CVertex.mk 1 [1; 0]%float]
  /\ (exists s', BC_InterProcessor false sample_geometry
                   (sample_config (-2) EULER_IMPLICIT SA false) 0 (sample_solver 1) = Ok s' /\
        forall v, v ∈ [CVertex.mk 0 [-1; 0]%float; CVertex.mk 1 [1; 0]%float] ->
          exists nd nd', node (sample_solver 1) !! CVertex.Node v = Some nd /\
            node s' !! CVertex.Node v = Some nd' /\
            CVariable.Residual nd' = vec_zero (length (CVariable.Residual nd)) /\
            row_deleted (Jacobian (sample_solver 1)) (Jacobian s') (CVertex.Node v)).
Proof.
  split; [reflexivity |].
  apply (BC_InterProcessor_spec sample_geometry (sample_config (-2) EULER_IMPLICIT SA false)
           0 (sample_solver 1) [CVertex.mk 0 [-1; 0]%float; CVertex.mk 1 [1; 0]%float]).
  - reflexivity.
  - intros v Hv. apply list_elem_of_In in Hv. simpl in Hv.
    destruct Hv as [<-|[<-|[]]]; simpl; lia.
  - simpl. lia.
  - simpl. lia.
Defined.

(** C2, the claim as worded fails: the wall condition leaves the current
    solution of a vertex point as it was, here 1 and not zero. *)
Lemma BC_NS_Wall_keeps_Solution :
  exists s' nd', BC_NS_Wall sample_geometry sample_flow
                   (sample_config 0 EULER_IMPLICIT SA false) 0 (sample_solver 1) = Ok s' /\
    node s' !! 0 = Some nd' /\
    CVariable.Solution nd' <> vec_zero (nVar (sample_solver 1)).
Proof.
  eexists. eexists. split; [vm_compute; reflexivity |]. split; [reflexivity |].
  intros H. floats_differ H.
Qed.

Lemma BC_NS_Wall_spec_witness :
  exists s', BC_NS_Wall sample_geometry sample_flow
               (sample_config 0 EULER_IMPLICIT SST false) 0 (sample_solver 2) = Ok s' /\
    forall v, v ∈ [CVertex.mk 0 [-1; 0]%float; CVertex.mk 1 [1; 0]%float] ->
      exists nd nd', node (sample_solver 2) !! CVertex.Node v = Some nd /\
        node s' !! CVertex.Node v = Some nd' /\
        CVariable.Solution_Old nd' = vec_zero (nVar (sample_solver 2)) /\
        CVariable.Residual nd' = vec_zero (length (CVariable.Residual nd)) /\
        CVariable.Solution nd' = CVariable.Solution nd /\
        row_deleted (Jacobian (sample_solver 2)) (Jacobian s') (CVertex.Node v).
Proof.
  apply (BC_NS_Wall_spec sample_geometry sample_flow (sample_config 0 EULER_IMPLICIT SST false)
           0 (sample_solver 2) [CVertex.mk 0 [-1; 0]%float; CVertex.mk 1 [1; 0]%float]).
  - reflexivity.
  - intros v Hv. apply list_elem_of_In in Hv. simpl in Hv.
    destruct Hv as [<-|[<-|[]]]; simpl; lia.
  - reflexivity.
Defined.

(** ** C1: the edge loops *)

Lemma node_AddResidual_Ok (i : nat) (s : CTurbSolution) (nd : CVariable.t) :
  node s !! i = Some nd ->
  node_AddResidual i s = Ok (set_node i (CVariable.AddResidual (Residual s) nd) s).
Proof. intros H. unfold node_AddResidual, get_node. by rewrite (at_Some _ _ _ _ H). Qed.

Lemma node_SubtractResidual_Ok (i : nat) (s : CTurbSolution) (nd : CVariable.t) :
  node s !! i = Some nd ->
  node_SubtractResidual i s = Ok (set_node i (CVariable.SubtractResidual (Residual s) nd) s).
Proof. intros H. unfold node_SubtractResidual, get_node. by rewrite (at_Some _ _ _ _ H). Qed.

Lemma lookup_AddBlock (i j : nat) (b : Block) (m : gmap (nat * nat) Block) (rc : nat * nat) :
  CSparseMatrix.AddBlock i j b m !! rc
  = if decide (rc = (i, j)) then block_add b <$> m !! rc else m !! rc.
Proof.
  unfold CSparseMatrix.AddBlock. case_decide as E.
  - subst rc. apply lookup_alter_eq.
  - apply lookup_alter_ne. congruence.
Qed.

Lemma lookup_SubtractBlock (i j : nat) (b : Block) (m : gmap (nat * nat) Block) (rc : nat * nat) :
  CSparseMatrix.SubtractBlock i j b m !! rc
  = if decide (rc = (i, j)) then block_sub b <$> m !! rc else m !! rc.
Proof.
  unfold CSparseMatrix.SubtractBlock. case_decide as E.
  - subst rc. apply lookup_alter_eq.
  - apply lookup_alter_ne. congruence.
Qed.

Ltac block_lookups :=
  repeat (rewrite lookup_AddBlock || rewrite lookup_SubtractBlock);
  repeat (case_decide; simplify_eq); try done; try lia.

(** Add to [i], subtract from [j]: the end of the Upwind_Residual body. *)
Lemma upwind_scatter (i j : nat) (s : CTurbSolution) (ni nj : CVariable.t) :
  i <> j -> node s !! i = Some ni -> node s !! j = Some nj ->
  exists s',
    (s1 ← node_AddResidual i s;
     s2 ← node_SubtractResidual j s1;
     let s := with_Jacobian (CSparseMatrix.AddBlock i i (Jacobian_i s2) (Jacobian s2)) s2 in
     let s := with_Jacobian (CSparseMatrix.AddBlock i j (Jacobian_j s) (Jacobian s)) s in
     let s := with_Jacobian (CSparseMatrix.SubtractBlock j i (Jacobian_i s) (Jacobian s)) s in
     let s := with_Jacobian (CSparseMatrix.SubtractBlock j j (Jacobian_j s) (Jacobian s)) s in
     Ok s) = Ok s' /\
    edge_assembled vec_add vec_sub block_add block_sub i j
      (Residual s) (Jacobian_i s) (Jacobian_j s) s s'.
Proof.
  intros Hne Hi Hj.
  rewrite (node_AddResidual_Ok _ _ _ Hi). simpl.
  rewrite (node_SubtractResidual_Ok j _ nj)
    by (solver_simpl; by rewrite list_lookup_insert_ne).
  simpl. eexists. split; [done |].
  assert (Hli : i < length (node s)) by (by apply lookup_lt_Some in Hi).
  assert (Hlj : j < length (node s)) by (by apply lookup_lt_Some in Hj).
  unfold edge_assembled. solver_simpl. split; [| split].
  - exists ni, nj. eexists. eexists.
    split; [done |]. split; [done |].
    split; [rewrite list_lookup_insert_ne by done; apply list_lookup_insert_eq; lia |].
    split; [apply list_lookup_insert_eq; rewrite length_insert; lia |].
    by node_simpl.
  - intros p Hpi Hpj. rewrite !list_lookup_insert_ne by done. done.
  - repeat split; try (intros r c Hrc); block_lookups.
Qed.

(** Subtract from [i], add to [j]: the end of the Viscous_Residual bodies. *)
Lemma viscous_scatter (i j : nat) (s : CTurbSolution) (ni nj : CVariable.t) :
  i <> j -> node s !! i = Some ni -> node s !! j = Some nj ->
  exists s',
    (s1 ← node_SubtractResidual i s;
     s2 ← node_AddResidual j s1;
     let s := with_Jacobian (CSparseMatrix.SubtractBlock i i (Jacobian_i s2) (Jacobian s2)) s2 in
     let s := with_Jacobian (CSparseMatrix.SubtractBlock i j (Jacobian_j s) (Jacobian s)) s in
     let s := with_Jacobian (CSparseMatrix.AddBlock j i (Jacobian_i s) (Jacobian s)) s in
     let s := with_Jacobian (CSparseMatrix.AddBlock j j (Jacobian_j s) (Jacobian s)) s in
     Ok s) = Ok s' /\
    edge_assembled vec_sub vec_add block_sub block_add i j
      (Residual s) (Jacobian_i s) (Jacobian_j s) s s'.
Proof.
  intros Hne Hi Hj.
  rewrite (node_SubtractResidual_Ok _ _ _ Hi). simpl.
  rewrite (node_AddResidual_Ok j _ nj)
    by (solver_simpl; by rewrite list_lookup_insert_ne).
  simpl. eexists. split; [done |].
  assert (Hli : i < length (node s)) by (by apply lookup_lt_Some in Hi).
  assert (Hlj : j < length (node s)) by (by apply lookup_lt_Some in Hj).
  unfold edge_assembled. solver_simpl. split; [| split].
  - exists ni, nj. eexists. eexists.
    split; [done |]. split; [done |].
    split; [rewrite list_lookup_insert_ne by done; apply list_lookup_insert_eq; lia |].
    split; [apply list_lookup_insert_eq; rewrite length_insert; lia |].
    by node_simpl.
  - intros p Hpi Hpj. rewrite !list_lookup_insert_ne by done. done.
  - repeat split; try (intros r c Hrc); block_lookups.
Qed.

Lemma edge_assembled_frame at_i at_j row_i row_j (i j : nat) (R : list float) (Ji Jj : Block)
    (s0 s s' : CTurbSolution) :
  node s = node s0 -> Jacobian s = Jacobian s0 ->
  edge_assembled at_i at_j row_i row_j i j R Ji Jj s s' ->
  edge_assembled at_i at_j row_i row_j i j R Ji Jj s0 s'.
Proof. unfold edge_assembled. intros -> ->. done. Qed.

Lemma Viscous_Residual_inputs_Ok (geometry : CGeometry.t) (flow : CFlowSolution)
    (e : CEdge.t) (s : CTurbSolution) (solver : CNumerics.t) :
  CEdge.GetNode 0 e < length (node s) -> CEdge.GetNode 1 e < length (node s) ->
  CEdge.GetNode 0 e < length (flow_node flow) -> CEdge.GetNode 1 e < length (flow_node flow) ->
  CEdge.GetNode 0 e < length (CGeometry.node geometry) ->
  CEdge.GetNode 1 e < length (CGeometry.node geometry) ->
  exists solver', Viscous_Residual_inputs geometry flow e s solver = Ok solver' /\
    CNumerics.compute solver' = CNumerics.compute solver /\
    CNumerics.calls solver' = CNumerics.calls solver.
Proof.
  intros Hi Hj Hfi Hfj Hgi Hgj. unfold Viscous_Residual_inputs, get_node.
  destruct (at_lt "geometry->node" _ _ Hgi) as (gi & _ & ->).
  destruct (at_lt "geometry->node" _ _ Hgj) as (gj & _ & ->).
  destruct (at_lt "solution_container[FLOW_SOL]->node" _ _ Hfi) as (fi & _ & ->).
  destruct (at_lt "solution_container[FLOW_SOL]->node" _ _ Hfj) as (fj & _ & ->).
  destruct (at_lt "node" _ _ Hi) as (ni & _ & ->).
  destruct (at_lt "node" _ _ Hj) as (nj & _ & ->).
  simpl. eexists. split; [done |]. done.
Qed.

Lemma Viscous_Residual_scatter_spec (config : CConfig.t) (e : CEdge.t)
    (s : CTurbSolution) (solver : CNumerics.t) :
  CEdge.GetNode 0 e <> CEdge.GetNode 1 e ->
  CEdge.GetNode 0 e < length (node s) -> CEdge.GetNode 1 e < length (node s) ->
  exists s' solver' inputs R Ji Jj,
    Viscous_Residual_scatter config e (s, solver) = Ok (s', solver') /\
    kernel_called config solver solver' inputs R Ji Jj /\
    edge_assembled vec_sub vec_add block_sub block_add
      (CEdge.GetNode 0 e) (CEdge.GetNode 1 e) R Ji Jj s s'.
Proof.
  intros Hne Hi Hj.
  destruct (lookup_lt_is_Some_2 _ _ Hi) as [ni Hni].
  destruct (lookup_lt_is_Some_2 _ _ Hj) as [nj Hnj].
  unfold Viscous_Residual_scatter, solver_SetResidual, CNumerics.SetResidual.
  destruct (CNumerics.compute solver (CNumerics.current solver) config true)
    as [[R Ji] Jj] eqn:EK.
  destruct (viscous_scatter (CEdge.GetNode 0 e) (CEdge.GetNode 1 e)
              (with_Jacobian_j Jj (with_Jacobian_i Ji (with_Residual R s))) ni nj)
    as (s' & E & Hs'); [done | done | done |].
  exists s', (CNumerics.mk (CNumerics.compute solver) (CNumerics.current solver)
                (CNumerics.calls solver ++ [CNumerics.current solver])),
    (CNumerics.current solver), R, Ji, Jj.
  split.
  - destruct (node_SubtractResidual _ _) as [s1|]; [| done]. simpl in E |- *.
    destruct (node_AddResidual _ _) as [s2|]; [| done]. simpl in E |- *.
    congruence.
  - split; [done |]. by apply (edge_assembled_frame _ _ _ _ _ _ _ _ _ _ _ _ eq_refl eq_refl Hs').
Qed.

(** A solver that differs from [s] in the contents of its scratch arrays
    only. *)
Definition same_shape (s s1 : CTurbSolution) : Prop :=
  node s1 = node s /\ Jacobian s1 = Jacobian s /\ nVar s1 = nVar s /\ nDim s1 = nDim s /\
  length (Vector_i s1) = length (Vector_i s) /\ length (Vector_j s1) = length (Vector_j s) /\
  length (FlowSolution_i s1) = length (FlowSolution_i s) /\
  length (FlowSolution_j s1) = length (FlowSolution_j s) /\
  length (Solution_i s1) = length (Solution_i s) /\
  length (Solution_j s1) = length (Solution_j s).

Lemma same_shape_refl (s : CTurbSolution) : same_shape s s.
Proof. by repeat split. Qed.

Ltac same_shape_step H :=
  destruct H as (? & ? & ? & ? & ? & ? & ? & ? & ? & ?);
  unfold same_shape; solver_simpl; rewrite ?length_insert; repeat split; congruence.

Lemma Project_Grad_Ok (s : CTurbSolution) (Gi Gj : list (list float)) (iVar : nat) :
  nDim s <= length (Vector_i s) -> nDim s <= length (Vector_j s) ->
  (exists row, Gi !! iVar = Some row /\ nDim s <= length row) ->
  (exists row, Gj !! iVar = Some row /\ nDim s <= length row) ->
  exists p, Project_Grad s Gi Gj iVar = Ok p.
Proof.
  intros Hvi Hvj (ri & Hri & Hli) (rj & Hrj & Hlj). unfold Project_Grad.
  match goal with |- exists p, for_ ?n ?b ?s0 = Ok p =>
    destruct (for_inv (fun _ _ => True) n b s0) as (p & E & _); [done | | by exists p] end.
  intros iDim [Pi Pj] HiDim _.
  destruct (at_lt "Vector_i" (Vector_i s) iDim) as (? & _ & ->); [lia |]; simpl.
  rewrite (at_Some _ _ _ _ Hri); simpl.
  destruct (at_lt "Gradient_i[iVar]" ri iDim) as (? & _ & ->); [lia |]; simpl.
  destruct (at_lt "Vector_j" (Vector_j s) iDim) as (? & _ & ->); [lia |]; simpl.
  rewrite (at_Some _ _ _ _ Hrj); simpl.
  destruct (at_lt "Gradient_j[iVar]" rj iDim) as (? & _ & ->); [lia |]; simpl.
  simpl. eexists. done.
Qed.

Lemma Upwind_reconstruct_Ok (geometry : CGeometry.t) (flow : CFlowSolution)
    (config : CConfig.t) (i j : nat) (s : CTurbSolution) (solver : CNumerics.t)
    (fi fj ni nj : CVariable.t) :
  flow_node flow !! i = Some fi -> flow_node flow !! j = Some fj ->
  node s !! i = Some ni -> node s !! j = Some nj ->
  reconstruct_ready geometry flow config i j s ->
  exists s1 solver1,
    Upwind_reconstruct geometry flow config i j (CVariable.Solution fi) (CVariable.Solution fj)
      (CVariable.Solution ni) (CVariable.Solution nj) (s, solver) = Ok (s1, solver1) /\
    same_shape s s1 /\
    CNumerics.compute solver1 = CNumerics.compute solver /\
    CNumerics.calls solver1 = CNumerics.calls solver.
Proof.
  intros Hfi Hfj Hni Hnj (gi & gj & fi' & fj' & ni' & nj' & Hgi & Hgj & Hfi' & Hfj' & Hni' & Hnj'
    & Hci & Hcj & Hvi & Hvj & Hui & Huj & HGfi & HGfj & HFi & HFj & Hti & Htj & HGi & HGj
    & HSi & HSj & Hlim).
  assert (fi' = fi) as -> by congruence. assert (fj' = fj) as -> by congruence.
  assert (ni' = ni) as -> by congruence. assert (nj' = nj) as -> by congruence.
  unfold Upwind_reconstruct.
  (* the half-edge vectors *)
  match goal with |- context [for_ (nDim s) ?b s] =>
    destruct (for_inv (fun _ s1 => same_shape s s1) (nDim s) b s) as (s1 & -> & Hs1) end.
  { apply same_shape_refl. }
  { intros iDim s1 HiDim Hs1.
    rewrite (at_Some _ _ _ _ Hgi), (at_Some _ _ _ _ Hgj). simpl.
    destruct (at_lt "Coord" (CPoint.Coord gi) iDim) as (ci & _ & ->); [lia |]; simpl.
    destruct (at_lt "Coord" (CPoint.Coord gj) iDim) as (cj & _ & ->); [lia |]; simpl.
    simpl. rewrite store_lt by (destruct Hs1 as (? & ? & ? & ? & ? & ?); lia).
    simpl. solver_simpl. rewrite store_lt by (destruct Hs1 as (? & ? & ? & ? & ? & ? & ?); lia).
    simpl. eexists. split; [done |]. same_shape_step Hs1. }
  simpl. rewrite (at_Some _ _ _ _ Hfi), (at_Some _ _ _ _ Hfj). simpl.
  (* the flow states *)
  match goal with |- context [for_ (flow_nVar flow) ?b s1] =>
    destruct (for_inv (fun _ s2 => same_shape s s2) (flow_nVar flow) b s1) as (s2 & -> & Hs2) end.
  { done. }
  { intros iVar s2 HiVar Hs2.
    destruct (Project_Grad_Ok s2 (CVariable.Gradient fi) (CVariable.Gradient fj) iVar)
      as ([Pi Pj] & ->).
    1-2: destruct Hs2 as (? & ? & ? & ? & ? & ? & ?); lia.
    1-2: destruct Hs2 as (? & ? & ? & -> & ?); auto.
    simpl.
    destruct (at_lt "U_i" (CVariable.Solution fi) iVar) as (? & _ & ->); [lia |]; simpl.
    simpl. rewrite store_lt by (destruct Hs2 as (? & ? & ? & ? & ? & ? & ? & ?); lia).
    simpl. solver_simpl.
    destruct (at_lt "U_j" (CVariable.Solution fj) iVar) as (? & _ & ->); [lia |]; simpl.
    simpl. rewrite store_lt by (destruct Hs2 as (? & ? & ? & ? & ? & ? & ? & ? & ?); lia).
    simpl. eexists. split; [done |]. same_shape_step Hs2. }
  simpl. unfold get_node.
  assert (Hn2 : node s2 = node s) by (by destruct Hs2).
  rewrite Hn2, (at_Some _ _ _ _ Hni), (at_Some _ _ _ _ Hnj). simpl.
  assert (HnV2 : nVar s2 = nVar s) by (by destruct Hs2 as (? & ? & ? & ?)).
  rewrite HnV2.
  (* the turbulent states *)
  match goal with |- context [for_ (nVar s) ?b s2] =>
    destruct (for_inv (fun _ s3 => same_shape s s3) (nVar s) b s2) as (s3 & -> & Hs3) end.
  { done. }
  { intros iVar s3 HiVar Hs3.
    destruct (Project_Grad_Ok s3 (CVariable.Gradient ni) (CVariable.Gradient nj) iVar)
      as ([Pi Pj] & ->).
    1-2: destruct Hs3 as (? & ? & ? & ? & ? & ? & ?); lia.
    1-2: destruct Hs3 as (? & ? & ? & -> & ?); auto.
    simpl.
    destruct (at_lt "turb_var_i" (CVariable.Solution ni) iVar) as (? & _ & ->); [lia |]; simpl.
    destruct (at_lt "turb_var_j" (CVariable.Solution nj) iVar) as (? & _ & ->); [lia |]; simpl.
    case_decide as Hnone.
    - simpl. rewrite store_lt by (destruct Hs3 as (? & ? & ? & ? & ? & ? & ? & ? & ? & ?); lia).
      simpl. solver_simpl.
      rewrite store_lt by (destruct Hs3 as (? & ? & ? & ? & ? & ? & ? & ? & ? & ?); lia).
      simpl. eexists. split; [done |]. same_shape_step Hs3.
    - destruct (Hlim Hnone) as [Hli Hlj].
      destruct (at_lt "Limiter_i" (CVariable.Limiter ni) iVar) as (? & _ & ->); [lia |]; simpl.
      destruct (at_lt "Limiter_j" (CVariable.Limiter nj) iVar) as (? & _ & ->); [lia |]; simpl.
      simpl. rewrite store_lt by (destruct Hs3 as (? & ? & ? & ? & ? & ? & ? & ? & ? & ?); lia).
      simpl. solver_simpl.
      rewrite store_lt by (destruct Hs3 as (? & ? & ? & ? & ? & ? & ? & ? & ? & ?); lia).
      simpl. eexists. split; [done |]. same_shape_step Hs3. }
  simpl. eexists. eexists. split; [done |]. split; [done |]. done.
Qed.

Lemma upwind_scatter_spec (config : CConfig.t) (i j : nat) (s0 s : CTurbSolution)
    (solver0 solver : CNumerics.t) :
  i <> j -> i < length (node s0) -> j < length (node s0) ->
  same_shape s0 s ->
  CNumerics.compute solver = CNumerics.compute solver0 ->
  CNumerics.calls solver = CNumerics.calls solver0 ->
  exists s' solver' inputs R Ji Jj,
    (let '(s, solver) := solver_SetResidual config (s, solver) in
     s ← node_AddResidual i s;
     s ← node_SubtractResidual j s;
     let s := with_Jacobian (CSparseMatrix.AddBlock i i (Jacobian_i s) (Jacobian s)) s in
     let s := with_Jacobian (CSparseMatrix.AddBlock i j (Jacobian_j s) (Jacobian s)) s in
     let s := with_Jacobian (CSparseMatrix.SubtractBlock j i (Jacobian_i s) (Jacobian s)) s in
     let s := with_Jacobian (CSparseMatrix.SubtractBlock j j (Jacobian_j s) (Jacobian s)) s in
     Ok (s, solver)) = Ok (s', solver') /\
    kernel_called config solver0 solver' inputs R Ji Jj /\
    edge_assembled vec_add vec_sub block_add block_sub i j R Ji Jj s0 s'.
Proof.
  intros Hne Hi Hj Hshape Hcomp Hcalls.
  assert (Hnode : node s = node s0) by (by destruct Hshape).
  assert (HJ : Jacobian s = Jacobian s0) by (by destruct Hshape as (? & ? & ?)).
  destruct (lookup_lt_is_Some_2 _ _ Hi) as [ni Hni].
  destruct (lookup_lt_is_Some_2 _ _ Hj) as [nj Hnj].
  unfold solver_SetResidual, CNumerics.SetResidual.
  destruct (CNumerics.compute solver (CNumerics.current solver) config true)
    as [[R Ji] Jj] eqn:EK.
  destruct (upwind_scatter i j (with_Jacobian_j Jj (with_Jacobian_i Ji (with_Residual R s))) ni nj)
    as (s' & E & Hs'); [done | solver_simpl; congruence | solver_simpl; congruence |].
  exists s', (CNumerics.mk (CNumerics.compute solver) (CNumerics.current solver)
                (CNumerics.calls solver ++ [CNumerics.current solver])),
    (CNumerics.current solver), R, Ji, Jj.
  split; [| split].
  - destruct (node_AddResidual _ _) as [s1|]; [| done]. simpl in E |- *.
    destruct (node_SubtractResidual _ _) as [s2|]; [| done]. simpl in E |- *.
    congruence.
  - unfold kernel_called. simpl. rewrite Hcalls, <- Hcomp. done.
  - by apply (edge_assembled_frame _ _ _ _ _ _ _ _ _ s0 _ _ Hnode HJ Hs').
Qed.

Lemma Upwind_Residual_edge_spec (geometry : CGeometry.t) (flow : CFlowSolution)
    (config : CConfig.t) (high_order_diss rotating_frame : bool) (e : CEdge.t)
    (s : CTurbSolution) (solver : CNumerics.t) :
  CEdge.GetNode 0 e <> CEdge.GetNode 1 e ->
  CEdge.GetNode 0 e < length (node s) -> CEdge.GetNode 1 e < length (node s) ->
  CEdge.GetNode 0 e < length (flow_node flow) -> CEdge.GetNode 1 e < length (flow_node flow) ->
  (rotating_frame = true ->
   CEdge.GetNode 0 e < length (CGeometry.node geometry) /\
   CEdge.GetNode 1 e < length (CGeometry.node geometry)) ->
  (high_order_diss = true ->
   reconstruct_ready geometry flow config (CEdge.GetNode 0 e) (CEdge.GetNode 1 e) s) ->
  exists s' solver' inputs R Ji Jj,
    Upwind_Residual_edge geometry flow config high_order_diss rotating_frame e (s, solver)
    = Ok (s', solver') /\
    kernel_called config solver solver' inputs R Ji Jj /\
    edge_assembled vec_add vec_sub block_add block_sub
      (CEdge.GetNode 0 e) (CEdge.GetNode 1 e) R Ji Jj s s'.
Proof.
  intros Hne Hi Hj Hfi Hfj Hrot Hhod. unfold Upwind_Residual_edge, get_node.
  destruct (at_lt "solution_container[FLOW_SOL]->node" _ _ Hfi) as (fi & Efi & ->); bsimpl.
  destruct (at_lt "solution_container[FLOW_SOL]->node" _ _ Hfj) as (fj & Efj & ->); bsimpl.
  destruct (at_lt "node" _ _ Hi) as (ni & Eni & ->); bsimpl.
  destruct (at_lt "node" _ _ Hj) as (nj & Enj & ->); bsimpl.
  set (solver1 := CNumerics.SetTurbVar _ _ _).
  assert (exists solver2,
    (if rotating_frame
     then gi ← at_ "geometry->node" (CGeometry.node geometry) (CEdge.GetNode 0 e);
          gj ← at_ "geometry->node" (CGeometry.node geometry) (CEdge.GetNode 1 e);
          Ok (CNumerics.SetRotVel (CPoint.RotVel gi) (CPoint.RotVel gj) solver1)
     else Ok solver1) = Ok solver2 /\
    CNumerics.compute solver2 = CNumerics.compute solver /\
    CNumerics.calls solver2 = CNumerics.calls solver) as (solver2 & -> & Hc2 & Hl2).
  { destruct rotating_frame.
    - destruct (Hrot eq_refl) as [Hgi Hgj].
      destruct (at_lt "geometry->node" _ _ Hgi) as (gi & _ & ->); bsimpl.
      destruct (at_lt "geometry->node" _ _ Hgj) as (gj & _ & ->); bsimpl.
      eexists. split; [done |]. done.
    - eexists. split; [done |]. done. }
  bsimpl.
  assert (exists s3 solver3,
    (if high_order_diss
     then Upwind_reconstruct geometry flow config (CEdge.GetNode 0 e) (CEdge.GetNode 1 e)
            (CVariable.Solution fi) (CVariable.Solution fj)
            (CVariable.Solution ni) (CVariable.Solution nj) (s, solver2)
     else Ok (s, solver2)) = Ok (s3, solver3) /\
    same_shape s s3 /\
    CNumerics.compute solver3 = CNumerics.compute solver /\
    CNumerics.calls solver3 = CNumerics.calls solver) as (s3 & solver3 & -> & Hs3 & Hc3 & Hl3).
  { destruct high_order_diss.
    - destruct (Upwind_reconstruct_Ok geometry flow config _ _ s solver2 fi fj ni nj
                  Efi Efj Eni Enj (Hhod eq_refl)) as (s3 & solver3 & E & Hs3 & Hc3 & Hl3).
      exists s3, solver3. split; [done |]. split; [done |]. split; congruence.
    - exists s, solver2. split; [done |]. split; [apply same_shape_refl |]. done. }
  bsimpl.
  by apply (upwind_scatter_spec config _ _ s s3 solver solver3).
Qed.

Lemma SA_Viscous_Residual_edge_spec (geometry : CGeometry.t) (flow : CFlowSolution)
    (config : CConfig.t) (e : CEdge.t) (s : CTurbSolution) (solver : CNumerics.t) :
  CEdge.GetNode 0 e <> CEdge.GetNode 1 e ->
  CEdge.GetNode 0 e < length (node s) -> CEdge.GetNode 1 e < length (node s) ->
  CEdge.GetNode 0 e < length (flow_node flow) -> CEdge.GetNode 1 e < length (flow_node flow) ->
  CEdge.GetNode 0 e < length (CGeometry.node geometry) ->
  CEdge.GetNode 1 e < length (CGeometry.node geometry) ->
  exists s' solver' inputs R Ji Jj,
    SA_Viscous_Residual_edge geometry flow config e (s, solver) = Ok (s', solver') /\
    kernel_called config solver solver' inputs R Ji Jj /\
    edge_assembled vec_sub vec_add block_sub block_add
      (CEdge.GetNode 0 e) (CEdge.GetNode 1 e) R Ji Jj s s'.
Proof.
  intros Hne Hi Hj Hfi Hfj Hgi Hgj. unfold SA_Viscous_Residual_edge.
  destruct (Viscous_Residual_inputs_Ok geometry flow e s solver Hi Hj Hfi Hfj Hgi Hgj)
    as (solver1 & -> & Hc1 & Hl1). simpl.
  assert (exists solver2,
    (if decide (CConfig.Kind_Turb_Model config = SA_COMP)
     then fi ← at_ "solution_container[FLOW_SOL]->node" (flow_node flow) (CEdge.GetNode 0 e);
          fj ← at_ "solution_container[FLOW_SOL]->node" (flow_node flow) (CEdge.GetNode 1 e);
          Ok (CNumerics.SetConsVarGradient (CVariable.Gradient fi) (CVariable.Gradient fj) solver1)
     else Ok solver1) = Ok solver2 /\
    CNumerics.compute solver2 = CNumerics.compute solver /\
    CNumerics.calls solver2 = CNumerics.calls solver) as (solver2 & -> & Hc2 & Hl2).
  { case_decide.
    - destruct (at_lt "solution_container[FLOW_SOL]->node" _ _ Hfi) as (fi & _ & ->); simpl.
      destruct (at_lt "solution_container[FLOW_SOL]->node" _ _ Hfj) as (fj & _ & ->); simpl.
      eexists. split; [done |]. done.
    - eexists. split; [done |]. done. }
  simpl.
  destruct (Viscous_Residual_scatter_spec config e s solver2 Hne Hi Hj)
    as (s' & solver' & inputs & R & Ji & Jj & E & (Hk1 & Hk2 & Hk3) & Hs').
  exists s', solver', inputs, R, Ji, Jj. split; [done |]. split; [| done].
  unfold kernel_called. rewrite Hk1, Hk2, Hl2, Hc2. rewrite Hc2 in Hk3. done.
Qed.

Lemma SST_Viscous_Residual_edge_spec (geometry : CGeometry.t) (flow : CFlowSolution)
    (config : CConfig.t) (e : CEdge.t) (s : CTurbSolution) (solver : CNumerics.t) :
  CEdge.GetNode 0 e <> CEdge.GetNode 1 e ->
  CEdge.GetNode 0 e < length (node s) -> CEdge.GetNode 1 e < length (node s) ->
  CEdge.GetNode 0 e < length (flow_node flow) -> CEdge.GetNode 1 e < length (flow_node flow) ->
  CEdge.GetNode 0 e < length (CGeometry.node geometry) ->
  CEdge.GetNode 1 e < length (CGeometry.node geometry) ->
  exists s' solver' inputs R Ji Jj,
    SST_Viscous_Residual_edge geometry flow config e (s, solver) = Ok (s', solver') /\
    kernel_called config solver solver' inputs R Ji Jj /\
    edge_assembled vec_sub vec_add block_sub block_add
      (CEdge.GetNode 0 e) (CEdge.GetNode 1 e) R Ji Jj s s'.
Proof.
  intros Hne Hi Hj Hfi Hfj Hgi Hgj. unfold SST_Viscous_Residual_edge.
  destruct (Viscous_Residual_inputs_Ok geometry flow e s solver Hi Hj Hfi Hfj Hgi Hgj)
    as (solver1 & -> & Hc1 & Hl1). simpl.
  unfold get_node. destruct (at_lt "node" _ _ Hi) as (ni & _ & ->); simpl.
  destruct (Viscous_Residual_scatter_spec config e s
              (CNumerics.SetF1blending (CVariable.F1blending ni) solver1) Hne Hi Hj)
    as (s' & solver' & inputs & R & Ji & Jj & E & (Hk1 & Hk2 & Hk3) & Hs').
  exists s', solver', inputs, R, Ji, Jj. split; [done |]. split; [| done].
  unfold kernel_called. rewrite Hk1, Hk2. simpl. rewrite Hl1, Hc1.
  simpl in Hk3. rewrite Hc1 in Hk3. done.
Qed.

(** The three loops visit the edges in order and run the edge step on each. *)
Lemma SST_Viscous_Residual_loop (geometry : CGeometry.t) (flow : CFlowSolution)
    (config : CConfig.t) (iRKStep : nat) (st : CTurbSolution * CNumerics.t) :
  viscous_enabled config iRKStep = true ->
  SST_Viscous_Residual geometry flow config iRKStep st
  = (st' ← foldM (SST_Viscous_Residual_edge geometry flow config) (CGeometry.edge geometry) st;
     Ok (flow, st')).
Proof. intros H. unfold SST_Viscous_Residual. rewrite H. by rewrite for_at_foldM. Qed.

Lemma SA_Viscous_Residual_loop GG LS (geometry : CGeometry.t) (flow : CFlowSolution)
    (config : CConfig.t) (iRKStep : nat) (st : CTurbSolution * CNumerics.t) :
  viscous_enabled config iRKStep = true ->
  SA_Viscous_Residual GG LS geometry flow config iRKStep st
  = (let flow := if decide (CConfig.Kind_Turb_Model config = SA_COMP)
                 then flow_gradient GG LS geometry config flow else flow in
     st' ← foldM (SA_Viscous_Residual_edge geometry flow config) (CGeometry.edge geometry) st;
     Ok (flow, st')).
Proof. intros H. unfold SA_Viscous_Residual. rewrite H. by rewrite for_at_foldM. Qed.

Lemma Upwind_Residual_loop GG LS Lim (geometry : CGeometry.t) (flow : CFlowSolution)
    (config : CConfig.t) (s : CTurbSolution) (solver : CNumerics.t) :
  Upwind_Residual GG LS Lim geometry flow config (s, solver)
  = (let hod := bool_decide (CConfig.Kind_Upwind_Turb config = SCALAR_UPWIND_2ND) in
     let flow := if hod then flow_gradient GG LS geometry config flow else flow in
     let s := if hod && bool_decide (CConfig.Kind_SlopeLimit_Turb config = VENKATAKRISHNAN)
              then Lim geometry config s else s in
     st' ← foldM (Upwind_Residual_edge geometry flow config hod (CConfig.Rotating_Frame config))
             (CGeometry.edge geometry) (s, solver);
     Ok (flow, st')).
Proof. unfold Upwind_Residual. by rewrite for_at_foldM. Qed.

(** C1 (as amended). For every edge (iPoint, jPoint) with two different end
    points that exist in the geometry and in both solvers, and for any flux
    kernel, one round of an edge loop calls the kernel once and changes the
    residuals of the two end points by additive inverses, and no other point:
    - the convective Upwind_Residual (the same text in both models) adds the
      kernel residual to iPoint and subtracts it from jPoint, adds the two
      blocks into the entries (i,i) and (i,j) and subtracts them from (j,i)
      and (j,j);
    - the viscous Viscous_Residual of both models does the opposite: it
      subtracts the kernel residual from iPoint and adds it to jPoint,
      subtracts the blocks from (i,i) and (i,j) and adds them into (j,i) and
      (j,j);
    - Viscous_Residual does nothing unless the Runge-Kutta coefficient of the
      step is not zero or the time integration is implicit. *)
Theorem edge_assembly_signs (geometry : CGeometry.t) (flow : CFlowSolution)
    (config : CConfig.t) (e : CEdge.t) (s : CTurbSolution) (solver : CNumerics.t) :
  let i := CEdge.GetNode 0 e in
  let j := CEdge.GetNode 1 e in
  i <> j ->
  i < length (node s) -> j < length (node s) ->
  i < length (flow_node flow) -> j < length (flow_node flow) ->
  i < length (CGeometry.node geometry) -> j < length (CGeometry.node geometry) ->
  (forall high_order_diss rotating_frame,
     (high_order_diss = true -> reconstruct_ready geometry flow config i j s) ->
     exists s' solver' inputs R Ji Jj,
       Upwind_Residual_edge geometry flow config high_order_diss rotating_frame e (s, solver)
       = Ok (s', solver') /\
       kernel_called config solver solver' inputs R Ji Jj /\
       edge_assembled vec_add vec_sub block_add block_sub i j R Ji Jj s s')
  /\ (exists s' solver' inputs R Ji Jj,
        SA_Viscous_Residual_edge geometry flow config e (s, solver) = Ok (s', solver') /\
        kernel_called config solver solver' inputs R Ji Jj /\
        edge_assembled vec_sub vec_add block_sub block_add i j R Ji Jj s s')
  /\ (exists s' solver' inputs R Ji Jj,
        SST_Viscous_Residual_edge geometry flow config e (s, solver) = Ok (s', solver') /\
        kernel_called config solver solver' inputs R Ji Jj /\
        edge_assembled vec_sub vec_add block_sub block_add i j R Ji Jj s s')
  /\ (forall GG LS iRKStep, viscous_enabled config iRKStep = false ->
        SA_Viscous_Residual GG LS geometry flow config iRKStep (s, solver)
        = Ok (flow, (s, solver)) /\
        SST_Viscous_Residual geometry flow config iRKStep (s, solver)
        = Ok (flow, (s, solver))).
Proof.
  intros i j Hne Hi Hj Hfi Hfj Hgi Hgj. split; [| split; [| split]].
  - intros hod rot Hready. by apply Upwind_Residual_edge_spec.
  - by apply SA_Viscous_Residual_edge_spec.
  - by apply SST_Viscous_Residual_edge_spec.
  - intros GG LS iRKStep H. unfold SA_Viscous_Residual, SST_Viscous_Residual.
    by rewrite H.
Qed.

Lemma sample_reconstruct_ready :
  reconstruct_ready sample_geometry sample_flow (sample_config 0 EULER_IMPLICIT SA false)
    0 1 (sample_solver 1).
Proof.
  unfold reconstruct_ready. do 6 eexists.
  do 6 (split; [reflexivity |]).
  repeat split; simpl; try lia; try done.
  all: intros iVar HiVar; simpl in HiVar;
    repeat (destruct iVar as [|iVar]; [eexists; split; [reflexivity | simpl; lia] |]); lia.
Defined.

Lemma edge_assembly_signs_witness :
  exists s' solver' inputs R Ji Jj,
    Upwind_Residual_edge sample_geometry sample_flow (sample_config 0 EULER_IMPLICIT SA false)
      true false (CEdge.mk (0, 1) [1; 0]%float) (sample_solver 1, sample_numerics)
    = Ok (s', solver') /\
    kernel_called (sample_config 0 EULER_IMPLICIT SA false) sample_numerics solver' inputs R Ji Jj /\
    edge_assembled vec_add vec_sub block_add block_sub 0 1 R Ji Jj (sample_solver 1) s'.
Proof.
  refine (proj1 (edge_assembly_signs sample_geometry sample_flow
            (sample_config 0 EULER_IMPLICIT SA false) (CEdge.mk (0, 1) [1; 0]%float)
            (sample_solver 1) sample_numerics _ _ _ _ _ _ _) true false _).
  - discriminate.
  - vm_compute. lia.
  - vm_compute. lia.
  - vm_compute. lia.
  - vm_compute. lia.
  - vm_compute. lia.
  - vm_compute. lia.
  - intros _. apply sample_reconstruct_ready.
Defined.

(** C1, the claim as worded fails on the viscous loop: at the edge (0, 1) of
    the sample mesh the kernel residual is subtracted from the residual of
    iPoint, which is therefore not the old residual plus the kernel
    residual. *)
Lemma SA_Viscous_Residual_edge_subtracts_at_iPoint :
  exists s' solver' inputs nd nd',
    SA_Viscous_Residual_edge sample_geometry sample_flow (sample_config 0 EULER_IMPLICIT SA false)
      (CEdge.mk (0, 1) [1; 0]%float) (sample_solver 1, sample_numerics) = Ok (s', solver') /\
    CNumerics.calls solver' = [inputs] /\
    node (sample_solver 1) !! 0 = Some nd /\
    node s' !! 0 = Some nd' /\
    CVariable.Residual nd'
    <> vec_add (CVariable.Residual nd)
         (sample_kernel inputs (sample_config 0 EULER_IMPLICIT SA false) true).1.1.
Proof.
  do 5 eexists. split; [vm_compute; reflexivity |].
  split; [reflexivity |]. split; [reflexivity |]. split; [reflexivity |].
  intros H. floats_differ H.
Qed.

(** ** Boundary vertices: the steps of the loop bodies *)

Lemma insert_take_drop {A} (src dst : list A) (i : nat) (x : A) :
  src !! i = Some x -> i < length dst ->
  <[i:=x]> (take i src ++ drop i dst) = take (Datatypes.S i) src ++ drop (Datatypes.S i) dst.
Proof.
  intros Hx Hi. destruct (lookup_lt_is_Some_2 dst i Hi) as [y Hy].
  assert (Hl : i < length src) by (by apply lookup_lt_Some in Hx).
  rewrite (drop_S dst y i Hy).
  rewrite insert_app_r_alt by (rewrite length_take; lia).
  rewrite length_take, Nat.min_l, Nat.sub_diag by lia.
  rewrite (take_S_r src i x Hx), <- app_assoc. done.
Qed.

Lemma with_Solution_i_same (s : CTurbSolution) : with_Solution_i (Solution_i s) s = s.
Proof. by destruct s. Qed.

(** The copy loop of the interior turbulent state leaves with [iVar = nVar]
    and with the state of the point in [Solution_i]. *)
Lemma copy_Solution_i_Ok (iPoint : nat) (s : CTurbSolution) (nd : CVariable.t) :
  node s !! iPoint = Some nd ->
  nVar s <= length (CVariable.Solution nd) ->
  nVar s <= length (Solution_i s) ->
  copy_Solution_i iPoint s
  = Ok (nVar s, with_Solution_i (take (nVar s) (CVariable.Solution nd)
                                 ++ drop (nVar s) (Solution_i s)) s).
Proof.
  intros Hnd Hsrc Hdst. unfold copy_Solution_i, for_idx.
  match goal with |- context [for_ ?n ?b s] =>
    destruct (for_inv (fun k s' => k <= n /\
        s' = with_Solution_i (take k (CVariable.Solution nd) ++ drop k (Solution_i s)) s)
      n b s) as (s' & -> & _ & ->) end; [| | done].
  - split; [lia |]. rewrite take_0, drop_0. simpl. by rewrite with_Solution_i_same.
  - intros k s1 Hk [_ ->]. unfold get_node, CVariable.GetSolution. solver_simpl.
    rewrite (at_Some _ _ _ _ Hnd). bsimpl.
    destruct (at_lt "Solution" (CVariable.Solution nd) k) as (x & Hx & ->); [lia |]. bsimpl.
    rewrite store_lt by (rewrite length_app, length_take, length_drop; lia). bsimpl.
    eexists. split; [done |]. split; [lia |].
    rewrite insert_take_drop by (done || lia). done.
Qed.

Lemma copy_FlowSolution_i_Ok (flow : CFlowSolution) (iPoint : nat) (s : CTurbSolution)
    (fnd : CVariable.t) :
  flow_node flow !! iPoint = Some fnd ->
  flow_nVar flow <= length (CVariable.Solution fnd) ->
  flow_nVar flow <= length (FlowSolution_i s) ->
  exists a, copy_FlowSolution_i flow iPoint s = Ok (with_FlowSolution_i a s) /\
    length a = length (FlowSolution_i s).
Proof.
  intros Hnd Hsrc Hdst. unfold copy_FlowSolution_i.
  match goal with |- context [for_ ?n ?b s] =>
    destruct (for_inv (fun _ s' => exists a, s' = with_FlowSolution_i a s /\
                                   length a = length (FlowSolution_i s))
      n b s) as (s' & -> & a & -> & Ha) end.
  - exists (FlowSolution_i s). split; [by destruct s | done].
  - intros k s1 Hk (a & -> & Ha). unfold CVariable.GetSolution. solver_simpl.
    rewrite (at_Some _ _ _ _ Hnd). bsimpl.
    destruct (at_lt "Solution" (CVariable.Solution fnd) k) as (x & Hx & ->); [lia |]. bsimpl.
    rewrite store_lt by lia. bsimpl.
    eexists. split; [done |]. eexists. split; [done |]. by rewrite length_insert.
  - by exists a.
Qed.

Lemma freestream_FlowSolution_j_Ok (flow : CFlowSolution) (s : CTurbSolution) :
  nDim s + 2 <= length (FlowSolution_j s) ->
  nDim s <= length (Density_Velocity_Inf flow) ->
  exists a, freestream_FlowSolution_j flow s = Ok (with_FlowSolution_j a s) /\
    length a = length (FlowSolution_j s).
Proof.
  intros Hj Hv. unfold freestream_FlowSolution_j.
  rewrite store_lt by lia. bsimpl.
  rewrite store_lt by (rewrite length_insert; lia). bsimpl.
  match goal with |- context [for_ ?n ?b ?s0] =>
    destruct (for_inv (fun _ s' => exists a, s' = with_FlowSolution_j a s /\
                                   length a = length (FlowSolution_j s))
      n b s0) as (s' & -> & a & -> & Ha) end.
  - eexists. split; [done |]. by rewrite !length_insert.
  - intros k s1 Hk (a & -> & Ha). solver_simpl. cbn [nDim with_FlowSolution_j] in Hk.
    destruct (at_lt "Density_Velocity_Inf" (Density_Velocity_Inf flow) k) as (x & _ & ->);
      [lia |]. bsimpl.
    rewrite store_lt by lia. bsimpl.
    eexists. split; [done |]. eexists. split; [done |]. by rewrite length_insert.
  - by exists a.
Qed.

Lemma outward_Normal_Ok (s : CTurbSolution) (vert : CVertex.t) (Normal : list float) :
  nDim s <= length (CVertex.Normal vert) -> nDim s <= length Normal ->
  exists Normal', outward_Normal s vert Normal = Ok Normal' /\ length Normal' = length Normal.
Proof.
  intros Hv Hn. unfold outward_Normal.
  match goal with |- context [for_ ?n ?b Normal] =>
    destruct (for_inv (fun _ N => length N = length Normal) n b Normal) as (N1 & -> & HN1) end.
  - done.
  - intros k N Hk HN.
    destruct (at_lt "vertex->Normal" (CVertex.Normal vert) k) as (x & _ & ->); [lia |]. bsimpl.
    rewrite store_lt by lia. eexists. split; [done |]. by rewrite length_insert.
  - bsimpl.
    match goal with |- context [for_ ?n ?b N1] =>
      destruct (for_inv (fun _ N => length N = length Normal) n b N1) as (N2 & -> & HN2) end.
    + done.
    + intros k N Hk HN.
      destruct (at_lt "Normal" N k) as (x & _ & ->); [lia |]. bsimpl.
      rewrite store_lt by lia. eexists. split; [done |]. by rewrite length_insert.
    + by exists N2.
Qed.

Lemma boundary_scatter_Ok (config : CConfig.t) (iPoint : nat) (s : CTurbSolution)
    (solver : CNumerics.t) (nd : CVariable.t) :
  node s !! iPoint = Some nd ->
  exists R Ji,
    boundary_scatter config iPoint (s, solver)
    = Ok (with_Jacobian (CSparseMatrix.AddBlock iPoint iPoint Ji (Jacobian s))
            (set_node iPoint (CVariable.AddResidual R nd)
               (with_Jacobian_i Ji (with_Residual R s))),
          CNumerics.mk (CNumerics.compute solver) (CNumerics.current solver)
            (CNumerics.calls solver ++ [CNumerics.current solver])).
Proof.
  intros Hnd. unfold boundary_scatter, solver_SetResidual_i, CNumerics.SetResidual.
  destruct (CNumerics.compute solver (CNumerics.current solver) config false)
    as [[R Ji] Jj].
  exists R, Ji. rewrite (node_AddResidual_Ok _ _ nd) by done. done.
Qed.

(** ** C10: the exterior state of CTurbSASolution at inlets and outlets *)

Lemma SA_BC_Inlet_flow_Ok pow (flow : CFlowSolution) (config : CConfig.t) (val_marker : nat)
    (vert : CVertex.t) (Velocity : list float) (s0 s : CTurbSolution) :
  inlet_flow_ready flow config val_marker vert s0 ->
  nDim s = nDim s0 -> length (FlowSolution_j s) = length (FlowSolution_j s0) ->
  length Velocity = 3 ->
  exists Velocity' a,
    SA_BC_Inlet_flow pow flow config val_marker (CVertex.Node vert) Velocity s
    = Ok (Velocity', with_FlowSolution_j a s) /\
    length Velocity' = 3 /\ length a = length (FlowSolution_j s).
Proof.
  intros (fnd & Hfnd & _ & _ & Hd3 & HV & Hdir & HFj & _) HnD HlF HlV.
  unfold SA_BC_Inlet_flow. rewrite HnD.
  match goal with |- context [for_ ?n ?b Velocity] =>
    destruct (for_inv (fun _ V => length V = 3) n b Velocity) as (V1 & -> & HV1) end.
  { done. }
  { intros k V Hk HVl. rewrite (at_Some _ _ _ _ Hfnd). bsimpl.
    destruct (at_lt "Velocity" (CVariable.Velocity fnd) k) as (x & _ & ->); [lia |]. bsimpl.
    rewrite store_lt by lia. eexists. split; [done |]. by rewrite length_insert. }
  bsimpl. rewrite (at_Some _ _ _ _ Hfnd). bsimpl.
  set (dir := CConfig.Inlet_FlowDir config (CConfig.Marker_All_Tag config val_marker)) in *.
  destruct (decide (nDim s0 = 3)) as [E3|E3].
  - destruct (at_lt "Flow_Direction" dir 0) as (d0 & _ & ->); [lia |]. bsimpl.
    rewrite (store_lt "Velocity") by lia. bsimpl.
    destruct (at_lt "Flow_Direction" dir 1) as (d1 & _ & ->); [lia |]. bsimpl.
    rewrite (store_lt "Velocity") by (rewrite length_insert; lia). bsimpl.
    destruct (at_lt "Flow_Direction" dir 2) as (d2 & _ & ->); [lia |]. bsimpl.
    rewrite (store_lt "Velocity") by (rewrite !length_insert; lia). bsimpl.
    rewrite (store_lt "FlowSolution_j") by lia. bsimpl.
    match goal with |- context [at_ "Velocity" ?V 0] =>
      destruct (at_lt "Velocity" V 0) as (v0 & _ & ->); [rewrite !length_insert; lia |] end.
    bsimpl. rewrite (store_lt "FlowSolution_j") by (rewrite !length_insert; lia). bsimpl.
    match goal with |- context [at_ "Velocity" ?V 1] =>
      destruct (at_lt "Velocity" V 1) as (v1 & _ & ->); [rewrite !length_insert; lia |] end.
    bsimpl. rewrite (store_lt "FlowSolution_j") by (rewrite !length_insert; lia). bsimpl.
    rewrite (store_lt "FlowSolution_j") by (rewrite !length_insert; lia). bsimpl.
    match goal with |- context [at_ "Velocity" ?V 2] =>
      destruct (at_lt "Velocity" V 2) as (v2 & _ & ->); [rewrite !length_insert; lia |] end.
    bsimpl. rewrite (store_lt "FlowSolution_j") by (rewrite !length_insert; lia). bsimpl.
    rewrite (store_lt "FlowSolution_j") by (rewrite !length_insert; lia). bsimpl.
    eexists. eexists. split; [done |]. by rewrite !length_insert.
  - destruct (at_lt "Flow_Direction" dir 0) as (d0 & _ & ->); [lia |]. bsimpl.
    rewrite (store_lt "Velocity") by lia. bsimpl.
    destruct (at_lt "Flow_Direction" dir 1) as (d1 & _ & ->); [lia |]. bsimpl.
    rewrite (store_lt "Velocity") by (rewrite length_insert; lia). bsimpl.
    rewrite (store_lt "FlowSolution_j") by lia. bsimpl.
    match goal with |- context [at_ "Velocity" ?V 0] =>
      destruct (at_lt "Velocity" V 0) as (v0 & _ & ->); [rewrite !length_insert; lia |] end.
    bsimpl. rewrite (store_lt "FlowSolution_j") by (rewrite !length_insert; lia). bsimpl.
    match goal with |- context [at_ "Velocity" ?V 1] =>
      destruct (at_lt "Velocity" V 1) as (v1 & _ & ->); [rewrite !length_insert; lia |] end.
    bsimpl. rewrite (store_lt "FlowSolution_j") by (rewrite !length_insert; lia). bsimpl.
    rewrite (store_lt "FlowSolution_j") by (rewrite !length_insert; lia). bsimpl.
    eexists. eexists. split; [done |]. by rewrite !length_insert.
Qed.

Lemma SA_BC_Inlet_turb_Fault (iPoint : nat) (s : CTurbSolution) (nd : CVariable.t) :
  node s !! iPoint = Some nd ->
  nVar s <= length (CVariable.Solution nd) ->
  nVar s <= length (Solution_i s) ->
  length (Solution_j s) = nVar s ->
  SA_BC_Inlet_turb iPoint s = Fault (OutOfBounds "Solution_j" (nVar s) (nVar s)).
Proof.
  intros Hnd Hsrc Hdst Hj. unfold SA_BC_Inlet_turb.
  rewrite (copy_Solution_i_Ok _ _ nd) by done. bsimpl. solver_simpl.
  rewrite store_ge by lia. by rewrite Hj.
Qed.

Lemma SA_BC_Outlet_turb_Fault (iPoint : nat) (s : CTurbSolution) (nd : CVariable.t) :
  node s !! iPoint = Some nd ->
  length (CVariable.Solution nd) = nVar s ->
  nVar s <= length (Solution_i s) ->
  SA_BC_Outlet_turb iPoint s = Fault (OutOfBounds "Solution" (nVar s) (nVar s)).
Proof.
  intros Hnd Hsrc Hdst. unfold SA_BC_Outlet_turb.
  rewrite (copy_Solution_i_Ok _ _ nd) by (done || lia). bsimpl.
  unfold get_node. solver_simpl. rewrite (at_Some _ _ _ _ Hnd). bsimpl.
  unfold CVariable.GetSolution. rewrite at_ge by lia. by rewrite Hsrc.
Qed.

Lemma SA_BC_Outlet_vertex_Fault (flow : CFlowSolution) (config : CConfig.t)
    (vert : CVertex.t) (Normal : list float) (s : CTurbSolution) (solver : CNumerics.t)
    (nd fnd : CVariable.t) :
  node s !! CVertex.Node vert = Some nd ->
  flow_node flow !! CVertex.Node vert = Some fnd ->
  length (CVariable.Solution nd) = nVar s ->
  nVar s <= length (Solution_i s) ->
  SA_BC_Outlet_vertex flow config vert (Normal, (s, solver))
  = Fault (OutOfBounds "Solution" (nVar s) (nVar s)).
Proof.
  intros Hnd Hfnd HS HSi. unfold SA_BC_Outlet_vertex.
  rewrite (at_Some _ _ _ _ Hfnd). bsimpl.
  rewrite (SA_BC_Outlet_turb_Fault _ _ nd) by (done || lia). done.
Qed.

Lemma SA_BC_Inlet_vertex_Fault pow (flow : CFlowSolution) (config : CConfig.t)
    (val_marker : nat) (vert : CVertex.t) (Velocity Normal : list float)
    (s : CTurbSolution) (solver : CNumerics.t) (nd : CVariable.t) :
  node s !! CVertex.Node vert = Some nd ->
  nVar s <= length (CVariable.Solution nd) ->
  nVar s <= length (Solution_i s) ->
  length (Solution_j s) = nVar s ->
  inlet_flow_ready flow config val_marker vert s ->
  length Velocity = 3 -> length Normal = 3 ->
  SA_BC_Inlet_vertex pow flow config val_marker vert ((Velocity, Normal), (s, solver))
  = Fault (OutOfBounds "Solution_j" (nVar s) (nVar s)).
Proof.
  intros Hnd HS HSi HSj Hready HlV HlN. unfold SA_BC_Inlet_vertex.
  pose proof Hready as (fnd' & Hfnd' & Hfs & HFi & Hd3 & _ & _ & _ & HN).
  destruct (copy_FlowSolution_i_Ok flow _ s fnd' Hfnd' Hfs HFi) as (a & -> & Ha). bsimpl.
  destruct (SA_BC_Inlet_flow_Ok pow flow config val_marker vert Velocity s
              (with_FlowSolution_i a s) Hready eq_refl eq_refl HlV)
    as (V' & b & -> & HV' & Hb).
  bsimpl.
  destruct (outward_Normal_Ok (with_FlowSolution_j b (with_FlowSolution_i a s)) vert Normal)
    as (N' & -> & HN').
  { solver_simpl. done. }
  { solver_simpl. lia. }
  bsimpl. rewrite (SA_BC_Inlet_turb_Fault _ _ nd); solver_simpl; (done || lia).
Qed.

(** C10. In CTurbSASolution::BC_Inlet and CTurbSASolution::BC_Outlet the
    copy loop of the interior state ends with iVar = nVar and has not written
    to Solution_j; the assignment that follows writes Solution_j[nVar] (and,
    in BC_Outlet, reads GetSolution(nVar)), one position past the last index
    of the arrays of nVar doubles, so that with checked indexing the step is
    an out-of-bounds fault at the first boundary vertex, Solution_j[0] not
    having been assigned. *)
Theorem SA_exterior_state_out_of_bounds uninit pow (geometry : CGeometry.t)
    (flow : CFlowSolution) (config : CConfig.t) (val_marker : nat)
    (vert : CVertex.t) (rest : list CVertex.t) (s : CTurbSolution) (solver : CNumerics.t)
    (nd fnd : CVariable.t) :
  let iPoint := CVertex.Node vert in
  CGeometry.vertex geometry !! val_marker = Some (vert :: rest) ->
  node s !! iPoint = Some nd ->
  flow_node flow !! iPoint = Some fnd ->
  length (CVariable.Solution nd) = nVar s ->
  length (Solution_i s) = nVar s ->
  length (Solution_j s) = nVar s ->
  (exists s1, copy_Solution_i iPoint s = Ok (nVar s, s1) /\ Solution_j s1 = Solution_j s)
  /\ (forall x, store "Solution_j" (Solution_j s) (nVar s) x
                = Fault (OutOfBounds "Solution_j" (nVar s) (nVar s)))
  /\ CVariable.GetSolution (nVar s) nd = Fault (OutOfBounds "Solution" (nVar s) (nVar s))
  /\ SA_BC_Inlet_turb iPoint s = Fault (OutOfBounds "Solution_j" (nVar s) (nVar s))
  /\ SA_BC_Outlet_turb iPoint s = Fault (OutOfBounds "Solution" (nVar s) (nVar s))
  /\ SA_BC_Outlet uninit geometry flow config val_marker (s, solver)
     = Fault (OutOfBounds "Solution" (nVar s) (nVar s))
  /\ (inlet_flow_ready flow config val_marker vert s ->
      SA_BC_Inlet uninit pow geometry flow config val_marker (s, solver)
      = Fault (OutOfBounds "Solution_j" (nVar s) (nVar s))).
Proof.
  intros iPoint Hvs Hnd Hfnd HS HSi HSj. subst iPoint.
  split; [| split; [| split; [| split; [| split; [| split]]]]].
  - eexists. split; [apply (copy_Solution_i_Ok _ _ nd); (done || lia) | done].
  - intros x. rewrite store_ge by lia. by rewrite HSj.
  - unfold CVariable.GetSolution. rewrite at_ge by lia. by rewrite HS.
  - apply (SA_BC_Inlet_turb_Fault _ _ nd); (done || lia).
  - apply (SA_BC_Outlet_turb_Fault _ _ nd); (done || lia).
  - unfold SA_BC_Outlet, marker_vertices. rewrite (at_Some _ _ _ _ Hvs). bsimpl.
    rewrite for_at_foldM. cbn [foldM].
    rewrite (SA_BC_Outlet_vertex_Fault _ _ _ _ _ _ nd fnd) by (done || lia). done.
  - intros Hready. unfold SA_BC_Inlet, marker_vertices. rewrite (at_Some _ _ _ _ Hvs). bsimpl.
    rewrite for_at_foldM. cbn [foldM].
    rewrite (SA_BC_Inlet_vertex_Fault pow _ _ _ _ _ _ _ _ nd);
      try done; try lia; apply length_replicate.
Qed.

Lemma SA_exterior_state_out_of_bounds_witness :
  SA_BC_Outlet 0%float sample_geometry sample_flow (sample_config 0 EULER_IMPLICIT SA false) 0
    (sample_solver 1, sample_numerics) = Fault (OutOfBounds "Solution" 1 1)
  /\ SA_BC_Inlet 0%float (fun _ _ => 1%float) sample_geometry sample_flow
       (sample_config 0 EULER_IMPLICIT SA false) 0 (sample_solver 1, sample_numerics)
     = Fault (OutOfBounds "Solution_j" 1 1).
Proof.
  destruct (SA_exterior_state_out_of_bounds 0%float (fun _ _ => 1%float) sample_geometry
              sample_flow (sample_config 0 EULER_IMPLICIT SA false) 0
              (CVertex.mk 0 [-1; 0]%float) [CVertex.mk 1 [1; 0]%float]
              (sample_solver 1) sample_numerics (sample_node 1 1%float 5%float) sample_flow_node
              eq_refl eq_refl eq_refl eq_refl eq_refl eq_refl)
    as (_ & _ & _ & _ & _ & Hout & Hin).
  split; [exact Hout |]. apply Hin.
  exists sample_flow_node. split; [reflexivity |]. simpl. repeat split; lia.
Defined.

(** ** C4: the exterior turbulent state at far-field and outlet markers *)

(** A solver that a boundary loop has reached from [s]: the same widths,
    sizes and freestream value, and the same solution at every point. *)
Definition bc_shape (s s1 : CTurbSolution) : Prop :=
  nVar s1 = nVar s /\ nDim s1 = nDim s /\ nu_tilde_Inf s1 = nu_tilde_Inf s /\
  length (Solution_i s1) = length (Solution_i s) /\
  length (Solution_j s1) = length (Solution_j s) /\
  length (FlowSolution_i s1) = length (FlowSolution_i s) /\
  length (FlowSolution_j s1) = length (FlowSolution_j s) /\
  forall p, CVariable.Solution <$> node s1 !! p = CVariable.Solution <$> node s !! p.

Lemma bc_shape_refl (s : CTurbSolution) : bc_shape s s.
Proof. by repeat split. Qed.

Lemma bc_shape_node (s s1 : CTurbSolution) (p : nat) (nd : CVariable.t) :
  bc_shape s s1 -> node s !! p = Some nd ->
  exists nd1, node s1 !! p = Some nd1 /\ CVariable.Solution nd1 = CVariable.Solution nd.
Proof.
  intros (_ & _ & _ & _ & _ & _ & _ & H) Hnd. specialize (H p). rewrite Hnd in H.
  destruct (node s1 !! p) as [nd1|]; simpl in H; [| done].
  exists nd1. split; [done | congruence].
Qed.

Lemma boundary_scatter_shape (config : CConfig.t) (p : nat) (s s2 : CTurbSolution)
    (solver2 : CNumerics.t) (nd : CVariable.t) :
  bc_shape s s2 -> node s !! p = Some nd ->
  exists s3 solver3,
    boundary_scatter config p (s2, solver2) = Ok (s3, solver3) /\
    bc_shape s s3 /\ Solution_j s3 = Solution_j s2 /\
    CNumerics.calls solver3 = CNumerics.calls solver2 ++ [CNumerics.current solver2] /\
    CNumerics.compute solver3 = CNumerics.compute solver2.
Proof.
  intros Hshape Hnd.
  destruct (bc_shape_node _ _ _ _ Hshape Hnd) as (nd2 & Hnd2 & HS2).
  destruct (boundary_scatter_Ok config p s2 solver2 nd2 Hnd2) as (R & Ji & ->).
  eexists. eexists. split; [done |]. split; [| done].
  destruct Hshape as (? & ? & ? & ? & ? & ? & ? & Hsol).
  unfold bc_shape. solver_simpl. repeat split; try done.
  intros q. destruct (decide (q = p)) as [->|Hne].
  - rewrite list_lookup_insert_eq by (by apply lookup_lt_Some in Hnd2).
    rewrite <- Hsol, Hnd2. done.
  - rewrite list_lookup_insert_ne by done. apply Hsol.
Qed.

Lemma turb_states_handed_nil (solver : CNumerics.t) : turb_states_handed solver solver [].
Proof. exists []. by rewrite app_nil_r. Qed.

Lemma turb_states_handed_snoc (solver solver1 solver2 : CNumerics.t)
    (states : list (list float * list float)) (x : CNumerics.inputs) :
  turb_states_handed solver solver1 states ->
  CNumerics.calls solver2 = CNumerics.calls solver1 ++ [x] ->
  turb_states_handed solver solver2 (states ++ [CNumerics.TurbVar x]).
Proof.
  intros (new & Hc & Hs) H2. exists (new ++ [x]).
  rewrite H2, Hc, <- app_assoc. split; [done |]. by rewrite fmap_app, Hs.
Qed.

Lemma copy_Solution_i_interior (s s1 : CTurbSolution) (v : CVertex.t) (nd : CVariable.t) :
  bc_shape s s1 -> node s !! CVertex.Node v = Some nd ->
  length (CVariable.Solution nd) = nVar s -> length (Solution_i s) = nVar s ->
  copy_Solution_i (CVertex.Node v) s1
  = Ok (nVar s, with_Solution_i (interior_state s v) s1).
Proof.
  intros Hshape Hnd HS HSi.
  destruct (bc_shape_node _ _ _ _ Hshape Hnd) as (nd1 & Hnd1 & HS1).
  destruct Hshape as (HnV & _ & _ & Hli & _).
  assert (Hl1 : length (CVariable.Solution nd1) = nVar s) by (by rewrite HS1).
  rewrite (copy_Solution_i_Ok _ _ nd1 Hnd1) by lia.
  rewrite HnV, take_ge, drop_ge, app_nil_r by lia.
  unfold interior_state. rewrite Hnd. simpl. by rewrite HS1.
Qed.

Ltac bc_shape_step H :=
  let H' := fresh in
  pose proof H as H';
  destruct H' as (? & ? & ? & ? & ? & ? & ? & ?);
  unfold bc_shape; solver_simpl; rewrite ?length_insert;
  repeat split; first [congruence | done | lia].

Lemma insert_0_singleton {A} (l : list A) (x : A) : length l = 1 -> <[0:=x]> l = [x].
Proof. by destruct l as [|? [|]]. Qed.

Lemma SA_BC_Far_Field_vertex_spec (geometry : CGeometry.t) (flow : CFlowSolution)
    (config : CConfig.t) (vs : list CVertex.t) (v : CVertex.t) (N : list float)
    (s s1 : CTurbSolution) (solver1 : CNumerics.t) :
  boundary_ready geometry flow config s vs -> v ∈ vs ->
  bc_shape s s1 -> nDim s <= length N -> 0 < length (Solution_j s) ->
  exists N' s2 solver2 x,
    SA_BC_Far_Field_vertex geometry flow config (CConfig.Rotating_Frame config) v
      (N, (s1, solver1)) = Ok (N', (s2, solver2)) /\
    length N' = length N /\ bc_shape s s2 /\
    CNumerics.calls solver2 = CNumerics.calls solver1 ++ [x] /\
    CNumerics.TurbVar x = (interior_state s v, <[0:=nu_tilde_Inf s]> (Solution_j s1)).
Proof.
  intros (HSi & HFi & HFj & HDV & Hvs) Hv Hshape HN HSj.
  destruct (Hvs v Hv) as (nd & fnd & Hnd & Hfnd & HS & HfS & HvN & Hrot).
  assert (Hint : length (interior_state s v) = length (Solution_i s))
    by (unfold interior_state; rewrite Hnd; simpl; lia).
  unfold SA_BC_Far_Field_vertex.
  destruct (copy_FlowSolution_i_Ok flow (CVertex.Node v) s1 fnd Hfnd HfS) as (a & -> & Ha).
  { destruct Hshape as (? & ? & ? & ? & ? & ? & ?). lia. }
  bsimpl.
  destruct (freestream_FlowSolution_j_Ok flow (with_FlowSolution_i a s1)) as (b & -> & Hb).
  { solver_simpl. destruct Hshape as (? & ? & ? & ? & ? & ? & ? & ?). lia. }
  { solver_simpl. destruct Hshape as (? & ? & ?). lia. }
  bsimpl. solver_simpl in Hb.
  set (s1b := with_FlowSolution_j b (with_FlowSolution_i a s1)).
  assert (Hshape_b : bc_shape s s1b) by (subst s1b; bc_shape_step Hshape).
  match goal with |- context [(if CConfig.Rotating_Frame config then ?t else ?e) ≫= _] =>
    assert (exists solver', (if CConfig.Rotating_Frame config then t else e) = Ok solver' /\
              CNumerics.calls solver' = CNumerics.calls solver1) as (solver' & -> & Hcalls)
  end.
  { destruct (CConfig.Rotating_Frame config).
    - destruct (at_lt "geometry->node" (CGeometry.node geometry) (CVertex.Node v))
        as (gp & _ & ->); [by apply Hrot |]. bsimpl. eexists. by split.
    - eexists. by split. }
  bsimpl.
  rewrite (copy_Solution_i_interior s s1b v nd Hshape_b Hnd HS HSi). subst s1b.
  bsimpl. solver_simpl.
  rewrite (store_lt "Solution_j")
    by (destruct Hshape as (? & ? & ? & ? & ? & ?); lia).
  bsimpl. solver_simpl.
  destruct Hshape as (HnV1 & HnD1 & Hnu1 & HlSi1 & HlSj1 & HlFi1 & HlFj1 & Hsol1).
  match goal with |- context [outward_Normal ?s0 v N] =>
    destruct (outward_Normal_Ok s0 v N) as (N' & -> & HN');
      [solver_simpl; lia | solver_simpl; lia |]
  end.
  bsimpl.
  match goal with |- context [boundary_scatter config _ (?s0, ?k0)] =>
    destruct (boundary_scatter_shape config (CVertex.Node v) s s0 k0 nd)
      as (s3 & solver3 & -> & Hs3 & HSj3 & Hc3 & Hk3)
  end.
  { unfold bc_shape. solver_simpl. rewrite ?length_insert.
    repeat split; first [congruence | done | lia]. }
  { done. }
  bsimpl. eexists. eexists. eexists. eexists.
  split; [done |]. split; [done |]. split; [done |].
  split; [rewrite Hc3; simpl; by rewrite Hcalls |].
  simpl. by rewrite Hnu1.
Qed.

Lemma SST_BC_Far_Field_vertex_spec (geometry : CGeometry.t) (flow : CFlowSolution)
    (config : CConfig.t) (vs : list CVertex.t) (v : CVertex.t) (N : list float)
    (s s1 : CTurbSolution) (solver1 : CNumerics.t) :
  boundary_ready geometry flow config s vs -> v ∈ vs ->
  bc_shape s s1 -> nDim s <= length N ->
  exists N' s2 solver2 x,
    SST_BC_Far_Field_vertex flow config v (N, (s1, solver1)) = Ok (N', (s2, solver2)) /\
    length N' = length N /\ bc_shape s s2 /\ Solution_j s2 = Solution_j s1 /\
    CNumerics.calls solver2 = CNumerics.calls solver1 ++ [x] /\
    CNumerics.TurbVar x = (interior_state s v, Solution_j s1).
Proof.
  intros (HSi & HFi & HFj & HDV & Hvs) Hv Hshape HN.
  destruct (Hvs v Hv) as (nd & fnd & Hnd & Hfnd & HS & HfS & HvN & Hrot).
  assert (Hint : length (interior_state s v) = length (Solution_i s))
    by (unfold interior_state; rewrite Hnd; simpl; lia).
  unfold SST_BC_Far_Field_vertex.
  destruct (copy_FlowSolution_i_Ok flow (CVertex.Node v) s1 fnd Hfnd HfS) as (a & -> & Ha).
  { destruct Hshape as (? & ? & ? & ? & ? & ? & ?). lia. }
  bsimpl.
  destruct (freestream_FlowSolution_j_Ok flow (with_FlowSolution_i a s1)) as (b & -> & Hb).
  { solver_simpl. destruct Hshape as (? & ? & ? & ? & ? & ? & ? & ?). lia. }
  { solver_simpl. destruct Hshape as (? & ? & ?). lia. }
  bsimpl. solver_simpl in Hb.
  set (s1b := with_FlowSolution_j b (with_FlowSolution_i a s1)).
  assert (Hshape_b : bc_shape s s1b) by (subst s1b; bc_shape_step Hshape).
  rewrite (copy_Solution_i_interior s s1b v nd Hshape_b Hnd HS HSi). subst s1b.
  bsimpl. solver_simpl.
  destruct Hshape as (HnV1 & HnD1 & Hnu1 & HlSi1 & HlSj1 & HlFi1 & HlFj1 & Hsol1).
  match goal with |- context [outward_Normal ?s0 v N] =>
    destruct (outward_Normal_Ok s0 v N) as (N' & -> & HN');
      [solver_simpl; lia | solver_simpl; lia |]
  end.
  bsimpl.
  match goal with |- context [boundary_scatter config _ (?s0, ?k0)] =>
    destruct (boundary_scatter_shape config (CVertex.Node v) s s0 k0 nd)
      as (s3 & solver3 & -> & Hs3 & HSj3 & Hc3 & Hk3)
  end.
  { unfold bc_shape. solver_simpl. rewrite ?length_insert.
    repeat split; first [congruence | done | lia]. }
  { done. }
  bsimpl. eexists. eexists. eexists. eexists.
  split; [done |]. split; [done |]. split; [done |].
  split; [by rewrite HSj3 |]. split; [by rewrite Hc3 |]. done.
Qed.

Lemma SST_BC_Outlet_vertex_spec (geometry : CGeometry.t) (flow : CFlowSolution)
    (config : CConfig.t) (vs : list CVertex.t) (v : CVertex.t)
    (s s1 : CTurbSolution) (solver1 : CNumerics.t) :
  boundary_ready geometry flow config s vs -> v ∈ vs ->
  bc_shape s s1 ->
  exists s2 solver2 x,
    SST_BC_Outlet_vertex flow config v (s1, solver1) = Ok (s2, solver2) /\
    bc_shape s s2 /\ Solution_j s2 = Solution_j s1 /\
    CNumerics.calls solver2 = CNumerics.calls solver1 ++ [x] /\
    CNumerics.TurbVar x = (interior_state s v, Solution_j s1).
Proof.
  intros (HSi & HFi & HFj & HDV & Hvs) Hv Hshape.
  destruct (Hvs v Hv) as (nd & fnd & Hnd & Hfnd & HS & HfS & HvN & Hrot).
  assert (Hint : length (interior_state s v) = length (Solution_i s))
    by (unfold interior_state; rewrite Hnd; simpl; lia).
  unfold SST_BC_Outlet_vertex. rewrite (at_Some _ _ _ _ Hfnd). bsimpl.
  rewrite (copy_Solution_i_interior s s1 v nd Hshape Hnd HS HSi).
  bsimpl. solver_simpl.
  destruct Hshape as (HnV1 & HnD1 & Hnu1 & HlSi1 & HlSj1 & HlFi1 & HlFj1 & Hsol1).
  match goal with |- context [boundary_scatter config _ (?s0, ?k0)] =>
    destruct (boundary_scatter_shape config (CVertex.Node v) s s0 k0 nd)
      as (s3 & solver3 & -> & Hs3 & HSj3 & Hc3 & Hk3)
  end.
  { unfold bc_shape. solver_simpl. rewrite ?length_insert.
    repeat split; first [congruence | done | lia]. }
  { done. }
  eexists. eexists. eexists.
  split; [done |]. split; [done |]. split; [by rewrite HSj3 |].
  split; [by rewrite Hc3 |]. done.
Qed.

(** C4, what the code does. On a marker whose vertex points exist in both
    solvers and with arrays of the sizes the constructors give them:
    - CTurbSASolution::BC_Far_Field calls the kernel once per vertex, in
      order, with the turbulent state of the vertex point as interior state
      and the freestream value nu_tilde_Inf as exterior state, as claimed;
    - CTurbSSTSolution::BC_Far_Field and CTurbSSTSolution::BC_Outlet call the
      kernel once per vertex, in order, with the turbulent state of the
      vertex point as interior state and, as exterior state, the scratch
      array Solution_j as it stood when the routine was entered: the
      assignments to it are commented out, so that the exterior state is
      neither the freestream value nor the interior state.
    CTurbSASolution::BC_Outlet is the subject of C10. *)
Theorem exterior_turbulent_state uninit (geometry : CGeometry.t) (flow : CFlowSolution)
    (config : CConfig.t) (val_marker : nat) (vs : list CVertex.t)
    (s : CTurbSolution) (solver : CNumerics.t) :
  CGeometry.vertex geometry !! val_marker = Some vs ->
  boundary_ready geometry flow config s vs ->
  (length (Solution_j s) = 1 ->
   exists s' solver',
     SA_BC_Far_Field uninit geometry flow config val_marker (s, solver) = Ok (s', solver') /\
     turb_states_handed solver solver'
       ((fun v => (interior_state s v, [nu_tilde_Inf s])) <$> vs))
  /\ (exists s' solver',
        SST_BC_Far_Field uninit geometry flow config val_marker (s, solver) = Ok (s', solver') /\
        Solution_j s' = Solution_j s /\
        turb_states_handed solver solver'
          ((fun v => (interior_state s v, Solution_j s)) <$> vs))
  /\ (exists s' solver',
        SST_BC_Outlet geometry flow config val_marker (s, solver) = Ok (s', solver') /\
        Solution_j s' = Solution_j s /\
        turb_states_handed solver solver'
          ((fun v => (interior_state s v, Solution_j s)) <$> vs)).
Proof.
  intros Hvs Hready. split; [| split].
  - intros HSj. unfold SA_BC_Far_Field, marker_vertices.
    rewrite (at_Some _ _ _ _ Hvs). bsimpl. cbn [fst snd]. rewrite for_at_foldM.
    destruct (foldM_inv (fun pre (st : list float * (CTurbSolution * CNumerics.t)) =>
        length st.1 = nDim s /\ bc_shape s st.2.1 /\
        turb_states_handed solver st.2.2
          ((fun v => (interior_state s v, [nu_tilde_Inf s])) <$> pre))
      (SA_BC_Far_Field_vertex geometry flow config (CConfig.Rotating_Frame config)) vs
      (new_array uninit (nDim s), (s, solver))) as ([N' [s' solver']] & -> & _ & _ & H).
    + simpl. split; [apply length_replicate |]. split; [apply bc_shape_refl |].
      apply turb_states_handed_nil.
    + intros pre v post [N [s1 solver1]] El (HN & Hshape & Hh). simpl in HN, Hshape, Hh.
      assert (Hv : v ∈ vs) by (rewrite El, elem_of_app, elem_of_cons; auto).
      destruct (SA_BC_Far_Field_vertex_spec geometry flow config vs v N s s1 solver1)
        as (N2 & s2 & solver2 & x & -> & HN2 & Hs2 & Hc2 & Hx); [done | done | done | lia | lia |].
      eexists. split; [done |]. simpl. split; [lia |]. split; [done |].
      rewrite fmap_app. simpl.
      replace (interior_state s v, [nu_tilde_Inf s]) with (CNumerics.TurbVar x).
      * by apply (turb_states_handed_snoc _ solver1).
      * rewrite Hx. f_equal. apply insert_0_singleton.
        destruct Hshape as (? & ? & ? & ? & ? & ?). lia.
    + bsimpl. simpl. eauto.
  - unfold SST_BC_Far_Field, marker_vertices.
    rewrite (at_Some _ _ _ _ Hvs). bsimpl. cbn [fst snd]. rewrite for_at_foldM.
    destruct (foldM_inv (fun pre (st : list float * (CTurbSolution * CNumerics.t)) =>
        length st.1 = nDim s /\ bc_shape s st.2.1 /\ Solution_j st.2.1 = Solution_j s /\
        turb_states_handed solver st.2.2
          ((fun v => (interior_state s v, Solution_j s)) <$> pre))
      (SST_BC_Far_Field_vertex flow config) vs
      (new_array uninit (nDim s), (s, solver))) as ([N' [s' solver']] & -> & _ & _ & HS' & H).
    + simpl. split; [apply length_replicate |]. split; [apply bc_shape_refl |].
      split; [done |]. apply turb_states_handed_nil.
    + intros pre v post [N [s1 solver1]] El (HN & Hshape & HSj1 & Hh).
      simpl in HN, Hshape, HSj1, Hh.
      assert (Hv : v ∈ vs) by (rewrite El, elem_of_app, elem_of_cons; auto).
      destruct (SST_BC_Far_Field_vertex_spec geometry flow config vs v N s s1 solver1)
        as (N2 & s2 & solver2 & x & -> & HN2 & Hs2 & HSj2 & Hc2 & Hx); [done | done | done | lia |].
      eexists. split; [done |]. simpl. split; [lia |]. split; [done |].
      split; [congruence |]. rewrite fmap_app. simpl.
      replace (interior_state s v, Solution_j s) with (CNumerics.TurbVar x)
        by (rewrite Hx; congruence).
      by apply (turb_states_handed_snoc _ solver1).
    + bsimpl. simpl. eauto.
  - unfold SST_BC_Outlet, marker_vertices.
    rewrite (at_Some _ _ _ _ Hvs). bsimpl. cbn [fst snd]. rewrite for_at_foldM.
    destruct (foldM_inv (fun pre (st : CTurbSolution * CNumerics.t) =>
        bc_shape s st.1 /\ Solution_j st.1 = Solution_j s /\
        turb_states_handed solver st.2
          ((fun v => (interior_state s v, Solution_j s)) <$> pre))
      (SST_BC_Outlet_vertex flow config) vs (s, solver)) as ([s' solver'] & -> & _ & HS' & H).
    + simpl. split; [apply bc_shape_refl |]. split; [done |]. apply turb_states_handed_nil.
    + intros pre v post [s1 solver1] El (Hshape & HSj1 & Hh). simpl in Hshape, HSj1, Hh.
      assert (Hv : v ∈ vs) by (rewrite El, elem_of_app, elem_of_cons; auto).
      destruct (SST_BC_Outlet_vertex_spec geometry flow config vs v s s1 solver1)
        as (s2 & solver2 & x & -> & Hs2 & HSj2 & Hc2 & Hx); [done | done | done |].
      eexists. split; [done |]. simpl. split; [done |].
      split; [congruence |]. rewrite fmap_app. simpl.
      replace (interior_state s v, Solution_j s) with (CNumerics.TurbVar x)
        by (rewrite Hx; congruence).
      by apply (turb_states_handed_snoc _ solver1).
    + simpl. eauto.
Qed.

Lemma sample_boundary_ready (n : nat) :
  boundary_ready sample_geometry sample_flow (sample_config 0 EULER_IMPLICIT SST false)
    (sample_solver n) [CVertex.mk 0 [-1; 0]%float; CVertex.mk 1 [1; 0]%float].
Proof.
  unfold boundary_ready. simpl. rewrite length_replicate.
  split; [done |]. split; [lia |]. split; [lia |]. split; [lia |].
  intros v Hv. apply list_elem_of_In in Hv. simpl in Hv.
  destruct Hv as [<-|[<-|[]]]; simpl; eexists; eexists;
    (split; [reflexivity |]); (split; [reflexivity |]); simpl;
    rewrite length_replicate; repeat split; (lia || discriminate).
Defined.

Lemma exterior_turbulent_state_witness :
  exists s' solver',
    SST_BC_Far_Field 0%float sample_geometry sample_flow
      (sample_config 0 EULER_IMPLICIT SST false) 0 (sample_solver 2, sample_numerics)
    = Ok (s', solver') /\
    Solution_j s' = Solution_j (sample_solver 2) /\
    turb_states_handed sample_numerics solver'
      ((fun v => (interior_state (sample_solver 2) v, Solution_j (sample_solver 2)))
         <$> [CVertex.mk 0 [-1; 0]%float; CVertex.mk 1 [1; 0]%float]).
Proof.
  exact (proj1 (proj2 (exterior_turbulent_state 0%float sample_geometry sample_flow
           (sample_config 0 EULER_IMPLICIT SST false) 0
           [CVertex.mk 0 [-1; 0]%float; CVertex.mk 1 [1; 0]%float]
           (sample_solver 2) sample_numerics eq_refl (sample_boundary_ready 2)))).
Defined.

(** At the first vertex of the sample marker the exterior state handed to
    the kernel by CTurbSSTSolution::BC_Far_Field is not the freestream value
    (kine_Inf, omega_Inf), and the one handed by CTurbSSTSolution::BC_Outlet
    is not the interior state of the point; both are what the scratch array
    Solution_j held before the call. *)
Lemma SST_exterior_state_is_stale :
  (exists s' solver' x,
     SST_BC_Far_Field 0%float sample_geometry sample_flow
       (sample_config 0 EULER_IMPLICIT SST false) 0 (sample_solver 2, sample_numerics)
     = Ok (s', solver') /\
     CNumerics.calls solver' !! 0 = Some x /\
     (CNumerics.TurbVar x).2 <> [kine_Inf (sample_solver 2); omega_Inf (sample_solver 2)])
  /\ (exists s' solver' x,
        SST_BC_Outlet sample_geometry sample_flow
          (sample_config 0 EULER_IMPLICIT SST false) 0 (sample_solver 2, sample_numerics)
        = Ok (s', solver') /\
        CNumerics.calls solver' !! 0 = Some x /\
        (CNumerics.TurbVar x).1 = interior_state (sample_solver 2) (CVertex.mk 0 [-1; 0]%float) /\
        (CNumerics.TurbVar x).2 <> (CNumerics.TurbVar x).1).
Proof.
  split.
  - do 3 eexists. split; [vm_compute; reflexivity |]. split; [reflexivity |].
    intros H. floats_differ H.
  - do 3 eexists. split; [vm_compute; reflexivity |]. split; [reflexivity |].
    split; [reflexivity |]. intros H. floats_differ H.
Qed.

(** ** C5: the convergence monitor of ImplicitEuler_Iteration *)

Lemma with_Residual_Max_same (s : CTurbSolution) : with_Residual_Max (Residual_Max s) s = s.
Proof. by destruct s. Qed.

Lemma sum_weighted_squares_S (geometry : CGeometry.t) (s : CTurbSolution) (iVar k : nat) :
  sum_weighted_squares geometry s iVar (Datatypes.S k)
  = (sum_weighted_squares geometry s iVar k + weighted_square geometry s iVar k)%float.
Proof. unfold sum_weighted_squares. by rewrite seq_S, foldl_app. Qed.

(** What the loops of the implicit step keep of the solver. *)
Definition monitor_shape (s s1 : CTurbSolution) : Prop :=
  nVar s1 = nVar s /\ length (Residual_Max s1) = length (Residual_Max s) /\
  length (rhs s1) = length (rhs s) /\ length (xsol s1) = length (xsol s) /\
  length (node s1) = length (node s).

Lemma monitor_shape_refl (s : CTurbSolution) : monitor_shape s s.
Proof. by repeat split. Qed.

(** The monitor holds [f iVar] in every component. *)
Definition monitor_is (s1 : CTurbSolution) (n : nat) (f : nat -> float) : Prop :=
  forall iVar, iVar < n -> Residual_Max s1 !! iVar = Some (f iVar).

Lemma reset_monitor_loop (s : CTurbSolution) :
  nVar s <= length (Residual_Max s) ->
  exists s1, for_ (nVar s) (fun iVar s => SetRes_Max iVar 0%float s) s = Ok s1 /\
    monitor_shape s s1 /\ node s1 = node s /\ monitor_is s1 (nVar s) (fun _ => 0%float).
Proof.
  intros Hn.
  destruct (for_inv (fun k s1 => monitor_shape s s1 /\ node s1 = node s /\
                                 monitor_is s1 k (fun _ => 0%float))
    (nVar s) (fun iVar s => SetRes_Max iVar 0%float s) s) as (s1 & E & H); [| | by exists s1].
  - split; [apply monitor_shape_refl |]. split; [done |]. intros i Hi. lia.
  - intros k s1 Hk ((HnV & HlR & Hlr & Hlx & Hln) & Hnode & Hmon).
    unfold SetRes_Max. rewrite store_lt by lia. bsimpl.
    eexists. split; [done |]. split; [| split].
    + unfold monitor_shape. solver_simpl. rewrite length_insert. done.
    + done.
    + intros i Hi. solver_simpl. destruct (decide (i = k)) as [->|Hne].
      * rewrite list_lookup_insert_eq by lia. done.
      * rewrite list_lookup_insert_ne by done. apply Hmon. lia.
Qed.

Lemma build_point_loop (geometry : CGeometry.t) (s s1 : CTurbSolution) (iPoint : nat)
    (nd : CVariable.t) (gp : CPoint.t) (acc : nat -> float) :
  node s !! iPoint = Some nd -> CGeometry.node geometry !! iPoint = Some gp ->
  nVar s <= length (CVariable.Residual nd) ->
  nVar s <= length (Residual_Max s) ->
  iPoint * nVar s + nVar s <= length (rhs s) ->
  iPoint * nVar s + nVar s <= length (xsol s) ->
  monitor_shape s s1 -> node s1 = node s -> monitor_is s1 (nVar s) acc ->
  exists s2,
    for_ (nVar s1) (ImplicitEuler_build iPoint (CVariable.Residual nd) (CPoint.Volume gp)) s1
    = Ok s2 /\
    monitor_shape s s2 /\ node s2 = node s /\
    monitor_is s2 (nVar s)
      (fun iVar => (acc iVar + weighted_square geometry s iVar iPoint)%float).
Proof.
  intros Hnd Hgp Hres HRM Hrhs Hxsol Hshape Hnode Hmon.
  pose proof Hshape as (HnV & _).
  destruct (for_inv (fun k s2 => monitor_shape s s2 /\ node s2 = node s /\
      monitor_is s2 (nVar s)
        (fun iVar => if decide (iVar < k)
                     then (acc iVar + weighted_square geometry s iVar iPoint)%float
                     else acc iVar))
    (nVar s1) (ImplicitEuler_build iPoint (CVariable.Residual nd) (CPoint.Volume gp)) s1)
    as (s2 & E & Hs2 & Hn2 & Hm2).
  - split; [done |]. split; [done |]. intros i Hi. rewrite decide_False by lia. by apply Hmon.
  - intros k s2 Hk ((HnV2 & HlR2 & Hlr2 & Hlx2 & Hln2) & Hnode2 & Hmon2).
    unfold ImplicitEuler_build.
    destruct (at_lt "local_Residual" (CVariable.Residual nd) k) as (r & Hr & ->); [lia |].
    bsimpl. rewrite (store_lt "rhs") by lia. bsimpl. solver_simpl.
    rewrite (store_lt "xsol") by lia. bsimpl.
    unfold AddRes_Max, GetRes_Max. solver_simpl.
    rewrite (at_Some _ _ _ _ (Hmon2 k ltac:(lia))). bsimpl.
    unfold SetRes_Max. solver_simpl. rewrite store_lt by lia. bsimpl.
    eexists. split; [done |]. split; [| split].
    + unfold monitor_shape. solver_simpl. rewrite !length_insert. done.
    + done.
    + intros i Hi. solver_simpl. destruct (decide (i = k)) as [->|Hne].
      * rewrite list_lookup_insert_eq by lia.
        rewrite decide_False, decide_True by lia.
        unfold weighted_square. rewrite Hnd, Hgp, Hr. done.
      * rewrite list_lookup_insert_ne by done. rewrite Hmon2 by done.
        repeat case_decide; (done || lia).
  - exists s2. split; [done |]. split; [done |]. split; [done |].
    intros i Hi. rewrite Hm2 by done. rewrite decide_True by lia. done.
Qed.

Lemma build_system_loop (geometry : CGeometry.t) (flow : CFlowSolution) (s s0 : CTurbSolution) :
  implicit_ready geometry flow s ->
  monitor_shape s s0 -> node s0 = node s -> monitor_is s0 (nVar s) (fun _ => 0%float) ->
  exists s1,
    for_ (CGeometry.nPointDomain geometry) (fun iPoint s =>
      nd ← get_node s iPoint;
      let local_Residual := CVariable.Residual nd in
      gp ← at_ "geometry->node" (CGeometry.node geometry) iPoint;
      let Vol := CPoint.Volume gp in
      fnd ← at_ "solution_container[FLOW_SOL]->node" (flow_node flow) iPoint;
      let Delta_flow := (Vol / CVariable.Delta_Time fnd)%float in
      let Delta := Delta_flow in
      let s := with_Jacobian (CSparseMatrix.AddVal2Diag iPoint Delta (Jacobian s)) s in
      for_ (nVar s) (ImplicitEuler_build iPoint local_Residual Vol) s) s0 = Ok s1 /\
    monitor_shape s s1 /\ node s1 = node s /\
    monitor_is s1 (nVar s)
      (fun iVar => sum_weighted_squares geometry s iVar (CGeometry.nPointDomain geometry)).
Proof.
  intros (HRM & Hn & Hg & Hf & Hrhs & Hxsol & Hres) Hshape0 Hnode0 Hmon0.
  match goal with |- exists s1, for_ ?n ?b s0 = Ok s1 /\ _ =>
    destruct (for_inv (fun k s1 => monitor_shape s s1 /\ node s1 = node s /\
        monitor_is s1 (nVar s) (fun iVar => sum_weighted_squares geometry s iVar k))
      n b s0) as (s1 & E & H); [| | by exists s1] end.
  - split; [done |]. split; [done |]. done.
  - intros k s1 Hk (Hshape & Hnode & Hmon).
    unfold get_node. rewrite Hnode.
    destruct (at_lt "node" (node s) k) as (nd & Hnd & ->); [lia |]. bsimpl.
    destruct (at_lt "geometry->node" (CGeometry.node geometry) k) as (gp & Hgp & ->); [lia |].
    bsimpl.
    destruct (at_lt "solution_container[FLOW_SOL]->node" (flow_node flow) k)
      as (fnd & _ & ->); [lia |].
    bsimpl.
    match goal with |- context [for_ _ _ ?s2] =>
      destruct (build_point_loop geometry s s2 k nd gp
                  (fun iVar => sum_weighted_squares geometry s iVar k))
        as (s3 & E3 & Hs3 & Hn3 & Hm3) end; try done.
    + by apply (Hres k).
    + nia.
    + nia.
    + exists s3. split; [done |]. split; [done |]. split; [done |].
      intros i Hi. rewrite Hm3 by done. by rewrite sum_weighted_squares_S.
Qed.

Lemma update_solution_loop AddSolution (nPointDomain : nat) (s sL : CTurbSolution) :
  nPointDomain <= length (node s) -> nPointDomain * nVar s <= length (xsol s) ->
  monitor_shape s sL ->
  exists s3,
    for_ nPointDomain (fun iPoint s =>
      for_ (nVar s) (fun iVar s =>
        x ← at_ "xsol" (xsol s) (iPoint * nVar s + iVar);
        nd ← get_node s iPoint;
        Ok (set_node iPoint (AddSolution iVar x nd) s)) s) sL = Ok s3 /\
    monitor_shape s s3 /\ Residual_Max s3 = Residual_Max sL.
Proof.
  intros Hn Hx Hshape.
  match goal with |- exists s3, for_ ?n ?b sL = Ok s3 /\ _ =>
    destruct (for_inv (fun _ s3 => monitor_shape s s3 /\ Residual_Max s3 = Residual_Max sL)
      n b sL) as (s3 & E & H); [| | by exists s3] end.
  - done.
  - intros k s1 Hk (Hshape1 & HR1).
    match goal with |- exists s', for_ ?n ?b s1 = Ok s' /\ _ =>
      destruct (for_inv (fun _ s3 => monitor_shape s s3 /\ Residual_Max s3 = Residual_Max sL)
        n b s1) as (s3 & E & H); [| | by exists s3] end.
    + done.
    + intros i s2 Hi ((HnV & HlR & Hlr & Hlx & Hln) & HR2).
      destruct Hshape1 as (HnV1 & _).
      destruct (at_lt "xsol" (xsol s2) (k * nVar s2 + i)) as (x & _ & ->); [nia |]. bsimpl.
      unfold get_node.
      destruct (at_lt "node" (node s2) k) as (nd & _ & ->); [lia |]. bsimpl.
      eexists. split; [done |]. split; [| done].
      unfold monitor_shape. solver_simpl. rewrite length_insert. done.
Qed.

Lemma sqrt_monitor_loop (s s3 : CTurbSolution) (a : nat -> float) :
  nVar s <= length (Residual_Max s) ->
  monitor_shape s s3 -> monitor_is s3 (nVar s) a ->
  exists s',
    for_ (nVar s3) (fun iVar s => r ← GetRes_Max iVar s; SetRes_Max iVar (PrimFloat.sqrt r) s) s3
    = Ok s' /\
    monitor_is s' (nVar s) (fun iVar => PrimFloat.sqrt (a iVar)).
Proof.
  intros HRM Hshape Hmon. pose proof Hshape as (HnV3 & _).
  match goal with |- exists s', for_ ?n ?b s3 = Ok s' /\ _ =>
    destruct (for_inv (fun k s' => monitor_shape s s' /\
        monitor_is s' (nVar s)
          (fun iVar => if decide (iVar < k) then PrimFloat.sqrt (a iVar) else a iVar))
      n b s3) as (s' & E & Hs' & Hm') end.
  - split; [done |]. intros i Hi. rewrite decide_False by lia. by apply Hmon.
  - intros k s1 Hk ((HnV & HlR & Hlr & Hlx & Hln) & Hmon1).
    unfold GetRes_Max. rewrite (at_Some _ _ _ _ (Hmon1 k ltac:(lia))). bsimpl.
    rewrite decide_False by lia.
    unfold SetRes_Max. rewrite store_lt by lia. bsimpl.
    eexists. split; [done |]. split.
    + unfold monitor_shape. solver_simpl. rewrite length_insert. done.
    + intros i Hi. solver_simpl. destruct (decide (i = k)) as [->|Hne].
      * rewrite list_lookup_insert_eq by lia. rewrite decide_True by lia. done.
      * rewrite list_lookup_insert_ne by done. rewrite Hmon1 by done.
        repeat case_decide; (done || lia).
  - exists s'. split; [done |]. intros i Hi. rewrite Hm' by done.
    rewrite decide_True by lia. done.
Qed.

(** C5. When the arrays have the sizes the constructors give them and the
    linear solver returns a vector as long as the one it is given,
    CTurbSolution::ImplicitEuler_Iteration returns, and the monitor it
    leaves for each state component iVar is the square root of the sum,
    over the domain points in index order and starting from 0.0, of
    residual[iVar] squared times the control volume of the point, with the
    residuals the points had when the call began. *)
Theorem ImplicitEuler_Iteration_monitor LU_SGSIteration AddSolution
    (geometry : CGeometry.t) (flow : CFlowSolution) (config : CConfig.t) (s : CTurbSolution) :
  implicit_ready geometry flow s ->
  (forall J r x, length (LU_SGSIteration J r x) = length x) ->
  exists s',
    ImplicitEuler_Iteration LU_SGSIteration AddSolution geometry flow config s = Ok s' /\
    forall iVar, iVar < nVar s ->
      Residual_Max s' !! iVar = Some (residual_monitor geometry s iVar).
Proof.
  intros Hready HLU. pose proof Hready as (HRM & Hn & Hg & Hf & Hrhs & Hxsol & Hres).
  unfold ImplicitEuler_Iteration.
  destruct (reset_monitor_loop s HRM) as (s0 & -> & Hs0 & Hn0 & Hm0). bsimpl.
  destruct (build_system_loop geometry flow s s0 Hready Hs0 Hn0 Hm0)
    as (s1 & E1 & Hs1 & Hn1 & Hm1).
  rewrite_loop E1. bsimpl.
  set (sL := with_xsol _ s1).
  assert (HsL : monitor_shape s sL).
  { destruct Hs1 as (? & ? & ? & ? & ?). subst sL. unfold monitor_shape. solver_simpl.
    rewrite HLU. done. }
  assert (HRL : Residual_Max sL = Residual_Max s1) by done.
  destruct (update_solution_loop AddSolution (CGeometry.nPointDomain geometry) s sL)
    as (s3 & E3 & Hs3 & HR3); [done | done | done |].
  rewrite_loop E3. bsimpl.
  destruct (sqrt_monitor_loop s s3
              (fun iVar => sum_weighted_squares geometry s iVar (CGeometry.nPointDomain geometry)))
    as (s' & E' & Hm'); [done | done | |].
  - intros i Hi. rewrite HR3, HRL. by apply Hm1.
  - rewrite_loop E'. exists s'. split; [done |]. intros i Hi. by apply Hm'.
Qed.

Lemma sample_implicit_ready (n : nat) :
  implicit_ready sample_geometry sample_flow (sample_solver n).
Proof.
  unfold implicit_ready. simpl. rewrite !length_replicate.
  repeat split; try lia.
  intros iPoint nd HiPoint Hnd.
  destruct iPoint as [|[|iPoint]]; [| | lia];
    injection Hnd as <-; simpl; by rewrite length_replicate.
Defined.

Lemma ImplicitEuler_Iteration_monitor_witness :
  exists s',
    ImplicitEuler_Iteration (fun _ _ x => x) (fun _ _ nd => nd) sample_geometry sample_flow
      (sample_config 0 EULER_IMPLICIT SA false) (sample_solver 1) = Ok s' /\
    forall iVar, iVar < nVar (sample_solver 1) ->
      Residual_Max s' !! iVar = Some (residual_monitor sample_geometry (sample_solver 1) iVar).
Proof.
  apply (ImplicitEuler_Iteration_monitor (fun _ _ x => x) (fun _ _ nd => nd) sample_geometry
           sample_flow (sample_config 0 EULER_IMPLICIT SA false) (sample_solver 1)).
  - apply sample_implicit_ready.
  - reflexivity.
Defined.

(** On the sample mesh the residuals 5 and 6 with the volumes 2 and 4 give
    the monitor sqrt(5*5*2 + 6*6*4) = sqrt(194). *)
Example residual_monitor_sample :
  residual_monitor sample_geometry (sample_solver 1) 0 = PrimFloat.sqrt 194%float.
Proof. reflexivity. Qed.

(** ** C8 and C3: the constructors on restart *)

(** C8. If restart is enabled and the restart file cannot be opened, both
    constructors end the run with exit(1) after the two messages on the
    standard output and one read of the standard input; no solver is
    constructed. *)
Theorem restart_file_missing uninit cos sin pow PI_NUMBER InitializeJacobianStructure
    get_unsigned_long get_double
    (env : environment) (geometry : CGeometry.t) (config : CConfig.t) :
  CConfig.Restart config || CConfig.Restart_Flow config = true ->
  files env (CConfig.Solution_FlowFileName config) = None ->
  CTurbSASolution uninit InitializeJacobianStructure get_unsigned_long get_double
    env geometry config
  = Exited 1 ["There is no turbulent restart file!!"%string;
              "Press any key to exit..."%string] (tl (cin env))
  /\ CTurbSSTSolution uninit cos sin pow PI_NUMBER InitializeJacobianStructure
       get_unsigned_long get_double env geometry config
     = Exited 1 ["There is no turbulent restart file!!"%string;
                 "Press any key to exit..."%string] (tl (cin env)).
Proof.
  intros Hrestart Hfile. split.
  - unfold CTurbSASolution. rewrite Hrestart. cbn [negb]. unfold restart_nodes.
    by rewrite Hfile.
  - unfold CTurbSSTSolution. rewrite Hrestart. cbn [negb]. unfold restart_nodes.
    by rewrite Hfile.
Qed.

(** *** Lines of text *)

Lemma until_newline_line (line rest : string) :
  no_newline line = true ->
  until_newline (String.append line (String "010"%char rest)) = (line, Some rest).
Proof.
  induction line as [|c line IH]; intros H; simpl in *; [done |].
  apply andb_prop in H as [Hc Hline]. apply negb_true_iff in Hc. rewrite Hc.
  by rewrite IH.
Qed.

Lemma until_newline_last (line : string) :
  no_newline line = true -> until_newline line = (line, None).
Proof.
  induction line as [|c line IH]; intros H; simpl in *; [done |].
  apply andb_prop in H as [Hc Hline]. apply negb_true_iff in Hc. rewrite Hc.
  by rewrite IH.
Qed.

(** getline on a stream that still holds a whole line, newline included. *)
Lemma getline_line (line rest str : string) :
  no_newline line = true ->
  getline (Some (String.append line (String "010"%char rest))) str = (Some rest, line).
Proof.
  intros H. unfold getline.
  destruct (String.append line (String "010"%char rest)) as [|c text] eqn:E.
  - by destruct line.
  - rewrite <- E. by rewrite until_newline_line.
Qed.

(** getline on a stream that ends with a line without its newline. *)
Lemma getline_last (line str : string) :
  no_newline line = true ->
  getline (Some line) str = (None, line).
Proof.
  intros H. unfold getline. destruct line as [|c text] eqn:E; [done |].
  rewrite <- E in *. by rewrite until_newline_last.
Qed.

(** *** The reading of one line *)

Section Restart.

Variable get_unsigned_long : string -> extracted N.
Variable get_double : string -> extracted float.

(** What the chains of extractions store in [Solution[0]], if anything. *)
Definition point_line_value (nDim : nat) (text_line : string) : option float :=
  let dull := fun point_line : istream => (extract get_double point_line).1 in
  let point_line := (extract get_unsigned_long (Some text_line)).1 in
  if decide (nDim = 2)
  then (extract get_double (dull (dull (dull (dull point_line))))).2
  else if decide (nDim = 3)
       then (extract get_double (dull (dull (dull (dull (dull point_line)))))).2
       else None.

Lemma read_point_line_value (nDim : nat) (text_line : string) (Solution : list float) :
  read_point_line get_unsigned_long get_double nDim text_line Solution
  = match point_line_value nDim text_line with
    | Some x => <[0:=x]> Solution
    | None => Solution
    end.
Proof.
  unfold read_point_line, point_line_value, extract_Solution_0.
  destruct (decide (nDim = 2)) as [E2|E2]; destruct (decide (nDim = 3)) as [E3|E3];
    try lia; [| | done].
  - by destruct (extract get_double _) as [p [x|]].
  - by destruct (extract get_double _) as [p [x|]].
Qed.

Lemma length_read_point_line (nDim : nat) (text_line : string) (Solution : list float) :
  length (read_point_line get_unsigned_long get_double nDim text_line Solution)
  = length Solution.
Proof.
  rewrite read_point_line_value. destruct (point_line_value nDim text_line); [| done].
  apply length_insert.
Qed.

(** Reading the same line once more changes nothing. *)
Lemma read_point_line_again (nDim : nat) (text_line : string) (Solution : list float) :
  read_point_line get_unsigned_long get_double nDim text_line
    (read_point_line get_unsigned_long get_double nDim text_line Solution)
  = read_point_line get_unsigned_long get_double nDim text_line Solution.
Proof.
  rewrite !read_point_line_value. destruct (point_line_value nDim text_line); [| done].
  apply list_insert_insert_eq.
Qed.

(** An empty line leaves [Solution] as it is. *)
Lemma read_point_line_empty (nDim : nat) (Solution : list float) :
  read_point_line get_unsigned_long get_double nDim EmptyString Solution = Solution.
Proof.
  rewrite read_point_line_value. unfold point_line_value.
  by repeat case_decide.
Qed.

Lemma line_reads_value (nDim : nat) (text_line : string) (x : float) :
  nDim = 2 \/ nDim = 3 ->
  line_reads get_unsigned_long get_double nDim text_line x ->
  point_line_value nDim text_line = Some x.
Proof.
  intros HnD (index & after_index & before_x & rest & Hindex & Hdull & Hx).
  unfold point_line_value. rewrite Hindex. cbn [fst].
  destruct HnD as [-> | ->]; cbn [Nat.add fields_dropped] in Hdull.
  - destruct Hdull as (x1 & p1 & E1 & x2 & p2 & E2 & x3 & p3 & E3 & x4 & p4 & E4 & ->).
    rewrite decide_True by done.
    rewrite E1. cbn [fst]. rewrite E2. cbn [fst]. rewrite E3. cbn [fst].
    rewrite E4. cbn [fst]. by rewrite Hx.
  - destruct Hdull
      as (x1 & p1 & E1 & x2 & p2 & E2 & x3 & p3 & E3 & x4 & p4 & E4 & x5 & p5 & E5 & ->).
    rewrite decide_False by lia. rewrite decide_True by done.
    rewrite E1. cbn [fst]. rewrite E2. cbn [fst]. rewrite E3. cbn [fst].
    rewrite E4. cbn [fst]. rewrite E5. cbn [fst]. by rewrite Hx.
Qed.

Lemma read_point_line_column (nDim : nat) (text_line : string) (Solution : list float)
    (x : float) :
  nDim = 2 \/ nDim = 3 -> 0 < length Solution ->
  line_reads get_unsigned_long get_double nDim text_line x ->
  read_point_line get_unsigned_long get_double nDim text_line Solution !!! 0 = x.
Proof.
  intros HnD HS Hx. rewrite read_point_line_value, (line_reads_value nDim text_line x) by done.
  apply list_lookup_total_correct, list_lookup_insert_eq. lia.
Qed.

(** *** The restart loop *)

(** The loop over the lines of the file, each line read once, and an empty
    line for every point beyond the last line. *)
Fixpoint read_lines (new_node : float -> CVariable.t) (nDim nPoint : nat)
  (lines : list string) (Solution : list float) (node : list CVariable.t)
  : list float * list CVariable.t :=
  match nPoint with
  | 0 => (Solution, node)
  | S n =>
      let Solution :=
        read_point_line get_unsigned_long get_double nDim (hd EmptyString lines) Solution in
      read_lines new_node nDim n (tl lines) Solution (node ++ [new_node (Solution !!! 0)])
  end.

(** Once the stream of the file is not good, getline leaves [text_line] as
    it is, and reading it again changes nothing. *)
Lemma read_restart_exhausted (new_node : float -> CVariable.t) (nDim nPoint : nat)
    (text_line : string) (Solution : list float) (node : list CVariable.t) :
  read_point_line get_unsigned_long get_double nDim text_line Solution = Solution ->
  read_restart get_unsigned_long get_double new_node nDim nPoint None text_line Solution node
  = (Solution, node ++ replicate nPoint (new_node (Solution !!! 0))).
Proof.
  intros Hstable. revert node. induction nPoint as [|n IH]; intros node; simpl.
  - by rewrite app_nil_r.
  - rewrite Hstable, IH. by rewrite <- app_assoc.
Qed.

Lemma read_lines_nil (new_node : float -> CVariable.t) (nDim nPoint : nat)
    (Solution : list float) (node : list CVariable.t) :
  read_lines new_node nDim nPoint [] Solution node
  = (Solution, node ++ replicate nPoint (new_node (Solution !!! 0))).
Proof.
  revert node. induction nPoint as [|n IH]; intros node; simpl.
  - by rewrite app_nil_r.
  - rewrite read_point_line_empty, IH. by rewrite <- app_assoc.
Qed.

(** The restart loop on the text of a file reads the lines of the file. *)
Lemma read_restart_lines (new_node : float -> CVariable.t) (nDim nPoint : nat)
    (lines : list string) (final_newline : bool) (text_line : string)
    (Solution : list float) (node : list CVariable.t) :
  Forall (fun line => no_newline line = true) lines ->
  read_restart get_unsigned_long get_double new_node nDim nPoint
    (Some (text_of_lines lines final_newline)) text_line Solution node
  = read_lines new_node nDim nPoint lines Solution node.
Proof.
  intros Hlines. revert nPoint text_line Solution node.
  induction Hlines as [|line rest Hline Hrest IH]; intros nPoint text_line Solution node.
  - destruct nPoint as [|n]; [done |].
    rewrite read_lines_nil. cbn [text_of_lines read_restart getline].
    rewrite read_point_line_empty.
    rewrite read_restart_exhausted by apply read_point_line_empty.
    cbn [replicate]. by rewrite <- app_assoc.
  - destruct nPoint as [|n]; [done |]. cbn [read_lines hd tl].
    destruct rest as [|line' rest'].
    + destruct final_newline; cbn [text_of_lines read_restart].
      * rewrite getline_line by done. apply (IH n).
      * rewrite getline_last by done. rewrite read_lines_nil.
        apply read_restart_exhausted, read_point_line_again.
    + cbn [text_of_lines read_restart]. rewrite getline_line by done. apply (IH n).
Qed.

Lemma read_lines_prefix (new_node : float -> CVariable.t) (nDim nPoint : nat)
    (lines : list string) (Solution : list float) (node : list CVariable.t) :
  exists more, (read_lines new_node nDim nPoint lines Solution node).2 = node ++ more.
Proof.
  revert lines Solution node.
  induction nPoint as [|n IH]; intros lines Solution node; simpl.
  - exists []. by rewrite app_nil_r.
  - match goal with |- context [read_lines _ _ _ ?l ?S ?nd] =>
      destruct (IH l S nd) as (more & ->) end.
    eexists. by rewrite <- app_assoc.
Qed.

(** The node of point [i] is built from what line [i] stores. *)
Lemma read_lines_lookup (new_node : float -> CVariable.t) (nDim nPoint : nat)
    (lines : list string) (Solution : list float) (node : list CVariable.t)
    (i : nat) (text_line : string) (x : float) :
  nDim = 2 \/ nDim = 3 -> 0 < length Solution -> i < nPoint ->
  lines !! i = Some text_line ->
  line_reads get_unsigned_long get_double nDim text_line x ->
  (read_lines new_node nDim nPoint lines Solution node).2 !! (length node + i)
  = Some (new_node x).
Proof.
  intros HnD. revert lines Solution node i.
  induction nPoint as [|n IH]; intros lines Solution node i HS Hi Hline Hx; [lia |].
  simpl. destruct i as [|i].
  - destruct lines as [|l0 rest]; [done |]. simpl in Hline. injection Hline as ->.
    simpl.
    match goal with |- context [read_lines _ _ _ ?l ?S ?nd] =>
      destruct (read_lines_prefix new_node nDim n l S nd) as (more & ->) end.
    rewrite (read_point_line_column nDim text_line Solution x) by done.
    rewrite <- app_assoc, Nat.add_0_r. rewrite lookup_app_r by lia.
    by rewrite Nat.sub_diag.
  - destruct lines as [|l0 rest]; [done |]. simpl in Hline. simpl.
    specialize (IH rest (read_point_line get_unsigned_long get_double nDim l0 Solution)
                  (node ++ [new_node (read_point_line get_unsigned_long get_double
                                        nDim l0 Solution !!! 0)]) i).
    rewrite length_app in IH. simpl in IH.
    replace (length node + Datatypes.S i) with (length node + 1 + i) by lia.
    apply IH; [by rewrite length_read_point_line | lia | done | done].
Qed.

Lemma restart_nodes_lookup (env : environment) (config : CConfig.t)
    (new_node : float -> CVariable.t) (nPoint : nat) (s : CTurbSolution)
    (lines : list string) (final_newline : bool) (i : nat) (text_line : string) (x : float) :
  files env (CConfig.Solution_FlowFileName config) = Some (text_of_lines lines final_newline) ->
  Forall (fun line => no_newline line = true) lines ->
  nDim s = 2 \/ nDim s = 3 -> 0 < length (Solution s) -> i < nPoint ->
  lines !! i = Some text_line ->
  line_reads get_unsigned_long get_double (nDim s) text_line x ->
  exists s',
    restart_nodes get_unsigned_long get_double env config new_node nPoint s = Constructed s' /\
    node s' !! i = Some (new_node x).
Proof.
  intros Hfile Hlines HnD HS Hi Hline Hx. unfold restart_nodes. rewrite Hfile.
  rewrite read_restart_lines by done.
  pose proof (read_lines_lookup new_node (nDim s) nPoint lines (Solution s) []
                i text_line x HnD HS Hi Hline Hx) as H.
  destruct (read_lines new_node (nDim s) nPoint lines (Solution s) [])
    as [Solution' node'].
  eexists. split; [done |]. solver_simpl. exact H.
Qed.

End Restart.

(** C3, what the code does. With restart enabled and a restart file of
    lines of text, the constructors read the file line by line, one line per
    point in the order of the points. When the line of the point [i] is read
    to its solution column (the library reads an unsigned integer, then four
    numbers in 2-D and five in 3-D, and then the number [x], the sixth field
    in 2-D and the seventh in 3-D), the constructor of CTurbSASolution gives
    the point the state vector [x], and the constructor of CTurbSSTSolution
    gives it the state vector [x; 0]: the second component of the
    two-equation model is the constant zero, whatever the file holds. *)
Theorem restart_state_vectors uninit cos sin pow PI_NUMBER InitializeJacobianStructure
    get_unsigned_long get_double
    (env : environment) (geometry : CGeometry.t) (config : CConfig.t)
    (lines : list string) (final_newline : bool) (i : nat) (text_line : string) (x : float) :
  CConfig.Restart config || CConfig.Restart_Flow config = true ->
  files env (CConfig.Solution_FlowFileName config) = Some (text_of_lines lines final_newline) ->
  Forall (fun line => no_newline line = true) lines ->
  CGeometry.nDim geometry = 2 \/ CGeometry.nDim geometry = 3 ->
  i < CGeometry.nPoint geometry ->
  lines !! i = Some text_line ->
  line_reads get_unsigned_long get_double (CGeometry.nDim geometry) text_line x ->
  (exists s nd,
     CTurbSASolution uninit InitializeJacobianStructure get_unsigned_long get_double
       env geometry config = Constructed s /\
     node s !! i = Some nd /\ CVariable.Solution nd = [x])
  /\ (exists s nd,
        CTurbSSTSolution uninit cos sin pow PI_NUMBER InitializeJacobianStructure
          get_unsigned_long get_double env geometry config = Constructed s /\
        node s !! i = Some nd /\ CVariable.Solution nd = [x; 0%float]).
Proof.
  intros Hrestart Hfile Hlines HnD Hi Hline Hx. split.
  - unfold CTurbSASolution. rewrite Hrestart. cbn [negb].
    match goal with |- context [restart_nodes _ _ env config ?f ?n ?s0] =>
      destruct (restart_nodes_lookup get_unsigned_long get_double env config f n s0
                  lines final_newline i text_line x)
        as (s' & -> & Hnode); try done end.
    + simpl. lia.
    + eexists. eexists. split; [done |]. split; [exact Hnode | done].
  - unfold CTurbSSTSolution. rewrite Hrestart. cbn [negb].
    match goal with |- context [restart_nodes _ _ env config ?f ?n ?s0] =>
      destruct (restart_nodes_lookup get_unsigned_long get_double env config f n s0
                  lines final_newline i text_line x)
        as (s' & -> & Hnode); try done end.
    + simpl. lia.
    + eexists. eexists. split; [done |]. split; [exact Hnode | done].
Qed.

Lemma restart_file_missing_witness :
  CTurbSASolution 0%float (fun _ _ _ => ∅) sample_get_unsigned_long sample_get_double
    (sample_environment false) sample_geometry (sample_config 0 EULER_IMPLICIT SA true)
  = Exited 1 ["There is no turbulent restart file!!"%string;
              "Press any key to exit..."%string] []
  /\ CTurbSSTSolution 0%float (fun x => x) (fun x => x) (fun x _ => x) 3%float (fun _ _ _ => ∅)
       sample_get_unsigned_long sample_get_double
       (sample_environment false) sample_geometry (sample_config 0 EULER_IMPLICIT SA true)
     = Exited 1 ["There is no turbulent restart file!!"%string;
                 "Press any key to exit..."%string] [].
Proof.
  apply (restart_file_missing 0%float (fun x => x) (fun x => x) (fun x _ => x) 3%float
           (fun _ _ _ => ∅) sample_get_unsigned_long sample_get_double
           (sample_environment false) sample_geometry
           (sample_config 0 EULER_IMPLICIT SA true)); vm_compute; reflexivity.
Defined.

(** The first line of the sample file is read to its sixth field, 1.5. *)
Lemma sample_line_reads :
  line_reads sample_get_unsigned_long sample_get_double 2 "0 1 1 0 2 1.5 2.5"%string
    1.5%float.
Proof.
  exists 0%N, " 1 1 0 2 1.5 2.5"%string, " 1.5 2.5"%string, " 2.5"%string.
  split; [vm_compute; reflexivity |]. split; [| vm_compute; reflexivity].
  exists 1%float, " 1 0 2 1.5 2.5"%string. split; [vm_compute; reflexivity |].
  exists 1%float, " 0 2 1.5 2.5"%string. split; [vm_compute; reflexivity |].
  exists 0%float, " 2 1.5 2.5"%string. split; [vm_compute; reflexivity |].
  exists 2%float, " 1.5 2.5"%string. split; [vm_compute; reflexivity |].
  reflexivity.
Defined.

Lemma restart_state_vectors_witness :
  (exists s nd,
     CTurbSASolution 0%float (fun _ _ _ => ∅) sample_get_unsigned_long sample_get_double
       (sample_environment true) sample_geometry
       (sample_config 0 EULER_IMPLICIT SST true) = Constructed s /\
     node s !! 0 = Some nd /\ CVariable.Solution nd = [1.5%float])
  /\ (exists s nd,
        CTurbSSTSolution 0%float (fun x => x) (fun x => x) (fun x _ => x) 3%float
          (fun _ _ _ => ∅) sample_get_unsigned_long sample_get_double
          (sample_environment true) sample_geometry
          (sample_config 0 EULER_IMPLICIT SST true) = Constructed s /\
        node s !! 0 = Some nd /\ CVariable.Solution nd = [1.5%float; 0%float]).
Proof.
  refine (restart_state_vectors 0%float (fun x => x) (fun x => x) (fun x _ => x) 3%float
            (fun _ _ _ => ∅) sample_get_unsigned_long sample_get_double
            (sample_environment true) sample_geometry
            (sample_config 0 EULER_IMPLICIT SST true) sample_restart_lines true 0
            "0 1 1 0 2 1.5 2.5"%string 1.5%float _ _ _ _ _ _ _).
  - vm_compute. reflexivity.
  - vm_compute. reflexivity.
  - repeat constructor.
  - left. reflexivity.
  - vm_compute. lia.
  - reflexivity.
  - exact sample_line_reads.
Defined.

(** The restart file of the sample holds (1.5, 2.5) for point 0 and
    (3.5, 4.5) for point 1; the constructor of CTurbSSTSolution gives the
    points the state vectors (1.5, 0) and (3.5, 0). *)
Example CTurbSSTSolution_restart_sample :
  exists s,
    CTurbSSTSolution 0%float (fun x => x) (fun x => x) (fun x _ => x) 3%float
      (fun _ _ _ => ∅) sample_get_unsigned_long sample_get_double
      (sample_environment true) sample_geometry
      (sample_config 0 EULER_IMPLICIT SST true) = Constructed s /\
    CVariable.Solution <$> node s = [[1.5; 0]%float; [3.5; 0]%float].
Proof. eexists. split; vm_compute; reflexivity. Qed.

(** The chain of extractions takes the fields as the library reads them one
    after the other, not by column. On a line whose index is written 0.5
    the unsigned integer 0 is read, the number .5 is the first of the
    dropped fields, and [Solution[0]] takes the fifth field of the line;
    on a line with a field that is no number the chain stops, and
    [Solution[0]] is left as it was. *)
Example read_point_line_unreadable_sample :
  read_point_line sample_get_unsigned_long sample_get_double 2
    "0.5 1 1 0 2 1.5"%string [0%float] = [2%float]
  /\ read_point_line sample_get_unsigned_long sample_get_double 2
       "1 nan 1 0 2 3.5"%string [1.5%float] = [1.5%float].
Proof. split; vm_compute; reflexivity. Qed.

(** ** C6: BC_Send_Receive *)

(** The part of a row-major buffer written when the loops stand at vertex
    [k] and component [i]. *)
Definition buf_filled (s : CTurbSolution) (vs : list CVertex.t)
    (field : CVariable.t -> nat -> option float) (k i : nat) (buf : list float) : Prop :=
  length buf = length vs * nVar s /\
  forall k' v i' nd, vs !! k' = Some v -> i' < nVar s ->
    node s !! CVertex.Node v = Some nd ->
    k' < k \/ (k' = k /\ i' < i) ->
    buf !! (k' * nVar s + i') = field nd i'.

Lemma buf_filled_new (s : CTurbSolution) (vs : list CVertex.t) field (uninit : float) :
  buf_filled s vs field 0 0 (new_array uninit (length vs * nVar s)).
Proof. split; [apply length_replicate |]. intros. lia. Qed.

Lemma buf_filled_store (s : CTurbSolution) (vs : list CVertex.t) field (k i : nat)
    (buf : list float) (v : CVertex.t) (nd : CVariable.t) (x : float) :
  buf_filled s vs field k i buf ->
  vs !! k = Some v -> node s !! CVertex.Node v = Some nd -> field nd i = Some x ->
  i < nVar s ->
  k * nVar s + i < length buf /\
  buf_filled s vs field k (Datatypes.S i) (<[k * nVar s + i:=x]> buf).
Proof.
  intros [Hlen Hbuf] Hv Hnd Hx Hi.
  assert (Hk : k < length vs) by (by apply lookup_lt_Some in Hv).
  assert (Hidx : k * nVar s + i < length buf) by (rewrite Hlen; nia).
  split; [done |]. split; [by rewrite length_insert |].
  intros k' v' i' nd' Hv' Hi' Hnd' Hpos.
  destruct (decide (k' = k /\ i' = i)) as [[-> ->]|Hne].
  - rewrite list_lookup_insert_eq by done. congruence.
  - rewrite list_lookup_insert_ne by nia. apply (Hbuf k' v' i' nd'); try done. lia.
Qed.

Lemma buf_filled_next_row (s : CTurbSolution) (vs : list CVertex.t) field (k : nat)
    (buf : list float) :
  buf_filled s vs field k (nVar s) buf -> buf_filled s vs field (Datatypes.S k) 0 buf.
Proof.
  intros [Hlen Hbuf]. split; [done |].
  intros k' v' i' nd' Hv' Hi' Hnd' Hpos. apply (Hbuf k' v' i' nd'); try done. lia.
Qed.

Lemma buf_filled_packed (s : CTurbSolution) (vs : list CVertex.t) field (buf : list float) :
  buf_filled s vs field (length vs) 0 buf -> packed s vs field buf.
Proof.
  intros [Hlen Hbuf]. split; [done |].
  intros k v iVar nd Hv Hi Hnd. apply (Hbuf k v iVar nd); try done.
  left. by apply lookup_lt_Some in Hv.
Qed.

(** The four send buffers when the loops stand at vertex [k], component [i]. *)
Definition send_filled (s : CTurbSolution) (vs : list CVertex.t) (uninit : float) (k i : nat)
    (b : send_buffers) : Prop :=
  buf_filled s vs solution_component k i (Buffer_Send_Turb b) /\
  buf_filled s vs (gradient_component 0) k i (Buffer_Send_Turbx b) /\
  buf_filled s vs (gradient_component 1) k i (Buffer_Send_Turby b) /\
  (if decide (nDim s = 3)
   then buf_filled s vs (gradient_component 2) k i (Buffer_Send_Turbz b)
   else Buffer_Send_Turbz b = new_array uninit (length vs * nVar s)).

Lemma BC_Send_Receive_fill_spec (s : CTurbSolution) (vs : list CVertex.t) (uninit : float)
    (k i : nat) (v : CVertex.t) (nd : CVariable.t) (b : send_buffers) :
  vs !! k = Some v -> node s !! CVertex.Node v = Some nd ->
  nVar s <= length (CVariable.Solution nd) ->
  gradient_shape (nVar s) (if decide (nDim s = 3) then 3 else 2) (CVariable.Gradient nd) ->
  i < nVar s ->
  send_filled s vs uninit k i b ->
  exists b', BC_Send_Receive_fill s k (CVariable.Solution nd) (CVariable.Gradient nd) i b = Ok b' /\
    send_filled s vs uninit k (Datatypes.S i) b'.
Proof.
  intros Hv Hnd HS HG Hi (HB & HBx & HBy & HBz).
  destruct (HG i Hi) as (row & Hrow & Hlrow).
  unfold BC_Send_Receive_fill.
  destruct (at_lt "Turb_Var" (CVariable.Solution nd) i) as (x & Hx & ->); [lia |]. bsimpl.
  destruct (buf_filled_store s vs solution_component k i _ v nd x HB Hv Hnd Hx Hi)
    as [Hi0 HB'].
  rewrite (store_lt "Buffer_Send_Turb") by done. bsimpl.
  rewrite (at_Some _ _ _ _ Hrow). bsimpl.
  destruct (at_lt "Turb_Grad[iVar]" row 0) as (gx & Hgx & ->); [case_decide; lia |]. bsimpl.
  destruct (buf_filled_store s vs (gradient_component 0) k i _ v nd gx HBx Hv Hnd)
    as [Hi1 HBx']; [unfold gradient_component; by rewrite Hrow | done |].
  rewrite (store_lt "Buffer_Send_Turbx") by done. bsimpl.
  destruct (at_lt "Turb_Grad[iVar]" row 1) as (gy & Hgy & ->); [case_decide; lia |]. bsimpl.
  destruct (buf_filled_store s vs (gradient_component 1) k i _ v nd gy HBy Hv Hnd)
    as [Hi2 HBy']; [unfold gradient_component; by rewrite Hrow | done |].
  rewrite (store_lt "Buffer_Send_Turby") by done. bsimpl.
  unfold send_filled. destruct (decide (nDim s = 3)) as [E3|E3].
  - destruct (at_lt "Turb_Grad[iVar]" row 2) as (gz & Hgz & ->); [lia |]. bsimpl.
    destruct (buf_filled_store s vs (gradient_component 2) k i _ v nd gz HBz Hv Hnd)
      as [Hi3 HBz']; [unfold gradient_component; by rewrite Hrow | done |].
    rewrite (store_lt "Buffer_Send_Turbz") by done. bsimpl.
    eexists. split; [done |]. done.
  - bsimpl. eexists. split; [done |]. done.
Qed.

Lemma BC_Send_Receive_buffers (s : CTurbSolution) (vs : list CVertex.t) (uninit : float) :
  halo_ready s vs ->
  exists b,
    for_ (length vs) (fun iVertex b =>
      vert ← at_ "vertex[val_marker]" vs iVertex;
      let iPoint := CVertex.Node vert in
      nd ← get_node s iPoint;
      let Turb_Var := CVariable.Solution nd in
      let Turb_Grad := CVariable.Gradient nd in
      for_ (nVar s) (BC_Send_Receive_fill s iVertex Turb_Var Turb_Grad) b)
      (mkSend (new_array uninit (length vs * nVar s)) (new_array uninit (length vs * nVar s))
              (new_array uninit (length vs * nVar s)) (new_array uninit (length vs * nVar s)))
    = Ok b /\
    send_filled s vs uninit (length vs) 0 b.
Proof.
  intros Hready.
  match goal with |- exists b, for_ ?n ?body ?b0 = Ok b /\ _ =>
    destruct (for_inv (fun k b => send_filled s vs uninit k 0 b) n body b0)
      as (b & E & H); [| | by exists b] end.
  - unfold send_filled. simpl. case_decide; repeat split; try apply length_replicate;
      try done; intros; lia.
  - intros k b Hk Hb.
    destruct (at_lt "vertex[val_marker]" vs k Hk) as (v & Hv & ->). bsimpl.
    destruct (Hready v) as (nd & Hnd & HS & HG); [by apply list_elem_of_lookup_2 in Hv |].
    unfold get_node. rewrite (at_Some _ _ _ _ Hnd). bsimpl.
    destruct (for_inv (fun i b' => send_filled s vs uninit k i b') (nVar s)
                (BC_Send_Receive_fill s k (CVariable.Solution nd) (CVariable.Gradient nd)) b)
      as (b' & E' & (HB & HBx & HBy & HBz)).
    + done.
    + intros i b1 Hi Hb1. by apply (BC_Send_Receive_fill_spec s vs uninit k i v nd b1).
    + exists b'. split; [done |]. unfold send_filled.
      split; [by apply buf_filled_next_row |]. split; [by apply buf_filled_next_row |].
      split; [by apply buf_filled_next_row |].
      case_decide; [by apply buf_filled_next_row | done].
Qed.

Lemma Bsend_Ok (buf : list float) (count : nat) (dest : Z) (t : nat) (w : MPI.world) :
  length buf = count ->
  MPI.Bsend buf count dest t w
  = Ok (MPI.mk (MPI.sent w ++ [MPI.mkMessage dest t buf]) (MPI.mailbox w)).
Proof.
  intros H. unfold MPI.Bsend. rewrite decide_True by lia. by rewrite take_ge by lia.
Qed.

Lemma BC_Send_Receive_send_spec (uninit : float) (geometry : CGeometry.t) (val_marker : nat)
    (SendRecv : Z) (s : CTurbSolution) (w : MPI.world) (vs : list CVertex.t) :
  CGeometry.vertex geometry !! val_marker = Some vs -> halo_ready s vs ->
  exists B Bx By Bz,
    BC_Send_Receive_send uninit geometry val_marker SendRecv s w
    = Ok (MPI.mk (MPI.sent w
                  ++ [MPI.mkMessage SendRecv 0 B; MPI.mkMessage SendRecv 1 Bx;
                      MPI.mkMessage SendRecv 2 By]
                  ++ (if decide (nDim s = 3) then [MPI.mkMessage SendRecv 3 Bz] else []))
            (MPI.mailbox w)) /\
    packed s vs solution_component B /\
    packed s vs (gradient_component 0) Bx /\
    packed s vs (gradient_component 1) By /\
    (nDim s = 3 -> packed s vs (gradient_component 2) Bz).
Proof.
  intros Hvs Hready. unfold BC_Send_Receive_send, marker_vertices.
  rewrite (at_Some _ _ _ _ Hvs). bsimpl.
  destruct (BC_Send_Receive_buffers s vs uninit Hready) as (b & E & HB & HBx & HBy & HBz).
  rewrite_loop E. bsimpl.
  apply buf_filled_packed in HB, HBx, HBy.
  pose proof HB as [HlB _]. pose proof HBx as [HlBx _]. pose proof HBy as [HlBy _].
  rewrite (Bsend_Ok (Buffer_Send_Turb b)) by done. bsimpl.
  rewrite (Bsend_Ok (Buffer_Send_Turbx b)) by done. bsimpl.
  rewrite (Bsend_Ok (Buffer_Send_Turby b)) by done. bsimpl.
  cbn [MPI.sent MPI.mailbox].
  exists (Buffer_Send_Turb b), (Buffer_Send_Turbx b), (Buffer_Send_Turby b),
    (Buffer_Send_Turbz b).
  destruct (decide (nDim s = 3)) as [E3|E3].
  - apply buf_filled_packed in HBz. pose proof HBz as [HlBz _].
    rewrite (Bsend_Ok (Buffer_Send_Turbz b)) by done. cbn [MPI.sent MPI.mailbox].
    split; [by rewrite <- !app_assoc |]. done.
  - split; [by rewrite <- !app_assoc |]. split; [done |]. split; [done |]. split; [done |].
    intros. done.
Qed.

(** The sizes of a node that receiving into it keeps. *)
Definition node_shape (nd nd' : CVariable.t) : Prop :=
  length (CVariable.Solution nd') = length (CVariable.Solution nd) /\
  length <$> CVariable.Gradient nd' = length <$> CVariable.Gradient nd.

Lemma SetGradient_Ok (iVar iDim : nat) (x : float) (nd : CVariable.t) (row : list float) :
  CVariable.Gradient nd !! iVar = Some row -> iDim < length row ->
  CVariable.SetGradient iVar iDim x nd
  = Ok (CVariable.with_Gradient (<[iVar:=<[iDim:=x]> row]> (CVariable.Gradient nd)) nd).
Proof.
  intros Hrow Hd. unfold CVariable.SetGradient.
  rewrite (at_Some _ _ _ _ Hrow). bsimpl. by rewrite store_lt.
Qed.

(** The values one round of the receive loop leaves in the node. *)
Lemma receive_node_spec (dim3 : bool) (i : nat) (x gx gy gz : float) (nd : CVariable.t)
    (row : list float) :
  i < length (CVariable.Solution nd) ->
  CVariable.Gradient nd !! i = Some row ->
  (if dim3 then 3 else 2) <= length row ->
  exists nd3,
    (nd0 ← CVariable.SetSolution i x nd;
     nd1 ← CVariable.SetGradient i 0 gx nd0;
     nd2 ← CVariable.SetGradient i 1 gy nd1;
     if dim3 then CVariable.SetGradient i 2 gz nd2 else Ok nd2) = Ok nd3 /\
    node_shape nd nd3 /\
    solution_component nd3 i = Some x /\
    gradient_component 0 nd3 i = Some gx /\
    gradient_component 1 nd3 i = Some gy /\
    (dim3 = true -> gradient_component 2 nd3 i = Some gz) /\
    forall i', i' <> i ->
      solution_component nd3 i' = solution_component nd i' /\
      forall d, gradient_component d nd3 i' = gradient_component d nd i'.
Proof.
  intros HS Hrow Hd.
  assert (Hi : i < length (CVariable.Gradient nd)) by (by apply lookup_lt_Some in Hrow).
  unfold CVariable.SetSolution. rewrite store_lt by done. bsimpl.
  rewrite (SetGradient_Ok i 0 gx _ row)
    by (node_simpl; first [done | destruct dim3; lia]).
  bsimpl. node_simpl.
  rewrite (SetGradient_Ok i 1 gy _ (<[0:=gx]> row))
    by (node_simpl;
        first [by apply list_lookup_insert_eq | rewrite length_insert; destruct dim3; lia]).
  bsimpl. node_simpl. rewrite list_insert_insert_eq.
  destruct dim3.
  - rewrite (SetGradient_Ok i 2 gz _ (<[1:=gy]> (<[0:=gx]> row)))
      by (node_simpl; first [by apply list_lookup_insert_eq | rewrite !length_insert; lia]).
    node_simpl. rewrite list_insert_insert_eq.
    eexists. split; [done |]. unfold node_shape, solution_component, gradient_component.
    node_simpl. rewrite length_insert.
    split; [split; [done |] |].
    { rewrite list_fmap_insert, !length_insert. apply list_insert_id.
      by rewrite list_lookup_fmap, Hrow. }
    split; [by apply list_lookup_insert_eq |].
    rewrite !list_lookup_insert_eq by done. simpl.
    split; [rewrite !list_lookup_insert_ne by done; apply list_lookup_insert_eq; lia |].
    split; [rewrite list_lookup_insert_ne by done; apply list_lookup_insert_eq;
            rewrite length_insert; lia |].
    split; [intros _; apply list_lookup_insert_eq; rewrite !length_insert; lia |].
    intros i' Hne. rewrite !list_lookup_insert_ne by done. done.
  - eexists. split; [done |]. unfold node_shape, solution_component, gradient_component.
    node_simpl. rewrite length_insert.
    split; [split; [done |] |].
    { rewrite list_fmap_insert, !length_insert. apply list_insert_id.
      by rewrite list_lookup_fmap, Hrow. }
    split; [by apply list_lookup_insert_eq |].
    rewrite !list_lookup_insert_eq by done. simpl.
    split; [rewrite !list_lookup_insert_ne by done; apply list_lookup_insert_eq; lia |].
    split; [apply list_lookup_insert_eq; rewrite length_insert; lia |].
    split; [intros; discriminate |].
    intros i' Hne. rewrite !list_lookup_insert_ne by done. done.
Qed.

(** Run the goal along a chain of checked steps whose result [E] gives. *)
Ltac follow_chain E :=
  repeat match type of E with
         | (?m ≫= _) = Ok _ =>
             let E' := fresh in
             destruct m eqn:E'; [cbn [mbind result_bind] in E |- * | discriminate E]
         end;
  rewrite E.

(** The components [i'] of a node agree with the four receive buffers at
    the position [flat]. *)
Definition comps_match (s : CTurbSolution) (B Bx By Bz : list float) (nd : CVariable.t)
    (flat i' : nat) : Prop :=
  solution_component nd i' = B !! flat /\
  gradient_component 0 nd i' = Bx !! flat /\
  gradient_component 1 nd i' = By !! flat /\
  (nDim s = 3 -> gradient_component 2 nd i' = Bz !! flat).

(** The solver when the receive loops stand at vertex [k], component [i]. *)
Definition recv_inv (s : CTurbSolution) (vs : list CVertex.t) (B Bx By Bz : list float)
    (k i : nat) (s2 : CTurbSolution) : Prop :=
  nVar s2 = nVar s /\ nDim s2 = nDim s /\
  (forall p nd, node s !! p = Some nd ->
     exists nd2, node s2 !! p = Some nd2 /\ node_shape nd nd2) /\
  forall k' v i' nd2, vs !! k' = Some v -> i' < nVar s ->
    node s2 !! CVertex.Node v = Some nd2 ->
    k' < k \/ (k' = k /\ i' < i) ->
    comps_match s B Bx By Bz nd2 (k' * nVar s + i') i'.

Lemma node_shape_row (nd nd2 : CVariable.t) (i : nat) (row : list float) :
  node_shape nd nd2 -> CVariable.Gradient nd !! i = Some row ->
  exists row2, CVariable.Gradient nd2 !! i = Some row2 /\ length row2 = length row.
Proof.
  intros [_ HG] Hrow.
  assert (H : (length <$> CVariable.Gradient nd2) !! i = Some (length row))
    by (by rewrite HG, list_lookup_fmap, Hrow).
  rewrite list_lookup_fmap in H.
  destruct (CVariable.Gradient nd2 !! i) as [row2|]; simpl in H; [| done].
  exists row2. split; [done | congruence].
Qed.

Lemma node_shape_trans (nd nd2 nd3 : CVariable.t) :
  node_shape nd nd2 -> node_shape nd2 nd3 -> node_shape nd nd3.
Proof. intros [? ?] [? ?]. split; congruence. Qed.

Lemma BC_Send_Receive_set_spec (s : CTurbSolution) (vs : list CVertex.t)
    (B Bx By Bz : list float) (k i : nat) (v : CVertex.t) (s2 : CTurbSolution) :
  halo_ready s vs -> NoDup (points vs) ->
  length B = length vs * nVar s -> length Bx = length vs * nVar s ->
  length By = length vs * nVar s -> (nDim s = 3 -> length Bz = length vs * nVar s) ->
  vs !! k = Some v -> i < nVar s ->
  recv_inv s vs B Bx By Bz k i s2 ->
  exists s3,
    BC_Send_Receive_set k (CVertex.Node v) B Bx By Bz i s2 = Ok s3 /\
    recv_inv s vs B Bx By Bz k (Datatypes.S i) s3.
Proof.
  intros Hready Hdup HlB HlBx HlBy HlBz Hv Hi (HnV & HnD & Hshape & Hdone).
  assert (Hk : k < length vs) by (by apply lookup_lt_Some in Hv).
  assert (Hflat : k * nVar s + i < length vs * nVar s) by nia.
  destruct (Hready v) as (nd & Hnd & HS & HG); [by apply list_elem_of_lookup_2 in Hv |].
  destruct (Hshape _ _ Hnd) as (nd2 & Hnd2 & Hsh2).
  destruct (HG i Hi) as (row & Hrow & Hlrow).
  destruct (node_shape_row nd nd2 i row Hsh2 Hrow) as (row2 & Hrow2 & Hlrow2).
  unfold BC_Send_Receive_set, get_node. rewrite HnV, HnD.
  rewrite (at_Some _ _ _ _ Hnd2). bsimpl.
  destruct (at_lt "Buffer_Receive_Turb" B (k * nVar s + i)) as (x & Hx & ->); [lia |].
  destruct (at_lt "Buffer_Receive_Turbx" Bx (k * nVar s + i)) as (gx & Hgx & ->); [lia |].
  destruct (at_lt "Buffer_Receive_Turby" By (k * nVar s + i)) as (gy & Hgy & ->); [lia |].
  bsimpl.
  assert (HS2 : i < length (CVariable.Solution nd2)) by (destruct Hsh2 as [-> _]; lia).
  assert (exists gz nd3,
    (nd0 ← CVariable.SetSolution i x nd2;
     nd1 ← CVariable.SetGradient i 0 gx nd0;
     nd2' ← CVariable.SetGradient i 1 gy nd1;
     if decide (nDim s = 3)
     then gz ← at_ "Buffer_Receive_Turbz" Bz (k * nVar s + i);
          CVariable.SetGradient i 2 gz nd2'
     else Ok nd2') = Ok nd3 /\
    node_shape nd2 nd3 /\
    comps_match s B Bx By Bz nd3 (k * nVar s + i) i /\
    (nDim s = 3 -> Bz !! (k * nVar s + i) = Some gz) /\
    forall i', i' <> i ->
      solution_component nd3 i' = solution_component nd2 i' /\
      forall d, gradient_component d nd3 i' = gradient_component d nd2 i')
    as (gz & nd3 & E & Hsh3 & Hm3 & Hgz & Hother).
  { destruct (decide (nDim s = 3)) as [E3|E3].
    - destruct (at_lt "Buffer_Receive_Turbz" Bz (k * nVar s + i)) as (gz & Hgz & Egz);
        [rewrite HlBz by done; lia |].
      destruct (receive_node_spec true i x gx gy gz nd2 row2 HS2 Hrow2)
        as (nd3 & E & Hsh3 & H0 & H1 & H2 & H3 & Hother);
        [simpl; lia |].
      exists gz, nd3. split; [| split; [done |]; split; [| split; [done | done]]].
      + rewrite <- E. destruct (CVariable.SetSolution i x nd2) as [nd0|]; [| done]. bsimpl.
        destruct (CVariable.SetGradient i 0 gx nd0) as [nd1|]; [| done]. bsimpl.
        destruct (CVariable.SetGradient i 1 gy nd1) as [nd2'|]; [| done]. bsimpl.
        rewrite Egz. done.
      + unfold comps_match. rewrite Hx, Hgx, Hgy, Hgz. repeat split; auto.
    - destruct (receive_node_spec false i x gx gy 0%float nd2 row2 HS2 Hrow2)
        as (nd3 & E & Hsh3 & H0 & H1 & H2 & H3 & Hother);
        [simpl; lia |].
      exists 0%float, nd3. split; [| split; [done |]; split; [| split; [done | done]]].
      + exact E.
      + unfold comps_match. rewrite Hx, Hgx, Hgy. repeat split; auto. done. }
  follow_chain E.
  eexists. split; [done |].
  assert (Hp : CVertex.Node v < length (node s2)) by (by apply lookup_lt_Some in Hnd2).
  unfold recv_inv. solver_simpl. split; [done |]. split; [done |]. split.
  - intros p ndp Hndp. destruct (Hshape _ _ Hndp) as (ndp2 & Hndp2 & Hshp2).
    destruct (decide (p = CVertex.Node v)) as [->|Hne].
    + exists nd3. rewrite list_lookup_insert_eq by done. split; [done |].
      assert (ndp = nd) as -> by congruence.
      by apply (node_shape_trans nd nd2 nd3).
    + exists ndp2. by rewrite list_lookup_insert_ne.
  - intros k' v' i' nd' Hv' Hi' Hnd' Hpos.
    destruct (decide (k' = k)) as [->|Hnek].
    + assert (v' = v) as -> by congruence.
      rewrite list_lookup_insert_eq in Hnd' by done. injection Hnd' as <-.
      destruct (decide (i' = i)) as [->|Hnei]; [done |].
      destruct (Hother i' Hnei) as [HoS HoG].
      destruct (Hdone k v i' nd2 Hv Hi' Hnd2) as (D0 & D1 & D2 & D3); [lia |].
      unfold comps_match. rewrite HoS, !HoG. done.
    + assert (Hnev : CVertex.Node v' <> CVertex.Node v).
      { intros Heq. apply Hnek.
        apply (NoDup_lookup (points vs) k' k (CVertex.Node v') Hdup);
          unfold points; rewrite list_lookup_fmap; [by rewrite Hv' | by rewrite Hv, Heq]. }
      rewrite list_lookup_insert_ne in Hnd' by done.
      apply (Hdone k' v' i' nd' Hv' Hi' Hnd'). lia.
Qed.

Lemma recv_inv_next_row (s : CTurbSolution) (vs : list CVertex.t) (B Bx By Bz : list float)
    (k : nat) (s2 : CTurbSolution) :
  recv_inv s vs B Bx By Bz k (nVar s) s2 -> recv_inv s vs B Bx By Bz (Datatypes.S k) 0 s2.
Proof.
  intros (HnV & HnD & Hshape & Hdone). split; [done |]. split; [done |]. split; [done |].
  intros k' v i' nd2 Hv Hi' Hnd2 Hpos. apply (Hdone k' v i' nd2); try done. lia.
Qed.

Lemma recv_inv_start (s : CTurbSolution) (vs : list CVertex.t) (B Bx By Bz : list float) :
  recv_inv s vs B Bx By Bz 0 0 s.
Proof.
  split; [done |]. split; [done |]. split.
  - intros p nd Hnd. exists nd. split; [done |]. by split.
  - intros. lia.
Qed.

Lemma BC_Send_Receive_receive_loop (s : CTurbSolution) (vs : list CVertex.t)
    (B Bx By Bz : list float) :
  halo_ready s vs -> NoDup (points vs) ->
  length B = length vs * nVar s -> length Bx = length vs * nVar s ->
  length By = length vs * nVar s -> (nDim s = 3 -> length Bz = length vs * nVar s) ->
  exists s',
    for_ (length vs) (fun iVertex s =>
      vert ← at_ "vertex[val_marker]" vs iVertex;
      let iPoint := CVertex.Node vert in
      for_ (nVar s) (BC_Send_Receive_set iVertex iPoint B Bx By Bz) s) s = Ok s' /\
    recv_inv s vs B Bx By Bz (length vs) 0 s'.
Proof.
  intros Hready Hdup HlB HlBx HlBy HlBz.
  match goal with |- exists s', for_ ?n ?body s = Ok s' /\ _ =>
    destruct (for_inv (fun k s2 => recv_inv s vs B Bx By Bz k 0 s2) n body s)
      as (s' & E & H); [| | by exists s'] end.
  - apply recv_inv_start.
  - intros k s2 Hk Hinv.
    destruct (at_lt "vertex[val_marker]" vs k Hk) as (v & Hv & ->). bsimpl.
    assert (HnV : nVar s2 = nVar s) by (by destruct Hinv). rewrite HnV.
    destruct (for_inv (fun i s3 => recv_inv s vs B Bx By Bz k i s3) (nVar s)
                (BC_Send_Receive_set k (CVertex.Node v) B Bx By Bz) s2) as (s3 & E3 & H3).
    + done.
    + intros i s3 Hi Hinv3.
      by apply (BC_Send_Receive_set_spec s vs B Bx By Bz k i v s3).
    + exists s3. split; [done |]. by apply recv_inv_next_row.
Qed.

Lemma recv_inv_packed (s : CTurbSolution) (vs : list CVertex.t) (B Bx By Bz : list float)
    (s' : CTurbSolution) :
  length B = length vs * nVar s -> length Bx = length vs * nVar s ->
  length By = length vs * nVar s -> (nDim s = 3 -> length Bz = length vs * nVar s) ->
  recv_inv s vs B Bx By Bz (length vs) 0 s' ->
  nVar s' = nVar s /\ nDim s' = nDim s /\
  packed s' vs solution_component B /\
  packed s' vs (gradient_component 0) Bx /\
  packed s' vs (gradient_component 1) By /\
  (nDim s = 3 -> packed s' vs (gradient_component 2) Bz).
Proof.
  intros HlB HlBx HlBy HlBz (HnV & HnD & Hshape & Hdone).
  split; [done |]. split; [done |].
  assert (H : forall k v iVar nd, vs !! k = Some v -> iVar < nVar s' ->
            node s' !! CVertex.Node v = Some nd ->
            comps_match s B Bx By Bz nd (k * nVar s' + iVar) iVar).
  { intros k v iVar nd Hv Hi Hnd. rewrite HnV in *.
    apply (Hdone k v iVar nd Hv Hi Hnd). left. by apply lookup_lt_Some in Hv. }
  unfold packed. rewrite HnV in *.
  repeat split; try done.
  - intros k v iVar nd Hv Hi Hnd. by destruct (H k v iVar nd Hv Hi Hnd) as (-> & _).
  - intros k v iVar nd Hv Hi Hnd. by destruct (H k v iVar nd Hv Hi Hnd) as (_ & -> & _).
  - intros k v iVar nd Hv Hi Hnd. by destruct (H k v iVar nd Hv Hi Hnd) as (_ & _ & -> & _).
  - by apply HlBz.
  - intros k v iVar nd Hv Hi Hnd.
    destruct (H k v iVar nd Hv Hi Hnd) as (_ & _ & _ & H3). by rewrite H3.
Qed.

(** The loops of the receive branch keep the nodes of the vertex points,
    with their widths. *)
Lemma recv_inv_halo_ready (s : CTurbSolution) (vs : list CVertex.t) (B Bx By Bz : list float)
    (k i : nat) (s' : CTurbSolution) :
  halo_ready s vs -> recv_inv s vs B Bx By Bz k i s' -> halo_ready s' vs.
Proof.
  intros Hready (HnV & HnD & Hshape & _) v Hv.
  destruct (Hready v Hv) as (nd & Hnd & HS & HG).
  destruct (Hshape _ _ Hnd) as (nd2 & Hnd2 & Hnode).
  exists nd2. split; [done |]. rewrite HnV, HnD. split.
  - destruct Hnode as [-> _]. done.
  - intros iVar HiVar. destruct (HG iVar HiVar) as (row & Hrow & Hlen).
    destruct (node_shape_row nd nd2 iVar row Hnode Hrow) as (row2 & Hrow2 & Hlen2).
    exists row2. split; [done | lia].
Qed.

(** At the vertex points of a marker the solution and the gradient have
    the components that the buffers are indexed by. *)
Lemma halo_ready_fields (s : CTurbSolution) (vs : list CVertex.t) (v : CVertex.t)
    (iVar : nat) :
  halo_ready s vs -> v ∈ vs -> iVar < nVar s ->
  exists nd, node s !! CVertex.Node v = Some nd /\
    is_Some (solution_component nd iVar) /\
    is_Some (gradient_component 0 nd iVar) /\
    is_Some (gradient_component 1 nd iVar) /\
    (nDim s = 3 -> is_Some (gradient_component 2 nd iVar)).
Proof.
  intros Hready Hv HiVar. destruct (Hready v Hv) as (nd & Hnd & HS & HG).
  exists nd. split; [done |].
  destruct (HG iVar HiVar) as (row & Hrow & Hlen).
  unfold solution_component, gradient_component. rewrite Hrow. simpl.
  split; [apply lookup_lt_is_Some; lia |].
  split; [apply lookup_lt_is_Some; case_decide; lia |].
  split; [apply lookup_lt_is_Some; case_decide; lia |].
  intros D3. rewrite decide_True in Hlen by done. apply lookup_lt_is_Some. lia.
Qed.

Lemma packed_marker_holds (s : CTurbSolution) (vs : list CVertex.t)
    (field : CVariable.t -> nat -> option float) (buf : list float) :
  (forall v iVar, v ∈ vs -> iVar < nVar s ->
     exists nd, node s !! CVertex.Node v = Some nd /\ is_Some (field nd iVar)) ->
  packed s vs field buf -> marker_holds s vs field buf.
Proof.
  intros Hfield [Hlen Hbuf]. split; [done |]. intros k v iVar Hv HiVar.
  destruct (Hfield v iVar) as (nd & Hnd & [x Hx]);
    [by apply list_elem_of_lookup_2 with k | done |].
  exists nd, x. split; [done |]. split; [done |].
  by rewrite (Hbuf k v iVar nd Hv HiVar Hnd).
Qed.

Lemma halo_ready_marker_holds (s : CTurbSolution) (vs : list CVertex.t)
    (B Bx By Bz : list float) :
  halo_ready s vs ->
  packed s vs solution_component B ->
  packed s vs (gradient_component 0) Bx ->
  packed s vs (gradient_component 1) By ->
  (nDim s = 3 -> packed s vs (gradient_component 2) Bz) ->
  marker_holds s vs solution_component B /\
  marker_holds s vs (gradient_component 0) Bx /\
  marker_holds s vs (gradient_component 1) By /\
  (nDim s = 3 -> marker_holds s vs (gradient_component 2) Bz).
Proof.
  intros Hready HB HBx HBy HBz.
  split; [| split; [| split; [| intros D3; specialize (HBz D3)]]];
    (apply packed_marker_holds; [| done]);
    intros v iVar Hv HiVar;
    destruct (halo_ready_fields s vs v iVar Hready Hv HiVar)
      as (nd & Hnd & H0 & H1 & H2 & H3); exists nd; (split; [done |]); auto.
Qed.

(** C6. In the build with MPI, on a marker of the geometry whose vertex
    points are nodes of the solver:
    - when the send/receive tag of the marker is positive, BC_Send_Receive
      leaves the solver as it was and posts to the domain of that tag, in
      this order, one buffered message of nVertex*nVar doubles with the
      solution under tag 0, one with the first gradient component under tag
      1, one with the second under tag 2 and, exactly when nDim = 3, one
      with the third under tag 3, each holding at k*nVar + iVar the value of
      component iVar at the point of vertex k;
    - when the tag is negative, it receives from the domain abs(tag) the
      messages of the tags 0, 1, 2 and, exactly when nDim = 3, 3, in this
      order, and when these have nVertex*nVar doubles and no point occurs
      twice in the marker, it returns a solver with the nodes of the vertex
      points overwritten: component iVar of the solution and of every
      gradient component at the point of vertex k is the entry
      k*nVar + iVar of the message of its tag. *)
Theorem BC_Send_Receive_protocol (uninit : float) (geometry : CGeometry.t) (config : CConfig.t)
    (val_marker : nat) (s : CTurbSolution) (w : MPI.world) (vs : list CVertex.t) :
  CGeometry.vertex geometry !! val_marker = Some vs ->
  halo_ready s vs ->
  let SendRecv := CConfig.Marker_All_SendRecv config val_marker in
  let nBuffer_Vector := length vs * nVar s in
  ((0 < SendRecv)%Z ->
   exists B Bx By Bz,
     BC_Send_Receive false uninit geometry config val_marker s w
     = Ok (s, MPI.mk (MPI.sent w
                      ++ [MPI.mkMessage SendRecv 0 B; MPI.mkMessage SendRecv 1 Bx;
                          MPI.mkMessage SendRecv 2 By]
                      ++ (if decide (nDim s = 3) then [MPI.mkMessage SendRecv 3 Bz] else []))
                (MPI.mailbox w)) /\
     marker_holds s vs solution_component B /\
     marker_holds s vs (gradient_component 0) Bx /\
     marker_holds s vs (gradient_component 1) By /\
     (nDim s = 3 -> marker_holds s vs (gradient_component 2) Bz))
  /\ ((SendRecv < 0)%Z ->
      NoDup (points vs) ->
      forall B Bx By Bz w0 w1 w2 w3,
        MPI.Recv nBuffer_Vector (Z.abs SendRecv) 0 w = Ok (B, w0) ->
        MPI.Recv nBuffer_Vector (Z.abs SendRecv) 1 w0 = Ok (Bx, w1) ->
        MPI.Recv nBuffer_Vector (Z.abs SendRecv) 2 w1 = Ok (By, w2) ->
        (if decide (nDim s = 3)
         then MPI.Recv nBuffer_Vector (Z.abs SendRecv) 3 w2 = Ok (Bz, w3)
         else w3 = w2) ->
        length B = nBuffer_Vector -> length Bx = nBuffer_Vector ->
        length By = nBuffer_Vector -> (nDim s = 3 -> length Bz = nBuffer_Vector) ->
        exists s',
          BC_Send_Receive false uninit geometry config val_marker s w = Ok (s', w3) /\
          nVar s' = nVar s /\ nDim s' = nDim s /\
          marker_holds s' vs solution_component B /\
          marker_holds s' vs (gradient_component 0) Bx /\
          marker_holds s' vs (gradient_component 1) By /\
          (nDim s = 3 -> marker_holds s' vs (gradient_component 2) Bz)).
Proof.
  intros Hvs Hready SendRecv nBuffer_Vector. split.
  - intros Hpos. unfold BC_Send_Receive. fold SendRecv.
    rewrite decide_True by done.
    destruct (BC_Send_Receive_send_spec uninit geometry val_marker SendRecv s w vs Hvs Hready)
      as (B & Bx & By & Bz & -> & HB & HBx & HBy & HBz).
    bsimpl. rewrite decide_False by lia. exists B, Bx, By, Bz. split; [done |].
    by apply halo_ready_marker_holds.
  - intros Hneg Hdup B Bx By Bz w0 w1 w2 w3 E0 E1 E2 E3 HlB HlBx HlBy HlBz.
    unfold BC_Send_Receive. fold SendRecv.
    rewrite decide_False by lia. bsimpl. rewrite decide_True by done.
    unfold BC_Send_Receive_receive, marker_vertices.
    rewrite (at_Some _ _ _ _ Hvs). bsimpl. fold nBuffer_Vector.
    rewrite E0. bsimpl. rewrite E1. bsimpl. rewrite E2. bsimpl.
    destruct (decide (nDim s = 3)) as [D3|D3].
    + rewrite E3. bsimpl.
      destruct (BC_Send_Receive_receive_loop s vs B Bx By Bz) as (s' & E & Hinv);
        try done.
      rewrite_loop E. bsimpl. exists s'. split; [done |].
      pose proof (recv_inv_halo_ready s vs B Bx By Bz _ _ s' Hready Hinv) as Hready'.
      destruct (recv_inv_packed s vs B Bx By Bz s')
        as (HnV & HnD & HB & HBx & HBy & HBz); try done.
      split; [done |]. split; [done |].
      destruct (halo_ready_marker_holds s' vs B Bx By Bz) as (? & ? & ? & H3); try done.
      * intros _. by apply HBz.
      * split; [done |]. split; [done |]. split; [done |]. intros _. apply H3. congruence.
    + subst w3. bsimpl.
      destruct (BC_Send_Receive_receive_loop s vs B Bx By (new_array uninit nBuffer_Vector))
        as (s' & E & Hinv); try done.
      rewrite_loop E. bsimpl. exists s'. split; [done |].
      pose proof (recv_inv_halo_ready s vs B Bx By _ _ _ s' Hready Hinv) as Hready'.
      destruct (recv_inv_packed s vs B Bx By (new_array uninit nBuffer_Vector) s')
        as (HnV & HnD & HB & HBx & HBy & _); try done.
      split; [done |]. split; [done |].
      destruct (halo_ready_marker_holds s' vs B Bx By Bz) as (? & ? & ? & _); try done.
      intros D3'. congruence.
Qed.

Lemma sample_halo_ready (n : nat) :
  halo_ready (sample_solver n) [CVertex.mk 0 [-1; 0]%float; CVertex.mk 1 [1; 0]%float].
Proof.
  intros v Hv. apply list_elem_of_In in Hv. simpl in Hv.
  destruct Hv as [<-|[<-|[]]]; simpl; eexists; (split; [reflexivity |]); simpl;
    rewrite length_replicate; (split; [lia |]);
    intros iVar HiVar; eexists;
    (split; [by apply lookup_replicate_2 | simpl; lia]).
Defined.

Lemma sample_marker_NoDup :
  NoDup (points [CVertex.mk 0 [-1; 0]%float; CVertex.mk 1 [1; 0]%float]).
Proof. apply (bool_decide_unpack _). vm_compute. exact I. Defined.

Lemma BC_Send_Receive_protocol_witness :
  (exists B Bx By Bz,
     BC_Send_Receive false 0%float sample_geometry (sample_config 2 EULER_IMPLICIT SST false) 0
       (sample_solver 2) (MPI.mk [] [])
     = Ok (sample_solver 2,
           MPI.mk ([] ++ [MPI.mkMessage 2 0 B; MPI.mkMessage 2 1 Bx; MPI.mkMessage 2 2 By]
                   ++ (if decide (nDim (sample_solver 2) = 3)
                       then [MPI.mkMessage 2 3 Bz] else []))
                  []) /\
     marker_holds (sample_solver 2) [CVertex.mk 0 [-1; 0]%float; CVertex.mk 1 [1; 0]%float]
       solution_component B /\
     marker_holds (sample_solver 2) [CVertex.mk 0 [-1; 0]%float; CVertex.mk 1 [1; 0]%float]
       (gradient_component 0) Bx /\
     marker_holds (sample_solver 2) [CVertex.mk 0 [-1; 0]%float; CVertex.mk 1 [1; 0]%float]
       (gradient_component 1) By /\
     (nDim (sample_solver 2) = 3 ->
      marker_holds (sample_solver 2) [CVertex.mk 0 [-1; 0]%float; CVertex.mk 1 [1; 0]%float]
        (gradient_component 2) Bz))
  /\ (exists s',
        BC_Send_Receive false 0%float sample_geometry
          (sample_config (-2) EULER_IMPLICIT SST false) 0 (sample_solver 2)
          (MPI.mk [] [MPI.mkMessage 2 2 [20; 21; 22; 23]%float;
                      MPI.mkMessage 2 0 [10; 11; 12; 13]%float;
                      MPI.mkMessage 2 1 [30; 31; 32; 33]%float])
        = Ok (s', MPI.mk [] []) /\
        nVar s' = nVar (sample_solver 2) /\ nDim s' = nDim (sample_solver 2) /\
        marker_holds s' [CVertex.mk 0 [-1; 0]%float; CVertex.mk 1 [1; 0]%float]
          solution_component [10; 11; 12; 13]%float /\
        marker_holds s' [CVertex.mk 0 [-1; 0]%float; CVertex.mk 1 [1; 0]%float]
          (gradient_component 0) [30; 31; 32; 33]%float /\
        marker_holds s' [CVertex.mk 0 [-1; 0]%float; CVertex.mk 1 [1; 0]%float]
          (gradient_component 1) [20; 21; 22; 23]%float /\
        (nDim (sample_solver 2) = 3 ->
         marker_holds s' [CVertex.mk 0 [-1; 0]%float; CVertex.mk 1 [1; 0]%float]
           (gradient_component 2) [])).
Proof.
  split.
  - refine (proj1 (BC_Send_Receive_protocol 0%float sample_geometry
              (sample_config 2 EULER_IMPLICIT SST false) 0 (sample_solver 2) (MPI.mk [] [])
              [CVertex.mk 0 [-1; 0]%float; CVertex.mk 1 [1; 0]%float]
              eq_refl (sample_halo_ready 2)) _).
    reflexivity.
  - refine (proj2 (BC_Send_Receive_protocol 0%float sample_geometry
              (sample_config (-2) EULER_IMPLICIT SST false) 0 (sample_solver 2)
              (MPI.mk [] [MPI.mkMessage 2 2 [20; 21; 22; 23]%float;
                          MPI.mkMessage 2 0 [10; 11; 12; 13]%float;
                          MPI.mkMessage 2 1 [30; 31; 32; 33]%float])
              [CVertex.mk 0 [-1; 0]%float; CVertex.mk 1 [1; 0]%float]
              eq_refl (sample_halo_ready 2)) _ sample_marker_NoDup
              [10; 11; 12; 13]%float [30; 31; 32; 33]%float [20; 21; 22; 23]%float []
              (MPI.mk [] [MPI.mkMessage 2 2 [20; 21; 22; 23]%float;
                          MPI.mkMessage 2 1 [30; 31; 32; 33]%float])
              (MPI.mk [] [MPI.mkMessage 2 2 [20; 21; 22; 23]%float])
              (MPI.mk [] []) (MPI.mk [] []) _ _ _ _ _ _ _ _).
    + reflexivity.
    + vm_compute. reflexivity.
    + vm_compute. reflexivity.
    + vm_compute. reflexivity.
    + vm_compute. reflexivity.
    + reflexivity.
    + reflexivity.
    + reflexivity.
    + intros D3. vm_compute in D3. discriminate D3.
Defined.

(** On the sample mesh the two-equation solver sends, to domain 2, the
    solutions (1, 1, 3, 3) under tag 0 and the gradient components
    (1, 1, 3, 3) and (5, 5, 6, 6) under the tags 1 and 2; a solver that
    receives these three messages from domain 2 gets them as the solutions
    and gradients of its two vertex points. *)
Example BC_Send_Receive_sample :
  BC_Send_Receive false 0%float sample_geometry (sample_config 2 EULER_IMPLICIT SST false) 0
    (sample_solver 2) (MPI.mk [] [])
  = Ok (sample_solver 2,
        MPI.mk [MPI.mkMessage 2 0 [1; 1; 3; 3]%float; MPI.mkMessage 2 1 [1; 1; 3; 3]%float;
                MPI.mkMessage 2 2 [5; 5; 6; 6]%float] [])
  /\ exists s',
       BC_Send_Receive false 0%float sample_geometry
         (sample_config (-2) EULER_IMPLICIT SST false) 0 (sample_solver 2)
         (MPI.mk [] [MPI.mkMessage 2 2 [20; 21; 22; 23]%float;
                     MPI.mkMessage 2 0 [10; 11; 12; 13]%float;
                     MPI.mkMessage 2 1 [30; 31; 32; 33]%float])
       = Ok (s', MPI.mk [] []) /\
       CVariable.Solution <$> node s' = [[10; 11]%float; [12; 13]%float] /\
       CVariable.Gradient <$> node s'
       = [[[30; 20]; [31; 21]]%float; [[32; 22]; [33; 23]]%float].
Proof. split; [vm_compute; reflexivity |]. eexists. repeat split; vm_compute; reflexivity. Qed.

(** Without MPI the two halo routines have an empty body. *)
Lemma halo_routines_without_MPI (uninit : float) (geometry : CGeometry.t) (config : CConfig.t)
    (val_marker : nat) (s : CTurbSolution) (w : MPI.world) :
  BC_Send_Receive true uninit geometry config val_marker s w = Ok (s, w)
  /\ BC_InterProcessor true geometry config val_marker s = Ok s.
Proof. by split. Qed.

(** ** Loops that rewrite the nodes of the first points *)

Lemma with_node_only (s s1 : CTurbSolution) (nodes : list CVariable.t) :
  s1 = with_node (node s1) s -> with_node nodes s1 = with_node nodes s.
Proof. intros H. rewrite H. reflexivity. Qed.

(** A loop over the first [n] points whose body replaces the node of its
    point [i] by [g i] of it, and changes nothing else of the solver. *)
Lemma node_map_loop (n : nat) (body : nat -> CTurbSolution -> result CTurbSolution)
    (g : nat -> CVariable.t -> CVariable.t) (s : CTurbSolution) :
  n <= length (node s) ->
  (forall i s1 nd, i < n -> s1 = with_node (node s1) s -> node s1 !! i = Some nd ->
     body i s1 = Ok (set_node i (g i nd) s1)) ->
  exists s', for_ n body s = Ok s' /\
    s' = with_node (node s') s /\
    length (node s') = length (node s) /\
    forall i, node s' !! i = if decide (i < n) then g i <$> node s !! i else node s !! i.
Proof.
  intros Hn Hbody.
  destruct (for_inv (fun k s1 =>
      s1 = with_node (node s1) s /\ length (node s1) = length (node s) /\
      forall i, node s1 !! i = if decide (i < k) then g i <$> node s !! i else node s !! i)
    n body s) as (s' & E & H); [| | by exists s'].
  - split; [by destruct s |]. split; [done |]. intros i. by rewrite decide_False by lia.
  - intros k s1 Hk (Hs1 & Hlen & Hnodes).
    destruct (lookup_lt_is_Some_2 (node s1) k) as [nd Hnd]; [lia |].
    rewrite (Hbody k s1 nd Hk Hs1 Hnd). eexists. split; [done |].
    solver_simpl. split; [| split].
    + unfold set_node. by apply with_node_only.
    + by rewrite length_insert.
    + intros i. destruct (decide (i = k)) as [->|Hne].
      * rewrite list_lookup_insert_eq by lia. rewrite decide_True by lia.
        specialize (Hnodes k). rewrite decide_False in Hnodes by lia.
        rewrite <- Hnodes, Hnd. done.
      * rewrite list_lookup_insert_ne by done. rewrite Hnodes.
        repeat case_decide; (done || lia).
Qed.

Lemma lookup_SetValZero (m : gmap (nat * nat) Block) (rc : nat * nat) :
  CSparseMatrix.SetValZero m !! rc = (fun b => block_zero (length b)) <$> m !! rc.
Proof. unfold CSparseMatrix.SetValZero. by rewrite lookup_fmap. Qed.

(** With the three methods of the enumeration, exactly one of the two
    gradient routines runs. *)
Lemma solution_gradient_one GG LS (geometry : CGeometry.t) (config : CConfig.t)
    (s : CTurbSolution) :
  solution_gradient GG LS geometry config s
  = if decide (CConfig.Kind_Gradient_Method config = GREEN_GAUSS)
    then GG geometry s else LS geometry config s.
Proof.
  unfold solution_gradient.
  destruct (CConfig.Kind_Gradient_Method config); reflexivity.
Qed.

(** ** Preprocessing *)

(** X1. CTurbSASolution::Preprocessing, when the solver has a node for each of
    the nPoint points of the geometry: the call returns the result of one
    gradient routine, the Green-Gauss one when that method is configured
    and the least-squares one otherwise, applied to a solver [s0] that
    differs from the one at the call in its nodes and its Jacobian only;
    in [s0] the residual of each of the first nPoint points is zero, with
    nothing else of the node changed, the nodes beyond are as they were, and
    every block of the Jacobian is the zero block of its size, the sparsity
    pattern being the same. *)
Theorem SA_Preprocessing_resets GG LS (geometry : CGeometry.t) (flow : CFlowSolution)
    (config : CConfig.t) (iRKStep : nat) (s : CTurbSolution) :
  CGeometry.nPoint geometry <= length (node s) ->
  exists s0,
    SA_Preprocessing GG LS geometry flow config iRKStep s
    = Ok (if decide (CConfig.Kind_Gradient_Method config = GREEN_GAUSS)
          then GG geometry s0 else LS geometry config s0) /\
    s0 = with_Jacobian (Jacobian s0) (with_node (node s0) s) /\
    (forall i, node s0 !! i
               = if decide (i < CGeometry.nPoint geometry)
                 then CVariable.SetResidualZero <$> node s !! i else node s !! i) /\
    (forall rc, Jacobian s0 !! rc = (fun b => block_zero (length b)) <$> Jacobian s !! rc).
Proof.
  intros Hn. unfold SA_Preprocessing.
  match goal with |- context [for_ ?n ?b s] =>
    destruct (node_map_loop n b (fun _ => CVariable.SetResidualZero) s Hn)
      as (s1 & E & Hs1 & Hlen & Hnodes) end.
  { intros i s1 nd Hi _ Hnd. unfold get_node. by rewrite (at_Some _ _ _ _ Hnd). }
  rewrite E. bsimpl. rewrite solution_gradient_one.
  eexists. split; [reflexivity |]. solver_simpl. split; [| split].
  - f_equal. exact Hs1.
  - exact Hnodes.
  - intros rc. rewrite lookup_SetValZero. rewrite Hs1. done.
Qed.

Lemma SA_Preprocessing_resets_witness :
  exists s0,
    SA_Preprocessing (fun _ s => s) (fun _ _ s => s) sample_geometry sample_flow
      (sample_config 0 EULER_IMPLICIT SA false) 0 (sample_solver 1)
    = Ok (if decide (CConfig.Kind_Gradient_Method (sample_config 0 EULER_IMPLICIT SA false)
                     = GREEN_GAUSS)
          then (fun _ s => s) sample_geometry s0
          else (fun _ _ s => s) sample_geometry (sample_config 0 EULER_IMPLICIT SA false) s0) /\
    s0 = with_Jacobian (Jacobian s0) (with_node (node s0) (sample_solver 1)) /\
    (forall i, node s0 !! i
               = if decide (i < CGeometry.nPoint sample_geometry)
                 then CVariable.SetResidualZero <$> node (sample_solver 1) !! i
                 else node (sample_solver 1) !! i) /\
    (forall rc, Jacobian s0 !! rc
                = (fun b => block_zero (length b)) <$> Jacobian (sample_solver 1) !! rc).
Proof.
  apply (SA_Preprocessing_resets (fun _ s => s) (fun _ _ s => s) sample_geometry sample_flow
           (sample_config 0 EULER_IMPLICIT SA false) 0 (sample_solver 1)).
  simpl. lia.
Defined.

(** X2. CTurbSSTSolution::Preprocessing, when the solver has a node for each of
    the nPoint points of the geometry and these points exist, with a first
    state component, in the flow solver and in the wall-distance solver: the
    call returns the result of one gradient routine, the Green-Gauss one
    when that method is configured and the least-squares one otherwise,
    applied to a solver [s0] that differs from the one at the call in its
    nodes and its Jacobian only; in [s0] the node of each of the first
    nPoint points is the old node with its residual zeroed and then its
    blending scalar recomputed from the laminar viscosity of the flow node,
    the wall distance and the density of the point; the nodes beyond are as
    they were, and every block of the Jacobian is the zero block of its
    size. *)
Theorem SST_Preprocessing_resets GG LS F1 (geometry : CGeometry.t) (flow : CFlowSolution)
    (eikonal : list CVariable.t) (config : CConfig.t) (iRKStep : nat) (s : CTurbSolution) :
  CGeometry.nPoint geometry <= length (node s) ->
  flow_and_distance_ready (CGeometry.nPoint geometry) flow eikonal ->
  exists s0,
    SST_Preprocessing GG LS F1 geometry flow eikonal config iRKStep s
    = Ok (if decide (CConfig.Kind_Gradient_Method config = GREEN_GAUSS)
          then GG geometry s0 else LS geometry config s0) /\
    s0 = with_Jacobian (Jacobian s0) (with_node (node s0) s) /\
    (forall i nd, i < CGeometry.nPoint geometry -> node s !! i = Some nd ->
       exists fnd wnd rho dist,
         flow_node flow !! i = Some fnd /\ eikonal !! i = Some wnd /\
         CVariable.Solution fnd !! 0 = Some rho /\ CVariable.Solution wnd !! 0 = Some dist /\
         node s0 !! i
         = Some (F1 (CVariable.LaminarViscosity fnd) dist rho (CVariable.SetResidualZero nd))) /\
    (forall i, CGeometry.nPoint geometry <= i -> node s0 !! i = node s !! i) /\
    (forall rc, Jacobian s0 !! rc = (fun b => block_zero (length b)) <$> Jacobian s !! rc).
Proof.
  intros Hn Hready. unfold SST_Preprocessing.
  set (g := fun (i : nat) (nd : CVariable.t) =>
    match flow_node flow !! i, eikonal !! i with
    | Some fnd, Some wnd =>
        match CVariable.Solution fnd !! 0, CVariable.Solution wnd !! 0 with
        | Some rho, Some dist =>
            F1 (CVariable.LaminarViscosity fnd) dist rho (CVariable.SetResidualZero nd)
        | _, _ => nd
        end
    | _, _ => nd
    end).
  match goal with |- context [for_ ?n ?b s] =>
    destruct (node_map_loop n b g s Hn) as (s1 & E & Hs1 & Hlen & Hnodes) end.
  { intros i s1 nd Hi _ Hnd. unfold get_node. rewrite (at_Some _ _ _ _ Hnd). bsimpl.
    solver_simpl.
    rewrite (at_Some "node" _ i (CVariable.SetResidualZero nd)).
    2:{ apply list_lookup_insert_eq. by eapply lookup_lt_Some. }
    bsimpl. destruct (Hready i Hi) as (fnd & wnd & rho & dist & Hf & Hw & Hrho & Hdist).
    rewrite (at_Some _ _ _ _ Hf). bsimpl. rewrite (at_Some _ _ _ _ Hw). bsimpl.
    unfold CVariable.GetSolution. rewrite (at_Some _ _ _ _ Hdist). bsimpl.
    rewrite (at_Some _ _ _ _ Hrho). bsimpl.
    unfold set_node. solver_simpl. rewrite list_insert_insert_eq.
    subst g. cbn beta. rewrite Hf, Hw, Hrho, Hdist. done. }
  rewrite E. bsimpl. rewrite solution_gradient_one.
  eexists. split; [reflexivity |]. solver_simpl. split; [| split; [| split]].
  - f_equal. exact Hs1.
  - intros i nd Hi Hnd. destruct (Hready i Hi) as (fnd & wnd & rho & dist & Hf & Hw & Hrho & Hdist).
    exists fnd, wnd, rho, dist. repeat (split; [done |]).
    rewrite Hnodes, decide_True by done. rewrite Hnd. subst g. cbn.
    rewrite Hf, Hw, Hrho, Hdist. done.
  - intros i Hi. rewrite Hnodes, decide_False by lia. done.
  - intros rc. rewrite lookup_SetValZero. rewrite Hs1. done.
Qed.

Lemma sample_flow_and_distance_ready :
  flow_and_distance_ready 2 sample_flow sample_eikonal.
Proof.
  intros i Hi. destruct i as [|[|i]]; [| | lia]; by eexists _, _, _, _.
Qed.

Lemma SST_Preprocessing_resets_witness :
  exists s0,
    SST_Preprocessing (fun _ s => s) (fun _ _ s => s) (fun _ _ _ nd => nd) sample_geometry
      sample_flow sample_eikonal (sample_config 0 EULER_IMPLICIT SST false) 0 (sample_solver 2)
    = Ok s0 /\
    (forall i, CGeometry.nPoint sample_geometry <= i ->
       node s0 !! i = node (sample_solver 2) !! i) /\
    (forall rc, Jacobian s0 !! rc
                = (fun b => block_zero (length b)) <$> Jacobian (sample_solver 2) !! rc).
Proof.
  destruct (SST_Preprocessing_resets (fun _ s => s) (fun _ _ s => s) (fun _ _ _ nd => nd)
              sample_geometry sample_flow sample_eikonal
              (sample_config 0 EULER_IMPLICIT SST false) 0 (sample_solver 2))
    as (s0 & E & _ & _ & Hrest & HJ).
  - simpl. lia.
  - exact sample_flow_and_distance_ready.
  - exists s0. split; [exact E |]. split; [exact Hrest | exact HJ].
Defined.

(** ** Source terms *)

Lemma SourcePieceWise_scatter_Ok (config : CConfig.t) (i : nat) (s : CTurbSolution)
    (c : CSourceNumerics.kernel) (x : CSourceNumerics.inputs)
    (calls : list CSourceNumerics.inputs) (nd : CVariable.t) :
  node s !! i = Some nd ->
  SourcePieceWise_scatter config i (s, CSourceNumerics.mk c x calls)
  = Ok (with_Jacobian (CSparseMatrix.SubtractBlock i i (c x config).2 (Jacobian s))
          (set_node i (CVariable.SubtractResidual (c x config).1 nd)
             (with_Jacobian_i (c x config).2 (with_Residual (c x config).1 s))),
        CSourceNumerics.mk c x (calls ++ [x])).
Proof.
  intros Hnd. unfold SourcePieceWise_scatter, CSourceNumerics.SetResidual.
  cbn [CSourceNumerics.compute CSourceNumerics.current CSourceNumerics.calls].
  destruct (c x config) as [R J]. cbn [fst snd].
  rewrite (node_SubtractResidual_Ok i _ nd) by done. bsimpl. done.
Qed.

(** The loop over the domain points, for a body that sets inputs [x] with
    [handed i nd x] and then scatters. *)
Lemma source_loop (config : CConfig.t) (n : nat)
    (body : nat -> CTurbSolution * CSourceNumerics.t -> result (CTurbSolution * CSourceNumerics.t))
    (handed : nat -> CVariable.t -> CSourceNumerics.inputs -> Prop)
    (s : CTurbSolution) (solver : CSourceNumerics.t) :
  n <= length (node s) ->
  (forall i s1 solver1 nd, i < n -> node s !! i = Some nd -> node s1 !! i = Some nd ->
     exists x, handed i nd x /\
       body i (s1, solver1)
       = SourcePieceWise_scatter config i
           (s1, CSourceNumerics.mk (CSourceNumerics.compute solver1) x
                  (CSourceNumerics.calls solver1))) ->
  exists s' solver',
    for_ n body (s, solver) = Ok (s', solver') /\
    source_assembled config n handed s s' solver solver'.
Proof.
  intros Hn Hbody.
  destruct (for_inv (fun k (st : CTurbSolution * CSourceNumerics.t) =>
      length (node st.1) = length (node s) /\
      source_assembled config k handed s st.1 solver st.2) n body (s, solver))
    as ([s' solver'] & E & _ & H); [| | by exists s', solver'].
  - split; [done |]. split; [done |]. split; [| done].
    exists []. split; [by rewrite app_nil_r |]. split; [done |]. intros i Hi. lia.
  - intros k [s1 solver1] Hk (Hlen & Hc & (ins & Hcalls & Hins & Hdone) & Hrest & HJ).
    cbn [fst snd] in *.
    destruct (lookup_lt_is_Some_2 (node s) k) as [nd Hnd]; [lia |].
    assert (Hnd1 : node s1 !! k = Some nd) by (by rewrite Hrest).
    destruct (Hbody k s1 solver1 nd Hk Hnd Hnd1) as (x & Hx & ->).
    rewrite (SourcePieceWise_scatter_Ok _ _ _ _ _ _ nd) by done.
    eexists (_, _). split; [reflexivity |]. unfold source_assembled. cbn [fst snd].
    solver_simpl. cbn [CSourceNumerics.compute CSourceNumerics.calls].
    split; [by rewrite length_insert |].
    split; [done |]. split; [| split].
    + exists (ins ++ [x]). cbn [CSourceNumerics.calls].
      split; [by rewrite Hcalls, app_assoc |].
      split; [rewrite length_app; simpl; lia |].
      intros i Hi. destruct (decide (i = k)) as [->|Hne].
      * exists x, nd. split; [rewrite lookup_app_r by lia; by rewrite Hins, Nat.sub_diag |].
        split; [done |]. split; [done |]. rewrite <- Hc.
        split; [apply list_lookup_insert_eq; lia |].
        rewrite lookup_SubtractBlock, decide_True by done. by rewrite HJ by (right; lia).
      * destruct (Hdone i ltac:(lia)) as (xi & ndi & Hxi & Hndi & Hhi & Hnode & Hblock).
        exists xi, ndi. split; [by rewrite lookup_app_l by lia |].
        split; [done |]. split; [done |].
        split; [by rewrite list_lookup_insert_ne by done |].
        rewrite lookup_SubtractBlock, decide_False by congruence. done.
    + intros i Hi. rewrite list_lookup_insert_ne by lia. apply Hrest. lia.
    + intros r c Hrc. rewrite lookup_SubtractBlock. case_decide as Heq.
      * simplify_eq. lia.
      * apply HJ. lia.
Qed.

(** The setters keep the kernel and the trace of the solver object. *)
Ltac source_solver_eq :=
  match goal with
  | |- SourcePieceWise_scatter _ _ (_, ?S)
       = SourcePieceWise_scatter _ _ (_, CSourceNumerics.mk ?c _ ?l) =>
      let S' := fresh "S" in
      set (S' := S);
      replace c with (CSourceNumerics.compute S')
        by (subst S'; repeat destruct (decide _); reflexivity);
      replace l with (CSourceNumerics.calls S')
        by (subst S'; repeat destruct (decide _); reflexivity);
      clearbody S'; destruct S'; reflexivity
  end.

(** X3. CTurbSASolution::SourcePieceWise_Residual, when the domain points exist
    in both solvers, in the geometry and in the wall-distance solver: the
    call returns; the kernel has been called once per domain point, in index
    order, each time with the state of the flow node, its laminar viscosity,
    the state and gradient of the turbulence node, the control volume and
    the wall distance of the point, and with the gradient of the flow node
    too when the model is SA_COMP or SST; the residual it returned has been
    subtracted from the residual of the point and its block from the
    diagonal block of the point; the points outside the domain and every
    other block, the off-diagonal ones among them, are unchanged. *)
Theorem SA_SourcePieceWise_Residual_spec GP (geometry : CGeometry.t) (flow : CFlowSolution)
    (eikonal : list CVariable.t) (config : CConfig.t) (s : CTurbSolution)
    (solver : CSourceNumerics.t) :
  source_ready geometry flow eikonal s ->
  exists s' solver',
    SA_SourcePieceWise_Residual GP geometry flow eikonal config (s, solver) = Ok (s', solver') /\
    source_assembled config (CGeometry.nPointDomain geometry)
      (fun i nd x =>
         source_inputs_handed geometry flow eikonal i nd x /\
         (CConfig.Kind_Turb_Model config = SA_COMP \/ CConfig.Kind_Turb_Model config = SST ->
          exists fnd, flow_node flow !! i = Some fnd /\
            CSourceNumerics.ConsVarGradient x = (CVariable.Gradient fnd, None)))
      s s' solver solver'.
Proof.
  intros (Hn & Hready). unfold SA_SourcePieceWise_Residual.
  apply source_loop; [done |].
  intros i s1 solver1 nd Hi Hnd Hnd1.
  destruct (Hready i Hi) as (gp & fnd & wnd & dist & Hgp & Hf & Hw & Hdist).
  unfold SA_SourcePieceWise_Residual_point.
  rewrite (at_Some _ _ _ _ Hf). bsimpl. unfold get_node. rewrite (at_Some _ _ _ _ Hnd1). bsimpl.
  rewrite (at_Some _ _ _ _ Hgp). bsimpl. rewrite (at_Some _ _ _ _ Hw). bsimpl.
  unfold CVariable.GetSolution. rewrite (at_Some _ _ _ _ Hdist). bsimpl.
  match goal with |- exists x, _ /\ SourcePieceWise_scatter _ _ (_, ?S) = _ =>
    exists (CSourceNumerics.current S) end.
  split; [| source_solver_eq].
  split.
  - exists gp, fnd, wnd, dist. do 4 (split; [done |]).
    destruct (decide _); repeat split; reflexivity.
  - intros Hmodel. exists fnd. split; [done |]. rewrite decide_True by done. reflexivity.
Qed.

Lemma sample_source_ready (n : nat) :
  source_ready sample_geometry sample_flow sample_eikonal (sample_solver n).
Proof.
  split; [simpl; lia |]. intros i Hi. simpl in Hi.
  destruct i as [|[|i]]; [| | lia]; by eexists _, _, _, _.
Qed.

Lemma SA_SourcePieceWise_Residual_spec_witness :
  exists s' solver',
    SA_SourcePieceWise_Residual (fun _ => []) sample_geometry sample_flow sample_eikonal
      (sample_config 0 EULER_IMPLICIT SA false) (sample_solver 1, sample_source_numerics)
    = Ok (s', solver') /\
    source_assembled (sample_config 0 EULER_IMPLICIT SA false)
      (CGeometry.nPointDomain sample_geometry)
      (fun i nd x =>
         source_inputs_handed sample_geometry sample_flow sample_eikonal i nd x /\
         (CConfig.Kind_Turb_Model (sample_config 0 EULER_IMPLICIT SA false) = SA_COMP
          \/ CConfig.Kind_Turb_Model (sample_config 0 EULER_IMPLICIT SA false) = SST ->
          exists fnd, flow_node sample_flow !! i = Some fnd /\
            CSourceNumerics.ConsVarGradient x = (CVariable.Gradient fnd, None)))
      (sample_solver 1) s' sample_source_numerics solver'.
Proof.
  apply (SA_SourcePieceWise_Residual_spec (fun _ => []) sample_geometry sample_flow
           sample_eikonal (sample_config 0 EULER_IMPLICIT SA false) (sample_solver 1)
           sample_source_numerics).
  exact (sample_source_ready 1).
Defined.

(** X4. CTurbSSTSolution::SourcePieceWise_Residual, when the domain points exist
    in both solvers, in the geometry and in the wall-distance solver: the
    call returns; the kernel has been called once per domain point, in index
    order, each time with the state of the flow node, its laminar and its
    eddy viscosity, the state, the gradient and the blending scalar of the
    turbulence node, the control volume and the wall distance of the point;
    the residual it returned has been subtracted from the residual of the
    point and its block from the diagonal block of the point; the points
    outside the domain and every other block are unchanged. *)
Theorem SST_SourcePieceWise_Residual_spec GP (geometry : CGeometry.t) (flow : CFlowSolution)
    (eikonal : list CVariable.t) (config : CConfig.t) (s : CTurbSolution)
    (solver : CSourceNumerics.t) :
  source_ready geometry flow eikonal s ->
  exists s' solver',
    SST_SourcePieceWise_Residual GP geometry flow eikonal config (s, solver) = Ok (s', solver') /\
    source_assembled config (CGeometry.nPointDomain geometry)
      (fun i nd x =>
         source_inputs_handed geometry flow eikonal i nd x /\
         CSourceNumerics.F1blending x = CVariable.F1blending nd /\
         exists fnd, flow_node flow !! i = Some fnd /\
           CSourceNumerics.EddyViscosity x = (CVariable.EddyViscosity fnd, 0%float))
      s s' solver solver'.
Proof.
  intros (Hn & Hready). unfold SST_SourcePieceWise_Residual.
  apply source_loop; [done |].
  intros i s1 solver1 nd Hi Hnd Hnd1.
  destruct (Hready i Hi) as (gp & fnd & wnd & dist & Hgp & Hf & Hw & Hdist).
  unfold SST_SourcePieceWise_Residual_point.
  rewrite (at_Some _ _ _ _ Hf). bsimpl. unfold get_node. rewrite (at_Some _ _ _ _ Hnd1). bsimpl.
  rewrite (at_Some _ _ _ _ Hgp). bsimpl. rewrite (at_Some _ _ _ _ Hw). bsimpl.
  unfold CVariable.GetSolution. rewrite (at_Some _ _ _ _ Hdist). bsimpl.
  match goal with |- exists x, _ /\ SourcePieceWise_scatter _ _ (_, ?S) = _ =>
    exists (CSourceNumerics.current S) end.
  split; [| source_solver_eq].
  split; [| split; [reflexivity |]].
  - exists gp, fnd, wnd, dist. do 4 (split; [done |]). repeat split; reflexivity.
  - exists fnd. split; [done | reflexivity].
Qed.

Lemma SST_SourcePieceWise_Residual_spec_witness :
  exists s' solver',
    SST_SourcePieceWise_Residual (fun _ => []) sample_geometry sample_flow sample_eikonal
      (sample_config 0 EULER_IMPLICIT SST false) (sample_solver 2, sample_source_numerics)
    = Ok (s', solver') /\
    source_assembled (sample_config 0 EULER_IMPLICIT SST false)
      (CGeometry.nPointDomain sample_geometry)
      (fun i nd x =>
         source_inputs_handed sample_geometry sample_flow sample_eikonal i nd x /\
         CSourceNumerics.F1blending x = CVariable.F1blending nd /\
         exists fnd, flow_node sample_flow !! i = Some fnd /\
           CSourceNumerics.EddyViscosity x = (CVariable.EddyViscosity fnd, 0%float))
      (sample_solver 2) s' sample_source_numerics solver'.
Proof.
  apply (SST_SourcePieceWise_Residual_spec (fun _ => []) sample_geometry sample_flow
           sample_eikonal (sample_config 0 EULER_IMPLICIT SST false) (sample_solver 2)
           sample_source_numerics).
  exact (sample_source_ready 2).
Defined.

(** ** The inlet of CTurbSSTSolution *)

(** A loop that only accumulates a double from reads within bounds. *)
Lemma accumulate_loop (n : nat) (body : nat -> float -> result float) (x0 : float) :
  (forall i x, i < n -> exists y, body i x = Ok y) ->
  exists y, for_ n body x0 = Ok y.
Proof.
  intros Hbody.
  destruct (for_inv (fun _ _ => True) n body x0) as (y & E & _); [done | | by exists y].
  intros i x Hi _. destruct (Hbody i x Hi) as (y & ->). by exists y.
Qed.

(** One read or write within the bounds of a scratch array. *)
Ltac array_step :=
  first
    [ rewrite store_lt by (rewrite ?length_insert; lia)
    | match goal with
      | |- context [at_ ?nm ?l ?i] =>
          let x := fresh "x" in
          destruct (at_lt nm l i) as (x & _ & ->); [rewrite ?length_insert; lia |]
      end ];
  bsimpl.

Lemma SST_BC_Inlet_flow_Ok cos sin pow SoundSpeed (flow : CFlowSolution) (config : CConfig.t)
    (iPoint : nat) (AoA AoS : float) (s : CTurbSolution) (fnd : CVariable.t) :
  flow_node flow !! iPoint = Some fnd ->
  nDim s + 1 <= length (FlowSolution_i s) ->
  nDim s + 2 <= length (FlowSolution_j s) ->
  exists a,
    SST_BC_Inlet_flow cos sin pow SoundSpeed flow config iPoint AoA AoS s
    = Ok (with_FlowSolution_j a s) /\
    length a = length (FlowSolution_j s).
Proof.
  intros Hf Hi Hj. unfold SST_BC_Inlet_flow. rewrite (at_Some _ _ _ _ Hf). bsimpl.
  match goal with |- context [for_ ?n ?b 0%float] =>
    destruct (accumulate_loop n b 0%float) as (Vel2 & ->) end.
  { intros k acc Hk. repeat array_step. by eexists. }
  bsimpl. array_step.
  destruct (decide (nDim s = 2)) as [H2|H2]; destruct (decide (nDim s = 3)) as [H3|H3];
    try lia; bsimpl; repeat array_step;
    (match goal with |- context [for_ ?n ?b 0%float] =>
       destruct (accumulate_loop n b 0%float) as (D & ->) end;
     [ intros k acc Hk; repeat array_step; by eexists
     | bsimpl; array_step; eexists; split; [reflexivity | by rewrite ?length_insert] ]).
Qed.

Lemma inputs_handed_nil {A} (f : CNumerics.inputs -> A) (solver : CNumerics.t) :
  inputs_handed f solver solver [].
Proof. exists []. by rewrite app_nil_r. Qed.

Lemma inputs_handed_snoc {A} (f : CNumerics.inputs -> A) (solver solver1 solver2 : CNumerics.t)
    (l : list A) (x : CNumerics.inputs) :
  inputs_handed f solver solver1 l ->
  CNumerics.calls solver2 = CNumerics.calls solver1 ++ [x] ->
  inputs_handed f solver solver2 (l ++ [f x]).
Proof.
  intros (new & E & Hnew) E2. exists (new ++ [x]).
  rewrite E2, E, app_assoc. split; [done |]. rewrite fmap_app, Hnew. done.
Qed.

Lemma SST_BC_Inlet_vertex_spec cos sin pow SoundSpeed (flow : CFlowSolution)
    (config : CConfig.t) (AoA AoS : float) (vs : list CVertex.t) (v : CVertex.t)
    (s s1 : CTurbSolution) (solver1 : CNumerics.t) :
  SST_inlet_ready flow s vs -> v ∈ vs ->
  bc_shape s s1 ->
  exists s2 solver2 x,
    SST_BC_Inlet_vertex cos sin pow SoundSpeed flow config AoA AoS v (s1, solver1)
    = Ok (s2, solver2) /\
    bc_shape s s2 /\ Solution_j s2 = Solution_j s1 /\
    CNumerics.calls solver2 = CNumerics.calls solver1 ++ [x] /\
    CNumerics.TurbVar x = (interior_state s v, Solution_j s1) /\
    CNumerics.Normal x = CVertex.Normal v.
Proof.
  intros (HSi & HFi & HFi1 & HFj & Hvs) Hv Hshape.
  destruct (Hvs v Hv) as (nd & fnd & Hnd & Hfnd & HS & HfS).
  pose proof Hshape as (HnV1 & HnD1 & Hnu1 & HlSi1 & HlSj1 & HlFi1 & HlFj1 & Hsol1).
  unfold SST_BC_Inlet_vertex.
  destruct (copy_FlowSolution_i_Ok flow (CVertex.Node v) s1 fnd Hfnd HfS) as (a & -> & Ha);
    [lia |].
  bsimpl.
  destruct (SST_BC_Inlet_flow_Ok cos sin pow SoundSpeed flow config (CVertex.Node v) AoA AoS
              (with_FlowSolution_i a s1) fnd Hfnd) as (b & -> & Hb);
    [solver_simpl; lia | solver_simpl; lia |].
  bsimpl. solver_simpl in Hb.
  set (s1b := with_FlowSolution_j b (with_FlowSolution_i a s1)).
  assert (Hshape_b : bc_shape s s1b) by (subst s1b; bc_shape_step Hshape).
  rewrite (copy_Solution_i_interior s s1b v nd Hshape_b Hnd HS HSi). subst s1b.
  bsimpl. solver_simpl.
  match goal with |- context [boundary_scatter config _ (?s0, ?k0)] =>
    destruct (boundary_scatter_shape config (CVertex.Node v) s s0 k0 nd)
      as (s3 & solver3 & -> & Hs3 & HSj3 & Hc3 & Hk3)
  end.
  { assert (Hint : length (interior_state s v) = length (Solution_i s))
      by (unfold interior_state; rewrite Hnd; simpl; lia).
    unfold bc_shape. solver_simpl. rewrite ?length_insert.
    repeat split; first [congruence | done | lia]. }
  { done. }
  eexists. eexists. eexists.
  split; [done |]. split; [done |]. split; [by rewrite HSj3 |].
  split; [by rewrite Hc3 |]. done.
Qed.

(** X5. CTurbSSTSolution::BC_Inlet on a marker whose vertex points exist in both
    solvers, with arrays of the sizes the constructors give them: the call
    returns (where the routine of CTurbSASolution runs out of bounds); the
    kernel has been called once per vertex, in order, with the turbulent
    state of the vertex point as interior state, with the scratch array
    Solution_j as it stood when the routine was entered as exterior state
    (the assignment to it is commented out), and with the normal of the
    vertex as it is stored, without the change of sign of the far-field
    routines; Solution_j is unchanged. *)
Theorem SST_BC_Inlet_spec cos sin pow PI_NUMBER SoundSpeed (geometry : CGeometry.t)
    (flow : CFlowSolution) (config : CConfig.t) (val_marker : nat) (vs : list CVertex.t)
    (s : CTurbSolution) (solver : CNumerics.t) :
  CGeometry.vertex geometry !! val_marker = Some vs ->
  SST_inlet_ready flow s vs ->
  exists s' solver',
    SST_BC_Inlet cos sin pow PI_NUMBER SoundSpeed geometry flow config val_marker (s, solver)
    = Ok (s', solver') /\
    Solution_j s' = Solution_j s /\
    inputs_handed (fun x => (CNumerics.TurbVar x, CNumerics.Normal x)) solver solver'
      ((fun v => ((interior_state s v, Solution_j s), CVertex.Normal v)) <$> vs).
Proof.
  intros Hvs Hready. unfold SST_BC_Inlet, marker_vertices.
  rewrite (at_Some _ _ _ _ Hvs). bsimpl. rewrite for_at_foldM.
  match goal with |- context [foldM ?body vs (s, solver)] =>
    destruct (foldM_inv (fun pre (st : CTurbSolution * CNumerics.t) =>
        bc_shape s st.1 /\ Solution_j st.1 = Solution_j s /\
        inputs_handed (fun x => (CNumerics.TurbVar x, CNumerics.Normal x)) solver st.2
          ((fun v => ((interior_state s v, Solution_j s), CVertex.Normal v)) <$> pre))
      body vs (s, solver)) as ([s' solver'] & -> & _ & HS' & H) end.
  - simpl. split; [apply bc_shape_refl |]. split; [done |]. apply inputs_handed_nil.
  - intros pre v post [s1 solver1] El (Hshape & HSj1 & Hh). simpl in Hshape, HSj1, Hh.
    assert (Hv : v ∈ vs) by (rewrite El, elem_of_app, elem_of_cons; auto).
    destruct (SST_BC_Inlet_vertex_spec cos sin pow SoundSpeed flow config
                (CConfig.AoA config * PI_NUMBER / 180)%float
                (CConfig.AoS config * PI_NUMBER / 180)%float vs v s s1 solver1)
      as (s2 & solver2 & x & -> & Hs2 & HSj2 & Hc2 & Hx & HN); [done | done | done |].
    eexists. split; [done |]. simpl. split; [done |].
    split; [congruence |]. rewrite fmap_app. simpl.
    pose proof (inputs_handed_snoc (fun x => (CNumerics.TurbVar x, CNumerics.Normal x))
                  solver solver1 solver2 _ x Hh Hc2) as Hh2.
    cbn beta in Hh2. rewrite Hx, HN, HSj1 in Hh2. exact Hh2.
  - simpl. eauto.
Qed.

Lemma sample_SST_inlet_ready :
  SST_inlet_ready sample_flow (sample_solver 2)
    [CVertex.mk 0 [-1; 0]%float; CVertex.mk 1 [1; 0]%float].
Proof.
  split; [done |]. split; [simpl; lia |]. split; [simpl; lia |]. split; [simpl; lia |].
  intros v Hv. apply list_elem_of_In in Hv. simpl in Hv.
  destruct Hv as [<-|[<-|[]]]; eexists _, _;
    (split; [reflexivity |]); (split; [reflexivity |]); simpl; lia.
Qed.

Lemma SST_BC_Inlet_spec_witness :
  exists s' solver',
    SST_BC_Inlet (fun x => x) (fun x => x) (fun x _ => x) 3%float (fun _ => 1%float)
      sample_geometry sample_flow (sample_config 0 EULER_IMPLICIT SST false) 0
      (sample_solver 2, sample_numerics)
    = Ok (s', solver') /\
    Solution_j s' = Solution_j (sample_solver 2) /\
    inputs_handed (fun x => (CNumerics.TurbVar x, CNumerics.Normal x)) sample_numerics solver'
      ((fun v => ((interior_state (sample_solver 2) v, Solution_j (sample_solver 2)),
                  CVertex.Normal v))
         <$> [CVertex.mk 0 [-1; 0]%float; CVertex.mk 1 [1; 0]%float]).
Proof.
  apply (SST_BC_Inlet_spec (fun x => x) (fun x => x) (fun x _ => x) 3%float (fun _ => 1%float)
           sample_geometry sample_flow (sample_config 0 EULER_IMPLICIT SST false) 0
           [CVertex.mk 0 [-1; 0]%float; CVertex.mk 1 [1; 0]%float]
           (sample_solver 2) sample_numerics).
  - reflexivity.
  - exact sample_SST_inlet_ready.
Defined.

(** ** The halo exchange, from one process to the other *)

Lemma take_message_head (source : Z) (t : nat) (p : list float) (rest : list MPI.message) :
  MPI.take_message source t (MPI.mkMessage source t p :: rest)
  = Some (MPI.mkMessage source t p, rest).
Proof.
  unfold MPI.take_message, MPI.matches. cbn [MPI.peer MPI.tag].
  by rewrite !bool_decide_eq_true_2.
Qed.

Lemma Recv_head (count : nat) (source : Z) (t : nat) (p : list float)
    (sent rest : list MPI.message) :
  length p <= count ->
  MPI.Recv count source t (MPI.mk sent (MPI.mkMessage source t p :: rest))
  = Ok (p, MPI.mk sent rest).
Proof.
  intros Hp. unfold MPI.Recv. cbn [MPI.mailbox MPI.sent]. rewrite take_message_head.
  cbn [MPI.payload]. by rewrite decide_True.
Qed.

(** The receiving side of BC_Send_Receive on a mailbox that holds the three
    or four messages of the marker, in the order of their tags. *)
Lemma BC_Send_Receive_receive_ordered (uninit : float) (geometry : CGeometry.t)
    (val_marker : nat) (SendRecv : Z) (s : CTurbSolution) (sent : list MPI.message)
    (vs : list CVertex.t) (source : Z) (B Bx By Bz : list float) :
  CGeometry.vertex geometry !! val_marker = Some vs ->
  halo_ready s vs -> NoDup (points vs) -> source = Z.abs SendRecv ->
  length B = length vs * nVar s -> length Bx = length vs * nVar s ->
  length By = length vs * nVar s -> (nDim s = 3 -> length Bz = length vs * nVar s) ->
  exists s',
    BC_Send_Receive_receive uninit geometry val_marker SendRecv s
      (MPI.mk sent
         ([MPI.mkMessage source 0 B; MPI.mkMessage source 1 Bx; MPI.mkMessage source 2 By]
          ++ (if decide (nDim s = 3) then [MPI.mkMessage source 3 Bz] else [])))
    = Ok (s', MPI.mk sent []) /\
    nVar s' = nVar s /\ nDim s' = nDim s /\
    (forall p nd, node s !! p = Some nd -> exists nd', node s' !! p = Some nd') /\
    packed s' vs solution_component B /\
    packed s' vs (gradient_component 0) Bx /\
    packed s' vs (gradient_component 1) By /\
    (nDim s = 3 -> packed s' vs (gradient_component 2) Bz).
Proof.
  intros Hvs Hready Hdup -> HlB HlBx HlBy HlBz.
  unfold BC_Send_Receive_receive, marker_vertices.
  rewrite (at_Some _ _ _ _ Hvs). bsimpl. cbn [app].
  rewrite Recv_head by lia. bsimpl. rewrite Recv_head by lia. bsimpl.
  rewrite Recv_head by lia. bsimpl.
  destruct (decide (nDim s = 3)) as [D3|D3].
  - rewrite Recv_head by (rewrite HlBz by done; lia). bsimpl.
    destruct (BC_Send_Receive_receive_loop s vs B Bx By Bz) as (s' & E & Hinv); try done.
    rewrite_loop E. bsimpl. exists s'. split; [done |].
    destruct (recv_inv_packed s vs B Bx By Bz s') as (? & ? & ? & ? & ? & ?); try done.
    destruct Hinv as (_ & _ & Hnodes & _).
    repeat (split; [done |]). split; [| done].
    intros p nd Hnd. destruct (Hnodes p nd Hnd) as (nd' & ? & _). by exists nd'.
  - bsimpl.
    destruct (BC_Send_Receive_receive_loop s vs B Bx By (new_array uninit (length vs * nVar s)))
      as (s' & E & Hinv); try done.
    rewrite_loop E. bsimpl. exists s'. split; [done |].
    destruct (recv_inv_packed s vs B Bx By (new_array uninit (length vs * nVar s)) s')
      as (? & ? & ? & ? & ? & ?); try done.
    destruct Hinv as (_ & _ & Hnodes & _).
    repeat (split; [done |]). split; [| done].
    intros p nd Hnd. destruct (Hnodes p nd Hnd) as (nd' & ? & _). by exists nd'.
Qed.

(** X6. The halo exchange as a round trip, in the build with MPI. A process
    runs BC_Send_Receive on a marker with a positive tag; the messages it
    posts reach, marked with its rank, a process that runs BC_Send_Receive
    on a marker with the tag minus that rank, as many vertices and none
    listed twice, in a solver of the same width and dimension. Then the
    sender is unchanged and keeps its mailbox, the receiver consumes all the
    messages and posts none, and the point of every vertex k of the
    receiving marker ends with the solution and the two or three gradient
    components, for every state component, of the point of vertex k of the
    sending marker. *)
Theorem halo_exchange_round_trip (uninit : float) (gA gB : CGeometry.t) (cfgA cfgB : CConfig.t)
    (mA mB : nat) (sA sB : CTurbSolution) (wA wB : MPI.world) (vsA vsB : list CVertex.t)
    (rankA : Z) :
  CGeometry.vertex gA !! mA = Some vsA -> CGeometry.vertex gB !! mB = Some vsB ->
  length vsB = length vsA -> nVar sB = nVar sA -> nDim sB = nDim sA ->
  halo_ready sA vsA -> halo_ready sB vsB -> NoDup (points vsB) ->
  (0 < CConfig.Marker_All_SendRecv cfgA mA)%Z ->
  (0 < rankA)%Z -> CConfig.Marker_All_SendRecv cfgB mB = (- rankA)%Z ->
  exists wA' posted,
    BC_Send_Receive false uninit gA cfgA mA sA wA = Ok (sA, wA') /\
    MPI.mailbox wA' = MPI.mailbox wA /\
    MPI.sent wA' = MPI.sent wA ++ posted /\
    (MPI.mailbox wB = delivered rankA posted ->
     exists sB',
       BC_Send_Receive false uninit gB cfgB mB sB wB = Ok (sB', MPI.mk (MPI.sent wB) []) /\
       halo_copied sA vsA sB' vsB).
Proof.
  intros HvsA HvsB Hlen HnV HnD HreadyA HreadyB Hdup Hpos Hrank HB.
  unfold BC_Send_Receive at 1. rewrite decide_True by done.
  destruct (BC_Send_Receive_send_spec uninit gA mA (CConfig.Marker_All_SendRecv cfgA mA)
              sA wA vsA HvsA HreadyA) as (B & Bx & By & Bz & -> & HpB & HpBx & HpBy & HpBz).
  bsimpl. rewrite decide_False by lia.
  eexists. eexists. split; [reflexivity |]. split; [reflexivity |]. split; [reflexivity |].
  intros Hmail. destruct wB as [sentB mailB]. cbn [MPI.mailbox MPI.sent] in *. subst mailB.
  unfold BC_Send_Receive. rewrite HB. rewrite decide_False by lia. bsimpl.
  rewrite decide_True by lia.
  unfold delivered. rewrite fmap_app. cbn [fmap list_fmap MPI.tag MPI.payload].
  replace (list_fmap MPI.message MPI.message
             (fun m => MPI.mkMessage rankA (MPI.tag m) (MPI.payload m))
             (if decide (nDim sA = 3)
              then [MPI.mkMessage (CConfig.Marker_All_SendRecv cfgA mA) 3 Bz] else []))
    with (if decide (nDim sB = 3) then [MPI.mkMessage rankA 3 Bz] else []).
  2:{ rewrite HnD. by destruct (decide (nDim sA = 3)). }
  destruct HpB as (HlB & HB'), HpBx as (HlBx & HBx'), HpBy as (HlBy & HBy').
  destruct (BC_Send_Receive_receive_ordered uninit gB mB (- rankA)%Z sB sentB vsB rankA
              B Bx By Bz)
    as (sB' & -> & HnV' & HnD' & Hnodes & (_ & HqB) & (_ & HqBx) & (_ & HqBy) & HqBz);
    try done; try (rewrite Hlen, HnV; done); try lia.
  { intros D3. rewrite HnD in D3. destruct (HpBz D3) as (HlBz & _). by rewrite Hlen, HnV. }
  exists sB'. split; [done |].
  intros k vA vB ndA HvA HvB HndA.
  destruct (HreadyB vB) as (ndB & HndB & _); [by eapply list_elem_of_lookup_2 |].
  destruct (Hnodes _ _ HndB) as (ndB' & HndB').
  exists ndB'. split; [done |]. intros iVar Hi.
  assert (Hi' : iVar < nVar sB') by lia.
  rewrite (eq_sym (HB' k vA iVar ndA HvA Hi HndA)).
  rewrite (eq_sym (HBx' k vA iVar ndA HvA Hi HndA)).
  rewrite (eq_sym (HBy' k vA iVar ndA HvA Hi HndA)).
  rewrite <- (HqB k vB iVar ndB' HvB Hi' HndB'), <- (HqBx k vB iVar ndB' HvB Hi' HndB'),
    <- (HqBy k vB iVar ndB' HvB Hi' HndB').
  replace (nVar sB') with (nVar sA) by lia.
  repeat (split; [done |]). intros D3.
  destruct (HpBz D3) as (_ & HBz'). rewrite <- (HBz' k vA iVar ndA HvA Hi HndA).
  assert (D3B : nDim sB = 3) by lia.
  destruct (HqBz D3B) as (_ & HqBz'). rewrite <- (HqBz' k vB iVar ndB' HvB Hi' HndB').
  by replace (nVar sB') with (nVar sA) by lia.
Qed.

Lemma halo_exchange_round_trip_witness :
  exists wA' posted,
    BC_Send_Receive false 0%float sample_geometry (sample_config 2 EULER_IMPLICIT SST false) 0
      (sample_solver 2) (MPI.mk [] []) = Ok (sample_solver 2, wA') /\
    MPI.mailbox wA' = MPI.mailbox (MPI.mk [] []) /\
    MPI.sent wA' = MPI.sent (MPI.mk [] []) ++ posted /\
    (MPI.mailbox (MPI.mk [] (delivered 1 posted)) = delivered 1 posted ->
     exists sB',
       BC_Send_Receive false 0%float sample_geometry
         (sample_config (-1) EULER_IMPLICIT SST false) 0 (sample_solver 2)
         (MPI.mk [] (delivered 1 posted))
       = Ok (sB', MPI.mk (MPI.sent (MPI.mk [] (delivered 1 posted))) []) /\
       halo_copied (sample_solver 2) [CVertex.mk 0 [-1; 0]%float; CVertex.mk 1 [1; 0]%float]
         sB' [CVertex.mk 0 [-1; 0]%float; CVertex.mk 1 [1; 0]%float]).
Proof.
  destruct (halo_exchange_round_trip 0%float sample_geometry sample_geometry
              (sample_config 2 EULER_IMPLICIT SST false)
              (sample_config (-1) EULER_IMPLICIT SST false) 0 0
              (sample_solver 2) (sample_solver 2) (MPI.mk [] []) (MPI.mk [] [])
              [CVertex.mk 0 [-1; 0]%float; CVertex.mk 1 [1; 0]%float]
              [CVertex.mk 0 [-1; 0]%float; CVertex.mk 1 [1; 0]%float] 1%Z)
    as (wA' & posted & E & Hmail & Hsent & _);
    try reflexivity; try exact (sample_halo_ready 2); try lia.
  { apply NoDup_ListNoDup. repeat constructor; simpl; intuition lia. }
  exists wA', posted. split; [exact E |]. split; [exact Hmail |]. split; [exact Hsent |].
  intros Hdel.
  destruct (halo_exchange_round_trip 0%float sample_geometry sample_geometry
              (sample_config 2 EULER_IMPLICIT SST false)
              (sample_config (-1) EULER_IMPLICIT SST false) 0 0
              (sample_solver 2) (sample_solver 2) (MPI.mk [] [])
              (MPI.mk [] (delivered 1 posted))
              [CVertex.mk 0 [-1; 0]%float; CVertex.mk 1 [1; 0]%float]
              [CVertex.mk 0 [-1; 0]%float; CVertex.mk 1 [1; 0]%float] 1%Z)
    as (wA2 & posted2 & E2 & _ & Hsent2 & H2);
    try reflexivity; try exact (sample_halo_ready 2); try lia.
  { apply NoDup_ListNoDup. repeat constructor; simpl; intuition lia. }
  assert (wA2 = wA') by congruence. subst wA2.
  assert (posted2 = posted) by (rewrite Hsent2 in Hsent; by simplify_list_eq). subst posted2.
  exact (H2 Hdel).
Defined.

(** ** The halo exchange without its messages *)

Lemma take_message_None (source : Z) (t : nat) (mb : list MPI.message) :
  (forall m, m ∈ mb -> MPI.matches source t m = false) ->
  MPI.take_message source t mb = None.
Proof.
  induction mb as [|m mb IH]; intros Hno; simpl; [done |].
  rewrite (Hno m) by (by left). rewrite IH; [done |].
  intros m' Hm'. apply Hno. by right.
Qed.

Lemma Recv_None (count : nat) (source : Z) (t : nat) (w : MPI.world) :
  (forall m, m ∈ MPI.mailbox w -> MPI.peer m <> source \/ MPI.tag m <> t) ->
  MPI.Recv count source t w = Fault (NoMatchingMessage source t).
Proof.
  intros Hno. unfold MPI.Recv. rewrite take_message_None; [done |].
  intros m Hm. unfold MPI.matches.
  destruct (Hno m Hm) as [Hp|Ht].
  - by rewrite (bool_decide_eq_false_2 _ Hp).
  - rewrite (bool_decide_eq_false_2 _ Ht). apply andb_false_r.
Qed.

Lemma Recv_truncated (count : nat) (source : Z) (t : nat) (p : list float)
    (sent rest : list MPI.message) :
  count < length p ->
  MPI.Recv count source t (MPI.mk sent (MPI.mkMessage source t p :: rest))
  = Fault (MessageTruncated source t count (length p)).
Proof.
  intros Hp. unfold MPI.Recv. cbn [MPI.mailbox MPI.sent]. rewrite take_message_head.
  cbn [MPI.payload]. by rewrite decide_False by lia.
Qed.

(** X7. BC_Send_Receive on a receiving marker, in the build with MPI, when a
    message is not there or not as expected: while the mailbox holds no
    message with tag 0 from the domain abs(tag), the blocking receive does
    not return, whatever else the mailbox holds and whatever the state of
    the solver; and a first such message of more than nVertex*nVar doubles
    is the MPI error of a truncated message. *)
Theorem BC_Send_Receive_unmatched (uninit : float) (geometry : CGeometry.t)
    (config : CConfig.t) (val_marker : nat) (s : CTurbSolution) (w : MPI.world)
    (vs : list CVertex.t) :
  CGeometry.vertex geometry !! val_marker = Some vs ->
  (CConfig.Marker_All_SendRecv config val_marker < 0)%Z ->
  let source := Z.abs (CConfig.Marker_All_SendRecv config val_marker) in
  ((forall m, m ∈ MPI.mailbox w -> MPI.peer m <> source \/ MPI.tag m <> 0) ->
   BC_Send_Receive false uninit geometry config val_marker s w
   = Fault (NoMatchingMessage source 0))
  /\ (forall p rest,
        MPI.mailbox w = MPI.mkMessage source 0 p :: rest ->
        length vs * nVar s < length p ->
        BC_Send_Receive false uninit geometry config val_marker s w
        = Fault (MessageTruncated source 0 (length vs * nVar s) (length p))).
Proof.
  intros Hvs Hneg source. split.
  - intros Hno. unfold BC_Send_Receive. rewrite decide_False by lia. bsimpl.
    rewrite decide_True by done.
    unfold BC_Send_Receive_receive, marker_vertices. rewrite (at_Some _ _ _ _ Hvs). bsimpl.
    fold source. by rewrite Recv_None.
  - intros p rest Hmail Hlong. unfold BC_Send_Receive. rewrite decide_False by lia. bsimpl.
    rewrite decide_True by done.
    unfold BC_Send_Receive_receive, marker_vertices. rewrite (at_Some _ _ _ _ Hvs). bsimpl.
    fold source. destruct w as [sent mail]. cbn [MPI.mailbox] in Hmail. subst mail.
    by rewrite Recv_truncated.
Qed.

Lemma BC_Send_Receive_unmatched_witness :
  BC_Send_Receive false 0%float sample_geometry (sample_config (-2) EULER_IMPLICIT SST false) 0
    (sample_solver 2) (MPI.mk [] [MPI.mkMessage 2 1 [1; 2; 3; 4]%float])
  = Fault (NoMatchingMessage 2 0)
  /\ BC_Send_Receive false 0%float sample_geometry
       (sample_config (-2) EULER_IMPLICIT SST false) 0 (sample_solver 2)
       (MPI.mk [] [MPI.mkMessage 2 0 [1; 2; 3; 4; 5]%float])
     = Fault (MessageTruncated 2 0 4 5).
Proof.
  split.
  - refine (proj1 (BC_Send_Receive_unmatched 0%float sample_geometry
                     (sample_config (-2) EULER_IMPLICIT SST false) 0 (sample_solver 2)
                     (MPI.mk [] [MPI.mkMessage 2 1 [1; 2; 3; 4]%float])
                     [CVertex.mk 0 [-1; 0]%float; CVertex.mk 1 [1; 0]%float]
                     eq_refl _) _).
    + simpl. lia.
    + intros m Hm. apply list_elem_of_In in Hm. simpl in Hm.
      destruct Hm as [<-|[]]. right. simpl. lia.
  - refine (proj2 (BC_Send_Receive_unmatched 0%float sample_geometry
                     (sample_config (-2) EULER_IMPLICIT SST false) 0 (sample_solver 2)
                     (MPI.mk [] [MPI.mkMessage 2 0 [1; 2; 3; 4; 5]%float])
                     [CVertex.mk 0 [-1; 0]%float; CVertex.mk 1 [1; 0]%float]
                     eq_refl _) [1; 2; 3; 4; 5]%float [] eq_refl _).
    + simpl. lia.
    + simpl. lia.
Defined.

(** ** The wall condition is local, and applying it twice changes nothing *)

Lemma BC_NS_Wall_vertex_Ok (v : CVertex.t) (s : CTurbSolution) (nd : CVariable.t) :
  node s !! CVertex.Node v = Some nd ->
  nVar s <= length (Solution s) ->
  BC_NS_Wall_vertex v s
  = Ok (with_Jacobian (CSparseMatrix.DeleteValsRowi (CVertex.Node v) (Jacobian s))
          (with_node (<[CVertex.Node v :=
                          wall_node (vec_zero (nVar s) ++ drop (nVar s) (Solution s)) nd]>
                        (node s))
             (with_Solution (vec_zero (nVar s) ++ drop (nVar s) (Solution s)) s))).
Proof.
  intros Hnd HS. unfold BC_NS_Wall_vertex. rewrite zero_Solution_loop by lia. bsimpl.
  unfold get_node. solver_simpl. rewrite (at_Some _ _ _ _ Hnd). bsimpl. solver_simpl.
  rewrite (at_Some "node" _ _
             (CVariable.SetSolution_Old (vec_zero (nVar s) ++ drop (nVar s) (Solution s)) nd))
    by (apply list_lookup_insert_eq; by eapply lookup_lt_Some).
  bsimpl. unfold set_node. solver_simpl. rewrite list_insert_insert_eq. done.
Qed.

(** The solver when BC_NS_Wall has gone through the vertices [vs]. *)
Definition wall_done (s : CTurbSolution) (vs : list CVertex.t) (s' : CTurbSolution) : Prop :=
  let zeros := vec_zero (nVar s) ++ drop (nVar s) (Solution s) in
  s' = with_Jacobian (Jacobian s') (with_node (node s') (with_Solution (Solution s') s)) /\
  Solution s' = (if decide (vs = []) then Solution s else zeros) /\
  rows_deleted (Jacobian s) (Jacobian s') (points vs) /\
  length (node s') = length (node s) /\
  forall p, node s' !! p
            = if decide (p ∈ points vs) then wall_node zeros <$> node s !! p else node s !! p.

Lemma zeros_again (n : nat) (l : list float) :
  n <= length l ->
  vec_zero n ++ drop n (vec_zero n ++ drop n l) = vec_zero n ++ drop n l.
Proof.
  intros Hn. f_equal. rewrite drop_app_length'; [done |]. symmetry; apply length_vec_zero.
Qed.

Lemma wall_node_again (zeros : list float) (nd : CVariable.t) :
  wall_node zeros (wall_node zeros nd) = wall_node zeros nd.
Proof. unfold wall_node. node_simpl. by rewrite length_vec_zero. Qed.

Lemma BC_NS_Wall_done (vs : list CVertex.t) (s : CTurbSolution) :
  (forall v, v ∈ vs -> CVertex.Node v < length (node s)) ->
  nVar s <= length (Solution s) ->
  exists s', foldM BC_NS_Wall_vertex vs s = Ok s' /\ wall_done s vs s'.
Proof.
  intros Hnodes HS.
  destruct (foldM_inv (fun pre s' => wall_done s pre s') BC_NS_Wall_vertex vs s)
    as (s' & E & H); [| | by exists s'].
  - split; [by destruct s |]. split; [done |]. split; [apply rows_deleted_nil |].
    split; [done |]. intros p. rewrite decide_False; [done |]. by apply not_elem_of_nil.
  - intros pre v post s1 El (Hs1 & HSol1 & HJ1 & Hlen1 & Hnode1).
    assert (Hv : v ∈ vs) by (rewrite El, elem_of_app, elem_of_cons; auto).
    specialize (Hnodes v Hv).
    assert (HnV1 : nVar s1 = nVar s) by (by rewrite Hs1).
    assert (HZ : vec_zero (nVar s1) ++ drop (nVar s1) (Solution s1)
                 = vec_zero (nVar s) ++ drop (nVar s) (Solution s)).
    { rewrite HnV1, HSol1. destruct (decide (pre = [])); [done |]. by apply zeros_again. }
    destruct (lookup_lt_is_Some_2 (node s1) (CVertex.Node v)) as [nd1 Hnd1]; [lia |].
    rewrite (BC_NS_Wall_vertex_Ok v s1 nd1 Hnd1).
    2:{ rewrite HnV1, HSol1. destruct (decide (pre = [])); [done |].
        rewrite length_app, length_vec_zero, length_drop. lia. }
    rewrite HZ. eexists. split; [reflexivity |].
    unfold wall_done. solver_simpl.
    split; [by rewrite Hs1 |].
    split; [rewrite decide_False; [done |]; by destruct pre |].
    split; [unfold points; rewrite fmap_app; by apply rows_deleted_snoc |].
    split; [by rewrite length_insert |].
    intros p. unfold points. rewrite fmap_app. fold (points pre). simpl.
    destruct (decide (p = CVertex.Node v)) as [->|Hne].
    + rewrite list_lookup_insert_eq by lia.
      rewrite decide_True by (rewrite elem_of_app, list_elem_of_singleton; auto).
      rewrite Hnode1 in Hnd1. destruct (decide (CVertex.Node v ∈ points pre)).
      * destruct (node s !! CVertex.Node v) as [nd|]; [| done]. simpl in Hnd1 |- *.
        injection Hnd1 as <-. by rewrite wall_node_again.
      * by rewrite Hnd1.
    + rewrite list_lookup_insert_ne by done. rewrite Hnode1.
      destruct (decide (p ∈ points pre)) as [Hin|Hin].
      * by rewrite decide_True by (rewrite elem_of_app; auto).
      * rewrite decide_False; [done |].
        rewrite elem_of_app, list_elem_of_singleton. tauto.
Qed.

(** X8. BC_NS_Wall on a marker whose vertex points are points of the solver, with
    a scratch array Solution of at least nVar doubles, is local: the call
    returns a solver that differs from the one at the call in its nodes,
    its Jacobian and the scratch array only; the points that are not on the
    marker keep their node, a point on the marker keeps everything but its
    old solution and its residual; and every block whose row is not a point
    of the marker is unchanged, the sparsity pattern being the same. *)
Theorem BC_NS_Wall_local (geometry : CGeometry.t) (solution_container : CFlowSolution)
    (config : CConfig.t) (val_marker : nat) (s : CTurbSolution) (vs : list CVertex.t) :
  CGeometry.vertex geometry !! val_marker = Some vs ->
  (forall v, v ∈ vs -> CVertex.Node v < length (node s)) ->
  nVar s <= length (Solution s) ->
  exists s', BC_NS_Wall geometry solution_container config val_marker s = Ok s' /\
    s' = with_Jacobian (Jacobian s') (with_node (node s') (with_Solution (Solution s') s)) /\
    (forall p, p ∉ points vs -> node s' !! p = node s !! p) /\
    (forall p nd nd', node s !! p = Some nd -> node s' !! p = Some nd' ->
       nd' = CVariable.with_Residual (CVariable.Residual nd')
               (CVariable.with_Solution_Old (CVariable.Solution_Old nd') nd)) /\
    (forall r c, r ∉ points vs -> Jacobian s' !! (r, c) = Jacobian s !! (r, c)) /\
    dom (Jacobian s') = dom (Jacobian s).
Proof.
  intros Hvs Hnodes HS. unfold BC_NS_Wall, marker_vertices.
  rewrite (at_Some _ _ _ _ Hvs). bsimpl. rewrite for_at_foldM.
  destruct (BC_NS_Wall_done vs s Hnodes HS) as (s' & -> & Hs' & HSol & HJ & Hlen & Hnode).
  exists s'. split; [done |]. split; [done |]. split; [| split; [| split]].
  - intros p Hp. by rewrite Hnode, decide_False.
  - intros p nd nd' Hnd Hnd'. rewrite Hnode, Hnd in Hnd'.
    destruct (decide (p ∈ points vs)); simpl in Hnd'; injection Hnd' as <-.
    + done.
    + by destruct nd.
  - intros r c Hr. rewrite HJ. simpl. by rewrite decide_False.
  - apply set_eq. intros rc. rewrite !elem_of_dom, HJ.
    destruct (decide (rc.1 ∈ points vs)); [| done]. by rewrite fmap_is_Some.
Qed.

Lemma BC_NS_Wall_local_witness :
  exists s', BC_NS_Wall sample_geometry sample_flow (sample_config 0 EULER_IMPLICIT SA false) 0
               (sample_solver 1) = Ok s' /\
    s' = with_Jacobian (Jacobian s')
           (with_node (node s') (with_Solution (Solution s') (sample_solver 1))) /\
    (forall p, p ∉ points [CVertex.mk 0 [-1; 0]%float; CVertex.mk 1 [1; 0]%float] ->
       node s' !! p = node (sample_solver 1) !! p) /\
    (forall p nd nd', node (sample_solver 1) !! p = Some nd -> node s' !! p = Some nd' ->
       nd' = CVariable.with_Residual (CVariable.Residual nd')
               (CVariable.with_Solution_Old (CVariable.Solution_Old nd') nd)) /\
    (forall r c, r ∉ points [CVertex.mk 0 [-1; 0]%float; CVertex.mk 1 [1; 0]%float] ->
       Jacobian s' !! (r, c) = Jacobian (sample_solver 1) !! (r, c)) /\
    dom (Jacobian s') = dom (Jacobian (sample_solver 1)).
Proof.
  apply (BC_NS_Wall_local sample_geometry sample_flow (sample_config 0 EULER_IMPLICIT SA false)
           0 (sample_solver 1) [CVertex.mk 0 [-1; 0]%float; CVertex.mk 1 [1; 0]%float]).
  - reflexivity.
  - intros v Hv. apply list_elem_of_In in Hv. simpl in Hv.
    destruct Hv as [<-|[<-|[]]]; simpl; lia.
  - simpl. lia.
Defined.

(** X9. BC_NS_Wall is idempotent: on a marker whose vertex points are points of
    the solver, with a scratch array Solution of at least nVar doubles, the
    call returns, and a second call on the solver it returns gives that
    solver back, unchanged. *)
Theorem BC_NS_Wall_idempotent (geometry : CGeometry.t) (solution_container : CFlowSolution)
    (config : CConfig.t) (val_marker : nat) (s : CTurbSolution) (vs : list CVertex.t) :
  CGeometry.vertex geometry !! val_marker = Some vs ->
  (forall v, v ∈ vs -> CVertex.Node v < length (node s)) ->
  nVar s <= length (Solution s) ->
  exists s', BC_NS_Wall geometry solution_container config val_marker s = Ok s' /\
    BC_NS_Wall geometry solution_container config val_marker s' = Ok s'.
Proof.
  intros Hvs Hnodes HS. unfold BC_NS_Wall, marker_vertices.
  rewrite (at_Some _ _ _ _ Hvs). bsimpl. rewrite !for_at_foldM.
  destruct (BC_NS_Wall_done vs s Hnodes HS) as (s' & -> & Hs' & HSol & HJ & Hlen & Hnode).
  exists s'. split; [done |]. rewrite for_at_foldM.
  assert (HnV : nVar s' = nVar s) by (by rewrite Hs').
  assert (HS' : nVar s' <= length (Solution s')).
  { rewrite HnV, HSol. destruct (decide (vs = [])); [done |].
    rewrite length_app, length_vec_zero, length_drop. lia. }
  destruct (BC_NS_Wall_done vs s') as (s2 & -> & Hs2 & HSol2 & HJ2 & Hlen2 & Hnode2);
    [intros v Hv; rewrite Hlen; by apply Hnodes | done |].
  f_equal. rewrite Hs2.
  assert (EZ : vs <> [] ->
               vec_zero (nVar s') ++ drop (nVar s') (Solution s')
               = vec_zero (nVar s) ++ drop (nVar s) (Solution s)).
  { intros Hne. rewrite HnV, HSol, decide_False by done. by apply zeros_again. }
  assert (ESol : Solution s2 = Solution s').
  { rewrite HSol2. destruct (decide (vs = [])) as [|Hne]; [done |].
    rewrite EZ by done. rewrite HSol. by destruct (decide (vs = [])). }
  assert (Enode : node s2 = node s').
  { apply list_eq. intros p. rewrite Hnode2. destruct (decide (p ∈ points vs)) as [Hin|]; [| done].
    assert (Hne : vs <> []) by (intros ->; by apply elem_of_nil in Hin).
    rewrite EZ by done. rewrite Hnode, decide_True by done.
    destruct (node s !! p); [| done]. simpl. by rewrite wall_node_again. }
  assert (EJ : Jacobian s2 = Jacobian s').
  { apply map_eq. intros rc. rewrite HJ2. destruct (decide (rc.1 ∈ points vs)); [| done].
    rewrite HJ, decide_True by done. destruct (Jacobian s !! rc); [| done]. simpl.
    by rewrite deleted_block_idem. }
  rewrite ESol, Enode, EJ. by destruct s'.
Qed.

Lemma BC_NS_Wall_idempotent_witness :
  exists s', BC_NS_Wall sample_geometry sample_flow (sample_config 0 EULER_IMPLICIT SST false) 0
               (sample_solver 2) = Ok s' /\
    BC_NS_Wall sample_geometry sample_flow (sample_config 0 EULER_IMPLICIT SST false) 0 s'
    = Ok s'.
Proof.
  apply (BC_NS_Wall_idempotent sample_geometry sample_flow
           (sample_config 0 EULER_IMPLICIT SST false) 0 (sample_solver 2)
           [CVertex.mk 0 [-1; 0]%float; CVertex.mk 1 [1; 0]%float]).
  - reflexivity.
  - intros v Hv. apply list_elem_of_In in Hv. simpl in Hv.
    destruct Hv as [<-|[<-|[]]]; simpl; lia.
  - simpl. lia.
Defined.

(** ** The implicit step: the linear system and the update *)

Lemma lookup_AddVal2Diag (i : nat) (v : float) (m : gmap (nat * nat) Block) (rc : nat * nat) :
  CSparseMatrix.AddVal2Diag i v m !! rc
  = if decide (rc = (i, i)) then block_add_diag v <$> m !! rc else m !! rc.
Proof.
  unfold CSparseMatrix.AddVal2Diag. case_decide as E.
  - subst. by rewrite lookup_alter_eq.
  - by rewrite lookup_alter_ne.
Qed.

(** The solver while the implicit system is built: [kJ] diagonal blocks have
    been shifted, and the entries of the points before [k], and of the
    components before [j] of the point [k], have been written. *)
Definition build_inv (geometry : CGeometry.t) (flow : CFlowSolution) (s : CTurbSolution)
    (kJ k j : nat) (s2 : CTurbSolution) : Prop :=
  s2 = with_Residual_Max (Residual_Max s2)
         (with_xsol (xsol s2) (with_rhs (rhs s2) (with_Jacobian (Jacobian s2) s))) /\
  length (Residual_Max s2) = length (Residual_Max s) /\
  length (rhs s2) = length (rhs s) /\ length (xsol s2) = length (xsol s) /\
  (forall i iVar, iVar < nVar s -> i < k \/ (i = k /\ iVar < j) ->
     rhs s2 !! (i * nVar s + iVar) = Some (- residual_component s i iVar)%float /\
     xsol s2 !! (i * nVar s + iVar) = Some 0%float) /\
  (forall q, k * nVar s + j <= q -> rhs s2 !! q = rhs s !! q /\ xsol s2 !! q = xsol s !! q) /\
  (forall i, i < kJ ->
     Jacobian s2 !! (i, i)
     = block_add_diag (diagonal_shift geometry flow i) <$> Jacobian s !! (i, i)) /\
  (forall r c, r <> c \/ kJ <= r -> Jacobian s2 !! (r, c) = Jacobian s !! (r, c)).

Lemma reset_monitor_only (s : CTurbSolution) :
  nVar s <= length (Residual_Max s) ->
  exists s1, for_ (nVar s) (fun iVar s => SetRes_Max iVar 0%float s) s = Ok s1 /\
    s1 = with_Residual_Max (Residual_Max s1) s /\
    length (Residual_Max s1) = length (Residual_Max s).
Proof.
  intros HRM.
  match goal with |- exists s1, for_ ?n ?b s = Ok s1 /\ _ =>
    destruct (for_inv (fun _ s1 => s1 = with_Residual_Max (Residual_Max s1) s /\
                         length (Residual_Max s1) = length (Residual_Max s)) n b s)
      as (s1 & E & H); [| | by exists s1] end.
  - split; [by destruct s | done].
  - intros k s1 Hk (Hs1 & Hl1). unfold SetRes_Max. rewrite store_lt by lia. bsimpl.
    eexists. split; [done |]. solver_simpl. split; [| by rewrite length_insert].
    rewrite Hs1. reflexivity.
Qed.

Lemma build_inv_point (geometry : CGeometry.t) (flow : CFlowSolution) (s s2 : CTurbSolution)
    (k : nat) (nd : CVariable.t) (Vol : float) :
  node s !! k = Some nd ->
  nVar s <= length (CVariable.Residual nd) ->
  nVar s <= length (Residual_Max s) ->
  k * nVar s + nVar s <= length (rhs s) ->
  k * nVar s + nVar s <= length (xsol s) ->
  build_inv geometry flow s (S k) k 0 s2 ->
  exists s3,
    for_ (nVar s2) (ImplicitEuler_build k (CVariable.Residual nd) Vol) s2 = Ok s3 /\
    build_inv geometry flow s (S k) k (nVar s) s3.
Proof.
  intros Hnd Hres HRM Hrhs Hxsol Hinv.
  assert (HnV2 : nVar s2 = nVar s) by (destruct Hinv as (-> & _); reflexivity).
  rewrite HnV2.
  destruct (for_inv (fun j s3 => build_inv geometry flow s (S k) k j s3) (nVar s)
              (ImplicitEuler_build k (CVariable.Residual nd) Vol) s2)
    as (s3 & E & H); [done | | by exists s3].
  intros j s3 Hj (Hs3 & HlRM & Hlr & Hlx & Hfilled & Hrest & HJd & HJo).
  assert (HnV3 : nVar s3 = nVar s) by (rewrite Hs3; reflexivity).
  unfold ImplicitEuler_build. rewrite HnV3.
  destruct (at_lt "local_Residual" (CVariable.Residual nd) j) as (r & Hr & ->); [lia |]. bsimpl.
  rewrite store_lt by lia. bsimpl. solver_simpl.
  rewrite store_lt by lia. bsimpl.
  unfold AddRes_Max, GetRes_Max. solver_simpl.
  destruct (at_lt "Residual_Max" (Residual_Max s3) j) as (m & _ & ->); [lia |]. bsimpl.
  unfold SetRes_Max. solver_simpl. rewrite store_lt by lia. bsimpl.
  eexists. split; [done |]. unfold build_inv. solver_simpl.
  rewrite !length_insert.
  assert (Hrc : residual_component s k j = r)
    by (unfold residual_component; rewrite Hnd; simpl; by rewrite Hr).
  split; [rewrite Hs3; reflexivity |]. do 3 (split; [done |]).
  split; [| split; [| split; [done | done]]].
  - intros i iVar HiV Hcase.
    destruct (decide (i = k /\ iVar = j)) as [[-> ->]|Hne].
    + rewrite !list_lookup_insert_eq by lia. by rewrite Hrc.
    + rewrite !list_lookup_insert_ne by nia. apply Hfilled; [done | lia].
  - intros q Hq. rewrite !list_lookup_insert_ne by lia. apply Hrest. lia.
Qed.

Lemma build_system_inv (geometry : CGeometry.t) (flow : CFlowSolution) (s s1 : CTurbSolution) :
  implicit_ready geometry flow s ->
  s1 = with_Residual_Max (Residual_Max s1) s ->
  length (Residual_Max s1) = length (Residual_Max s) ->
  exists s2,
    for_ (CGeometry.nPointDomain geometry) (fun iPoint s =>
      nd ← get_node s iPoint;
      let local_Residual := CVariable.Residual nd in
      gp ← at_ "geometry->node" (CGeometry.node geometry) iPoint;
      let Vol := CPoint.Volume gp in
      fnd ← at_ "solution_container[FLOW_SOL]->node" (flow_node flow) iPoint;
      let Delta_flow := (Vol / CVariable.Delta_Time fnd)%float in
      let Delta := Delta_flow in
      let s := with_Jacobian (CSparseMatrix.AddVal2Diag iPoint Delta (Jacobian s)) s in
      for_ (nVar s) (ImplicitEuler_build iPoint local_Residual Vol) s) s1 = Ok s2 /\
    build_inv geometry flow s (CGeometry.nPointDomain geometry)
      (CGeometry.nPointDomain geometry) 0 s2.
Proof.
  intros (HRM & Hn & Hg & Hf & Hrhs & Hxsol & Hres) Hs1 Hl1.
  match goal with |- exists s2, for_ ?n ?b s1 = Ok s2 /\ _ =>
    destruct (for_inv (fun k s2 => build_inv geometry flow s k k 0 s2) n b s1)
      as (s2 & E & H); [| | by exists s2] end.
  - split; [rewrite Hs1; reflexivity |]. split; [done |].
    split; [rewrite Hs1; reflexivity |]. split; [rewrite Hs1; reflexivity |].
    split; [intros i iVar _ Hc; lia |].
    split; [intros q _; rewrite Hs1; done |].
    split; [intros i Hi; lia |]. intros r c _. rewrite Hs1. done.
  - intros k s2 Hk Hinv.
    pose proof Hinv as (Hs2 & HlRM & Hlr & Hlx & Hfilled & Hrest & HJd & HJo).
    assert (Hnode2 : node s2 = node s) by (rewrite Hs2; reflexivity).
    unfold get_node. rewrite Hnode2.
    destruct (at_lt "node" (node s) k) as (nd & Hnd & ->); [lia |]. bsimpl.
    destruct (at_lt "geometry->node" (CGeometry.node geometry) k) as (gp & Hgp & ->); [lia |].
    bsimpl.
    destruct (at_lt "solution_container[FLOW_SOL]->node" (flow_node flow) k)
      as (fnd & Hfnd & ->); [lia |].
    bsimpl.
    match goal with |- context [for_ _ _ ?s0] =>
      destruct (build_inv_point geometry flow s s0 k nd (CPoint.Volume gp) Hnd)
        as (s3 & E3 & Hinv3) end.
    + by apply (Hres k).
    + done.
    + nia.
    + nia.
    + unfold build_inv. solver_simpl.
      split; [rewrite Hs2; reflexivity |]. do 3 (split; [done |]).
      split; [intros i iVar HiV Hc; apply Hfilled; [done | lia] |].
      split; [done |]. split.
      * intros i Hi. rewrite lookup_AddVal2Diag. case_decide as Heq.
        -- injection Heq as ->. rewrite HJo by (right; lia).
           unfold diagonal_shift. by rewrite Hgp, Hfnd.
        -- apply HJd. assert (i <> k) by congruence. lia.
      * intros r c Hrc. rewrite lookup_AddVal2Diag. case_decide as Heq.
        -- injection Heq as -> ->. lia.
        -- apply HJo. lia.
    + exists s3. split; [exact E3 |].
      destruct Hinv3 as (Hs3 & HlRM3 & Hlr3 & Hlx3 & Hfilled3 & Hrest3 & HJd3 & HJo3).
      split; [done |]. do 3 (split; [done |]).
      split; [| split; [| split; [done | done]]].
      * intros i iVar HiV Hc. apply Hfilled3; [done |].
        destruct (decide (i = k)); [right; lia | left; lia].
      * intros q Hq. apply Hrest3. lia.
Qed.

Lemma update_point AddSolution (s3 s1 : CTurbSolution) (i : nat) (nd : CVariable.t) :
  s1 = with_node (node s1) s3 -> node s1 !! i = Some nd ->
  i * nVar s3 + nVar s3 <= length (xsol s3) ->
  for_ (nVar s1) (fun iVar s =>
    x ← at_ "xsol" (xsol s) (i * nVar s + iVar);
    nd ← get_node s i;
    Ok (set_node i (AddSolution iVar x nd) s)) s1
  = Ok (set_node i (updated_node AddSolution (nVar s3) (xsol s3) i nd) s1).
Proof.
  intros Hs1 Hnd Hx.
  assert (HnV : nVar s1 = nVar s3) by (rewrite Hs1; reflexivity).
  assert (Hxs : xsol s1 = xsol s3) by (rewrite Hs1; reflexivity).
  assert (Hi : i < length (node s1)) by (by eapply lookup_lt_Some).
  rewrite HnV.
  match goal with |- for_ ?n ?b s1 = _ =>
    destruct (for_inv (fun j s' =>
        s' = set_node i (foldl (fun nd iVar =>
                                  AddSolution iVar (xsol s3 !!! (i * nVar s3 + iVar)) nd)
                           nd (seq 0 j)) s1) n b s1) as (s' & -> & ->); [| | done] end.
  - unfold set_node. simpl. rewrite list_insert_id by done. by destruct s1.
  - intros j s' Hj ->. solver_simpl. rewrite Hxs, HnV.
    rewrite (at_Some _ _ _ (xsol s3 !!! (i * nVar s3 + j)))
      by (apply list_lookup_lookup_total_lt; lia).
    bsimpl. unfold get_node. solver_simpl.
    match goal with |- context [<[i:=?y]> (node s1)] =>
      rewrite (at_Some "node" _ i y) by (by apply list_lookup_insert_eq) end.
    bsimpl. eexists. split; [done |]. unfold set_node. solver_simpl.
    rewrite list_insert_insert_eq. by rewrite seq_S, foldl_app.
Qed.

Lemma sqrt_monitor_only (s4 : CTurbSolution) :
  nVar s4 <= length (Residual_Max s4) ->
  exists s5,
    for_ (nVar s4) (fun iVar s => r ← GetRes_Max iVar s; SetRes_Max iVar (PrimFloat.sqrt r) s) s4
    = Ok s5 /\
    s5 = with_Residual_Max (Residual_Max s5) s4.
Proof.
  intros HRM.
  match goal with |- exists s5, for_ ?n ?b s4 = Ok s5 /\ _ =>
    destruct (for_inv (fun _ s5 => s5 = with_Residual_Max (Residual_Max s5) s4 /\
                         length (Residual_Max s5) = length (Residual_Max s4)) n b s4)
      as (s5 & E & H & _); [| | by exists s5] end.
  - split; [by destruct s4 | done].
  - intros k s5 Hk (Hs5 & Hl5). unfold GetRes_Max.
    destruct (at_lt "Residual_Max" (Residual_Max s5) k) as (r & _ & ->); [lia |]. bsimpl.
    unfold SetRes_Max. rewrite store_lt by lia. bsimpl.
    eexists. split; [done |]. solver_simpl. split; [| by rewrite length_insert].
    rewrite Hs5. reflexivity.
Qed.

(** The whole implicit step: the system as it is built, and the solver that
    is returned. *)
Lemma ImplicitEuler_Iteration_state LU_SGSIteration AddSolution
    (geometry : CGeometry.t) (flow : CFlowSolution) (config : CConfig.t) (s : CTurbSolution) :
  implicit_ready geometry flow s ->
  (forall J r x, length (LU_SGSIteration J r x) = length x) ->
  exists s2 s',
    ImplicitEuler_Iteration LU_SGSIteration AddSolution geometry flow config s = Ok s' /\
    build_inv geometry flow s (CGeometry.nPointDomain geometry)
      (CGeometry.nPointDomain geometry) 0 s2 /\
    s' = with_Residual_Max (Residual_Max s')
           (with_node (node s')
              (with_xsol (LU_SGSIteration (Jacobian s2) (rhs s2) (xsol s2)) s2)) /\
    forall i, node s' !! i
              = if decide (i < CGeometry.nPointDomain geometry)
                then updated_node AddSolution (nVar s) (xsol s') i <$> node s !! i
                else node s !! i.
Proof.
  intros Hready HLU. pose proof Hready as (HRM & Hn & Hg & Hf & Hrhs & Hxsol & Hres).
  unfold ImplicitEuler_Iteration.
  destruct (reset_monitor_only s HRM) as (s1 & E1 & Hs1 & Hl1). rewrite E1. bsimpl.
  destruct (build_system_inv geometry flow s s1 Hready Hs1 Hl1) as (s2 & E2 & Hinv).
  rewrite_loop E2. bsimpl.
  pose proof Hinv as (Hs2 & HlRM & Hlr & Hlx & _).
  set (s3 := with_xsol (LU_SGSIteration (Jacobian s2) (rhs s2) (xsol s2)) s2).
  assert (HnV3 : nVar s3 = nVar s) by (subst s3; rewrite Hs2; reflexivity).
  assert (Hnode3 : node s3 = node s) by (subst s3; rewrite Hs2; reflexivity).
  assert (Hx3 : length (xsol s3) = length (xsol s)) by (subst s3; simpl; by rewrite HLU).
  match goal with |- context [for_ ?n ?b s3] =>
    destruct (node_map_loop n b (updated_node AddSolution (nVar s3) (xsol s3)) s3)
      as (s4 & E4 & Hs4 & Hlen4 & Hnodes4) end.
  { rewrite Hnode3. lia. }
  { intros i s' nd Hi Hs' Hnd. apply (update_point AddSolution s3 s' i nd Hs' Hnd).
    rewrite HnV3, Hx3. nia. }
  rewrite E4. bsimpl.
  destruct (sqrt_monitor_only s4) as (s5 & E5 & Hs5).
  { rewrite Hs4. solver_simpl. subst s3. solver_simpl.
    replace (nVar s2) with (nVar s) by (rewrite Hs2; reflexivity). lia. }
  rewrite E5. exists s2, s5. split; [done |]. split; [done |].
  assert (Hnode5 : node s5 = node s4) by (rewrite Hs5; reflexivity).
  assert (Hx5 : xsol s5 = xsol s3) by (rewrite Hs5, Hs4; reflexivity).
  split.
  - rewrite Hs5 at 1. rewrite Hnode5. solver_simpl. f_equal. exact Hs4.
  - intros i. rewrite Hnode5, Hnodes4, Hnode3, Hx5, HnV3. done.
Qed.

(** X10. The linear system of CTurbSolution::ImplicitEuler_Iteration. When the
    arrays have the sizes the constructors give them and the linear solver
    returns a vector as long as the one it is given, the call returns, and
    the solution vector it leaves is what LU_SGSIteration made of the
    Jacobian and the right-hand side it leaves and of an initial guess [x0],
    where: for every domain point and state component, the right-hand side
    holds at iPoint*nVar + iVar the opposite of the residual component the
    point had at the call and the initial guess holds 0.0; beyond the
    entries of the domain points both vectors are as they were; the
    diagonal block of every domain point has had Vol/Delta_Time added to the
    entries of its diagonal; and every other block of the Jacobian is
    unchanged. *)
Theorem ImplicitEuler_Iteration_system LU_SGSIteration AddSolution
    (geometry : CGeometry.t) (flow : CFlowSolution) (config : CConfig.t) (s : CTurbSolution) :
  implicit_ready geometry flow s ->
  (forall J r x, length (LU_SGSIteration J r x) = length x) ->
  exists s' x0,
    ImplicitEuler_Iteration LU_SGSIteration AddSolution geometry flow config s = Ok s' /\
    xsol s' = LU_SGSIteration (Jacobian s') (rhs s') x0 /\
    (forall iPoint iVar nd,
       iPoint < CGeometry.nPointDomain geometry -> iVar < nVar s ->
       node s !! iPoint = Some nd ->
       exists r, CVariable.Residual nd !! iVar = Some r /\
         rhs s' !! (iPoint * nVar s + iVar) = Some (- r)%float /\
         x0 !! (iPoint * nVar s + iVar) = Some 0%float) /\
    (forall q, CGeometry.nPointDomain geometry * nVar s <= q ->
       rhs s' !! q = rhs s !! q /\ x0 !! q = xsol s !! q) /\
    (forall iPoint, iPoint < CGeometry.nPointDomain geometry ->
       exists gp fnd,
         CGeometry.node geometry !! iPoint = Some gp /\ flow_node flow !! iPoint = Some fnd /\
         Jacobian s' !! (iPoint, iPoint)
         = block_add_diag (CPoint.Volume gp / CVariable.Delta_Time fnd)%float
             <$> Jacobian s !! (iPoint, iPoint)) /\
    (forall r c, r <> c \/ CGeometry.nPointDomain geometry <= r ->
       Jacobian s' !! (r, c) = Jacobian s !! (r, c)).
Proof.
  intros Hready HLU. pose proof Hready as (HRM & Hn & Hg & Hf & Hrhs & Hxsol & Hres).
  destruct (ImplicitEuler_Iteration_state LU_SGSIteration AddSolution geometry flow config s
              Hready HLU)
    as (s2 & s' & E & (Hs2 & HlRM & Hlr & Hlx & Hfilled & Hrest & HJd & HJo) & Hs' & Hnodes).
  assert (HJ' : Jacobian s' = Jacobian s2) by (rewrite Hs'; reflexivity).
  assert (Hr' : rhs s' = rhs s2) by (rewrite Hs'; reflexivity).
  assert (Hx' : xsol s' = LU_SGSIteration (Jacobian s2) (rhs s2) (xsol s2))
    by (rewrite Hs'; reflexivity).
  exists s', (xsol s2). split; [exact E |]. rewrite HJ', Hr'. split; [exact Hx' |].
  split; [| split; [| split]].
  - intros iPoint iVar nd Hi HiV Hnd.
    destruct (lookup_lt_is_Some_2 (CVariable.Residual nd) iVar) as [r Hr].
    { specialize (Hres iPoint nd Hi Hnd). lia. }
    exists r. split; [done |].
    destruct (Hfilled iPoint iVar HiV) as (-> & ->); [lia |].
    unfold residual_component. rewrite Hnd. simpl. by rewrite Hr.
  - intros q Hq. apply Hrest. lia.
  - intros iPoint Hi.
    destruct (lookup_lt_is_Some_2 (CGeometry.node geometry) iPoint) as [gp Hgp]; [lia |].
    destruct (lookup_lt_is_Some_2 (flow_node flow) iPoint) as [fnd Hfnd]; [lia |].
    exists gp, fnd. split; [done |]. split; [done |].
    rewrite HJd by done. unfold diagonal_shift. by rewrite Hgp, Hfnd.
  - exact HJo.
Qed.

Lemma ImplicitEuler_Iteration_system_witness :
  exists s' x0,
    ImplicitEuler_Iteration (fun _ _ x => x) (fun _ _ nd => nd) sample_geometry sample_flow
      (sample_config 0 EULER_IMPLICIT SST false) (sample_solver 2) = Ok s' /\
    xsol s' = (fun _ _ x => x) (Jacobian s') (rhs s') x0 /\
    (forall iPoint iVar nd,
       iPoint < CGeometry.nPointDomain sample_geometry -> iVar < nVar (sample_solver 2) ->
       node (sample_solver 2) !! iPoint = Some nd ->
       exists r, CVariable.Residual nd !! iVar = Some r /\
         rhs s' !! (iPoint * nVar (sample_solver 2) + iVar) = Some (- r)%float /\
         x0 !! (iPoint * nVar (sample_solver 2) + iVar) = Some 0%float) /\
    (forall q, CGeometry.nPointDomain sample_geometry * nVar (sample_solver 2) <= q ->
       rhs s' !! q = rhs (sample_solver 2) !! q /\ x0 !! q = xsol (sample_solver 2) !! q) /\
    (forall iPoint, iPoint < CGeometry.nPointDomain sample_geometry ->
       exists gp fnd,
         CGeometry.node sample_geometry !! iPoint = Some gp /\
         flow_node sample_flow !! iPoint = Some fnd /\
         Jacobian s' !! (iPoint, iPoint)
         = block_add_diag (CPoint.Volume gp / CVariable.Delta_Time fnd)%float
             <$> Jacobian (sample_solver 2) !! (iPoint, iPoint)) /\
    (forall r c, r <> c \/ CGeometry.nPointDomain sample_geometry <= r ->
       Jacobian s' !! (r, c) = Jacobian (sample_solver 2) !! (r, c)).
Proof.
  apply (ImplicitEuler_Iteration_system (fun _ _ x => x) (fun _ _ nd => nd) sample_geometry
           sample_flow (sample_config 0 EULER_IMPLICIT SST false) (sample_solver 2)).
  - exact (sample_implicit_ready 2).
  - reflexivity.
Defined.

(** X11. The update of CTurbSolution::ImplicitEuler_Iteration. When the arrays
    have the sizes the constructors give them and the linear solver returns
    a vector as long as the one it is given, the call returns a solver in
    which the node of every domain point is the node it had at the call
    after AddSolution(iVar, x) for the components iVar = 0, ..., nVar-1 in
    this order, x being the entry iPoint*nVar + iVar of the solution vector
    of the linear system; the points outside the domain, the halo points
    among them, keep the node they had. *)
Theorem ImplicitEuler_Iteration_update LU_SGSIteration AddSolution
    (geometry : CGeometry.t) (flow : CFlowSolution) (config : CConfig.t) (s : CTurbSolution) :
  implicit_ready geometry flow s ->
  (forall J r x, length (LU_SGSIteration J r x) = length x) ->
  exists s',
    ImplicitEuler_Iteration LU_SGSIteration AddSolution geometry flow config s = Ok s' /\
    (forall iPoint nd, iPoint < CGeometry.nPointDomain geometry ->
       node s !! iPoint = Some nd ->
       node s' !! iPoint = Some (updated_node AddSolution (nVar s) (xsol s') iPoint nd)) /\
    (forall iPoint, CGeometry.nPointDomain geometry <= iPoint ->
       node s' !! iPoint = node s !! iPoint).
Proof.
  intros Hready HLU.
  destruct (ImplicitEuler_Iteration_state LU_SGSIteration AddSolution geometry flow config s
              Hready HLU) as (s2 & s' & E & _ & _ & Hnodes).
  exists s'. split; [exact E |]. split.
  - intros iPoint nd Hi Hnd. by rewrite Hnodes, decide_True, Hnd.
  - intros iPoint Hi. by rewrite Hnodes, decide_False by lia.
Qed.

Lemma ImplicitEuler_Iteration_update_witness :
  exists s',
    ImplicitEuler_Iteration (fun _ _ x => (fun _ => 1%float) <$> x)
      (fun iVar x nd => CVariable.with_Solution (<[iVar:=x]> (CVariable.Solution nd)) nd)
      sample_geometry sample_flow (sample_config 0 EULER_IMPLICIT SA false) (sample_solver 1)
    = Ok s' /\
    (forall iPoint nd, iPoint < CGeometry.nPointDomain sample_geometry ->
       node (sample_solver 1) !! iPoint = Some nd ->
       node s' !! iPoint
       = Some (updated_node
                 (fun iVar x nd =>
                    CVariable.with_Solution (<[iVar:=x]> (CVariable.Solution nd)) nd)
                 (nVar (sample_solver 1)) (xsol s') iPoint nd)) /\
    (forall iPoint, CGeometry.nPointDomain sample_geometry <= iPoint ->
       node s' !! iPoint = node (sample_solver 1) !! iPoint).
Proof.
  apply (ImplicitEuler_Iteration_update (fun _ _ x => (fun _ => 1%float) <$> x)
           (fun iVar x nd => CVariable.with_Solution (<[iVar:=x]> (CVariable.Solution nd)) nd)
           sample_geometry sample_flow (sample_config 0 EULER_IMPLICIT SA false)
           (sample_solver 1)).
  - exact (sample_implicit_ready 1).
  - intros J r x. apply length_fmap.
Defined.

(** ** Construction, followed by a first step *)

Lemma for_S {S} (n : nat) (body : nat -> S -> result S) (s : S) :
  for_ (Datatypes.S n) body s = (s' ← body 0 s; foldM body (seq 1 n) s').
Proof. reflexivity. Qed.

Lemma new_CTurbVariable_Residual (sol : list float) (nDim nVar : nat) :
  CVariable.Residual (new_CTurbVariable sol nDim nVar) = vec_zero nVar.
Proof. reflexivity. Qed.

(** A solver as the allocations and the node loop of a constructor leave it,
    with [nVar] components, for the implicit scheme: it has what the
    implicit step reads and writes. *)
Lemma allocated_implicit_ready uninit InitializeJacobianStructure (geometry : CGeometry.t)
    (flow : CFlowSolution) (config : CConfig.t) (n : nat) (sol : list float)
    (nu kine omega : float) :
  CConfig.Kind_TimeIntScheme_Turb config = EULER_IMPLICIT ->
  CGeometry.nPointDomain geometry <= CGeometry.nPoint geometry ->
  CGeometry.nPointDomain geometry <= length (CGeometry.node geometry) ->
  CGeometry.nPointDomain geometry <= length (flow_node flow) ->
  implicit_ready geometry flow
    (with_node (replicate (CGeometry.nPoint geometry)
                  (new_CTurbVariable sol (CGeometry.nDim geometry) n))
       (with_freestream nu kine omega
          (allocate uninit InitializeJacobianStructure geometry config n))).
Proof.
  intros Himp Hdom Hg Hf. unfold implicit_ready, allocate. solver_simpl.
  cbn [nVar node Residual_Max rhs xsol with_freestream].
  rewrite Himp. rewrite bool_decide_eq_true_2 by done.
  unfold new_array. rewrite !length_replicate.
  split; [done |]. split; [done |]. split; [done |]. split; [done |].
  split; [nia |]. split; [nia |].
  intros iPoint nd Hi Hnd. apply lookup_replicate in Hnd as [-> _].
  rewrite new_CTurbVariable_Residual, length_vec_zero. done.
Qed.

(** X12. Construction for the implicit scheme, then the implicit step. A solver
    that CTurbSASolution (for the models SA and SA_COMP) or CTurbSSTSolution
    constructs without restart, when the time integration of the turbulence
    equations is EULER_IMPLICIT, has arrays of the sizes the implicit step
    needs, on every geometry whose nPointDomain domain points are among its
    nPoint points and exist in the geometry and in the flow solver: a first
    ImplicitEuler_Iteration on it returns, provided the linear solver
    returns a vector as long as the one it is given. *)
Theorem constructed_implicit_step uninit cos sin pow PI_NUMBER InitializeJacobianStructure
    get_unsigned_long get_double LU_SGSIteration AddSolution (env : environment) (geometry : CGeometry.t)
    (flow : CFlowSolution) (config : CConfig.t) :
  CConfig.Restart config || CConfig.Restart_Flow config = false ->
  CConfig.Kind_TimeIntScheme_Turb config = EULER_IMPLICIT ->
  CGeometry.nPointDomain geometry <= CGeometry.nPoint geometry ->
  CGeometry.nPointDomain geometry <= length (CGeometry.node geometry) ->
  CGeometry.nPointDomain geometry <= length (flow_node flow) ->
  (forall J r x, length (LU_SGSIteration J r x) = length x) ->
  (CConfig.Kind_Turb_Model config = SA \/ CConfig.Kind_Turb_Model config = SA_COMP ->
   exists s s',
     CTurbSASolution uninit InitializeJacobianStructure get_unsigned_long get_double
       env geometry config = Constructed s /\
     implicit_ready geometry flow s /\
     ImplicitEuler_Iteration LU_SGSIteration AddSolution geometry flow config s = Ok s')
  /\ (exists s s',
        CTurbSSTSolution uninit cos sin pow PI_NUMBER InitializeJacobianStructure
          get_unsigned_long get_double env geometry config = Constructed s /\
        implicit_ready geometry flow s /\
        ImplicitEuler_Iteration LU_SGSIteration AddSolution geometry flow config s = Ok s').
Proof.
  intros Hrestart Himp Hdom Hg Hf HLU. split.
  - intros Hmodel. unfold CTurbSASolution. rewrite Hrestart. cbn [negb].
    match goal with |- exists s s', Constructed ?S = _ /\ _ =>
      assert (Hready : implicit_ready geometry flow S) end.
    { destruct Hmodel as [Hm|Hm]; rewrite Hm.
      - destruct (decide (SA = SA)); [| done]. destruct (decide (SA = SA_COMP)); [done |].
        by apply allocated_implicit_ready.
      - destruct (decide (SA_COMP = SA)); [done |].
        destruct (decide (SA_COMP = SA_COMP)); [| done].
        by apply allocated_implicit_ready. }
    destruct (ImplicitEuler_Iteration_state LU_SGSIteration AddSolution geometry flow config
                _ Hready HLU) as (s2 & s' & E & _).
    eexists. exists s'. split; [reflexivity |]. split; [exact Hready | exact E].
  - unfold CTurbSSTSolution. rewrite Hrestart. cbn [negb].
    match goal with |- exists s s', Constructed ?S = _ /\ _ =>
      assert (Hready : implicit_ready geometry flow S)
        by (by apply allocated_implicit_ready) end.
    destruct (ImplicitEuler_Iteration_state LU_SGSIteration AddSolution geometry flow config
                _ Hready HLU) as (s2 & s' & E & _).
    eexists. exists s'. split; [reflexivity |]. split; [exact Hready | exact E].
Qed.

Lemma constructed_implicit_step_witness :
  (CConfig.Kind_Turb_Model (sample_config 0 EULER_IMPLICIT SA false) = SA
   \/ CConfig.Kind_Turb_Model (sample_config 0 EULER_IMPLICIT SA false) = SA_COMP ->
   exists s s',
     CTurbSASolution 0%float (fun _ _ _ => ∅) sample_get_unsigned_long sample_get_double
       (sample_environment false) sample_geometry
       (sample_config 0 EULER_IMPLICIT SA false) = Constructed s /\
     implicit_ready sample_geometry sample_flow s /\
     ImplicitEuler_Iteration (fun _ _ x => x) (fun _ _ nd => nd) sample_geometry sample_flow
       (sample_config 0 EULER_IMPLICIT SA false) s = Ok s')
  /\ (exists s s',
        CTurbSSTSolution 0%float (fun x => x) (fun x => x) (fun x _ => x) 3%float
          (fun _ _ _ => ∅) sample_get_unsigned_long sample_get_double
       (sample_environment false) sample_geometry
          (sample_config 0 EULER_IMPLICIT SA false) = Constructed s /\
        implicit_ready sample_geometry sample_flow s /\
        ImplicitEuler_Iteration (fun _ _ x => x) (fun _ _ nd => nd) sample_geometry sample_flow
          (sample_config 0 EULER_IMPLICIT SA false) s = Ok s').
Proof.
  apply (constructed_implicit_step 0%float (fun x => x) (fun x => x) (fun x _ => x) 3%float
           (fun _ _ _ => ∅) sample_get_unsigned_long sample_get_double
           (fun _ _ x => x) (fun _ _ nd => nd) (sample_environment false)
           sample_geometry sample_flow (sample_config 0 EULER_IMPLICIT SA false)).
  - reflexivity.
  - reflexivity.
  - simpl. lia.
  - simpl. lia.
  - simpl. lia.
  - reflexivity.
Defined.

Lemma ImplicitEuler_build_without_rhs (iPoint : nat) (local_Residual : list float)
    (Vol : float) (iVar : nat) (s : CTurbSolution) :
  iVar < length local_Residual -> rhs s = [] ->
  ImplicitEuler_build iPoint local_Residual Vol iVar s
  = Fault (OutOfBounds "rhs" (iPoint * nVar s + iVar) 0).
Proof.
  intros Hi Hrhs. unfold ImplicitEuler_build.
  destruct (at_lt "local_Residual" local_Residual iVar) as (r & _ & ->); [lia |].
  bsimpl. rewrite Hrhs. reflexivity.
Qed.

Lemma ImplicitEuler_Iteration_without_rhs LU_SGSIteration AddSolution
    (geometry : CGeometry.t) (flow : CFlowSolution) (config : CConfig.t) (s : CTurbSolution)
    (nd : CVariable.t) :
  nVar s <= length (Residual_Max s) -> 0 < nVar s ->
  0 < CGeometry.nPointDomain geometry ->
  node s !! 0 = Some nd -> 0 < length (CVariable.Residual nd) ->
  0 < length (CGeometry.node geometry) -> 0 < length (flow_node flow) ->
  rhs s = [] ->
  ImplicitEuler_Iteration LU_SGSIteration AddSolution geometry flow config s
  = Fault (OutOfBounds "rhs" 0 0).
Proof.
  intros HRM HnV HnPD Hnd Hres Hg Hf Hrhs. unfold ImplicitEuler_Iteration.
  destruct (reset_monitor_only s HRM) as (s1 & E1 & Hs1 & Hl1). rewrite E1. bsimpl.
  destruct (CGeometry.nPointDomain geometry) as [|nPD]; [lia |].
  rewrite for_S.
  assert (Hnode1 : node s1 = node s) by (rewrite Hs1; reflexivity).
  assert (HnV1 : nVar s1 = nVar s) by (rewrite Hs1; reflexivity).
  assert (Hrhs1 : rhs s1 = []) by (rewrite Hs1; exact Hrhs).
  unfold get_node. rewrite Hnode1, (at_Some _ _ _ _ Hnd). bsimpl.
  destruct (at_lt "geometry->node" (CGeometry.node geometry) 0) as (gp & _ & ->); [lia |].
  bsimpl.
  destruct (at_lt "solution_container[FLOW_SOL]->node" (flow_node flow) 0)
    as (fnd & _ & ->); [lia |].
  bsimpl. solver_simpl. rewrite HnV1.
  destruct (nVar s) as [|n]; [lia |]. rewrite for_S.
  rewrite ImplicitEuler_build_without_rhs by (solver_simpl; done || lia).
  reflexivity.
Qed.

(** X13. Construction for an explicit scheme, then the implicit step. The
    constructors allocate the vectors of the linear system only when the
    time integration is EULER_IMPLICIT. On a solver that CTurbSASolution
    (for the models SA and SA_COMP) or CTurbSSTSolution constructs without
    restart for another scheme, with at least one domain point that exists
    in the geometry and in the flow solver, ImplicitEuler_Iteration runs out
    of bounds at its first write, to rhs[0]. *)
Theorem constructed_explicit_step_fault uninit cos sin pow PI_NUMBER
    InitializeJacobianStructure get_unsigned_long get_double LU_SGSIteration AddSolution (env : environment)
    (geometry : CGeometry.t) (flow : CFlowSolution) (config : CConfig.t) :
  CConfig.Restart config || CConfig.Restart_Flow config = false ->
  CConfig.Kind_TimeIntScheme_Turb config <> EULER_IMPLICIT ->
  0 < CGeometry.nPointDomain geometry ->
  0 < CGeometry.nPoint geometry ->
  0 < length (CGeometry.node geometry) ->
  0 < length (flow_node flow) ->
  (CConfig.Kind_Turb_Model config = SA \/ CConfig.Kind_Turb_Model config = SA_COMP ->
   exists s,
     CTurbSASolution uninit InitializeJacobianStructure get_unsigned_long get_double
       env geometry config = Constructed s /\
     rhs s = [] /\ xsol s = [] /\
     ImplicitEuler_Iteration LU_SGSIteration AddSolution geometry flow config s
     = Fault (OutOfBounds "rhs" 0 0))
  /\ (exists s,
        CTurbSSTSolution uninit cos sin pow PI_NUMBER InitializeJacobianStructure
          get_unsigned_long get_double env geometry config = Constructed s /\
        rhs s = [] /\ xsol s = [] /\
        ImplicitEuler_Iteration LU_SGSIteration AddSolution geometry flow config s
        = Fault (OutOfBounds "rhs" 0 0)).
Proof.
  intros Hrestart Hexp HnPD HnP Hg Hf.
  assert (Hb : bool_decide (CConfig.Kind_TimeIntScheme_Turb config = EULER_IMPLICIT) = false)
    by (by apply bool_decide_eq_false_2).
  assert (Hnode : forall x : CVariable.t,
            replicate (CGeometry.nPoint geometry) x !! 0 = Some x)
    by (intros x; apply lookup_replicate_2; lia).
  split.
  - intros Hmodel. unfold CTurbSASolution. rewrite Hrestart. cbn [negb].
    eexists. split; [reflexivity |].
    destruct Hmodel as [Hm|Hm]; rewrite Hm.
    + destruct (decide (SA = SA)); [| done]. destruct (decide (SA = SA_COMP)); [done |].
      unfold allocate. rewrite Hb.
      split; [reflexivity |]. split; [reflexivity |].
      eapply ImplicitEuler_Iteration_without_rhs; try done; try apply Hnode; simpl; lia.
    + destruct (decide (SA_COMP = SA)); [done |].
      destruct (decide (SA_COMP = SA_COMP)); [| done].
      unfold allocate. rewrite Hb.
      split; [reflexivity |]. split; [reflexivity |].
      eapply ImplicitEuler_Iteration_without_rhs; try done; try apply Hnode; simpl; lia.
  - unfold CTurbSSTSolution. rewrite Hrestart. cbn [negb].
    eexists. split; [reflexivity |].
    split; [unfold allocate; solver_simpl; cbn [rhs with_freestream]; by rewrite Hb |].
    split; [unfold allocate; solver_simpl; cbn [xsol with_freestream]; by rewrite Hb |].
    eapply ImplicitEuler_Iteration_without_rhs.
    + solver_simpl. cbn [nVar Residual_Max with_freestream allocate].
      unfold new_array. rewrite length_replicate. lia.
    + solver_simpl. cbn [nVar with_freestream allocate]. lia.
    + done.
    + solver_simpl. apply Hnode.
    + unfold CTurbSSTVariable. rewrite new_CTurbVariable_Residual, length_vec_zero. lia.
    + done.
    + done.
    + unfold allocate; solver_simpl; cbn [rhs with_freestream]; by rewrite Hb.
Qed.

Lemma constructed_explicit_step_fault_witness :
  (CConfig.Kind_Turb_Model (sample_config 0 EULER_EXPLICIT SA false) = SA
   \/ CConfig.Kind_Turb_Model (sample_config 0 EULER_EXPLICIT SA false) = SA_COMP ->
   exists s,
     CTurbSASolution 0%float (fun _ _ _ => ∅) sample_get_unsigned_long sample_get_double
       (sample_environment false) sample_geometry
       (sample_config 0 EULER_EXPLICIT SA false) = Constructed s /\
     rhs s = [] /\ xsol s = [] /\
     ImplicitEuler_Iteration (fun _ _ x => x) (fun _ _ nd => nd) sample_geometry sample_flow
       (sample_config 0 EULER_EXPLICIT SA false) s
     = Fault (OutOfBounds "rhs" 0 0))
  /\ (exists s,
        CTurbSSTSolution 0%float (fun x => x) (fun x => x) (fun x _ => x) 3%float
          (fun _ _ _ => ∅) sample_get_unsigned_long sample_get_double
       (sample_environment false) sample_geometry
          (sample_config 0 EULER_EXPLICIT SA false) = Constructed s /\
        rhs s = [] /\ xsol s = [] /\
        ImplicitEuler_Iteration (fun _ _ x => x) (fun _ _ nd => nd) sample_geometry sample_flow
          (sample_config 0 EULER_EXPLICIT SA false) s
        = Fault (OutOfBounds "rhs" 0 0)).
Proof.
  apply (constructed_explicit_step_fault 0%float (fun x => x) (fun x => x) (fun x _ => x)
           3%float (fun _ _ _ => ∅) sample_get_unsigned_long sample_get_double
           (fun _ _ x => x) (fun _ _ nd => nd)
           (sample_environment false) sample_geometry sample_flow
           (sample_config 0 EULER_EXPLICIT SA false)).
  - reflexivity.
  - discriminate.
  - simpl. lia.
  - simpl. lia.
  - simpl. lia.
  - simpl. lia.
Defined.

(** X14. The nodes CTurbSASolution builds without restart. The constructor sets
    nVar = 1 and nu_tilde_Inf = 3.0*Viscosity_Inf/Density_Inf. When the
    turbulence model of the configuration is SA every one of the nPoint
    points starts from the state nu_tilde_Inf, when it is SA_COMP from
    Density_Inf*nu_tilde_Inf; for any other model no node is built, and,
    when the geometry has a point, the first Preprocessing of the solver
    runs out of bounds at the node 0. *)
Theorem CTurbSASolution_initial_nodes uninit InitializeJacobianStructure
    get_unsigned_long get_double (env : environment) (geometry : CGeometry.t) (config : CConfig.t) :
  CConfig.Restart config || CConfig.Restart_Flow config = false ->
  exists s,
    CTurbSASolution uninit InitializeJacobianStructure get_unsigned_long get_double
       env geometry config = Constructed s /\
    nVar s = 1 /\
    nu_tilde_Inf s
    = (3.0 * CConfig.Viscosity_FreeStreamND config / CConfig.Density_FreeStreamND config)%float /\
    (CConfig.Kind_Turb_Model config = SA ->
     length (node s) = CGeometry.nPoint geometry /\
     forall i nd, node s !! i = Some nd -> CVariable.Solution nd = [nu_tilde_Inf s]) /\
    (CConfig.Kind_Turb_Model config = SA_COMP ->
     length (node s) = CGeometry.nPoint geometry /\
     forall i nd, node s !! i = Some nd ->
       CVariable.Solution nd
       = [(CConfig.Density_FreeStreamND config * nu_tilde_Inf s)%float]) /\
    (CConfig.Kind_Turb_Model config <> SA -> CConfig.Kind_Turb_Model config <> SA_COMP ->
     node s = [] /\
     forall GG LS flow iRKStep, 0 < CGeometry.nPoint geometry ->
       SA_Preprocessing GG LS geometry flow config iRKStep s
       = Fault (OutOfBounds "node" 0 0)).
Proof.
  intros Hrestart. unfold CTurbSASolution. rewrite Hrestart. cbn [negb].
  eexists. split; [reflexivity |].
  destruct (decide (CConfig.Kind_Turb_Model config = SA)) as [Hsa|Hsa];
    destruct (decide (CConfig.Kind_Turb_Model config = SA_COMP)) as [Hcomp|Hcomp];
    try congruence.
  - split; [reflexivity |]. split; [reflexivity |]. split; [| split; [done | done]].
    intros _. solver_simpl. rewrite length_replicate. split; [done |].
    intros i nd Hnd. apply lookup_replicate in Hnd as [-> _]. reflexivity.
  - split; [reflexivity |]. split; [reflexivity |]. split; [done |]. split; [| done].
    intros _. solver_simpl. rewrite length_replicate. split; [done |].
    intros i nd Hnd. apply lookup_replicate in Hnd as [-> _]. reflexivity.
  - split; [reflexivity |]. split; [reflexivity |]. split; [done |]. split; [done |].
    intros _ _. split; [reflexivity |].
    intros GG LS flow iRKStep HnP. unfold SA_Preprocessing.
    destruct (CGeometry.nPoint geometry) as [|n]; [lia |]. rewrite for_S. reflexivity.
Qed.

Lemma CTurbSASolution_initial_nodes_witness :
  exists s,
    CTurbSASolution 0%float (fun _ _ _ => ∅) sample_get_unsigned_long sample_get_double
       (sample_environment false) sample_geometry
      (sample_config 0 EULER_IMPLICIT SST false) = Constructed s /\
    node s = [] /\
    SA_Preprocessing (fun _ s => s) (fun _ _ s => s) sample_geometry sample_flow
      (sample_config 0 EULER_IMPLICIT SST false) 0 s
    = Fault (OutOfBounds "node" 0 0).
Proof.
  destruct (CTurbSASolution_initial_nodes 0%float (fun _ _ _ => ∅) sample_get_unsigned_long sample_get_double
       (sample_environment false)
              sample_geometry (sample_config 0 EULER_IMPLICIT SST false) eq_refl)
    as (s & E & _ & _ & _ & _ & Hother).
  destruct Hother as [Hnode Hfault]; [discriminate | discriminate |].
  exists s. split; [exact E |]. split; [exact Hnode |]. apply Hfault. simpl. lia.
Defined.

(** ** Restart files that are short, and the fields that are not used *)

Section Restart_files.

Variable get_unsigned_long : string -> extracted N.
Variable get_double : string -> extracted float.

Lemma read_lines_split (new_node : float -> CVariable.t) (nDim a b : nat)
    (lines : list string) (Solution : list float) (node : list CVariable.t) :
  read_lines get_unsigned_long get_double new_node nDim (a + b) lines Solution node
  = read_lines get_unsigned_long get_double new_node nDim b (drop a lines)
      (read_lines get_unsigned_long get_double new_node nDim a lines Solution node).1
      (read_lines get_unsigned_long get_double new_node nDim a lines Solution node).2.
Proof.
  revert lines Solution node. induction a as [|a IH]; intros lines S node; simpl.
  - by rewrite drop_0.
  - rewrite IH. destruct lines; [simpl; by rewrite !drop_nil | done].
Qed.

Lemma length_read_lines (new_node : float -> CVariable.t) (nDim nPoint : nat)
    (lines : list string) (Solution : list float) (node : list CVariable.t) :
  length (read_lines get_unsigned_long get_double new_node nDim nPoint lines Solution node).2
  = length node + nPoint.
Proof.
  revert lines Solution node. induction nPoint as [|n IH]; intros lines S node; simpl.
  - lia.
  - rewrite IH, length_app. simpl. lia.
Qed.

(** The node of the point of the last line is built from Solution[0] as the
    loop leaves it at the end of the file. *)
Lemma read_lines_last_node (new_node : float -> CVariable.t) (nDim : nat)
    (lines : list string) (Solution : list float) (node : list CVariable.t) :
  0 < length lines ->
  (read_lines get_unsigned_long get_double new_node nDim (length lines) lines Solution node).2
    !! (length node + (length lines - 1))
  = Some (new_node
            ((read_lines get_unsigned_long get_double new_node nDim (length lines) lines
                Solution node).1 !!! 0)).
Proof.
  revert Solution node. induction lines as [|l rest IH]; intros S node Hlen; [simpl in Hlen; lia |].
  destruct rest as [|l' rest'].
  - simpl. rewrite Nat.add_0_r. rewrite lookup_app_r by lia. by rewrite Nat.sub_diag.
  - change (length (l :: l' :: rest')) with (Datatypes.S (length (l' :: rest'))).
    cbn [read_lines hd tl].
    match goal with |- context [read_lines _ _ _ _ _ _ ?S1 ?node1] =>
      specialize (IH S1 node1) end.
    rewrite length_app in IH. cbn [length] in IH.
    replace (length node + (Datatypes.S (length (l' :: rest')) - 1))
      with (length node + 1 + (Datatypes.S (length rest') - 1)) by (simpl; lia).
    apply IH. simpl. lia.
Qed.

(** The value of Solution[0] once the last line of the file has been read. *)
Lemma read_lines_last (new_node : float -> CVariable.t) (nDim : nat)
    (lines : list string) (Solution : list float) (node : list CVariable.t)
    (text_line : string) (x : float) :
  nDim = 2 \/ nDim = 3 -> 0 < length Solution ->
  last lines = Some text_line ->
  line_reads get_unsigned_long get_double nDim text_line x ->
  (read_lines get_unsigned_long get_double new_node nDim (length lines) lines Solution node).1
    !!! 0 = x.
Proof.
  intros HnD. revert Solution node.
  induction lines as [|l rest IH]; intros S node HS Hlast Hx; [done |].
  destruct rest as [|l' rest'].
  - simpl in Hlast |- *. injection Hlast as ->. by apply read_point_line_column.
  - change (length (l :: l' :: rest')) with (Datatypes.S (length (l' :: rest'))).
    cbn [read_lines hd tl].
    apply IH; [by rewrite length_read_point_line | done | done].
Qed.

(** The nodes of the point of the last line and of the points beyond it. *)
Lemma read_lines_beyond (new_node : float -> CVariable.t) (nDim nPoint : nat)
    (lines : list string) (Solution : list float) (i : nat) :
  0 < length lines -> length lines <= i -> i < nPoint ->
  exists x0,
    (read_lines get_unsigned_long get_double new_node nDim nPoint lines Solution []).2
      !! (length lines - 1) = Some (new_node x0) /\
    (read_lines get_unsigned_long get_double new_node nDim nPoint lines Solution []).2
      !! i = Some (new_node x0) /\
    forall text_line x, nDim = 2 \/ nDim = 3 -> 0 < length Solution ->
      last lines = Some text_line ->
      line_reads get_unsigned_long get_double nDim text_line x -> x0 = x.
Proof.
  intros Hlen Hi HiP.
  exists ((read_lines get_unsigned_long get_double new_node nDim (length lines) lines
             Solution []).1 !!! 0).
  replace nPoint with (length lines + (nPoint - length lines)) by lia.
  rewrite read_lines_split, drop_all, read_lines_nil. cbn [snd].
  pose proof (length_read_lines new_node nDim (length lines) lines Solution []) as Hl.
  simpl in Hl.
  split; [| split].
  - rewrite lookup_app_l by lia.
    apply (read_lines_last_node new_node nDim lines Solution [] Hlen).
  - rewrite lookup_app_r by lia. apply lookup_replicate_2. lia.
  - intros text_line x HnD HS Hlast Hx. by apply (read_lines_last _ _ _ _ _ text_line).
Qed.

Lemma restart_nodes_beyond (env : environment) (config : CConfig.t)
    (new_node : float -> CVariable.t) (nPoint : nat) (s : CTurbSolution)
    (lines : list string) (final_newline : bool) (i : nat) :
  files env (CConfig.Solution_FlowFileName config) = Some (text_of_lines lines final_newline) ->
  Forall (fun line => no_newline line = true) lines ->
  0 < length lines -> length lines <= i -> i < nPoint ->
  exists s' x0,
    restart_nodes get_unsigned_long get_double env config new_node nPoint s = Constructed s' /\
    node s' !! (length lines - 1) = Some (new_node x0) /\
    node s' !! i = Some (new_node x0) /\
    forall text_line x, nDim s = 2 \/ nDim s = 3 -> 0 < length (Solution s) ->
      last lines = Some text_line ->
      line_reads get_unsigned_long get_double (nDim s) text_line x -> x0 = x.
Proof.
  intros Hfile Hlines Hlen Hi HiP. unfold restart_nodes. rewrite Hfile.
  rewrite read_restart_lines by done.
  destruct (read_lines_beyond new_node (nDim s) nPoint lines (Solution s) i Hlen Hi HiP)
    as (x0 & Hlast & Hnode & Hx).
  destruct (read_lines get_unsigned_long get_double new_node (nDim s) nPoint lines
              (Solution s) []) as [Solution' node'].
  eexists. exists x0. split; [done |]. solver_simpl. done.
Qed.

(** Two lines that are read to the same number store the same. *)
Lemma line_reads_same_value (nDim : nat) (text_line text_line' : string) (x : float) :
  line_reads get_unsigned_long get_double nDim text_line x ->
  line_reads get_unsigned_long get_double nDim text_line' x ->
  point_line_value get_unsigned_long get_double nDim text_line
  = point_line_value get_unsigned_long get_double nDim text_line'.
Proof.
  intros H H'.
  destruct (decide (nDim = 2)) as [E2|E2]; [| destruct (decide (nDim = 3)) as [E3|E3]].
  - by rewrite !(line_reads_value get_unsigned_long get_double nDim _ x) by auto.
  - by rewrite !(line_reads_value get_unsigned_long get_double nDim _ x) by auto.
  - unfold point_line_value. by rewrite !decide_False by done.
Qed.

Lemma read_lines_ext (new_node : float -> CVariable.t) (nDim nPoint : nat)
    (lines lines' : list string) (Solution : list float) (node : list CVariable.t) :
  (forall i, i < nPoint ->
     point_line_value get_unsigned_long get_double nDim (default EmptyString (lines !! i))
     = point_line_value get_unsigned_long get_double nDim (default EmptyString (lines' !! i))) ->
  read_lines get_unsigned_long get_double new_node nDim nPoint lines Solution node
  = read_lines get_unsigned_long get_double new_node nDim nPoint lines' Solution node.
Proof.
  revert lines lines' Solution node.
  induction nPoint as [|n IH]; intros lines lines' S node H; [done |].
  simpl.
  assert (E : read_point_line get_unsigned_long get_double nDim (hd EmptyString lines) S
              = read_point_line get_unsigned_long get_double nDim (hd EmptyString lines') S).
  { rewrite !read_point_line_value. specialize (H 0 ltac:(lia)).
    destruct lines, lines'; simpl in H |- *; first [done | by rewrite H]. }
  rewrite E. apply IH. intros i Hi. specialize (H (Datatypes.S i) ltac:(lia)).
  destruct lines, lines'; simpl in H |- *; done.
Qed.

Lemma restart_nodes_ext (env env' : environment) (config : CConfig.t)
    (new_node : float -> CVariable.t) (nPoint : nat) (s : CTurbSolution)
    (lines lines' : list string) (final_newline final_newline' : bool) :
  files env (CConfig.Solution_FlowFileName config) = Some (text_of_lines lines final_newline) ->
  files env' (CConfig.Solution_FlowFileName config)
  = Some (text_of_lines lines' final_newline') ->
  Forall (fun line => no_newline line = true) lines ->
  Forall (fun line => no_newline line = true) lines' ->
  (forall i, i < nPoint ->
     exists text_line text_line' x,
       lines !! i = Some text_line /\ lines' !! i = Some text_line' /\
       line_reads get_unsigned_long get_double (nDim s) text_line x /\
       line_reads get_unsigned_long get_double (nDim s) text_line' x) ->
  restart_nodes get_unsigned_long get_double env config new_node nPoint s
  = restart_nodes get_unsigned_long get_double env' config new_node nPoint s.
Proof.
  intros Hf Hf' Hlines Hlines' H. unfold restart_nodes. rewrite Hf, Hf'.
  rewrite !read_restart_lines by done.
  rewrite (read_lines_ext new_node (nDim s) nPoint lines lines'); [done |].
  intros i Hi. destruct (H i Hi) as (l & l' & x & -> & -> & Hx & Hx'). simpl.
  by apply (line_reads_same_value _ _ _ x).
Qed.

End Restart_files.

(** X15. A restart file with fewer lines than the geometry has points is read
    without an error. Once the file is exhausted getline reads nothing
    more, and the line that is parsed is the last line once again, or an
    empty one: every point beyond the last line of the file gets the node of
    the point of the last line, whatever the lines hold. When the last line
    is read to its solution field [x], that node has the state [x] in
    CTurbSASolution and [x; 0] in CTurbSSTSolution. *)
Theorem restart_file_truncated uninit cos sin pow PI_NUMBER InitializeJacobianStructure
    get_unsigned_long get_double
    (env : environment) (geometry : CGeometry.t) (config : CConfig.t)
    (lines : list string) (final_newline : bool) (i : nat) :
  CConfig.Restart config || CConfig.Restart_Flow config = true ->
  files env (CConfig.Solution_FlowFileName config) = Some (text_of_lines lines final_newline) ->
  Forall (fun line => no_newline line = true) lines ->
  0 < length lines -> length lines <= i -> i < CGeometry.nPoint geometry ->
  (exists s nd,
     CTurbSASolution uninit InitializeJacobianStructure get_unsigned_long get_double
       env geometry config = Constructed s /\
     node s !! (length lines - 1) = Some nd /\ node s !! i = Some nd /\
     forall text_line x,
       CGeometry.nDim geometry = 2 \/ CGeometry.nDim geometry = 3 ->
       last lines = Some text_line ->
       line_reads get_unsigned_long get_double (CGeometry.nDim geometry) text_line x ->
       CVariable.Solution nd = [x])
  /\ (exists s nd,
        CTurbSSTSolution uninit cos sin pow PI_NUMBER InitializeJacobianStructure
          get_unsigned_long get_double env geometry config = Constructed s /\
        node s !! (length lines - 1) = Some nd /\ node s !! i = Some nd /\
        forall text_line x,
          CGeometry.nDim geometry = 2 \/ CGeometry.nDim geometry = 3 ->
          last lines = Some text_line ->
          line_reads get_unsigned_long get_double (CGeometry.nDim geometry) text_line x ->
          CVariable.Solution nd = [x; 0%float]).
Proof.
  intros Hrestart Hfile Hlines Hlen Hi HiP. split.
  - unfold CTurbSASolution. rewrite Hrestart. cbn [negb].
    match goal with |- context [restart_nodes _ _ env config ?f ?n ?s0] =>
      destruct (restart_nodes_beyond get_unsigned_long get_double env config f n s0
                  lines final_newline i)
        as (s' & x0 & -> & Hlast & Hnode & Hx); try done end.
    eexists. eexists. split; [done |]. split; [exact Hlast |]. split; [exact Hnode |].
    intros text_line x HnD Hl Hr. rewrite (Hx text_line x); try done. simpl. lia.
  - unfold CTurbSSTSolution. rewrite Hrestart. cbn [negb].
    match goal with |- context [restart_nodes _ _ env config ?f ?n ?s0] =>
      destruct (restart_nodes_beyond get_unsigned_long get_double env config f n s0
                  lines final_newline i)
        as (s' & x0 & -> & Hlast & Hnode & Hx); try done end.
    eexists. eexists. split; [done |]. split; [exact Hlast |]. split; [exact Hnode |].
    intros text_line x HnD Hl Hr. rewrite (Hx text_line x); try done. simpl. lia.
Qed.

Lemma restart_file_truncated_witness :
  (exists s nd,
     CTurbSASolution 0%float (fun _ _ _ => ∅) sample_get_unsigned_long sample_get_double
       sample_truncated_environment sample_geometry
       (sample_config 0 EULER_IMPLICIT SA true) = Constructed s /\
     node s !! 0 = Some nd /\ node s !! 1 = Some nd /\
     CVariable.Solution nd = [1.5%float])
  /\ (exists s nd,
        CTurbSSTSolution 0%float (fun x => x) (fun x => x) (fun x _ => x) 3%float
          (fun _ _ _ => ∅) sample_get_unsigned_long sample_get_double
          sample_truncated_environment sample_geometry
          (sample_config 0 EULER_IMPLICIT SA true) = Constructed s /\
        node s !! 0 = Some nd /\ node s !! 1 = Some nd /\
        CVariable.Solution nd = [1.5%float; 0%float]).
Proof.
  destruct (restart_file_truncated 0%float (fun x => x) (fun x => x) (fun x _ => x) 3%float
              (fun _ _ _ => ∅) sample_get_unsigned_long sample_get_double
              sample_truncated_environment sample_geometry
              (sample_config 0 EULER_IMPLICIT SA true) ["0 1 1 0 2 1.5 2.5"%string] false 1)
    as [(s & nd & E & H0 & H1 & Hx) (s2 & nd2 & E2 & H02 & H12 & Hx2)].
  - reflexivity.
  - reflexivity.
  - repeat constructor.
  - simpl. lia.
  - simpl. lia.
  - simpl. lia.
  - split.
    + exists s, nd. split; [exact E |]. split; [exact H0 |]. split; [exact H1 |].
      apply (Hx "0 1 1 0 2 1.5 2.5"%string 1.5%float);
        [left; reflexivity | reflexivity | exact sample_line_reads].
    + exists s2, nd2. split; [exact E2 |]. split; [exact H02 |]. split; [exact H12 |].
      apply (Hx2 "0 1 1 0 2 1.5 2.5"%string 1.5%float);
        [left; reflexivity | reflexivity | exact sample_line_reads].
Defined.

(** The sample file with one line, which has no newline at its end, gives
    both points of the sample mesh the state of the line. *)
Example restart_file_truncated_sample :
  exists s,
    CTurbSSTSolution 0%float (fun x => x) (fun x => x) (fun x _ => x) 3%float
      (fun _ _ _ => ∅) sample_get_unsigned_long sample_get_double
      sample_truncated_environment sample_geometry
      (sample_config 0 EULER_IMPLICIT SST true) = Constructed s /\
    CVariable.Solution <$> node s = [[1.5; 0]%float; [1.5; 0]%float].
Proof. eexists. split; vm_compute; reflexivity. Qed.

(** X16. Of a line of a restart file the two constructors use the number that
    the chain of extractions reads into Solution[0], and nothing else: the
    point index at the start of the line and the numbers after it are read
    and dropped, what follows on the line is not read, and the lines are
    taken in the order of the file. Two files whose lines are read, line by
    line over the first nPoint lines, to the same number ([line_reads]) give
    the same solver, whatever their indices, their other fields and their
    last newline. *)
Theorem restart_uses_solution_field uninit cos sin pow PI_NUMBER InitializeJacobianStructure
    get_unsigned_long get_double
    (env env' : environment) (geometry : CGeometry.t) (config : CConfig.t)
    (lines lines' : list string) (final_newline final_newline' : bool) :
  files env (CConfig.Solution_FlowFileName config) = Some (text_of_lines lines final_newline) ->
  files env' (CConfig.Solution_FlowFileName config)
  = Some (text_of_lines lines' final_newline') ->
  Forall (fun line => no_newline line = true) lines ->
  Forall (fun line => no_newline line = true) lines' ->
  (forall i, i < CGeometry.nPoint geometry ->
     exists text_line text_line' x,
       lines !! i = Some text_line /\ lines' !! i = Some text_line' /\
       line_reads get_unsigned_long get_double (CGeometry.nDim geometry) text_line x /\
       line_reads get_unsigned_long get_double (CGeometry.nDim geometry) text_line' x) ->
  CTurbSASolution uninit InitializeJacobianStructure get_unsigned_long get_double
    env geometry config
  = CTurbSASolution uninit InitializeJacobianStructure get_unsigned_long get_double
      env' geometry config
  /\ CTurbSSTSolution uninit cos sin pow PI_NUMBER InitializeJacobianStructure
       get_unsigned_long get_double env geometry config
     = CTurbSSTSolution uninit cos sin pow PI_NUMBER InitializeJacobianStructure
         get_unsigned_long get_double env' geometry config.
Proof.
  intros Hf Hf' Hlines Hlines' H. split.
  - unfold CTurbSASolution.
    destruct (CConfig.Restart config || CConfig.Restart_Flow config); cbn [negb]; [| done].
    match goal with |- context [restart_nodes _ _ env config ?nn ?n ?s0] =>
      by rewrite (restart_nodes_ext get_unsigned_long get_double env env' config nn n s0
                    lines lines' final_newline final_newline') end.
  - unfold CTurbSSTSolution.
    destruct (CConfig.Restart config || CConfig.Restart_Flow config); cbn [negb]; [| done].
    match goal with |- context [restart_nodes _ _ env config ?nn ?n ?s0] =>
      by rewrite (restart_nodes_ext get_unsigned_long get_double env env' config nn n s0
                    lines lines' final_newline final_newline') end.
Qed.

Ltac read_sample_line :=
  eexists _, _, _, _; split; [vm_compute; reflexivity |];
  split; [cbn [Nat.add fields_dropped];
          repeat (eexists _, _; split; [vm_compute; reflexivity |]); reflexivity
         | vm_compute; reflexivity].

Lemma sample_lines_read (i : nat) :
  i < 2 ->
  exists text_line text_line' x,
    sample_restart_lines !! i = Some text_line /\
    sample_reordered_lines !! i = Some text_line' /\
    line_reads sample_get_unsigned_long sample_get_double 2 text_line x /\
    line_reads sample_get_unsigned_long sample_get_double 2 text_line' x.
Proof.
  intros Hi. destruct i as [|[|i]]; [| | lia].
  - exists "0 1 1 0 2 1.5 2.5"%string, "7 9 -9 .5 9e1 1.5"%string, 1.5%float.
    split; [reflexivity |]. split; [reflexivity |]. split; read_sample_line.
  - exists "1 1 1 0 2 3.5 4.5"%string, "  3  8 8 8 8 3.5 0 0"%string, 3.5%float.
    split; [reflexivity |]. split; [reflexivity |]. split; read_sample_line.
Defined.

Lemma restart_uses_solution_field_witness :
  CTurbSASolution 0%float (fun _ _ _ => ∅) sample_get_unsigned_long sample_get_double
    (sample_environment true) sample_geometry (sample_config 0 EULER_IMPLICIT SA true)
  = CTurbSASolution 0%float (fun _ _ _ => ∅) sample_get_unsigned_long sample_get_double
      sample_reordered_environment sample_geometry (sample_config 0 EULER_IMPLICIT SA true)
  /\ CTurbSSTSolution 0%float (fun x => x) (fun x => x) (fun x _ => x) 3%float
       (fun _ _ _ => ∅) sample_get_unsigned_long sample_get_double
       (sample_environment true) sample_geometry
       (sample_config 0 EULER_IMPLICIT SA true)
     = CTurbSSTSolution 0%float (fun x => x) (fun x => x) (fun x _ => x) 3%float
         (fun _ _ _ => ∅) sample_get_unsigned_long sample_get_double
         sample_reordered_environment sample_geometry
         (sample_config 0 EULER_IMPLICIT SA true).
Proof.
  apply (restart_uses_solution_field 0%float (fun x => x) (fun x => x) (fun x _ => x) 3%float
           (fun _ _ _ => ∅) sample_get_unsigned_long sample_get_double
           (sample_environment true) sample_reordered_environment
           sample_geometry (sample_config 0 EULER_IMPLICIT SA true)
           sample_restart_lines sample_reordered_lines true false).
  - reflexivity.
  - reflexivity.
  - repeat constructor.
  - repeat constructor.
  - exact sample_lines_read.
Defined.

(** ** The edge loops on a whole mesh *)

Lemma residuals_assembled_refl (s : CTurbSolution) : residuals_assembled s s.
Proof. split; [by destruct s | done]. Qed.

Lemma residuals_assembled_trans (s s1 s2 : CTurbSolution) :
  residuals_assembled s s1 -> residuals_assembled s1 s2 -> residuals_assembled s s2.
Proof.
  intros (E1 & N1 & D1) (E2 & N2 & D2). split; [| split].
  - rewrite E2, E1. by destruct s.
  - intros p. by rewrite N2.
  - by rewrite D2.
Qed.

Lemma without_residual_insert (l : list CVariable.t) (i : nat) (nd nd' : CVariable.t) (p : nat) :
  l !! i = Some nd -> without_residual nd' = without_residual nd ->
  without_residual <$> <[i:=nd']> l !! p = without_residual <$> l !! p.
Proof.
  intros Hi E. destruct (decide (p = i)) as [->|Hne].
  - rewrite list_lookup_insert_eq by (by eapply lookup_lt_Some). rewrite Hi. simpl. by rewrite E.
  - by rewrite list_lookup_insert_ne.
Qed.

(** A point of the solver after an assembly is the point before it, up to
    its residual. *)
Lemma assembled_node (s0 s : CTurbSolution) (p : nat) (nd0 : CVariable.t) :
  residuals_assembled s0 s -> node s0 !! p = Some nd0 ->
  exists nd, node s !! p = Some nd /\
    CVariable.Solution nd = CVariable.Solution nd0 /\
    CVariable.Gradient nd = CVariable.Gradient nd0 /\
    CVariable.F1blending nd = CVariable.F1blending nd0.
Proof.
  intros (_ & N & _) H0. specialize (N p). rewrite H0 in N.
  destruct (node s !! p) as [nd|]; [| done]. simpl in N.
  assert (E : without_residual nd = without_residual nd0) by congruence.
  exists nd. split; [done |].
  split; [exact (f_equal CVariable.Solution E) |].
  split; [exact (f_equal CVariable.Gradient E) | exact (f_equal CVariable.F1blending E)].
Qed.

Lemma assembled_length (s0 s : CTurbSolution) :
  residuals_assembled s0 s -> length (node s) = length (node s0).
Proof.
  intros (_ & N & _).
  destruct (decide (length (node s) = length (node s0))) as [|Hne]; [done |].
  exfalso. destruct (decide (length (node s) < length (node s0))) as [Hlt|Hge].
  - specialize (N (length (node s))). rewrite (lookup_ge_None_2 (node s)) in N by lia.
    destruct (lookup_lt_is_Some_2 (node s0) (length (node s)) Hlt) as [nd Hnd].
    by rewrite Hnd in N.
  - specialize (N (length (node s0))). rewrite (lookup_ge_None_2 (node s0)) in N by lia.
    destruct (lookup_lt_is_Some_2 (node s) (length (node s0))) as [nd Hnd]; [lia |].
    by rewrite Hnd in N.
Qed.

(** The end of the Viscous_Residual bodies, for any two points of the
    mesh. *)
Lemma Viscous_Residual_scatter_mesh (config : CConfig.t) (e : CEdge.t)
    (s : CTurbSolution) (solver : CNumerics.t) :
  CEdge.GetNode 0 e < length (node s) -> CEdge.GetNode 1 e < length (node s) ->
  exists s',
    Viscous_Residual_scatter config e (s, solver)
    = Ok (s', CNumerics.mk (CNumerics.compute solver) (CNumerics.current solver)
                (CNumerics.calls solver ++ [CNumerics.current solver])) /\
    residuals_assembled s s' /\
    forall p, p <> CEdge.GetNode 0 e -> p <> CEdge.GetNode 1 e -> point_untouched s s' p.
Proof.
  intros Hi Hj.
  destruct (lookup_lt_is_Some_2 _ _ Hi) as [ni Hni].
  unfold Viscous_Residual_scatter, solver_SetResidual, CNumerics.SetResidual.
  destruct (CNumerics.compute solver (CNumerics.current solver) config true) as [[R Ji] Jj].
  rewrite (node_SubtractResidual_Ok _ _ ni) by (solver_simpl; done). bsimpl.
  match goal with |- context [node_AddResidual ?j ?s1] =>
    destruct (lookup_lt_is_Some_2 (node s1) j) as [nj Hnj];
      [solver_simpl; by rewrite length_insert |];
    rewrite (node_AddResidual_Ok j s1 nj Hnj) end.
  bsimpl. solver_simpl in Hnj. eexists. split; [reflexivity |]. split; [split; [| split] |].
  - solver_simpl. reflexivity.
  - intros p. solver_simpl.
    rewrite (without_residual_insert _ _ nj) by done.
    by rewrite (without_residual_insert _ _ ni).
  - solver_simpl. unfold CSparseMatrix.AddBlock, CSparseMatrix.SubtractBlock.
    by rewrite !dom_alter_L.
  - intros p Hpi Hpj. split.
    + solver_simpl. by rewrite !list_lookup_insert_ne.
    + intros c. solver_simpl. block_lookups.
Qed.

(** The end of the Upwind_Residual body, for any two points of the mesh. *)
Lemma Upwind_Residual_scatter_mesh (config : CConfig.t) (i j : nat)
    (s : CTurbSolution) (solver : CNumerics.t) :
  i < length (node s) -> j < length (node s) ->
  exists s',
    (let '(s, solver) := solver_SetResidual config (s, solver) in
     s ← node_AddResidual i s;
     s ← node_SubtractResidual j s;
     let s := with_Jacobian (CSparseMatrix.AddBlock i i (Jacobian_i s) (Jacobian s)) s in
     let s := with_Jacobian (CSparseMatrix.AddBlock i j (Jacobian_j s) (Jacobian s)) s in
     let s := with_Jacobian (CSparseMatrix.SubtractBlock j i (Jacobian_i s) (Jacobian s)) s in
     let s := with_Jacobian (CSparseMatrix.SubtractBlock j j (Jacobian_j s) (Jacobian s)) s in
     Ok (s, solver))
    = Ok (s', CNumerics.mk (CNumerics.compute solver) (CNumerics.current solver)
                (CNumerics.calls solver ++ [CNumerics.current solver])) /\
    residuals_assembled s s' /\
    forall p, p <> i -> p <> j -> point_untouched s s' p.
Proof.
  intros Hi Hj.
  destruct (lookup_lt_is_Some_2 _ _ Hi) as [ni Hni].
  unfold solver_SetResidual, CNumerics.SetResidual.
  destruct (CNumerics.compute solver (CNumerics.current solver) config true) as [[R Ji] Jj].
  rewrite (node_AddResidual_Ok _ _ ni) by (solver_simpl; done). bsimpl.
  match goal with |- context [node_SubtractResidual ?j ?s1] =>
    destruct (lookup_lt_is_Some_2 (node s1) j) as [nj Hnj];
      [solver_simpl; by rewrite length_insert |];
    rewrite (node_SubtractResidual_Ok j s1 nj Hnj) end.
  bsimpl. solver_simpl in Hnj. eexists. split; [reflexivity |]. split; [split; [| split] |].
  - solver_simpl. reflexivity.
  - intros p. solver_simpl.
    rewrite (without_residual_insert _ _ nj) by done.
    by rewrite (without_residual_insert _ _ ni).
  - solver_simpl. unfold CSparseMatrix.AddBlock, CSparseMatrix.SubtractBlock.
    by rewrite !dom_alter_L.
  - intros p Hpi Hpj. split.
    + solver_simpl. by rewrite !list_lookup_insert_ne.
    + intros c. solver_simpl. block_lookups.
Qed.

Lemma Viscous_Residual_inputs_current (geometry : CGeometry.t) (flow : CFlowSolution)
    (e : CEdge.t) (s : CTurbSolution) (solver : CNumerics.t)
    (gi gj : CPoint.t) (fi fj ni nj : CVariable.t) :
  CGeometry.node geometry !! CEdge.GetNode 0 e = Some gi ->
  CGeometry.node geometry !! CEdge.GetNode 1 e = Some gj ->
  flow_node flow !! CEdge.GetNode 0 e = Some fi ->
  flow_node flow !! CEdge.GetNode 1 e = Some fj ->
  node s !! CEdge.GetNode 0 e = Some ni -> node s !! CEdge.GetNode 1 e = Some nj ->
  Viscous_Residual_inputs geometry flow e s solver
  = Ok (CNumerics.SetTurbVarGradient (CVariable.Gradient ni) (CVariable.Gradient nj)
         (CNumerics.SetTurbVar (CVariable.Solution ni) (CVariable.Solution nj)
           (CNumerics.SetEddyViscosity (CVariable.EddyViscosity fi) (CVariable.EddyViscosity fj)
             (CNumerics.SetLaminarViscosity (CVariable.LaminarViscosity fi)
                (CVariable.LaminarViscosity fj)
               (CNumerics.SetConservative (CVariable.Solution fi) (CVariable.Solution fj)
                 (CNumerics.SetNormal (CEdge.Normal e)
                   (CNumerics.SetCoord (CPoint.Coord gi) (CPoint.Coord gj) solver))))))).
Proof.
  intros Hgi Hgj Hfi Hfj Hni Hnj. unfold Viscous_Residual_inputs, get_node.
  rewrite (at_Some _ _ _ _ Hgi), (at_Some _ _ _ _ Hgj). bsimpl.
  rewrite (at_Some _ _ _ _ Hfi), (at_Some _ _ _ _ Hfj). bsimpl.
  by rewrite (at_Some _ _ _ _ Hni), (at_Some _ _ _ _ Hnj).
Qed.

(** The points of an edge of the mesh, in the geometry, in the flow solver
    and in a turbulence solver after an assembly. *)
Lemma edge_points (geometry : CGeometry.t) (flow : CFlowSolution) (s0 s : CTurbSolution)
    (e : CEdge.t) :
  edges_in_mesh geometry flow s0 -> e ∈ CGeometry.edge geometry ->
  residuals_assembled s0 s ->
  exists gi gj fi fj ni0 nj0 ni nj,
    CGeometry.node geometry !! CEdge.GetNode 0 e = Some gi /\
    CGeometry.node geometry !! CEdge.GetNode 1 e = Some gj /\
    flow_node flow !! CEdge.GetNode 0 e = Some fi /\
    flow_node flow !! CEdge.GetNode 1 e = Some fj /\
    node s0 !! CEdge.GetNode 0 e = Some ni0 /\ node s0 !! CEdge.GetNode 1 e = Some nj0 /\
    node s !! CEdge.GetNode 0 e = Some ni /\ node s !! CEdge.GetNode 1 e = Some nj /\
    (CVariable.Solution ni = CVariable.Solution ni0 /\
     CVariable.Gradient ni = CVariable.Gradient ni0 /\
     CVariable.F1blending ni = CVariable.F1blending ni0) /\
    (CVariable.Solution nj = CVariable.Solution nj0 /\
     CVariable.Gradient nj = CVariable.Gradient nj0 /\
     CVariable.F1blending nj = CVariable.F1blending nj0).
Proof.
  intros Hmesh He Hs.
  destruct (Hmesh e (CEdge.GetNode 0 e) He (or_introl eq_refl)) as (Hgi & Hfi & Hi).
  destruct (Hmesh e (CEdge.GetNode 1 e) He (or_intror eq_refl)) as (Hgj & Hfj & Hj).
  destruct (lookup_lt_is_Some_2 _ _ Hgi) as [gi Egi].
  destruct (lookup_lt_is_Some_2 _ _ Hgj) as [gj Egj].
  destruct (lookup_lt_is_Some_2 _ _ Hfi) as [fi Efi].
  destruct (lookup_lt_is_Some_2 _ _ Hfj) as [fj Efj].
  destruct (lookup_lt_is_Some_2 _ _ Hi) as [ni0 Eni0].
  destruct (lookup_lt_is_Some_2 _ _ Hj) as [nj0 Enj0].
  destruct (assembled_node s0 s _ ni0 Hs Eni0) as (ni & Eni & Hni).
  destruct (assembled_node s0 s _ nj0 Hs Enj0) as (nj & Enj & Hnj).
  by exists gi, gj, fi, fj, ni0, nj0, ni, nj.
Qed.

Lemma edge_loop_mesh (body : CEdge.t -> CTurbSolution * CNumerics.t ->
                             result (CTurbSolution * CNumerics.t))
    (P : CEdge.t -> CNumerics.inputs -> Prop) (edges : list CEdge.t)
    (s : CTurbSolution) (solver : CNumerics.t) :
  (forall e s1 solver1, e ∈ edges -> residuals_assembled s s1 ->
     exists s2 solver2, body e (s1, solver1) = Ok (s2, solver2) /\
       edge_round P e s1 solver1 s2 solver2) ->
  exists s' solver', foldM body edges (s, solver) = Ok (s', solver') /\
    edge_loop_done P edges s solver s' solver'.
Proof.
  intros Hbody.
  destruct (foldM_inv (fun pre st => edge_loop_done P pre s solver st.1 st.2)
              body edges (s, solver)) as ([s' solver'] & E & H).
  - split; [apply residuals_assembled_refl |]. split; [done |]. split.
    + exists []. split; [by rewrite app_nil_r | constructor].
    + done.
  - intros pre e post [s1 solver1] El (Hs1 & Hc1 & (new & Hl1 & Hnew) & Hoff1).
    cbn [fst snd] in *.
    destruct (Hbody e s1 solver1) as (s2 & solver2 & E2 & inp & Hc2 & Hl2 & HP & Hs2 & Hoff2);
      [rewrite El; apply elem_of_app; right; apply elem_of_cons; by left | done |].
    exists (s2, solver2). split; [done |]. cbn [fst snd].
    split; [by eapply residuals_assembled_trans |].
    split; [congruence |]. split.
    + exists (new ++ [inp]). split; [by rewrite Hl2, Hl1, app_assoc |].
      apply Forall2_app; [done | by constructor].
    + intros p Hp.
      destruct (Hoff1 p) as [Hn1 HJ1];
        [intros e' He'; apply Hp; apply elem_of_app; by left |].
      destruct (Hp e) as [Hp0 Hp1];
        [apply elem_of_app; right; apply elem_of_cons; by left |].
      destruct (Hoff2 p) as [Hn2 HJ2]; [done | done |].
      split; [congruence |]. intros c. by rewrite HJ2.
  - by exists s', solver'.
Qed.

Lemma SA_Viscous_Residual_edge_mesh (geometry : CGeometry.t) (flow : CFlowSolution)
    (config : CConfig.t) (e : CEdge.t) (s0 s : CTurbSolution) (solver : CNumerics.t) :
  edges_in_mesh geometry flow s0 -> e ∈ CGeometry.edge geometry ->
  residuals_assembled s0 s ->
  exists s' solver',
    SA_Viscous_Residual_edge geometry flow config e (s, solver) = Ok (s', solver') /\
    edge_round (viscous_inputs (SA_viscous_inputs config) geometry flow s0) e s solver s' solver'.
Proof.
  intros Hmesh He Hs.
  destruct (edge_points geometry flow s0 s e Hmesh He Hs)
    as (gi & gj & fi & fj & ni0 & nj0 & ni & nj & Egi & Egj & Efi & Efj & Eni0 & Enj0
        & Eni & Enj & (HSi & HGi & HFi) & (HSj & HGj & HFj)).
  unfold SA_Viscous_Residual_edge.
  rewrite (Viscous_Residual_inputs_current geometry flow e s solver gi gj fi fj ni nj) by done.
  bsimpl. rewrite (at_Some _ _ _ _ Efi), (at_Some _ _ _ _ Efj). bsimpl.
  destruct (decide (CConfig.Kind_Turb_Model config = SA_COMP)) as [Hcomp|Hcomp]; bsimpl;
    match goal with |- context [Viscous_Residual_scatter config e (s, ?solver2)] =>
      destruct (Viscous_Residual_scatter_mesh config e s solver2) as (s' & E & Hs' & Hoff);
        [by eapply lookup_lt_Some | by eapply lookup_lt_Some |] end;
    rewrite E; eexists; eexists; (split; [reflexivity |]);
    eexists; (split; [reflexivity |]); (split; [reflexivity |]);
    (split; [| split; [exact Hs' | exact Hoff]]);
    exists gi, gj, fi, fj, ni0, nj0; cbn; rewrite ?HSi, ?HSj, ?HGi, ?HGj;
    repeat (split; [done |]); unfold SA_viscous_inputs; done.
Qed.

Lemma SST_Viscous_Residual_edge_mesh (geometry : CGeometry.t) (flow : CFlowSolution)
    (config : CConfig.t) (e : CEdge.t) (s0 s : CTurbSolution) (solver : CNumerics.t) :
  edges_in_mesh geometry flow s0 -> e ∈ CGeometry.edge geometry ->
  residuals_assembled s0 s ->
  exists s' solver',
    SST_Viscous_Residual_edge geometry flow config e (s, solver) = Ok (s', solver') /\
    edge_round (viscous_inputs SST_viscous_inputs geometry flow s0) e s solver s' solver'.
Proof.
  intros Hmesh He Hs.
  destruct (edge_points geometry flow s0 s e Hmesh He Hs)
    as (gi & gj & fi & fj & ni0 & nj0 & ni & nj & Egi & Egj & Efi & Efj & Eni0 & Enj0
        & Eni & Enj & (HSi & HGi & HFi) & (HSj & HGj & HFj)).
  unfold SST_Viscous_Residual_edge.
  rewrite (Viscous_Residual_inputs_current geometry flow e s solver gi gj fi fj ni nj) by done.
  bsimpl. unfold get_node. rewrite (at_Some _ _ _ _ Eni). bsimpl.
  match goal with |- context [Viscous_Residual_scatter config e (s, ?solver2)] =>
    destruct (Viscous_Residual_scatter_mesh config e s solver2) as (s' & E & Hs' & Hoff) end.
  { by eapply lookup_lt_Some. }
  { by eapply lookup_lt_Some. }
  rewrite E. eexists. eexists. split; [reflexivity |].
  eexists. split; [reflexivity |]. split; [reflexivity |].
  split; [| split; [exact Hs' | exact Hoff]].
  exists gi, gj, fi, fj, ni0, nj0. cbn. rewrite ?HSi, ?HSj, ?HGi, ?HGj, ?HFi.
  repeat (split; [done |]). unfold SST_viscous_inputs. done.
Qed.

Lemma Upwind_Residual_edge_mesh (geometry : CGeometry.t) (flow : CFlowSolution)
    (config : CConfig.t) (e : CEdge.t) (s0 s : CTurbSolution) (solver : CNumerics.t) :
  edges_in_mesh geometry flow s0 -> e ∈ CGeometry.edge geometry ->
  residuals_assembled s0 s ->
  exists s' solver',
    Upwind_Residual_edge geometry flow config false (CConfig.Rotating_Frame config) e (s, solver)
    = Ok (s', solver') /\
    edge_round (upwind_inputs geometry flow config s0) e s solver s' solver'.
Proof.
  intros Hmesh He Hs.
  destruct (edge_points geometry flow s0 s e Hmesh He Hs)
    as (gi & gj & fi & fj & ni0 & nj0 & ni & nj & Egi & Egj & Efi & Efj & Eni0 & Enj0
        & Eni & Enj & (HSi & HGi & HFi) & (HSj & HGj & HFj)).
  unfold Upwind_Residual_edge, get_node.
  rewrite (at_Some _ _ _ _ Efi), (at_Some _ _ _ _ Efj). bsimpl.
  rewrite (at_Some _ _ _ _ Eni), (at_Some _ _ _ _ Enj). bsimpl.
  rewrite (at_Some _ _ _ _ Egi), (at_Some _ _ _ _ Egj). bsimpl.
  destruct (CConfig.Rotating_Frame config) eqn:Hrot; bsimpl;
    match goal with |- context [solver_SetResidual config (s, ?solver2)] =>
      destruct (Upwind_Residual_scatter_mesh config (CEdge.GetNode 0 e) (CEdge.GetNode 1 e)
                  s solver2) as (s' & E & Hs' & Hoff);
        [by eapply lookup_lt_Some | by eapply lookup_lt_Some |] end;
    exists s'; eexists; (split; [exact E |]);
    eexists; (split; [reflexivity |]); (split; [reflexivity |]);
    (split; [| split; [exact Hs' | exact Hoff]]);
    exists fi, fj, ni0, nj0; cbn; rewrite ?HSi, ?HSj;
    repeat (split; [done |]).
  - intros _. by exists gi, gj.
  - intros Hrot'. congruence.
Qed.

Lemma sample_edges_in_mesh (n : nat) :
  edges_in_mesh sample_geometry sample_flow (sample_solver n).
Proof.
  intros e iPoint He HiPoint. apply list_elem_of_In in He. simpl in He.
  destruct He as [<-|[]]. unfold CEdge.GetNode in HiPoint. simpl in HiPoint |- *.
  destruct HiPoint as [->| ->]; lia.
Defined.

(** X17. The first-order Upwind_Residual of both models on a whole mesh. When the
    convective scheme is not SCALAR_UPWIND_2ND and every edge joins two
    points that exist in the geometry and in both solvers (the two points of
    an edge may coincide, and edges may repeat), the loop ends without a
    fault and returns the flow solver as given. The kernel is called once
    for each edge, in the order of the edges, on the normal of the edge and
    the flow and turbulent states of its two points as they were before the
    loop (and the rotation velocities of the two points when the frame
    rotates). Of the solver only the nodes, the Jacobian and the scratch
    arrays Residual, Jacobian_i and Jacobian_j change; a node changes at
    most in its residual; the Jacobian keeps its allocated entries; a point
    on no edge keeps its node and its row of the Jacobian. *)
Theorem Upwind_Residual_mesh GG LS Lim (geometry : CGeometry.t) (flow : CFlowSolution)
    (config : CConfig.t) (s : CTurbSolution) (solver : CNumerics.t) :
  CConfig.Kind_Upwind_Turb config <> SCALAR_UPWIND_2ND ->
  edges_in_mesh geometry flow s ->
  exists s' solver',
    Upwind_Residual GG LS Lim geometry flow config (s, solver) = Ok (flow, (s', solver')) /\
    edge_loop_done (upwind_inputs geometry flow config s) (CGeometry.edge geometry)
      s solver s' solver'.
Proof.
  intros Hfirst Hmesh. rewrite Upwind_Residual_loop.
  rewrite bool_decide_eq_false_2 by done. cbn [andb]. cbv zeta.
  destruct (edge_loop_mesh
              (Upwind_Residual_edge geometry flow config false (CConfig.Rotating_Frame config))
              (upwind_inputs geometry flow config s) (CGeometry.edge geometry) s solver)
    as (s' & solver' & E & H).
  - intros e s1 solver1 He Hs1. by apply Upwind_Residual_edge_mesh.
  - exists s', solver'. by rewrite E.
Qed.

Lemma Upwind_Residual_mesh_witness :
  exists s' solver',
    Upwind_Residual (fun _ f => f) (fun _ _ f => f) (fun _ _ s => s)
      sample_geometry sample_flow (sample_config 0 EULER_IMPLICIT SA false)
      (sample_solver 1, sample_numerics) = Ok (sample_flow, (s', solver')) /\
    edge_loop_done
      (upwind_inputs sample_geometry sample_flow (sample_config 0 EULER_IMPLICIT SA false)
         (sample_solver 1))
      (CGeometry.edge sample_geometry) (sample_solver 1) sample_numerics s' solver'.
Proof.
  apply (Upwind_Residual_mesh (fun _ f => f) (fun _ _ f => f) (fun _ _ s => s)
           sample_geometry sample_flow (sample_config 0 EULER_IMPLICIT SA false)
           (sample_solver 1) sample_numerics).
  - discriminate.
  - apply sample_edges_in_mesh.
Defined.

(** X18. Viscous_Residual of both models on a whole mesh. When the step is taken
    (the Runge-Kutta coefficient is not zero, or the scheme is implicit)
    and every edge joins two points that exist in the geometry and in both
    solvers, the loop ends without a fault. CTurbSASolution returns the flow
    solver with its gradients recomputed when the model is SA_COMP, and as
    given otherwise; CTurbSSTSolution returns it as given. The kernel is
    called once for each edge, in the order of the edges, on the
    coordinates, the normal, the flow states, the laminar and eddy
    viscosities, and the turbulent states and gradients of the two points as
    they were before the loop; on top, CTurbSASolution hands the gradients
    of the flow states when the model is SA_COMP, and CTurbSSTSolution the
    blending function of the first point. Of the solver only the nodes, the
    Jacobian and the scratch arrays Residual, Jacobian_i and Jacobian_j
    change; a node changes at most in its residual; the Jacobian keeps its
    allocated entries; a point on no edge keeps its node and its row of the
    Jacobian. *)
Theorem Viscous_Residual_mesh GG LS (geometry : CGeometry.t) (flow : CFlowSolution)
    (config : CConfig.t) (iRKStep : nat) (s : CTurbSolution) (solver : CNumerics.t) :
  viscous_enabled config iRKStep = true ->
  (let flow' := if decide (CConfig.Kind_Turb_Model config = SA_COMP)
                then flow_gradient GG LS geometry config flow else flow in
   edges_in_mesh geometry flow' s ->
   exists s' solver',
     SA_Viscous_Residual GG LS geometry flow config iRKStep (s, solver)
     = Ok (flow', (s', solver')) /\
     edge_loop_done (viscous_inputs (SA_viscous_inputs config) geometry flow' s)
       (CGeometry.edge geometry) s solver s' solver')
  /\ (edges_in_mesh geometry flow s ->
      exists s' solver',
        SST_Viscous_Residual geometry flow config iRKStep (s, solver)
        = Ok (flow, (s', solver')) /\
        edge_loop_done (viscous_inputs SST_viscous_inputs geometry flow s)
          (CGeometry.edge geometry) s solver s' solver').
Proof.
  intros Hstep. split.
  - intros flow' Hmesh. rewrite SA_Viscous_Residual_loop by done. cbv zeta. fold flow'.
    destruct (edge_loop_mesh (SA_Viscous_Residual_edge geometry flow' config)
                (viscous_inputs (SA_viscous_inputs config) geometry flow' s)
                (CGeometry.edge geometry) s solver) as (s' & solver' & E & H).
    + intros e s1 solver1 He Hs1. by apply SA_Viscous_Residual_edge_mesh.
    + exists s', solver'. by rewrite E.
  - intros Hmesh. rewrite SST_Viscous_Residual_loop by done.
    destruct (edge_loop_mesh (SST_Viscous_Residual_edge geometry flow config)
                (viscous_inputs SST_viscous_inputs geometry flow s)
                (CGeometry.edge geometry) s solver) as (s' & solver' & E & H).
    + intros e s1 solver1 He Hs1. by apply SST_Viscous_Residual_edge_mesh.
    + exists s', solver'. by rewrite E.
Qed.

Lemma Viscous_Residual_mesh_witness :
  exists s' solver',
    SST_Viscous_Residual sample_geometry sample_flow (sample_config 0 EULER_IMPLICIT SST false) 0
      (sample_solver 2, sample_numerics) = Ok (sample_flow, (s', solver')) /\
    edge_loop_done (viscous_inputs SST_viscous_inputs sample_geometry sample_flow (sample_solver 2))
      (CGeometry.edge sample_geometry) (sample_solver 2) sample_numerics s' solver'.
Proof.
  apply (proj2 (Viscous_Residual_mesh (fun _ f => f) (fun _ _ f => f)
                  sample_geometry sample_flow (sample_config 0 EULER_IMPLICIT SST false) 0
                  (sample_solver 2) sample_numerics eq_refl)).
  apply sample_edges_in_mesh.
Defined.

(** ** The flow data at a far-field marker *)

Lemma copy_FlowSolution_i_lookup (flow : CFlowSolution) (iPoint : nat) (s : CTurbSolution)
    (fnd : CVariable.t) :
  flow_node flow !! iPoint = Some fnd ->
  flow_nVar flow <= length (CVariable.Solution fnd) ->
  flow_nVar flow <= length (FlowSolution_i s) ->
  exists a, copy_FlowSolution_i flow iPoint s = Ok (with_FlowSolution_i a s) /\
    length a = length (FlowSolution_i s) /\
    forall iVar, iVar < flow_nVar flow -> a !! iVar = CVariable.Solution fnd !! iVar.
Proof.
  intros Hnd Hsrc Hdst. unfold copy_FlowSolution_i.
  match goal with |- context [for_ ?n ?b s] =>
    destruct (for_inv (fun k s' => exists a, s' = with_FlowSolution_i a s /\
                                   length a = length (FlowSolution_i s) /\
                                   forall iVar, iVar < k ->
                                     a !! iVar = CVariable.Solution fnd !! iVar)
      n b s) as (s' & -> & a & -> & Ha & Hlook) end.
  - exists (FlowSolution_i s). split; [by destruct s |]. split; [done |]. intros; lia.
  - intros k s1 Hk (a & -> & Ha & Hlook). unfold CVariable.GetSolution. solver_simpl.
    rewrite (at_Some _ _ _ _ Hnd). bsimpl.
    destruct (at_lt "Solution" (CVariable.Solution fnd) k) as (x & Hx & ->); [lia |]. bsimpl.
    rewrite store_lt by lia. bsimpl.
    eexists. split; [done |]. eexists. split; [done |].
    split; [by rewrite length_insert |].
    intros iVar HiVar. destruct (decide (iVar = k)) as [->|Hne].
    + rewrite list_lookup_insert_eq by lia. done.
    + rewrite list_lookup_insert_ne by done. apply Hlook. lia.
  - by exists a.
Qed.

Lemma freestream_FlowSolution_j_lookup (flow : CFlowSolution) (s : CTurbSolution) :
  nDim s + 2 <= length (FlowSolution_j s) ->
  nDim s <= length (Density_Velocity_Inf flow) ->
  exists a, freestream_FlowSolution_j flow s = Ok (with_FlowSolution_j a s) /\
    length a = length (FlowSolution_j s) /\
    a !! 0 = Some (Density_Inf flow) /\
    a !! (nDim s + 1) = Some (Density_Energy_Inf flow) /\
    forall iDim, iDim < nDim s -> a !! (iDim + 1) = Density_Velocity_Inf flow !! iDim.
Proof.
  intros Hj Hv. unfold freestream_FlowSolution_j.
  rewrite store_lt by lia. bsimpl.
  rewrite store_lt by (rewrite length_insert; lia). bsimpl.
  match goal with |- context [for_ ?n ?b ?s0] =>
    destruct (for_inv (fun k s' => exists a, s' = with_FlowSolution_j a s /\
                                   length a = length (FlowSolution_j s) /\
                                   a !! 0 = Some (Density_Inf flow) /\
                                   a !! (nDim s + 1) = Some (Density_Energy_Inf flow) /\
                                   forall iDim, iDim < k ->
                                     a !! (iDim + 1) = Density_Velocity_Inf flow !! iDim)
      n b s0) as (s' & -> & a & -> & Ha & H0 & HE & Hlook) end.
  - eexists. split; [done |]. split; [by rewrite !length_insert |].
    split; [rewrite list_lookup_insert_ne by lia; apply list_lookup_insert_eq; lia |].
    split; [apply list_lookup_insert_eq; rewrite length_insert; lia |]. intros; lia.
  - intros k s1 Hk (a & -> & Ha & H0 & HE & Hlook). solver_simpl.
    cbn [nDim with_FlowSolution_j] in Hk.
    destruct (at_lt "Density_Velocity_Inf" (Density_Velocity_Inf flow) k) as (x & Hx & ->);
      [lia |]. bsimpl.
    rewrite store_lt by lia. bsimpl.
    eexists. split; [done |]. eexists. split; [done |].
    split; [by rewrite length_insert |].
    split; [by rewrite list_lookup_insert_ne by lia |].
    split; [by rewrite list_lookup_insert_ne by lia |].
    intros iDim HiDim. destruct (decide (iDim = k)) as [->|Hne].
    + rewrite list_lookup_insert_eq by lia. done.
    + rewrite list_lookup_insert_ne by lia. apply Hlook. lia.
  - exists a. solver_simpl. done.
Qed.

Lemma outward_Normal_lookup (s : CTurbSolution) (vert : CVertex.t) (Normal : list float) :
  nDim s <= length (CVertex.Normal vert) -> nDim s <= length Normal ->
  exists Normal', outward_Normal s vert Normal = Ok Normal' /\
    length Normal' = length Normal /\
    forall iDim, iDim < nDim s ->
      Normal' !! iDim = (fun x => (- x)%float) <$> CVertex.Normal vert !! iDim.
Proof.
  intros Hv Hn. unfold outward_Normal.
  match goal with |- context [for_ ?n ?b Normal] =>
    destruct (for_inv (fun k N => length N = length Normal /\
                         forall iDim, iDim < k -> N !! iDim = CVertex.Normal vert !! iDim)
                n b Normal) as (N1 & -> & HN1 & Hcopy) end.
  - split; [done |]. intros; lia.
  - intros k N Hk [HN Hlook].
    destruct (at_lt "vertex->Normal" (CVertex.Normal vert) k) as (x & Hx & ->); [lia |]. bsimpl.
    rewrite store_lt by lia. eexists. split; [done |].
    split; [by rewrite length_insert |].
    intros iDim HiDim. destruct (decide (iDim = k)) as [->|Hne].
    + rewrite list_lookup_insert_eq by lia. done.
    + rewrite list_lookup_insert_ne by done. apply Hlook. lia.
  - bsimpl.
    match goal with |- context [for_ ?n ?b N1] =>
      destruct (for_inv (fun k N => length N = length Normal /\
                  (forall iDim, iDim < k ->
                     N !! iDim = (fun x => (- x)%float) <$> CVertex.Normal vert !! iDim) /\
                  (forall iDim, k <= iDim -> iDim < nDim s ->
                     N !! iDim = CVertex.Normal vert !! iDim))
                  n b N1) as (N2 & -> & HN2 & Hneg & _) end.
    + split; [done |]. split; [intros; lia |]. intros iDim _ HiDim. by apply Hcopy.
    + intros k N Hk (HN & Hneg & Hrest).
      destruct (at_lt "Normal" N k) as (x & Hx & ->); [lia |]. bsimpl.
      rewrite store_lt by lia. eexists. split; [done |].
      split; [by rewrite length_insert |]. split.
      * intros iDim HiDim. destruct (decide (iDim = k)) as [->|Hne].
        -- rewrite list_lookup_insert_eq by lia.
           rewrite <- (Hrest k) by lia. by rewrite Hx.
        -- rewrite list_lookup_insert_ne by done. apply Hneg. lia.
      * intros iDim Hge HiDim. rewrite list_lookup_insert_ne by lia. apply Hrest; lia.
    + by exists N2.
Qed.

Lemma boundary_scatter_untouched (config : CConfig.t) (p : nat) (s2 s3 : CTurbSolution)
    (solver2 solver3 : CNumerics.t) :
  boundary_scatter config p (s2, solver2) = Ok (s3, solver3) ->
  forall q, q <> p -> point_untouched s2 s3 q.
Proof.
  unfold boundary_scatter, solver_SetResidual_i, CNumerics.SetResidual.
  destruct (CNumerics.compute solver2 (CNumerics.current solver2) config false)
    as [[R Ji] Jj].
  unfold node_AddResidual, get_node. solver_simpl.
  destruct (at_ "node" (node s2) p) as [nd|]; [| done]. bsimpl.
  intros [= <- _] q Hq. split.
  - solver_simpl. by rewrite list_lookup_insert_ne.
  - intros c. solver_simpl. block_lookups.
Qed.

Lemma point_untouched_trans (s s1 s2 : CTurbSolution) (p : nat) :
  point_untouched s s1 p -> point_untouched s1 s2 p -> point_untouched s s2 p.
Proof.
  intros [Hn1 HJ1] [Hn2 HJ2]. split; [congruence |]. intros c. by rewrite HJ2.
Qed.

Lemma SA_BC_Far_Field_vertex_flow (geometry : CGeometry.t) (flow : CFlowSolution)
    (config : CConfig.t) (vs : list CVertex.t) (v : CVertex.t) (N : list float)
    (s s1 : CTurbSolution) (solver1 : CNumerics.t) :
  boundary_ready geometry flow config s vs -> v ∈ vs ->
  bc_shape s s1 -> nDim s <= length N -> 0 < length (Solution_j s) ->
  exists N' s2 solver2 x,
    SA_BC_Far_Field_vertex geometry flow config (CConfig.Rotating_Frame config) v
      (N, (s1, solver1)) = Ok (N', (s2, solver2)) /\
    length N' = length N /\ bc_shape s s2 /\
    CNumerics.calls solver2 = CNumerics.calls solver1 ++ [x] /\
    far_field_inputs flow s v x /\
    forall p, p <> CVertex.Node v -> point_untouched s1 s2 p.
Proof.
  intros (HSi & HFi & HFj & HDV & Hvs) Hv Hshape HN HSj.
  destruct (Hvs v Hv) as (nd & fnd & Hnd & Hfnd & HS & HfS & HvN & Hrot).
  unfold SA_BC_Far_Field_vertex.
  destruct (copy_FlowSolution_i_lookup flow (CVertex.Node v) s1 fnd Hfnd HfS)
    as (a & -> & Ha & Hla).
  { destruct Hshape as (? & ? & ? & ? & ? & ? & ?). lia. }
  bsimpl.
  destruct (freestream_FlowSolution_j_lookup flow (with_FlowSolution_i a s1))
    as (b & -> & Hb & Hb0 & HbE & Hlb).
  { solver_simpl. destruct Hshape as (? & ? & ? & ? & ? & ? & ? & ?). lia. }
  { solver_simpl. destruct Hshape as (? & ? & ?). lia. }
  bsimpl. solver_simpl in Hb. solver_simpl in HbE. solver_simpl in Hlb.
  set (s1b := with_FlowSolution_j b (with_FlowSolution_i a s1)).
  assert (Hshape_b : bc_shape s s1b) by (subst s1b; bc_shape_step Hshape).
  match goal with |- context [(if CConfig.Rotating_Frame config then ?t else ?e) ≫= _] =>
    assert (exists solver', (if CConfig.Rotating_Frame config then t else e) = Ok solver' /\
              CNumerics.calls solver' = CNumerics.calls solver1) as (solver' & -> & Hcalls)
  end.
  { destruct (CConfig.Rotating_Frame config).
    - destruct (at_lt "geometry->node" (CGeometry.node geometry) (CVertex.Node v))
        as (gp & _ & ->); [by apply Hrot |]. bsimpl. eexists. by split.
    - eexists. by split. }
  bsimpl.
  rewrite (copy_Solution_i_interior s s1b v nd Hshape_b Hnd HS HSi). subst s1b.
  bsimpl. solver_simpl.
  rewrite (store_lt "Solution_j")
    by (destruct Hshape as (? & ? & ? & ? & ? & ?); lia).
  bsimpl. solver_simpl.
  destruct Hshape as (HnV1 & HnD1 & Hnu1 & HlSi1 & HlSj1 & HlFi1 & HlFj1 & Hsol1).
  assert (Hint : length (interior_state s v) = length (Solution_i s))
    by (unfold interior_state; rewrite Hnd; simpl; lia).
  match goal with |- context [outward_Normal ?s0 v N] =>
    destruct (outward_Normal_lookup s0 v N) as (N' & -> & HN' & HlN);
      [solver_simpl; lia | solver_simpl; lia |]
  end.
  bsimpl. solver_simpl in HlN.
  match goal with |- context [boundary_scatter config _ (?s0, ?k0)] =>
    destruct (boundary_scatter_shape config (CVertex.Node v) s s0 k0 nd)
      as (s3 & solver3 & E3 & Hs3 & HSj3 & Hc3 & Hk3)
  end.
  { unfold bc_shape. solver_simpl. rewrite ?length_insert.
    repeat split; first [congruence | done | lia]. }
  { done. }
  pose proof (boundary_scatter_untouched _ _ _ _ _ _ E3) as Hoff.
  rewrite E3. bsimpl. eexists. eexists. eexists. eexists.
  split; [done |]. split; [done |]. split; [done |].
  split; [rewrite Hc3; simpl; by rewrite Hcalls |]. split; [| exact Hoff].
  unfold far_field_inputs. cbn. rewrite Hfnd. cbn. rewrite <- HnD1.
  split; [done |]. split; [done |]. split; [done |]. split; [done |]. done.
Qed.

Lemma SST_BC_Far_Field_vertex_flow (geometry : CGeometry.t) (flow : CFlowSolution)
    (config : CConfig.t) (vs : list CVertex.t) (v : CVertex.t) (N : list float)
    (s s1 : CTurbSolution) (solver1 : CNumerics.t) :
  boundary_ready geometry flow config s vs -> v ∈ vs ->
  bc_shape s s1 -> nDim s <= length N ->
  exists N' s2 solver2 x,
    SST_BC_Far_Field_vertex flow config v (N, (s1, solver1)) = Ok (N', (s2, solver2)) /\
    length N' = length N /\ bc_shape s s2 /\
    CNumerics.calls solver2 = CNumerics.calls solver1 ++ [x] /\
    far_field_inputs flow s v x /\
    forall p, p <> CVertex.Node v -> point_untouched s1 s2 p.
Proof.
  intros (HSi & HFi & HFj & HDV & Hvs) Hv Hshape HN.
  destruct (Hvs v Hv) as (nd & fnd & Hnd & Hfnd & HS & HfS & HvN & Hrot).
  unfold SST_BC_Far_Field_vertex.
  destruct (copy_FlowSolution_i_lookup flow (CVertex.Node v) s1 fnd Hfnd HfS)
    as (a & -> & Ha & Hla).
  { destruct Hshape as (? & ? & ? & ? & ? & ? & ?). lia. }
  bsimpl.
  destruct (freestream_FlowSolution_j_lookup flow (with_FlowSolution_i a s1))
    as (b & -> & Hb & Hb0 & HbE & Hlb).
  { solver_simpl. destruct Hshape as (? & ? & ? & ? & ? & ? & ? & ?). lia. }
  { solver_simpl. destruct Hshape as (? & ? & ?). lia. }
  bsimpl. solver_simpl in Hb. solver_simpl in HbE. solver_simpl in Hlb.
  set (s1b := with_FlowSolution_j b (with_FlowSolution_i a s1)).
  assert (Hshape_b : bc_shape s s1b) by (subst s1b; bc_shape_step Hshape).
  rewrite (copy_Solution_i_interior s s1b v nd Hshape_b Hnd HS HSi). subst s1b.
  bsimpl. solver_simpl.
  destruct Hshape as (HnV1 & HnD1 & Hnu1 & HlSi1 & HlSj1 & HlFi1 & HlFj1 & Hsol1).
  assert (Hint : length (interior_state s v) = length (Solution_i s))
    by (unfold interior_state; rewrite Hnd; simpl; lia).
  match goal with |- context [outward_Normal ?s0 v N] =>
    destruct (outward_Normal_lookup s0 v N) as (N' & -> & HN' & HlN);
      [solver_simpl; lia | solver_simpl; lia |]
  end.
  bsimpl. solver_simpl in HlN.
  match goal with |- context [boundary_scatter config _ (?s0, ?k0)] =>
    destruct (boundary_scatter_shape config (CVertex.Node v) s s0 k0 nd)
      as (s3 & solver3 & E3 & Hs3 & HSj3 & Hc3 & Hk3)
  end.
  { unfold bc_shape. solver_simpl. rewrite ?length_insert.
    repeat split; first [congruence | done | lia]. }
  { done. }
  pose proof (boundary_scatter_untouched _ _ _ _ _ _ E3) as Hoff.
  rewrite E3. bsimpl. eexists. eexists. eexists. eexists.
  split; [done |]. split; [done |]. split; [done |].
  split; [by rewrite Hc3 |]. split; [| exact Hoff].
  unfold far_field_inputs. cbn. rewrite Hfnd. cbn. rewrite <- HnD1.
  split; [done |]. split; [done |]. split; [done |]. split; [done |]. done.
Qed.

Lemma point_untouched_refl (s : CTurbSolution) (p : nat) : point_untouched s s p.
Proof. by split. Qed.

(** A loop over the vertices of a marker whose rounds keep the shape of the
    solver, call the kernel once on the data [P] of the vertex and touch the
    point of the vertex only. *)
Lemma marker_loop {X} (body : CVertex.t -> X * (CTurbSolution * CNumerics.t) ->
                              result (X * (CTurbSolution * CNumerics.t)))
    (I : X -> Prop) (P : CVertex.t -> CNumerics.inputs -> Prop) (vs : list CVertex.t)
    (x0 : X) (s : CTurbSolution) (solver : CNumerics.t) :
  I x0 ->
  (forall v x s1 solver1, v ∈ vs -> I x -> bc_shape s s1 ->
     exists x' s2 solver2 inp,
       body v (x, (s1, solver1)) = Ok (x', (s2, solver2)) /\ I x' /\ bc_shape s s2 /\
       CNumerics.calls solver2 = CNumerics.calls solver1 ++ [inp] /\ P v inp /\
       forall p, p <> CVertex.Node v -> point_untouched s1 s2 p) ->
  exists x' s' solver',
    foldM body vs (x0, (s, solver)) = Ok (x', (s', solver')) /\
    marker_loop_done P vs s solver s' solver'.
Proof.
  intros HI Hbody.
  destruct (foldM_inv (fun pre (st : X * (CTurbSolution * CNumerics.t)) =>
      I st.1 /\ bc_shape s st.2.1 /\
      (exists new, CNumerics.calls st.2.2 = (CNumerics.calls solver ++ new)%list /\
         Forall2 P pre new) /\
      forall p, (forall v, v ∈ pre -> CVertex.Node v <> p) -> point_untouched s st.2.1 p)
    body vs (x0, (s, solver))) as ([x' [s' solver']] & E & _ & Hshape & Hnew & Hoff).
  - cbn [fst snd]. split; [done |]. split; [apply bc_shape_refl |]. split.
    + exists []. split; [by rewrite app_nil_r | constructor].
    + intros p _. apply point_untouched_refl.
  - intros pre v post [x [s1 solver1]] El (Hx & Hshape & (new & Hl1 & Hnew) & Hoff1).
    cbn [fst snd] in *.
    destruct (Hbody v x s1 solver1) as (x' & s2 & solver2 & inp & E2 & Hx' & Hs2 & Hl2 & HP & Hoff2);
      [rewrite El; apply elem_of_app; right; apply elem_of_cons; by left | done | done |].
    exists (x', (s2, solver2)). split; [done |]. cbn [fst snd].
    split; [done |]. split; [done |]. split.
    + exists (new ++ [inp]). split; [by rewrite Hl2, Hl1, app_assoc |].
      apply Forall2_app; [done | by constructor].
    + intros p Hp. apply (point_untouched_trans s s1 s2).
      * apply Hoff1. intros v' Hv'. apply Hp. apply elem_of_app. by left.
      * apply Hoff2. intros ->.
        apply (Hp v); [apply elem_of_app; right; apply elem_of_cons; by left | done].
  - exists x', s', solver'. split; [done |]. cbn [fst snd] in *.
    split; [done |]. split; [| done].
    by destruct Hshape as (_ & _ & _ & _ & _ & _ & _ & Hsol).
Qed.

(** X19. The flow data at a far-field marker. On a marker whose vertex points
    exist in both solvers and with arrays of the sizes the constructors
    give them, BC_Far_Field of both models ends without a fault (for
    CTurbSASolution the scratch array Solution_j must have a component 0).
    The kernel is called once for each vertex, in the order of the vertices:
    its interior flow state is the conservative state of the vertex point,
    its exterior flow state is the free stream of the flow solver (density
    at the component 0, Density_Velocity_Inf at the components 1..nDim,
    Density_Energy_Inf at the component nDim+1), and its normal is the
    normal of the vertex with the sign of every component changed. No point
    changes its solution, and a point that is not on the marker keeps its
    node and its row of the Jacobian. *)
Theorem BC_Far_Field_flow_state uninit (geometry : CGeometry.t) (flow : CFlowSolution)
    (config : CConfig.t) (val_marker : nat) (vs : list CVertex.t)
    (s : CTurbSolution) (solver : CNumerics.t) :
  CGeometry.vertex geometry !! val_marker = Some vs ->
  boundary_ready geometry flow config s vs ->
  (0 < length (Solution_j s) ->
   exists s' solver',
     SA_BC_Far_Field uninit geometry flow config val_marker (s, solver) = Ok (s', solver') /\
     marker_loop_done (far_field_inputs flow s) vs s solver s' solver')
  /\ (exists s' solver',
        SST_BC_Far_Field uninit geometry flow config val_marker (s, solver) = Ok (s', solver') /\
        marker_loop_done (far_field_inputs flow s) vs s solver s' solver').
Proof.
  intros Hvs Hready. split.
  - intros HSj. unfold SA_BC_Far_Field, marker_vertices.
    rewrite (at_Some _ _ _ _ Hvs). bsimpl. cbn [fst snd]. rewrite for_at_foldM.
    destruct (marker_loop
                (SA_BC_Far_Field_vertex geometry flow config (CConfig.Rotating_Frame config))
                (fun N => length N = nDim s) (far_field_inputs flow s) vs
                (new_array uninit (nDim s)) s solver) as (N' & s' & solver' & -> & H).
    + apply length_replicate.
    + intros v N s1 solver1 Hv HN Hshape.
      destruct (SA_BC_Far_Field_vertex_flow geometry flow config vs v N s s1 solver1)
        as (N2 & s2 & solver2 & x & E & HN2 & Hs2 & Hc2 & Hx & Hoff);
        [done | done | done | lia | done |].
      exists N2, s2, solver2, x. split; [done |]. split; [lia |]. done.
    + bsimpl. cbn [snd]. by exists s', solver'.
  - unfold SST_BC_Far_Field, marker_vertices.
    rewrite (at_Some _ _ _ _ Hvs). bsimpl. cbn [fst snd]. rewrite for_at_foldM.
    destruct (marker_loop (SST_BC_Far_Field_vertex flow config)
                (fun N => length N = nDim s) (far_field_inputs flow s) vs
                (new_array uninit (nDim s)) s solver) as (N' & s' & solver' & -> & H).
    + apply length_replicate.
    + intros v N s1 solver1 Hv HN Hshape.
      destruct (SST_BC_Far_Field_vertex_flow geometry flow config vs v N s s1 solver1)
        as (N2 & s2 & solver2 & x & E & HN2 & Hs2 & Hc2 & Hx & Hoff);
        [done | done | done | lia |].
      exists N2, s2, solver2, x. split; [done |]. split; [lia |]. done.
    + bsimpl. cbn [snd]. by exists s', solver'.
Qed.

Lemma BC_Far_Field_flow_state_witness :
  exists s' solver',
    SST_BC_Far_Field 0%float sample_geometry sample_flow
      (sample_config 0 EULER_IMPLICIT SST false) 0 (sample_solver 2, sample_numerics)
    = Ok (s', solver') /\
    marker_loop_done (far_field_inputs sample_flow (sample_solver 2))
      [CVertex.mk 0 [-1; 0]%float; CVertex.mk 1 [1; 0]%float]
      (sample_solver 2) sample_numerics s' solver'.
Proof.
  apply (proj2 (BC_Far_Field_flow_state 0%float sample_geometry sample_flow
                  (sample_config 0 EULER_IMPLICIT SST false) 0
                  [CVertex.mk 0 [-1; 0]%float; CVertex.mk 1 [1; 0]%float]
                  (sample_solver 2) sample_numerics eq_refl (sample_boundary_ready 2))).
Defined.
